(** * PyRate [core/aps.py]: spatio-temporal APS filter — model and properties

    The model follows [src/pyrate/core/aps.py] function by function.

    Numbers.  A NumPy floating-point cell is modelled by [npfloat]: an exact
    real, one of the two infinities, or NaN.  The special values follow
    IEEE-754 as NumPy exposes them (NaN is absorbing, [inf - inf], [0 * inf]
    and [0 / 0] are NaN, [x / 0] is an infinity for [x <> 0]).  Rounding,
    overflow, underflow, the sign of zero and the precision of an array
    (single or double) are not modelled: finite arithmetic is the
    arithmetic of the reals, and what is proved of finite values is proved
    of this exact arithmetic.

    Arrays.  A 1-D array is a list, a raster (rows x cols) a list of rows and
    a time-series cube (rows x cols x epochs) a list of rows of per-pixel
    epoch vectors, so that [tsincr[i, j, k]] is [cube !! i !! j !! k].

    Errors.  Python exceptions are values of [exn] carried by [result]. *)

From Stdlib Require Import Reals Lra Lia ZArith.
From stdpp Require Import base option list gmap strings sorting.

(** ** Exceptions and the error monad *)

Inductive exn : Set :=
  | IndexError
  | ValueError
  | KeyError
  | TypeError
  | FileNotFoundError
  | IfgException
  | MissingScratchDataError
  | ShapeMismatchError.

Inductive result (A : Type) : Type :=
  | Ok (a : A)
  | Raise (e : exn).
Arguments Ok {A} a.
Arguments Raise {A} e.

#[global] Instance result_ret : MRet result := fun A a => Ok a.
#[global] Instance result_bind : MBind result := fun A B f r =>
  match r with
  | Ok a => f a
  | Raise e => Raise e
  end.
#[global] Instance result_fmap : FMap result := fun A B f r =>
  match r with
  | Ok a => Ok (f a)
  | Raise e => Raise e
  end.

Definition is_Ok {A} (r : result A) : bool :=
  match r with
  | Ok _ => true
  | Raise _ => false
  end.

(** [v[i]] with Python's bounds check (non-negative indices only). *)
Definition getitem {A} (v : list A) (i : nat) : result A :=
  match v !! i with
  | Some x => Ok x
  | None => Raise IndexError
  end.

(** [v[i] = x] with Python's bounds check. *)
Definition setitem {A} (v : list A) (i : nat) (x : A) : result (list A) :=
  if decide (i < length v) then Ok (<[i:=x]> v) else Raise IndexError.

(** [for i in l: s = body(i, s)], stopping at the first exception. *)
Fixpoint for_each {I St : Type} (l : list I) (body : I -> St -> result St)
    (s : St) : result St :=
  match l with
  | [] => Ok s
  | i :: l' => s' ← body i s; for_each l' body s'
  end.

(** [range(n)] *)
Definition range (n : nat) : list nat := seq 0 n.

(** ** Floating-point cells *)

Module NP.

Local Open Scope R_scope.

Inductive npfloat : Type :=
  | Fin (r : R)
  | PInf
  | NInf
  | NaN.

Definition isnan (x : npfloat) : bool :=
  match x with
  | NaN => true
  | _ => false
  end.

Definition isfinite (x : npfloat) : bool :=
  match x with
  | Fin _ => true
  | _ => false
  end.

Definition inf (positive : bool) : npfloat := if positive then PInf else NInf.

Definition fneg (x : npfloat) : npfloat :=
  match x with
  | Fin r => Fin (- r)
  | PInf => NInf
  | NInf => PInf
  | NaN => NaN
  end.

Definition fadd (x y : npfloat) : npfloat :=
  match x, y with
  | NaN, _ | _, NaN => NaN
  | Fin a, Fin b => Fin (a + b)
  | PInf, NInf | NInf, PInf => NaN
  | PInf, _ | _, PInf => PInf
  | NInf, _ | _, NInf => NInf
  end.

Definition fsub (x y : npfloat) : npfloat := fadd x (fneg y).

(** An infinity times a finite real: NaN at zero, otherwise the sign rule. *)
Definition inf_times (positive : bool) (r : R) : npfloat :=
  if Req_dec_T r 0 then NaN
  else if Rlt_dec 0 r then inf positive else inf (negb positive).

Definition fmul (x y : npfloat) : npfloat :=
  match x, y with
  | NaN, _ | _, NaN => NaN
  | Fin a, Fin b => Fin (a * b)
  | PInf, Fin b | Fin b, PInf => inf_times true b
  | NInf, Fin b | Fin b, NInf => inf_times false b
  | PInf, PInf | NInf, NInf => PInf
  | PInf, NInf | NInf, PInf => NInf
  end.

Definition fdiv (x y : npfloat) : npfloat :=
  match x, y with
  | NaN, _ | _, NaN => NaN
  | Fin a, Fin b =>
      if Req_dec_T b 0 then
        if Req_dec_T a 0 then NaN else if Rlt_dec 0 a then PInf else NInf
      else Fin (a / b)
  | Fin _, (PInf | NInf) => Fin 0
  | PInf, Fin b => if Rlt_dec b 0 then NInf else PInf
  | NInf, Fin b => if Rlt_dec b 0 then PInf else NInf
  | (PInf | NInf), (PInf | NInf) => NaN
  end.

Definition fabs (x : npfloat) : npfloat :=
  match x with
  | Fin r => Fin (Rabs r)
  | PInf | NInf => PInf
  | NaN => NaN
  end.

(** [np.exp] *)
Definition fexp (x : npfloat) : npfloat :=
  match x with
  | Fin r => Fin (exp r)
  | PInf => PInf
  | NInf => Fin 0
  | NaN => NaN
  end.

(** [np.sqrt] *)
Definition fsqrt (x : npfloat) : npfloat :=
  match x with
  | Fin r => if Rlt_dec r 0 then NaN else Fin (sqrt r)
  | PInf => PInf
  | NInf | NaN => NaN
  end.

(** [x < y]; every comparison with NaN is false. *)
Definition flt (x y : npfloat) : bool :=
  match x, y with
  | NaN, _ | _, NaN => false
  | Fin a, Fin b => if Rlt_dec a b then true else false
  | _, NInf => false
  | NInf, _ => true
  | PInf, _ => false
  | Fin _, PInf => true
  end.

(** [x == y]; NaN is not equal to itself. *)
Definition feq (x y : npfloat) : bool :=
  match x, y with
  | Fin a, Fin b => if Req_dec_T a b then true else false
  | PInf, PInf | NInf, NInf => true
  | _, _ => false
  end.

(** [x ** n] for a non-negative integer exponent, as C's [pow]: the empty
    product is 1 even for NaN. *)
Fixpoint fpow_nat (x : npfloat) (n : nat) : npfloat :=
  match n with
  | O => Fin 1
  | S n' => fmul x (fpow_nat x n')
  end.

(** [x ** z] for an integer exponent. *)
Definition fpow (x : npfloat) (z : Z) : npfloat :=
  if (0 <=? z)%Z then fpow_nat x (Z.to_nat z)
  else fdiv (Fin 1) (fpow_nat x (Z.to_nat (- z))).

(** A Python [int] used where a float is expected. *)
Definition of_nat (n : nat) : npfloat := Fin (INR n).

(** ** 1-D arrays *)

Abbreviation vec := (list npfloat).

(** [np.sum(v)]; the sum of the empty array is [0.0]. *)
Definition np_sum (v : vec) : npfloat := foldr fadd (Fin 0) v.

(** [np.nonzero(mask)[0]]: the indices of the true cells, ascending. *)
Fixpoint nonzero_from (i : nat) (mask : list bool) : list nat :=
  match mask with
  | [] => []
  | b :: mask' => (if b then [i] else []) ++ nonzero_from (S i) mask'
  end.
Definition nonzero (mask : list bool) : list nat := nonzero_from 0 mask.

(** [v[sel]] for an integer index array [sel]. *)
Definition np_take {A} (v : list A) (sel : list nat) : result (list A) :=
  mapM (getitem v) sel.

(** [a op b] on 1-D arrays with NumPy broadcasting: equal lengths, or one
    operand of length one. *)
Definition broadcast (op : npfloat -> npfloat -> npfloat) (a b : vec)
  : result vec :=
  if decide (length a = length b) then Ok (zip_with op a b)
  else match a, b with
       | [x], _ => Ok (op x <$> b)
       | _, [y] => Ok ((fun x => op x y) <$> a)
       | _, _ => Raise ValueError
       end.

(** [np.diff(v)] *)
Fixpoint np_diff (v : vec) : vec :=
  match v with
  | x :: (y :: _) as v' => fsub y x :: np_diff v'
  | _ => []
  end.

(** ** Rasters and cubes *)

Abbreviation image := (list (list npfloat)).
Abbreviation cube := (list (list (list npfloat))).

(** [c[i, j, :]] *)
Definition pixel {A} (c : list (list A)) (i j : nat) : result A :=
  row ← getitem c i; getitem row j.

(** [c[i, j, k] = x] *)
Definition set_cell (c : cube) (i j k : nat) (x : npfloat) : result cube :=
  row ← getitem c i;
  v ← getitem row j;
  v' ← setitem v k x;
  Ok (<[i := <[j := v']> row]> c).

(** [c[i, j, k]] when the three indices are in range. *)
Definition cell {A} (c : list (list (list A))) (i j k : nat) : option A :=
  row ← c !! i; v ← row !! j; v !! k.

(** The number of cells of [v] that are not NaN. *)
Definition valid_epochs (v : vec) : nat :=
  length (List.filter (fun x => negb (isnan x)) v).

(** [a[r, c]] when both indices are in range. *)
Definition cell2 {A} (a : list (list A)) (r c : nat) : option A :=
  row ← a !! r; row !! c.

(** [c.shape[0]], [c.shape[1]], [c.shape[2]]. *)
Definition shape0 {A} (c : list A) : nat := length c.
Definition shape1 {A} (c : list (list A)) : nat :=
  match c with
  | [] => O
  | row :: _ => length row
  end.
Definition shape2 {A} (c : list (list (list A))) : nat :=
  match c with
  | (v :: _) :: _ => length v
  | _ => O
  end.

(** The length of every per-pixel vector, row by row. *)
Definition lengths (c : cube) : list (list nat) :=
  (fun row : list vec => length <$> row) <$> c.

(** A cube whose nested lists have the lengths its shape announces, as every
    ndarray has. *)
Definition regular (c : cube) : Prop :=
  Forall (fun row => length row = shape1 c
                     /\ Forall (fun v : vec => length v = shape2 c) row) c.

(** [c[:, :, k]] *)
Definition epoch_slice (c : cube) (k : nat) : result image :=
  mapM (mapM (fun v : vec => getitem v k)) c.

End NP.
Export NP.

(** ** Configuration and collaborators' data *)

(** The entries of the [params] dictionary that [aps.py] reads, under the
    names of their [config] keys. *)
Record Params : Type := {
  APSEST : bool;
  TLPF_CUTOFF : npfloat;
  TLPF_METHOD : Z;
  TLPF_PTHR : Z;
  SLPF_CUTOFF : npfloat;
  SLPF_METHOD : Z;
  SLPF_ORDER : Z;
  SLPF_NANFILL : Z;
  SLPF_NANFILL_METHOD : string;
  TIME_SERIES_METHOD : Z;
  TMPDIR : string
}.

(** [shared.EpochList]: only [spans] is read here. *)
Record EpochList : Type := { spans : vec }.

(** ** Temporal low-pass filter *)

(** The weight functions share the signature [func(m, yr, cutoff)]. *)
Definition kernel : Type := nat -> vec -> npfloat -> vec.

(** [np.exp(-((yr / cutoff) ** 2) / 2)] *)
Definition gauss : kernel := fun m yr cutoff =>
  (fun y => fexp (fdiv (fneg (fpow (fdiv y cutoff) 2)) (Fin 2))) <$> yr.

(** [wgt = cutoff - abs(yr); wgt[wgt < 0] = 0] *)
Definition _triangle : kernel := fun m yr cutoff =>
  (fun y => let wgt := fsub cutoff (fabs y) in
            if flt wgt (Fin 0) then Fin 0 else wgt) <$> yr.

(** [np.ones(m)] *)
Definition mean_filter : kernel := fun m yr cutoff => replicate m (Fin 1).

(** Lines 487-489 of [_tlpfilter]: the normalised weights used for the
    [k]-th valid epoch. *)
Definition tlp_weights (func : kernel) (m : nat) (span : vec) (sel : list nat)
    (k : nat) (cutoff : npfloat) : result vec :=
  span_sel ← np_take span sel;
  sel_k ← getitem sel k;
  span_k ← getitem span sel_k;
  let yr := (fun s => fsub s span_k) <$> span_sel in
  let wgt := func m yr cutoff in
  Ok ((fun w => fdiv w (np_sum wgt)) <$> wgt).

(** Line 490: [np.sum(tsincr[i, j, sel] * wgt)]. *)
Definition tlp_value (tsincr : cube) (i j : nat) (sel : list nat) (wgt : vec)
  : result npfloat :=
  v ← pixel tsincr i j;
  vals ← np_take v sel;
  prod ← broadcast fmul vals wgt;
  Ok (np_sum prod).

(** The body of the loop over [k]. *)
Definition tlp_epoch (cutoff : npfloat) (span : vec) (tsincr : cube)
    (func : kernel) (i j : nat) (sel : list nat) (k : nat)
    (tsfilt_incr : cube) : result cube :=
  wgt ← tlp_weights func (length sel) span sel k cutoff;
  x ← tlp_value tsincr i j sel wgt;
  sel_k ← getitem sel k;
  set_cell tsfilt_incr i j sel_k x.

(** The body of the loop over [j]: one pixel. *)
Definition tlp_pixel (cutoff : npfloat) (nanmat : list (list (list bool)))
    (span : vec) (threshold : Z) (tsincr : cube) (func : kernel)
    (i j : nat) (tsfilt_incr : cube) : result cube :=
  mask ← pixel nanmat i j;
  let sel := nonzero mask in
  let m := length sel in
  if (threshold <=? Z.of_nat m)%Z then
    for_each (range m) (tlp_epoch cutoff span tsincr func i j sel) tsfilt_incr
  else Ok tsfilt_incr.

(** [_tlpfilter] mutates [tsfilt_incr] in place; the model returns it. *)
Definition _tlpfilter (cols : nat) (cutoff : npfloat)
    (nanmat : list (list (list bool))) (rows : nat) (span : vec)
    (threshold : Z) (tsfilt_incr tsincr : cube) (func : kernel)
  : result cube :=
  for_each (range rows) (fun i =>
    for_each (range cols)
      (tlp_pixel cutoff nanmat span threshold tsincr func i)) tsfilt_incr.

(** The [if method == 1 ... elif method == 2 ... else] of
    [temporal_low_pass_filter]. *)
Definition tlp_func (method : Z) : kernel :=
  if (method =? 1)%Z then gauss
  else if (method =? 2)%Z then _triangle
  else mean_filter.

(** [~isnan(tsincr)] *)
Definition not_nan_mask (tsincr : cube) : list (list (list bool)) :=
  map (map (map (fun x => negb (isnan x)))) tsincr.

(** [np.empty_like(tsincr, dtype=np.float32) * np.nan]: whatever the
    uninitialised cells hold, their product with NaN is NaN.  The array is
    of single precision; a cell of the model is an exact real, so the
    narrowing of the values that [_tlpfilter] stores into it is not
    modelled. *)
Definition nan_like (tsincr : cube) : cube :=
  map (map (map (fun _ : npfloat => NaN))) tsincr.

(** [epochlist.spans[: tsincr.shape[2]] + intv / 2] *)
Definition tlp_span (tsincr : cube) (epochlist : EpochList) : result vec :=
  let intv := np_diff (spans epochlist) in
  broadcast fadd (firstn (shape2 tsincr) (spans epochlist))
            ((fun d => fdiv d (Fin 2)) <$> intv).

Definition temporal_low_pass_filter (tsincr : cube) (epochlist : EpochList)
    (params : Params) : result cube :=
  let nanmat := not_nan_mask tsincr in
  let tsfilt_incr := nan_like tsincr in
  span ← tlp_span tsincr epochlist;
  let rows := shape0 tsincr in
  let cols := shape1 tsincr in
  let cutoff := TLPF_CUTOFF params in
  let method := TLPF_METHOD params in
  let threshold := TLPF_PTHR params in
  let func := tlp_func method in
  _tlpfilter cols cutoff nanmat rows span threshold tsfilt_incr tsincr func.

(** *** Well-conditioned kernels

    A weight function is well conditioned at [cutoff] when, on finite time
    offsets, it returns one finite non-negative weight per offset and a
    positive weight at offset zero.  The weights of an epoch then have a
    positive finite sum, so that dividing by it is a division by a non-zero
    number. *)
Definition well_conditioned (func : kernel) (cutoff : npfloat) : Prop :=
  exists g : R -> R,
    (forall ys : list R,
        func (length ys) (Fin <$> ys) cutoff = Fin <$> (g <$> ys))
    /\ (forall y, (0 <= g y)%R)
    /\ (0 < g 0)%R.

(** Every cell is a finite number. *)
Definition all_finite (v : vec) : Prop := Forall (fun x => isfinite x = true) v.

(** The configurations under which the selected kernel divides by a
    non-zero sum: a finite non-zero cutoff for the Gaussian kernel, a finite
    positive one for the triangular kernel, in both cases with finite epoch
    spans; nothing for the mean kernel. *)
Definition tlp_config_ok (params : Params) (epochlist : EpochList) : Prop :=
  if (TLPF_METHOD params =? 1)%Z then
    (exists c : R, TLPF_CUTOFF params = Fin c /\ c <> 0%R)
    /\ all_finite (spans epochlist)
  else if (TLPF_METHOD params =? 2)%Z then
    (exists c : R, TLPF_CUTOFF params = Fin c /\ (0 < c)%R)
    /\ all_finite (spans epochlist)
  else True.

(** ** 2-D arrays, complex cells and the discrete Fourier transform *)

Module FFT.

Local Open Scope R_scope.

(** A [complex128] cell. *)
Record complex : Type := Complex { re : npfloat; im : npfloat }.

Definition cadd (z w : complex) : complex :=
  Complex (fadd (re z) (re w)) (fadd (im z) (im w)).

Definition cmul (z w : complex) : complex :=
  Complex (fsub (fmul (re z) (re w)) (fmul (im z) (im w)))
          (fadd (fmul (re z) (im w)) (fmul (im z) (re w))).

(** A real cell promoted to a complex one. *)
Definition of_real (x : npfloat) : complex := Complex x (Fin 0).

(** [exp(i * theta)] *)
Definition cis (theta : R) : complex :=
  Complex (Fin (cos theta)) (Fin (sin theta)).

Definition csum (zs : list complex) : complex :=
  foldr cadd (Complex (Fin 0) (Fin 0)) zs.

(** The 2-D discrete Fourier sum with the sign of the exponent left open:
    [out[u, v] = sum over (r, c) of a[r, c] * exp(sign * 2 pi i (u r / R + v c / C))]. *)
Definition dft2 (sign : R) (a : list (list complex)) : list (list complex) :=
  let nr := length a in
  let nc := shape1 a in
  (fun u =>
     (fun v =>
        csum (concat (imap (fun r row =>
          imap (fun c z =>
            cmul z (cis (sign * (2 * PI)
                         * (INR u * INR r / INR nr + INR v * INR c / INR nc))))
               row) a)))
     <$> range nc)
  <$> range nr.

(** [scipy.fftpack.fft2] of a real raster. *)
Definition fft2 (a : image) : list (list complex) :=
  dft2 (-1) ((fun row : vec => of_real <$> row) <$> a).

(** [scipy.fftpack.ifft2]: the conjugate sum divided by the number of
    cells. *)
Definition ifft2 (a : list (list complex)) : list (list complex) :=
  let n := of_real (of_nat (length a * shape1 a)) in
  (fun row : list complex =>
     (fun z => Complex (fdiv (re z) (re n)) (fdiv (im z) (re n))) <$> row)
  <$> dft2 1 a.

(** [fftshift] and [ifftshift] roll both axes by [n // 2], to the right and
    to the left. *)
Definition fftshift {A} (a : list (list A)) : list (list A) :=
  rotate (length a - length a / 2)%nat
         ((fun row => rotate (length row - length row / 2)%nat row) <$> a).

Definition ifftshift {A} (a : list (list A)) : list (list A) :=
  rotate (length a / 2)%nat ((fun row => rotate (length row / 2)%nat row) <$> a).

(** [np.real] *)
Definition real (a : list (list complex)) : image :=
  (fun row : list complex => re <$> row) <$> a.

End FFT.
Export FFT.

(** The length two operands of lengths [n1] and [n2] broadcast to. *)
Definition broadcast_length (n1 n2 : nat) : result nat :=
  if decide (n1 = n2) then Ok n1
  else if decide (n1 = 1) then Ok n2
  else if decide (n2 = 1) then Ok n1
  else Raise ValueError.

(** An axis of length [n], or a unit axis repeated [n] times. *)
Definition stretch {A} (n : nat) (l : list A) : result (list A) :=
  if decide (length l = n) then Ok l
  else match l with
       | [x] => Ok (replicate n x)
       | _ => Raise ValueError
       end.

(** [a op b] on 2-D arrays with NumPy broadcasting on both axes. *)
Definition broadcast2 {A B C} (op : A -> B -> C)
    (a : list (list A)) (b : list (list B)) : result (list (list C)) :=
  nr ← broadcast_length (length a) (length b);
  nc ← broadcast_length (shape1 a) (shape1 b);
  a' ← mapM (stretch nc) a ≫= stretch nr;
  b' ← mapM (stretch nc) b ≫= stretch nr;
  Ok (zip_with (zip_with op) a' b').

(** [out[mask] = value] for a boolean mask of the shape of [out]. *)
Definition mask_fill {A} (out : list (list A)) (mask : list (list bool))
    (value : A) : result (list (list A)) :=
  if decide ((fun row : list A => length row) <$> out
             = (fun row : list bool => length row) <$> mask)
  then Ok (zip_with (zip_with (fun x (m : bool) => if m then value else x))
                    out mask)
  else Raise IndexError.

(** [np.isnan(a)] on a raster. *)
Definition isnan2 (a : image) : list (list bool) :=
  (fun row : vec => isnan <$> row) <$> a.

(** [np.all(np.isnan(a))] *)
Definition all_nan (a : image) : bool :=
  forallb (forallb isnan) a.

(** ** Collaborators of the spatial filter *)

(** [shared.Ifg]: an interferogram raster, as the file holds it and as an
    open [Ifg] object exposes it: geometry, phase band and the metadata of
    the dataset. *)
Record Ifg : Type := {
  path : string;
  shape : nat * nat;
  x_size : npfloat;
  y_size : npfloat;
  phase_data : image;
  meta_data : gmap string string
}.

(** [shared.PrereadIfg]: the header of an interferogram read ahead of the
    run; the two acquisition dates are day numbers. *)
Record PrereadIfg : Type := {
  preread_path : string;
  master : Z;
  slave : Z;
  preread_shape : nat * nat
}.

(** [shared.Tile]: a rectangle of the raster and its index. *)
Record Tile : Type := {
  index : nat;
  top_left_y : nat;
  bottom_right_y : nat;
  top_left_x : nat;
  bottom_right_x : nat
}.

(** The content of a [.npy] file of the scratch directory: a time-series
    cube or a spanning-tree mask. *)
Inductive ndarray : Type :=
  | FloatArray (c : cube)
  | BoolArray (m : list (list (list bool))).

(** Functions of other modules and of SciPy that [aps.py] calls and whose
    code is not part of it:
    - [covariance.RDist(ifg)()];
    - [covariance.cvd_from_phase(phase, ifg, r_dist, calc_alpha=True)],
      which returns the pair [(maxvar, alpha)];
    - [scipy.interpolate.griddata(points, values, xi, method)];
    - [algorithm.get_epochs(ifgs)], which returns the epoch list and the
      array [n] of the master indices followed by the slave indices;
    - [shared.IfgPart(p, t, preread_ifgs, params)], the part of the
      interferogram at path [p] on tile [t], read from the rasters on disk;
    - [timeseries.time_series(ifg_parts, params, vcmt=None, mst=mst)[0]];
    - [mpiops.array_split(tiles)]: the tiles of this worker.
    [garbage] is what [np.empty] leaves in a cell. *)
Class Collaborators : Type := {
  RDist : Ifg -> image;
  cvd_from_phase : image -> Ifg -> image -> result (npfloat * npfloat);
  griddata : list (nat * nat) -> vec -> list (nat * nat) -> string -> result vec;
  get_epochs : list PrereadIfg -> EpochList * list nat;
  IfgPart : Type;
  IfgPart_init : string -> Tile -> list (string * PrereadIfg) -> Params ->
                 gmap string Ifg -> result IfgPart;
  time_series : list IfgPart -> Params -> ndarray -> result cube;
  array_split : list Tile -> list Tile;
  garbage : nat -> nat -> nat -> npfloat
}.

(** ** Spatial low-pass filter *)

(** Lines 374-383 of [_slp_filter]: the distance of every cell from the
    centre of the grid, in km. *)
Definition slp_dist (rows cols : nat) (x_size y_size : npfloat) : image :=
  let cx := of_nat (cols / 2) in
  let cy := of_nat (rows / 2) in
  (fun r =>
     (fun c =>
        let xx := fmul (fsub (of_nat c) cx) x_size in
        let yy := fmul (fsub (of_nat r) cy) y_size in
        fdiv (fsqrt (fadd (fpow xx 2) (fpow yy 2))) (Fin 1000))
     <$> range cols)
  <$> range rows.

(** [1.0 / (1 + ((dist / cutoff) ** (2 * order)))] *)
Definition butterworth (order : Z) (cutoff : npfloat) (dist : npfloat)
  : npfloat :=
  fdiv (Fin 1) (fadd (Fin 1) (fpow (fdiv dist cutoff) (2 * order))).

(** [np.exp(-(dist ** 2) / (2 * cutoff ** 2))] *)
Definition gaussian (cutoff : npfloat) (dist : npfloat) : npfloat :=
  fexp (fdiv (fneg (fpow dist 2)) (fmul (Fin 2) (fpow cutoff 2))).

(** Lines 385-388: the transfer function [H]. *)
Definition slp_transfer (params : Params) (dist : image) (cutoff : npfloat)
  : image :=
  if (SLPF_METHOD params =? 1)%Z then
    (fun row : vec => butterworth (SLPF_ORDER params) cutoff <$> row) <$> dist
  else
    (fun row : vec => gaussian cutoff <$> row) <$> dist.

Definition _slp_filter (phase : image) (cutoff : npfloat) (rows cols : nat)
    (x_size y_size : npfloat) (params : Params) : result image :=
  let imf := fftshift (fft2 phase) in
  let dist := slp_dist rows cols x_size y_size in
  let H := slp_transfer params dist cutoff in
  outf ← broadcast2 (fun z h => cmul z (of_real h)) imf H;
  let out := real (ifft2 (ifftshift outf)) in
  mask_fill out (isnan2 phase) NaN.

Definition _slpfilter `{Collaborators} (phase : image) (ifg : Ifg)
    (r_dist : image) (params : Params) : result image :=
  if all_nan phase then Ok phase
  else
    cutoff ← (if feq (SLPF_CUTOFF params) (Fin 0) then
                 r ← cvd_from_phase phase ifg r_dist;
                 Ok (fdiv (Fin 1) r.2)
               else Ok (SLPF_CUTOFF params));
    _slp_filter phase cutoff (shape ifg).1 (shape ifg).2
                (x_size ifg) (y_size ifg) params.

(** [np.indices((rows, cols))]: the grid of row indices and the grid of
    column indices. *)
Definition np_indices (rows cols : nat) : list (list nat) * list (list nat) :=
  ((fun r => replicate cols r) <$> range rows,
   (fun _ => range cols) <$> range rows).

(** [g[mask]] for a boolean mask of the shape of [g]: the selected cells in
    row-major order. *)
Definition select {A} (g : list (list A)) (mask : list (list bool)) : list A :=
  concat (zip_with (fun (row : list A) (m : list bool) =>
                      fst <$> List.filter snd (zip row m)) g mask).

(** [v[isnan(v)] = vals] on one row: the NaN cells receive the values in
    order; what is left of [vals] is returned with the row. *)
Fixpoint fill_nans_vec (v : vec) (vals : vec) : vec * vec :=
  match v with
  | [] => ([], vals)
  | x :: v' =>
      if isnan x then
        match vals with
        | y :: vals' =>
            let r := fill_nans_vec v' vals' in (y :: r.1, r.2)
        | [] => let r := fill_nans_vec v' [] in (x :: r.1, r.2)
        end
      else let r := fill_nans_vec v' vals in (x :: r.1, r.2)
  end.

Fixpoint fill_nans (a : image) (vals : vec) : image :=
  match a with
  | [] => []
  | row :: a' =>
      let r := fill_nans_vec row vals in r.1 :: fill_nans a' r.2
  end.

(** [a[np.isnan(a)] = vals]: one value per NaN cell, or a single value for
    all of them. *)
Definition assign_nans (a : image) (vals : vec) : result image :=
  let n := length (select a (isnan2 a)) in
  if decide (length vals = n) then Ok (fill_nans a vals)
  else match vals with
       | [y] => Ok ((fun row : vec => (fun x => if isnan x then y else x) <$> row)
                    <$> a)
       | _ => Raise ValueError
       end.

(** [a[np.isnan(a)] = 0] *)
Definition zero_fill (a : image) : image :=
  (fun row : vec => (fun x => if isnan x then Fin 0 else x) <$> row) <$> a.

Definition _interpolate_nans_2d `{Collaborators} (a : image)
    (rows cols : list (list nat)) (method : string) : result image :=
  let nan := isnan2 a in
  let known := (fun m : list bool => negb <$> m) <$> nan in
  vals ← griddata (zip (select rows known) (select cols known))
                  (select a known)
                  (zip (select rows nan) (select cols nan))
                  method;
  a ← assign_nans a vals;
  Ok (zero_fill a).

(** [c[:, :, k] = img], the value stretched to the shape of the slice. *)
Definition set_epoch_slice (c : cube) (k : nat) (img : image) : result cube :=
  img' ← mapM (stretch (shape1 c)) img ≫= stretch (shape0 c);
  mapM (fun ri : list vec * vec =>
          mapM (fun vx : vec * npfloat => setitem vx.1 k vx.2) (zip ri.1 ri.2))
       (zip c img').

Definition _interpolate_nans `{Collaborators} (arr : cube) (method : string)
  : result cube :=
  let grids := np_indices (shape0 arr) (shape1 arr) in
  for_each (range (shape2 arr)) (fun i arr =>
    a ← epoch_slice arr i;
    a ← _interpolate_nans_2d a grids.1 grids.2 method;
    set_epoch_slice arr i a) arr.

(** [spatial_low_pass_filter] works on its argument in place and returns
    it. *)
Definition spatial_low_pass_filter `{Collaborators} (ts_lp : cube) (ifg : Ifg)
    (params : Params) : result cube :=
  ts_lp ← (if (SLPF_NANFILL params =? 0)%Z then
              Ok ((fun row : list vec => zero_fill row) <$> ts_lp)
            else _interpolate_nans ts_lp (SLPF_NANFILL_METHOD params));
  let r_dist := RDist ifg in
  for_each (range (shape2 ts_lp)) (fun i ts_lp =>
    phase ← epoch_slice ts_lp i;
    out ← _slpfilter phase ifg r_dist params;
    set_epoch_slice ts_lp i out) ts_lp.

(** ** Files and the run of the coordinating worker

    The model follows the worker of rank 0, on which [mpiops.run_once] runs
    its function and from which [comm.bcast] takes its value.  The rasters
    and the scratch directory are finite maps; [trace] records the calls to
    the raster layer in order. *)

Inductive event : Type :=
  | IfgOpened (ifg_path : string) (readonly : bool)
  | MetadataItemSet (ifg_path key value : string)
  | ModifiedPhaseWritten (ifg_path : string)
  | IfgClosed (ifg_path : string)
  | ArraySaved (name : string) (tile_index : nat).

Record World : Type := {
  rasters : gmap string Ifg;
  scratch : gmap (string * nat) ndarray;
  trace : list event
}.

Definition log (e : event) (w : World) : World :=
  {| rasters := rasters w; scratch := scratch w; trace := trace w ++ [e] |}.

(** Modelled from the spec: [core/ifgconstants.py] is not under src/.  The
    spec names the value of the correction-status tag, "APS-removed"; the
    key is given the name the code uses for it. *)
Definition PYRATE_APS_ERROR : string := "PYRATE_APS_ERROR".
Definition APS_REMOVED : string := "APS-removed".

(** Modelled from the spec: [shared.Ifg] is not under src/.  The raster
    layer is "open(path, readonly) -> raster handle exposing phase array,
    shape, pixel size, and a metadata tag setter; write-modified-phase();
    close()".  [Ifg_open] is [ifg = Ifg(ifg_path); ifg.open(readonly)]. *)
Definition Ifg_open (ifg_path : string) (readonly : bool) (w : World)
  : result (Ifg * World) :=
  match rasters w !! ifg_path with
  | Some f =>
      Ok ({| path := ifg_path; shape := shape f; x_size := x_size f;
             y_size := y_size f; phase_data := phase_data f;
             meta_data := meta_data f |},
          log (IfgOpened ifg_path readonly) w)
  | None => Raise IfgException
  end.

(** [ifg.dataset.SetMetadataItem(key, value)] *)
Definition SetMetadataItem (ifg : Ifg) (key value : string) (w : World)
  : Ifg * World :=
  ({| path := path ifg; shape := shape ifg; x_size := x_size ifg;
      y_size := y_size ifg; phase_data := phase_data ifg;
      meta_data := <[key := value]> (meta_data ifg) |},
   log (MetadataItemSet (path ifg) key value) w).

(** [ifg.write_modified_phase()]: the phase array and the dataset of the
    handle reach the file. *)
Definition write_modified_phase (ifg : Ifg) (w : World) : World :=
  log (ModifiedPhaseWritten (path ifg))
      {| rasters := <[path ifg := ifg]> (rasters w);
         scratch := scratch w;
         trace := trace w |}.

(** [ifg.close()] *)
Definition Ifg_close (ifg : Ifg) (w : World) : World :=
  log (IfgClosed (path ifg)) w.

(** ** Reconstruction *)

(** Line 230: [data[~np.isnan(data)] = phase[~np.isnan(data)]].  A boolean
    mask indexes an array of its own shape only. *)
Definition overwrite_valid (data phase : image) : result image :=
  if decide ((fun row : vec => length row) <$> data
             = (fun row : vec => length row) <$> phase)
  then Ok (zip_with (zip_with (fun old new => if isnan old then old else new))
                    data phase)
  else Raise IndexError.

Definition _save_aps_corrected_phase (ifg_path : string) (phase : image)
    (w : World) : result World :=
  opened ← Ifg_open ifg_path false w;
  let ifg := opened.1 in
  let w := opened.2 in
  data ← overwrite_valid (phase_data ifg) phase;
  let ifg := {| path := path ifg; shape := shape ifg; x_size := x_size ifg;
                y_size := y_size ifg; phase_data := data;
                meta_data := meta_data ifg |} in
  let tagged := SetMetadataItem ifg PYRATE_APS_ERROR APS_REMOVED w in
  let w := write_modified_phase tagged.1 tagged.2 in
  Ok (Ifg_close tagged.1 w).

(** [sorted(preread_ifgs.items())]: the keys of a dictionary are distinct,
    so the pairs are ordered by key. *)
Definition key_le (a b : string * PrereadIfg) : Prop :=
  String.leb a.1 b.1 = true.

#[global] Instance key_le_dec : RelDecision key_le.
Proof. intros a b. unfold key_le. apply _. Defined.

(** [list(OrderedDict(sorted(preread_ifgs.items())).values())] *)
Definition sorted_values (preread_ifgs : list (string * PrereadIfg))
  : list PrereadIfg :=
  snd <$> merge_sort key_le preread_ifgs.

(** Line 213: [np.sum(tsincr[:, :, a:b], axis=2)]. *)
Definition sum_epochs (tsincr : cube) (a b : nat) : image :=
  (fun row : list vec => (fun v : vec => np_sum (take (b - a) (drop a v))) <$> row)
  <$> tsincr.

(** [enumerate(l)] *)
Definition enumerate {A} (l : list A) : list (nat * A) :=
  imap (fun i x => (i, x)) l.

(** The body of the loop of [_ts_to_ifgs]. *)
Definition ts_to_ifg (tsincr : cube) (index_master index_slave : list nat)
    (entry : nat * PrereadIfg) (w : World) : result World :=
  a ← getitem index_master entry.1;
  b ← getitem index_slave entry.1;
  let phase := sum_epochs tsincr a b in
  _save_aps_corrected_phase (preread_path entry.2) phase w.

Definition _ts_to_ifgs `{Collaborators} (tsincr : cube)
    (preread_ifgs : list (string * PrereadIfg)) (w : World) : result World :=
  let ifgs := sorted_values preread_ifgs in
  let n := (get_epochs ifgs).2 in
  let index_master := take (length ifgs) n in
  let index_slave := drop (length ifgs) n in
  for_each (enumerate ifgs) (ts_to_ifg tsincr index_master index_slave) w.

(** ** The pipeline *)

(** [a - b] on two cubes of one shape.  The operands of the two
    subtractions of [spatio_temporal_filter] are built from [tsincr] and
    have its shape; the stretching of unit axes is left out here. *)
Definition cube_sub (a b : cube) : result cube :=
  if decide (lengths a = lengths b)
  then Ok (zip_with (zip_with (zip_with fsub)) a b)
  else Raise ValueError.

Definition spatio_temporal_filter `{Collaborators} (tsincr : cube) (ifg : Ifg)
    (params : Params) (preread_ifgs : list (string * PrereadIfg)) (w : World)
  : result World :=
  let epochlist := (get_epochs (snd <$> preread_ifgs)).1 in
  ts_lp ← temporal_low_pass_filter tsincr epochlist params;
  ts_hp ← cube_sub tsincr ts_lp;
  ts_aps ← spatial_low_pass_filter ts_hp ifg params;
  tsincr ← cube_sub tsincr ts_aps;
  _ts_to_ifgs tsincr preread_ifgs w.

(** [np.load] and [np.save] of [<TMPDIR>/<name>_<tile index>.npy]. *)
Definition np_load (name : string) (tile_index : nat) (w : World)
  : result ndarray :=
  match scratch w !! (name, tile_index) with
  | Some a => Ok a
  | None => Raise FileNotFoundError
  end.

Definition np_save (name : string) (tile_index : nat) (a : ndarray) (w : World)
  : World :=
  log (ArraySaved name tile_index)
      {| rasters := rasters w;
         scratch := <[(name, tile_index) := a]> (scratch w);
         trace := trace w |}.

(** [dest[top_left_y:bottom_right_y, top_left_x:bottom_right_x] = part] *)
Definition paste (t : Tile) (part dest : image) : image :=
  imap (fun r (row : vec) =>
    imap (fun c x =>
      if decide (top_left_y t <= r < bottom_right_y t
                 /\ top_left_x t <= c < bottom_right_x t)
      then default x (cell2 part (r - top_left_y t) (c - top_left_x t))
      else x) row) dest.

(** Modelled from the spec: [merge._assemble_tiles] is not under src/; only
    its call at line 189, [_assemble_tiles(i, n, t, tsincr_g[:, :, i],
    params[cf.TMPDIR], "tsincr_aps")], is.  The spec has the coordinating
    worker read "every tile's result for every epoch index" from scratch
    storage "keyed by tile index" and copy it "into the corresponding
    sub-region of the full cube", and names two failures:
    MissingScratchDataError "if a tile's persisted result is absent at
    assembly time" and ShapeMismatchError "if a tile's output epoch count
    disagrees with the broadcast value".  The call passes the epoch index
    [i] and not the broadcast count, so the disagreement the function can
    see is a tile result that has no epoch [i]; that no function called as
    in line 189 can tell a longer result from one of the right length is
    proved for [_assemble_tsincr_by] below. *)
Definition _assemble_tiles (i n : nat) (t : Tile) (dest : image)
    (outtype : string) (w : World) : result image :=
  match scratch w !! (outtype, index t) with
  | Some (FloatArray tile_tsincr) =>
      if decide (i < shape2 tile_tsincr) then
        match epoch_slice tile_tsincr i with
        | Ok part => Ok (paste t part dest)
        | Raise _ => Raise ShapeMismatchError
        end
      else Raise ShapeMismatchError
  | _ => Raise MissingScratchDataError
  end.

(** [np.empty(shape=(rows, cols, nvels))] *)
Definition np_empty `{Collaborators} (rows cols nvels : nat) : cube :=
  (fun r => (fun c => (fun k => garbage r c k) <$> range nvels) <$> range cols)
  <$> range rows.

(** [d[key]] for a dictionary given by its items. *)
Definition dict_get {V} (d : list (string * V)) (key : string) : result V :=
  match list_find (fun kv => kv.1 = key) d with
  | Some found => Ok found.2.2
  | None => Raise KeyError
  end.

(** The body of the inner loop of [_assemble_tsincr]: the call of
    [_assemble_tiles] on the view [tsincr_g[:, :, i]]. *)
Definition assemble_tile (w : World) (i n : nat) (t : Tile) (tsincr_g : cube)
  : result cube :=
  dest ← epoch_slice tsincr_g i;
  dest ← _assemble_tiles i n t dest "tsincr_aps" w;
  set_epoch_slice tsincr_g i dest.

(** [nvels] is [None] when the worker had no tile; [np.empty] then
    rejects the shape. *)
Definition _assemble_tsincr `{Collaborators} (ifg_paths : list string)
    (params : Params) (preread_ifgs : list (string * PrereadIfg))
    (tiles : list Tile) (nvels : option nat) (w : World) : result cube :=
  first ← getitem ifg_paths 0;
  pre ← dict_get preread_ifgs first;
  nvels ← match nvels with
           | Some n => Ok n
           | None => Raise TypeError
           end;
  let tsincr_g := np_empty (preread_shape pre).1 (preread_shape pre).2 nvels in
  for_each (range nvels) (fun i =>
    for_each (enumerate tiles) (fun nt => assemble_tile w i nt.1 nt.2))
    tsincr_g.

(** Lines 185-190 once more, with the function that line 189 calls left
    open.  [merge._assemble_tiles] is not under src/; line 189 hands it the
    epoch index [i], the tile number, the tile, the view
    [tsincr_g[:, :, i]], the scratch directory and the name of the arrays.
    A [tile_assembler] is any function of these values (of the view, its
    cells) and of the files, that returns the cells it leaves in the view
    or raises.  The broadcast count [nvels] is not among its arguments. *)
Definition tile_assembler : Type :=
  nat -> nat -> Tile -> image -> string -> World -> result image.

Definition assemble_tile_by (assembler : tile_assembler) (w : World)
    (i n : nat) (t : Tile) (tsincr_g : cube) : result cube :=
  dest ← epoch_slice tsincr_g i;
  dest ← assembler i n t dest "tsincr_aps" w;
  set_epoch_slice tsincr_g i dest.

Definition _assemble_tsincr_by `{Collaborators} (assembler : tile_assembler)
    (ifg_paths : list string) (params : Params)
    (preread_ifgs : list (string * PrereadIfg)) (tiles : list Tile)
    (nvels : option nat) (w : World) : result cube :=
  first ← getitem ifg_paths 0;
  pre ← dict_get preread_ifgs first;
  nvels ← match nvels with
           | Some n => Ok n
           | None => Raise TypeError
           end;
  let tsincr_g := np_empty (preread_shape pre).1 (preread_shape pre).2 nvels in
  for_each (range nvels) (fun i =>
    for_each (enumerate tiles)
             (fun nt => assemble_tile_by assembler w i nt.1 nt.2))
    tsincr_g.

(** The first [n] epochs of a cube: [c[:, :, :n]]. *)
Definition first_epochs (n : nat) (c : cube) : cube :=
  (fun row : list vec => (fun v : vec => take n v) <$> row) <$> c.

(** [new_params = deepcopy(params); new_params[cf.TIME_SERIES_METHOD] = 2] *)
Definition use_svd (params : Params) : Params :=
  {| APSEST := APSEST params;
     TLPF_CUTOFF := TLPF_CUTOFF params;
     TLPF_METHOD := TLPF_METHOD params;
     TLPF_PTHR := TLPF_PTHR params;
     SLPF_CUTOFF := SLPF_CUTOFF params;
     SLPF_METHOD := SLPF_METHOD params;
     SLPF_ORDER := SLPF_ORDER params;
     SLPF_NANFILL := SLPF_NANFILL params;
     SLPF_NANFILL_METHOD := SLPF_NANFILL_METHOD params;
     TIME_SERIES_METHOD := 2;
     TMPDIR := TMPDIR params |}.

(** The body of the loop over the tiles of this worker. *)
Definition calc_tile `{Collaborators} (ifg_paths : list string)
    (new_params params : Params) (preread_ifgs : list (string * PrereadIfg))
    (t : Tile) (st : option nat * World) : result (option nat * World) :=
  ifg_parts ← mapM (fun p => IfgPart_init p t preread_ifgs params
                                           (rasters st.2)) ifg_paths;
  mst_tile ← np_load "mst_mat" (index t) st.2;
  tsincr ← time_series ifg_parts new_params mst_tile;
  Ok (Some (shape2 tsincr),
      np_save "tsincr_aps" (index t) (FloatArray tsincr) st.2).

Definition _calc_svd_time_series `{Collaborators} (ifg_paths : list string)
    (params : Params) (preread_ifgs : list (string * PrereadIfg))
    (tiles : list Tile) (w : World) : result (cube * World) :=
  let new_params := use_svd params in
  let process_tiles := array_split tiles in
  st ← for_each process_tiles
                (calc_tile ifg_paths new_params params preread_ifgs) (None, w);
  tsincr_g ← _assemble_tsincr ifg_paths params preread_ifgs tiles st.1 st.2;
  Ok (tsincr_g, st.2).

(** An interferogram file that carries the tag. *)
Definition carries_tag (w : World) (ifg_path : string) : Prop :=
  exists f, rasters w !! ifg_path = Some f
            /\ meta_data f !! PYRATE_APS_ERROR = Some APS_REMOVED.

(** Modelled from the spec: [shared.check_correction_status] is not under
    src/.  The spec: "if every interferogram already carries the
    "APS-removed" tag, the entire pipeline is skipped"; the orchestrator
    "gates on a correction-status flag".  The function reads the tag of
    every file and answers whether all of them carry it. *)
Definition check_correction_status (ifg_paths : list string) (meta : string)
    (w : World) : result bool :=
  flags ← mapM (fun p =>
                  match rasters w !! p with
                  | Some f => Ok (bool_decide (meta_data f !! meta
                                               = Some APS_REMOVED))
                  | None => Raise IfgException
                  end) ifg_paths;
  Ok (forallb (fun flag : bool => flag) flags).

(** The three ways [_wrap_spatio_temporal_filter] returns: at line 62, at
    line 68, and at the end of the function. *)
Inductive outcome : Set := NotRequired | Skipped | Corrected.

Definition _wrap_spatio_temporal_filter `{Collaborators}
    (ifg_paths : list string) (params : Params) (tiles : list Tile)
    (preread_ifgs : list (string * PrereadIfg)) (w : World)
  : result (outcome * World) :=
  if negb (APSEST params) then Ok (NotRequired, w)
  else
    corrected ← check_correction_status ifg_paths PYRATE_APS_ERROR w;
    if (corrected : bool) then Ok (Skipped, w)
    else
      r ← _calc_svd_time_series ifg_paths params preread_ifgs tiles w;
      first ← getitem ifg_paths 0;
      opened ← Ifg_open first true r.2;
      w' ← spatio_temporal_filter r.1 opened.1 params preread_ifgs opened.2;
      Ok (Corrected, Ifg_close opened.1 w').

(** ** Tile results in the scratch directory *)

(** The time series that the scratch directory holds for tile [t], if it
    holds one. *)
Definition tile_result (w : World) (t : Tile) : option cube :=
  match scratch w !! ("tsincr_aps", index t) with
  | Some (FloatArray c) => Some c
  | _ => None
  end.

(** A tile result that has epoch [i] at every pixel. *)
Definition has_epoch (c : cube) (i : nat) : Prop :=
  i < shape2 c /\ exists part, epoch_slice c i = Ok part.

(** A cube of shape [(rows, cols, n)] and a raster of shape
    [(rows, cols)]. *)
Definition has_shape (rows cols n : nat) (c : cube) : Prop :=
  length c = rows
  /\ Forall (fun row : list vec =>
               length row = cols /\ Forall (fun v : vec => length v = n) row) c.

Definition has_shape2 (rows cols : nat) (a : image) : Prop :=
  length a = rows /\ Forall (fun row : vec => length row = cols) a.

(** ** Classes of cells, arrays and files

    Predicates in which the properties of the filters are stated. *)

(** A cell whose value is zero or NaN. *)
Definition zero_or_nan (x : npfloat) : Prop :=
  x = NaN \/ exists r : R, x = Fin r /\ r = 0%R.

(** A [rows x cols] array whose cells all satisfy [P]. *)
Definition matrix_of {A} (P : A -> Prop) (rows cols : nat)
    (a : list (list A)) : Prop :=
  length a = rows
  /\ Forall (fun row : list A => length row = cols /\ Forall P row) a.

(** A cube whose cells all satisfy [P]. *)
Definition cells_of (P : npfloat -> Prop) (c : cube) : Prop :=
  Forall (Forall (Forall P)) c.

(** The relation between a raster file before and after any number of
    saves: the geometry is the same and no NaN pixel has been given a
    value. *)
Definition keeps_mask (f f' : Ifg) : Prop :=
  shape f' = shape f
  /\ x_size f' = x_size f /\ y_size f' = y_size f
  /\ (fun row : vec => length row) <$> phase_data f'
     = (fun row : vec => length row) <$> phase_data f
  /\ forall r c, cell2 (phase_data f) r c = Some NaN ->
                 cell2 (phase_data f') r c = Some NaN.

(** The calls that one save makes to the raster layer. *)
Definition save_calls (ifg_path : string) : list event :=
  [IfgOpened ifg_path false;
   MetadataItemSet ifg_path PYRATE_APS_ERROR APS_REMOVED;
   ModifiedPhaseWritten ifg_path;
   IfgClosed ifg_path].

(** The sum of [f 0], ..., [f (n - 1)]. *)
Definition rsum (n : nat) (f : nat -> R) : R :=
  foldr Rplus 0%R (f <$> seq 0 n).

(** The array whose cell [(r, c)] is [f r c]. *)
Definition tabulate {A} (rows cols : nat) (f : nat -> nat -> A)
  : list (list A) :=
  (fun r => (fun c => f r c) <$> seq 0 cols) <$> seq 0 rows.

(** ** Sample data

    A one-pixel, two-increment cube over three epochs one year apart, and a
    configuration with the temporal method, cutoff and threshold left
    open. *)
Definition sample_cube : cube := [[[Fin 1; Fin 3]]].

Definition sample_epochs : EpochList := {| spans := [Fin 0; Fin 1; Fin 2] |}.

Definition sample_params (method : Z) (cutoff : npfloat) (threshold : Z)
  : Params :=
  {| APSEST := true;
     TLPF_CUTOFF := cutoff;
     TLPF_METHOD := method;
     TLPF_PTHR := threshold;
     SLPF_CUTOFF := Fin 1;
     SLPF_METHOD := 2;
     SLPF_ORDER := 1;
     SLPF_NANFILL := 0;
     SLPF_NANFILL_METHOD := "linear";
     TIME_SERIES_METHOD := 1;
     TMPDIR := "tmp" |}.

(** Two interferograms for the sample runs of the spatial filter: a single
    pixel, and one row of two pixels, both with one-metre cells. *)
Definition sample_ifg (rows cols : nat) : Ifg :=
  {| path := "ifg.tif";
     shape := (rows, cols);
     x_size := Fin 1;
     y_size := Fin 1;
     phase_data := replicate rows (replicate cols (Fin 0));
     meta_data := ∅ |}.

(** A configuration whose two method entries name no filter. *)
Definition sample_params_unknown_methods : Params :=
  {| APSEST := true;
     TLPF_CUTOFF := Fin 1;
     TLPF_METHOD := 7;
     TLPF_PTHR := 2;
     SLPF_CUTOFF := Fin 1;
     SLPF_METHOD := 0;
     SLPF_ORDER := 1;
     SLPF_NANFILL := 0;
     SLPF_NANFILL_METHOD := "linear";
     TIME_SERIES_METHOD := 1;
     TMPDIR := "tmp" |}.

(** Stand-ins for the collaborators, used in the sample runs only: an epoch
    list built as the spec describes it (the acquisition dates in order and
    without repetition, spans in years from the first date, and for every
    interferogram the index of its master and of its slave date), a solver
    that returns the sample pixel everywhere on the tile, and one worker
    that owns every tile. *)
Definition sample_get_epochs (ifgs : list PrereadIfg) : EpochList * list nat :=
  let combined := (master <$> ifgs) ++ (slave <$> ifgs) in
  let dates := merge_sort Z.le (remove_dups combined) in
  let first := default 0%Z (head dates) in
  ({| spans := (fun d => Fin (IZR (d - first) / 365)%R) <$> dates |},
   (fun d => default 0 (fst <$> list_find (fun d' => d' = d) dates))
     <$> combined).

Definition sample_time_series (ifg_parts : list Tile) (params : Params)
    (mst : ndarray) : result cube :=
  match ifg_parts with
  | t :: _ =>
      Ok (replicate (bottom_right_y t - top_left_y t)
                    (replicate (bottom_right_x t - top_left_x t)
                               [Fin 1; Fin 3]))
  | [] => Raise ValueError
  end.

Definition sample_collaborators : Collaborators := {|
  RDist := fun ifg => [];
  cvd_from_phase := fun phase ifg r_dist => Ok (Fin 1, Fin 1);
  griddata := fun points values xi method => Ok (replicate (length xi) (Fin 0));
  get_epochs := sample_get_epochs;
  IfgPart := Tile;
  IfgPart_init := fun p t preread_ifgs params files => Ok t;
  time_series := sample_time_series;
  array_split := fun tiles => tiles;
  garbage := fun r c k => Fin 0
|}.

(** Two interferograms of one row and two pixels over three acquisitions,
    and the files that hold them; the first pixel of the first one is
    masked. *)
Definition sample_preread : list (string * PrereadIfg) :=
  [("ifg_b.tif", {| preread_path := "ifg_b.tif"; master := 365; slave := 730;
                    preread_shape := (1, 2) |});
   ("ifg_a.tif", {| preread_path := "ifg_a.tif"; master := 0; slave := 730;
                    preread_shape := (1, 2) |})].

Definition sample_raster (ifg_path : string) (data : image) : Ifg :=
  {| path := ifg_path;
     shape := (1, 2);
     x_size := Fin 1;
     y_size := Fin 1;
     phase_data := data;
     meta_data := ∅ |}.

Definition sample_world : World :=
  {| rasters := {[ "ifg_a.tif" := sample_raster "ifg_a.tif" [[NaN; Fin 5]];
                   "ifg_b.tif" := sample_raster "ifg_b.tif" [[Fin 6; Fin 7]] ]};
     scratch := ∅;
     trace := [] |}.

(** One tile that covers the sample raster, the paths of the two sample
    interferograms, the world before the run (the spanning-tree mask of the
    tile is in the scratch directory), the same world once the tile's time
    series is saved, and a world whose only raster already carries the
    tag. *)
Definition sample_tiles : list Tile :=
  [{| index := 0; top_left_y := 0; bottom_right_y := 1;
      top_left_x := 0; bottom_right_x := 2 |}].

Definition sample_paths : list string := ["ifg_a.tif"; "ifg_b.tif"].

Definition sample_world_run : World :=
  {| rasters := rasters sample_world;
     scratch := {[ ("mst_mat", 0) := BoolArray [] ]};
     trace := [] |}.

Definition sample_world_tiles : World :=
  np_save "tsincr_aps" 0 (FloatArray [[[Fin 1; Fin 3]; [Fin 1; Fin 3]]])
          sample_world_run.

Definition sample_world_corrected : World :=
  {| rasters :=
       {[ "ifg_a.tif" :=
            {| path := "ifg_a.tif"; shape := (1, 2);
               x_size := Fin 1; y_size := Fin 1;
               phase_data := [[NaN; Fin 5]];
               meta_data := {[ PYRATE_APS_ERROR := APS_REMOVED ]} |} ]};
     scratch := ∅;
     trace := [] |}.

(** A scratch directory with the result of one tile, of two epochs. *)
Definition sample_world_two_epochs : World :=
  {| rasters := rasters sample_world;
     scratch := {[ ("tsincr_aps", 0) :=
                     FloatArray [[[Fin 1; Fin 3]; [Fin 1; Fin 3]]] ]};
     trace := [] |}.

(** Two tiles that cover the sample raster, one pixel each, and a scratch
    directory that holds a result of no epoch for the tile of index [k] and
    no result for the other. *)
Definition sample_two_tiles : list Tile :=
  [{| index := 0; top_left_y := 0; bottom_right_y := 1;
      top_left_x := 0; bottom_right_x := 1 |};
   {| index := 1; top_left_y := 0; bottom_right_y := 1;
      top_left_x := 1; bottom_right_x := 2 |}].

Definition sample_world_no_epoch (k : nat) : World :=
  {| rasters := rasters sample_world;
     scratch := {[ ("tsincr_aps", k) := FloatArray [[[]]] ]};
     trace := [] |}.

(** * Properties *)

(** ** Addition of cells

    [np.sum] adds pairwise and in blocks; in this model the order of the
    additions does not matter. *)

Lemma fadd_comm (x y : npfloat) : fadd x y = fadd y x.
Proof. destruct x, y; simpl; try reflexivity. f_equal. apply Rplus_comm. Qed.

Lemma fadd_assoc (x y z : npfloat) : fadd x (fadd y z) = fadd (fadd x y) z.
Proof.
  destruct x, y, z; simpl; try reflexivity. f_equal. symmetry.
  apply Rplus_assoc.
Qed.

Lemma np_sum_app (u v : vec) : np_sum (u ++ v) = fadd (np_sum u) (np_sum v).
Proof.
  unfold np_sum. induction u as [|x u IH]; simpl.
  - induction v as [|y v _]; simpl; [f_equal; symmetry; apply Rplus_0_l|].
    destruct (fadd y (foldr fadd (Fin 0) v)); simpl; try reflexivity.
    f_equal. symmetry. apply Rplus_0_l.
  - rewrite IH. apply fadd_assoc.
Qed.


(** ** The error monad and bounds-checked access *)

Lemma bind_Ok {A B} (r : result A) (f : A -> result B) (b : B) :
  (r ≫= f) = Ok b <-> exists a, r = Ok a /\ f a = Ok b.
Proof.
  destruct r as [a|e]; simpl; split.
  - intros H. exists a. auto.
  - intros (a' & Ha & Hf). congruence.
  - discriminate.
  - intros (a' & Ha & _). discriminate.
Qed.

Ltac inv_result :=
  repeat match goal with
    | H : (_ ≫= _) = Ok _ |- _ =>
        apply bind_Ok in H; destruct H as (? & ? & H)
    | H : Ok _ = Ok _ |- _ => injection H as H
    | H : Raise _ = Ok _ |- _ => discriminate H
    | H : Ok _ = Raise _ |- _ => discriminate H
    end.

Lemma getitem_Ok {A} (v : list A) i x : getitem v i = Ok x <-> v !! i = Some x.
Proof. unfold getitem. destruct (v !! i); split; congruence. Qed.

Lemma setitem_Ok {A} (v : list A) i x v' :
  setitem v i x = Ok v' <-> i < length v /\ v' = <[i:=x]> v.
Proof.
  unfold setitem. case_decide; split.
  - intros [= <-]. auto.
  - intros [_ ->]. reflexivity.
  - discriminate.
  - intros [? _]. lia.
Qed.

Lemma pixel_Ok {A} (c : list (list A)) i j v :
  pixel c i j = Ok v <-> exists row, c !! i = Some row /\ row !! j = Some v.
Proof.
  unfold pixel. rewrite bind_Ok. setoid_rewrite getitem_Ok. reflexivity.
Qed.

Lemma set_cell_Ok c i j k x c' :
  set_cell c i j k x = Ok c' <->
  exists row v, c !! i = Some row /\ row !! j = Some v /\ k < length v
                /\ c' = <[i := <[j := <[k := x]> v]> row]> c.
Proof.
  unfold set_cell. split.
  - intros H. inv_result.
    match goal with H1 : getitem c i = _, H2 : getitem _ j = _,
                    H3 : setitem _ _ _ = _ |- _ =>
      apply getitem_Ok in H1; apply getitem_Ok in H2;
      apply setitem_Ok in H3; destruct H3 as [Hlt ->] end.
    subst c'. eauto 8.
  - intros (row & v & Hi & Hj & Hk & ->).
    apply getitem_Ok in Hi, Hj. rewrite Hi. simpl. rewrite Hj. simpl.
    unfold setitem. rewrite decide_True by assumption. reflexivity.
Qed.

(** A write to cell [(i, j, k)] leaves every other pixel as it was. *)
Lemma set_cell_other_pixel c i j k x c' i' j' :
  set_cell c i j k x = Ok c' -> (i', j') <> (i, j) ->
  pixel c' i' j' = pixel c i' j'.
Proof.
  intros (row & v & Hi & Hj & Hk & ->)%set_cell_Ok Hne.
  unfold pixel, getitem. destruct (decide (i' = i)) as [->|Hi'].
  - rewrite list_lookup_insert_eq by (eapply lookup_lt_Some; eassumption).
    rewrite Hi. simpl. rewrite list_lookup_insert_ne by congruence.
    reflexivity.
  - rewrite list_lookup_insert_ne by congruence. reflexivity.
Qed.

(** ... and replaces one cell of its own pixel. *)
Lemma set_cell_same_pixel c i j k x c' :
  set_cell c i j k x = Ok c' ->
  exists v, pixel c i j = Ok v /\ k < length v
            /\ pixel c' i j = Ok (<[k:=x]> v).
Proof.
  intros (row & v & Hi & Hj & Hk & ->)%set_cell_Ok.
  exists v. split_and!; [apply pixel_Ok; eauto | assumption |].
  apply pixel_Ok. exists (<[j := <[k := x]> v]> row). split.
  - apply list_lookup_insert_eq. eapply lookup_lt_Some; eassumption.
  - apply list_lookup_insert_eq. eapply lookup_lt_Some; eassumption.
Qed.

(** ** Loops *)

Lemma for_each_inv {I St} (Inv : St -> Prop) (body : I -> St -> result St) l :
  (forall x s s', x ∈ l -> Inv s -> body x s = Ok s' -> Inv s') ->
  forall s s', Inv s -> for_each l body s = Ok s' -> Inv s'.
Proof.
  induction l as [|a l IH]; simpl; intros Hstep s s' Hs Hrun.
  - congruence.
  - inv_result. eapply IH; [ | | eassumption].
    + intros y t t' Hy. apply Hstep. apply elem_of_cons. auto.
    + eapply Hstep; [ | eassumption | eassumption]. apply elem_of_cons. auto.
Qed.

(** A loop whose iterations write to pairwise disjoint parts of the state:
    what the state holds at the end in the part owned by iteration [x] is
    what the body of [x] left there, and that body ran on a state that still
    had the initial contents in that part. *)
Lemma for_each_owned {I St K V} (own : I -> K -> Prop) (get : St -> K -> V)
    (body : I -> St -> result St) l :
  (forall x s s', x ∈ l -> body x s = Ok s' ->
     forall k, ~ own x k -> get s' k = get s k) ->
  (forall n1 n2 x y k, l !! n1 = Some x -> l !! n2 = Some y -> n1 <> n2 ->
     own x k -> own y k -> False) ->
  forall s s', for_each l body s = Ok s' ->
    (forall k, (forall x, x ∈ l -> ~ own x k) -> get s' k = get s k) /\
    (forall x, x ∈ l -> exists s1 s2, body x s1 = Ok s2 /\
       forall k, own x k -> get s1 k = get s k /\ get s2 k = get s' k).
Proof.
  induction l as [|a l IH]; simpl; intros Hframe Hdisj s s' Hrun.
  - inv_result. subst. split; [reflexivity | intros x Hx; inversion Hx].
  - inv_result. rename x into sa.
    assert (Hin : forall y, y ∈ l -> y ∈ a :: l)
      by (intros; apply elem_of_cons; auto).
    assert (Hhd : a ∈ a :: l) by (apply elem_of_cons; auto).
    destruct (IH (fun x s s' Hx => Hframe x s s' (Hin x Hx))
                 (fun n1 n2 x y k H1 H2 Hne =>
                    Hdisj (S n1) (S n2) x y k H1 H2 ltac:(lia))
                 sa s' Hrun) as [IHout IHin].
    split.
    + intros k Hk. rewrite IHout by (intros; apply Hk; auto).
      eapply Hframe; [exact Hhd | eassumption | apply Hk; exact Hhd].
    + intros x [->|Hx]%elem_of_cons.
      * exists s, sa. split; [assumption|]. intros k Hk. split; [reflexivity|].
        symmetry. apply IHout. intros y Hy Hown.
        apply list_elem_of_lookup in Hy as [n Hn].
        exact (Hdisj 0 (S n) a y k eq_refl Hn ltac:(lia) Hk Hown).
      * destruct (IHin x Hx) as (s1 & s2 & Hbody & Hk).
        exists s1, s2. split; [assumption|]. intros k Hown.
        destruct (Hk k Hown) as [-> ->]. split; [|reflexivity].
        eapply Hframe; [exact Hhd | eassumption |]. intros Hown'.
        apply list_elem_of_lookup in Hx as [n Hn].
        exact (Hdisj 0 (S n) a x k eq_refl Hn ltac:(lia) Hown' Hown).
Qed.

Lemma range_lookup n i : i < n -> range n !! i = Some i.
Proof. intros. unfold range. rewrite lookup_seq_lt; auto. Qed.

Lemma range_elem n i : i ∈ range n <-> i < n.
Proof. unfold range. rewrite elem_of_seq. lia. Qed.

Lemma range_lookup_inv n i x : range n !! i = Some x -> x = i /\ i < n.
Proof. unfold range. intros H%lookup_seq. lia. Qed.

(** ** Index arrays *)

Lemma nonzero_from_elem s mask t :
  t ∈ nonzero_from s mask <-> exists o, t = s + o /\ mask !! o = Some true.
Proof.
  revert s. induction mask as [|b mask IH]; intros s; simpl.
  - split; [intros H; inversion H | intros (o & _ & H); discriminate].
  - rewrite elem_of_app, IH. split.
    + intros [Hhd|(o & -> & Ho)].
      * destruct b; [|inversion Hhd]. apply list_elem_of_singleton in Hhd.
        exists 0. split; [lia | reflexivity].
      * exists (S o). split; [lia | assumption].
    + intros ([|o] & -> & Ho); simpl in Ho.
      * injection Ho as ->. left. apply list_elem_of_singleton. lia.
      * right. exists o. split; [lia | assumption].
Qed.

Lemma nonzero_elem mask t : t ∈ nonzero mask <-> mask !! t = Some true.
Proof.
  unfold nonzero. rewrite nonzero_from_elem. split.
  - intros (o & -> & Ho). assumption.
  - intros H. exists t. auto.
Qed.

Lemma nonzero_from_NoDup s mask : NoDup (nonzero_from s mask).
Proof.
  revert s. induction mask as [|b mask IH]; intros s; simpl.
  - constructor.
  - destruct b; simpl; [|apply IH]. constructor; [|apply IH].
    rewrite nonzero_from_elem. intros (o & Ho & _). lia.
Qed.

Lemma nonzero_NoDup mask : NoDup (nonzero mask).
Proof. apply nonzero_from_NoDup. Qed.

Lemma nonzero_from_length s (v : vec) :
  length (nonzero_from s ((fun x => negb (isnan x)) <$> v)) = valid_epochs v.
Proof.
  unfold valid_epochs. revert s. induction v as [|x v IH]; intros s; simpl.
  - reflexivity.
  - destruct (negb (isnan x)); simpl; rewrite IH; reflexivity.
Qed.

Lemma nonzero_length (v : vec) :
  length (nonzero ((fun x => negb (isnan x)) <$> v)) = valid_epochs v.
Proof. apply nonzero_from_length. Qed.

Lemma nonzero_valid (v : vec) t :
  t ∈ nonzero ((fun x => negb (isnan x)) <$> v) <->
  exists x, v !! t = Some x /\ isnan x = false.
Proof.
  rewrite nonzero_elem, list_lookup_fmap. destruct (v !! t) as [x|]; simpl.
  - split.
    + intros [= H]. exists x. split; [reflexivity|].
      destruct (isnan x); [discriminate | reflexivity].
    + intros (y & [= <-] & ->). reflexivity.
  - split; [discriminate | intros (? & ? & _); discriminate].
Qed.

Lemma mapM_Ok {A B} (f : A -> result B) l k :
  mapM f l = Ok k <-> Forall2 (fun x y => f x = Ok y) l k.
Proof.
  revert k. induction l as [|x l IH]; intros k; simpl.
  - split; [intros [= <-]; constructor | intros H; inversion H; reflexivity].
  - split.
    + intros H. inv_result. injection H as <-. constructor; [assumption|].
      apply IH. assumption.
    + intros H. inversion H as [|? y ? k' Hx Hl]; subst.
      rewrite Hx. simpl. apply IH in Hl. rewrite Hl. reflexivity.
Qed.

Lemma np_take_Ok {A} (v : list A) sel l :
  np_take v sel = Ok l <-> Forall2 (fun i x => v !! i = Some x) sel l.
Proof.
  unfold np_take. rewrite mapM_Ok.
  split; intros H; eapply Forall2_impl; try exact H; intros i x;
    apply getitem_Ok.
Qed.

Lemma np_take_length {A} (v : list A) sel l :
  np_take v sel = Ok l -> length l = length sel.
Proof. intros H%np_take_Ok. symmetry. eapply Forall2_length. eassumption. Qed.

Lemma np_take_lookup {A} (v : list A) sel l k t :
  np_take v sel = Ok l -> sel !! k = Some t -> l !! k = v !! t.
Proof.
  intros H%np_take_Ok Hk.
  destruct (Forall2_lookup_l _ _ _ _ _ H Hk) as (x & -> & Hx). auto.
Qed.

(** ** Cells of a cube *)

Lemma cell_pixel {A} (c : list (list (list A))) i j v :
  pixel c i j = Ok v -> forall t, cell c i j t = v !! t.
Proof.
  intros (row & Hi & Hj)%pixel_Ok t. unfold cell. rewrite Hi. simpl.
  rewrite Hj. reflexivity.
Qed.

Lemma set_cell_cell c i j k x c' a b t :
  set_cell c i j k x = Ok c' ->
  cell c' a b t = if decide ((a, b, t) = (i, j, k)) then Some x
                  else cell c a b t.
Proof.
  intros H. destruct (decide ((a, b) = (i, j))) as [[= -> ->]|Hne].
  - destruct (set_cell_same_pixel _ _ _ _ _ _ H) as (v & Hv & Hk & Hv').
    rewrite (cell_pixel _ _ _ _ Hv'), (cell_pixel _ _ _ _ Hv).
    case_decide as Heq.
    + injection Heq as ->. apply list_lookup_insert_eq. assumption.
    + apply list_lookup_insert_ne. congruence.
  - rewrite decide_False by congruence.
    pose proof (set_cell_other_pixel _ _ _ _ _ _ a b H Hne) as Hp.
    unfold cell. unfold pixel, getitem in Hp.
    destruct (c' !! a) as [r'|], (c !! a) as [r|]; simpl in *;
      try destruct (r' !! b); try destruct (r !! b); simpl; congruence.
Qed.

Lemma nan_like_cell (tsincr : cube) i j v t :
  pixel tsincr i j = Ok v ->
  cell (nan_like tsincr) i j t = if decide (t < length v) then Some NaN else None.
Proof.
  intros (row & Hi & Hj)%pixel_Ok. unfold cell, nan_like.
  rewrite list_lookup_fmap, Hi. simpl. rewrite list_lookup_fmap, Hj. simpl.
  rewrite list_lookup_fmap. case_decide.
  - destruct (lookup_lt_is_Some_2 v t) as [x ->]; auto.
  - rewrite lookup_ge_None_2 by lia. reflexivity.
Qed.

Lemma not_nan_mask_pixel (tsincr : cube) i j mask :
  pixel (not_nan_mask tsincr) i j = Ok mask <->
  exists v, pixel tsincr i j = Ok v /\ mask = (fun x => negb (isnan x)) <$> v.
Proof.
  rewrite pixel_Ok. setoid_rewrite pixel_Ok. unfold not_nan_mask. split.
  - intros (row & Hi & Hj). rewrite list_lookup_fmap in Hi.
    destruct (tsincr !! i) as [r|] eqn:Hr; [|discriminate].
    injection Hi as <-. rewrite list_lookup_fmap in Hj.
    destruct (r !! j) as [v|] eqn:Hv; [|discriminate]. injection Hj as <-.
    eauto.
  - intros (v & (row & Hi & Hj) & ->). eexists. split.
    + rewrite list_lookup_fmap, Hi. reflexivity.
    + rewrite list_lookup_fmap, Hj. reflexivity.
Qed.

(** ** The loops of [_tlpfilter] *)

Section TemporalLoops.
Context (cutoff : npfloat) (nanmat : list (list (list bool))) (span : vec)
        (threshold : Z) (tsincr : cube) (func : kernel).

Lemma tlp_epoch_Ok i j sel k out out' :
  tlp_epoch cutoff span tsincr func i j sel k out = Ok out' ->
  exists wgt x t,
    tlp_weights func (length sel) span sel k cutoff = Ok wgt
    /\ tlp_value tsincr i j sel wgt = Ok x
    /\ sel !! k = Some t
    /\ set_cell out i j t x = Ok out'.
Proof.
  unfold tlp_epoch. intros H. inv_result.
  match goal with Hg : getitem sel k = Ok _ |- _ =>
    apply getitem_Ok in Hg end.
  eauto 10.
Qed.

(** The loop over [k] for pixel [(i, j)]: cell [sel[k]] of that pixel
    receives the weighted sum computed for [k]; nothing else changes. *)
Lemma tlp_epochs_cells i j sel out out' :
  NoDup sel ->
  for_each (range (length sel)) (tlp_epoch cutoff span tsincr func i j sel)
           out = Ok out' ->
  forall a b t,
    ((a, b) <> (i, j) \/ t ∉ sel -> cell out' a b t = cell out a b t) /\
    (forall k, (a, b) = (i, j) -> sel !! k = Some t ->
       exists wgt x,
         tlp_weights func (length sel) span sel k cutoff = Ok wgt
         /\ tlp_value tsincr i j sel wgt = Ok x
         /\ cell out' a b t = Some x).
Proof.
  intros Hnd Hrun a b t.
  edestruct (for_each_owned
    (fun k (key : nat * nat * nat) =>
       exists t, sel !! k = Some t /\ key = (i, j, t))
    (fun (c : cube) (key : nat * nat * nat) => cell c key.1.1 key.1.2 key.2))
    as [Hout Hin]; [ | | exact Hrun | ].
  - intros k s s' _ Hbody key Hown.
    apply tlp_epoch_Ok in Hbody as (wgt & x & t0 & _ & _ & Hk & Hset).
    destruct key as [[a' b'] t']. simpl.
    rewrite (set_cell_cell _ _ _ _ _ _ a' b' t' Hset).
    case_decide as Heq; [|reflexivity].
    exfalso. apply Hown. exists t0. split; [assumption|]. congruence.
  - intros n1 n2 x y key [-> _]%range_lookup_inv [-> _]%range_lookup_inv
      Hne (t1 & H1 & ->) (t2 & H2 & [= <-]).
    apply Hne. eapply NoDup_lookup; eassumption.
  - split.
    + intros Hcase. apply (Hout (a, b, t)).
      intros k _ (t0 & Hk & [= -> -> ->]). destruct Hcase as [Hne|Hnot].
      * apply Hne. reflexivity.
      * apply Hnot. eapply list_elem_of_lookup_2. eassumption.
    + intros k [= -> ->] Hk.
      assert (Hkin : k ∈ range (length sel)).
      { apply range_elem. eapply lookup_lt_Some. eassumption. }
      destruct (Hin k Hkin) as (s1 & s2 & Hbody & Hcells).
      apply tlp_epoch_Ok in Hbody as (wgt & x & t0 & Hw & Hv & Hk' & Hset).
      assert (t0 = t) as -> by congruence.
      exists wgt, x. split_and!; [assumption..|].
      destruct (Hcells (i, j, t)) as [_ Heq]; [eauto|]. simpl in Heq.
      rewrite <- Heq.
      rewrite (set_cell_cell _ _ _ _ _ _ i j t Hset).
      rewrite decide_True; reflexivity.
Qed.

(** One pixel: below the threshold nothing is written. *)
Lemma tlp_pixel_Ok i j out out' :
  tlp_pixel cutoff nanmat span threshold tsincr func i j out = Ok out' ->
  exists mask, pixel nanmat i j = Ok mask /\
    if (threshold <=? Z.of_nat (length (nonzero mask)))%Z
    then for_each (range (length (nonzero mask)))
           (tlp_epoch cutoff span tsincr func i j (nonzero mask)) out
         = Ok out'
    else out' = out.
Proof.
  unfold tlp_pixel. intros H. inv_result. eexists. split; [eassumption|].
  destruct (threshold <=? _)%Z; [assumption | congruence].
Qed.

Lemma tlp_pixel_other i j out out' a b t :
  tlp_pixel cutoff nanmat span threshold tsincr func i j out = Ok out' ->
  (a, b) <> (i, j) -> cell out' a b t = cell out a b t.
Proof.
  intros (mask & _ & H)%tlp_pixel_Ok Hne.
  destruct (threshold <=? _)%Z; [|subst; reflexivity].
  eapply tlp_epochs_cells in H; [|apply nonzero_NoDup].
  apply H. auto.
Qed.

(** The loop over the columns of row [i]. *)
Lemma tlp_row_cells i cols out out' :
  for_each (range cols)
    (tlp_pixel cutoff nanmat span threshold tsincr func i) out = Ok out' ->
  forall a b t,
    (a <> i \/ ~ b < cols -> cell out' a b t = cell out a b t) /\
    (a = i -> b < cols -> exists s1 s2,
       tlp_pixel cutoff nanmat span threshold tsincr func i b s1 = Ok s2
       /\ cell s1 a b t = cell out a b t /\ cell s2 a b t = cell out' a b t).
Proof.
  intros Hrun a b t.
  edestruct (for_each_owned
    (fun j' (key : nat * nat * nat) => key.1 = (i, j'))
    (fun (c : cube) (key : nat * nat * nat) => cell c key.1.1 key.1.2 key.2))
    as [Hout Hin]; [ | | exact Hrun | ].
  - intros j' s s' _ Hbody [[a' b'] t'] Hown. simpl in *.
    eapply tlp_pixel_other; eassumption.
  - intros n1 n2 x y key [-> _]%range_lookup_inv [-> _]%range_lookup_inv
      Hne H1 H2. congruence.
  - split.
    + intros Hcase. apply (Hout (a, b, t)). simpl.
      intros j' Hj'%range_elem [= -> ->]. destruct Hcase; auto.
    + intros -> Hb. destruct (Hin b) as (s1 & s2 & Hbody & Hcells).
      { apply range_elem. assumption. }
      exists s1, s2. split; [assumption|].
      apply (Hcells (i, b, t)). reflexivity.
Qed.

(** The whole filter, cell by cell. *)
Lemma _tlpfilter_cells cols rows out0 out :
  _tlpfilter cols cutoff nanmat rows span threshold out0 tsincr func
  = Ok out ->
  forall i j t,
    (~ (i < rows /\ j < cols) -> cell out i j t = cell out0 i j t) /\
    (i < rows -> j < cols -> exists mask, pixel nanmat i j = Ok mask /\
       if (threshold <=? Z.of_nat (length (nonzero mask)))%Z
       then (t ∉ nonzero mask -> cell out i j t = cell out0 i j t) /\
            (forall k, nonzero mask !! k = Some t ->
               exists wgt x,
                 tlp_weights func (length (nonzero mask)) span
                             (nonzero mask) k cutoff = Ok wgt
                 /\ tlp_value tsincr i j (nonzero mask) wgt = Ok x
                 /\ cell out i j t = Some x)
       else cell out i j t = cell out0 i j t).
Proof.
  unfold _tlpfilter. intros Hrun i j t.
  edestruct (for_each_owned
    (fun i' (key : nat * nat * nat) => key.1.1 = i')
    (fun (c : cube) (key : nat * nat * nat) => cell c key.1.1 key.1.2 key.2))
    as [Hout Hin]; [ | | exact Hrun | ].
  - intros i' s s' _ Hbody [[a' b'] t'] Hown. simpl in *.
    eapply tlp_row_cells in Hbody. apply Hbody. auto.
  - intros n1 n2 x y key [-> _]%range_lookup_inv [-> _]%range_lookup_inv
      Hne H1 H2. congruence.
  - assert (Hrow : i < rows -> exists r1 r2,
      for_each (range cols)
        (tlp_pixel cutoff nanmat span threshold tsincr func i) r1 = Ok r2
      /\ cell r1 i j t = cell out0 i j t /\ cell r2 i j t = cell out i j t).
    { intros Hi. destruct (Hin i) as (r1 & r2 & Hbody & Hcells).
      { apply range_elem. assumption. }
      exists r1, r2. split; [assumption|].
      apply (Hcells (i, j, t)). reflexivity. }
    split.
    + intros Hcase. destruct (decide (i < rows)) as [Hi|Hi].
      * destruct (Hrow Hi) as (r1 & r2 & Hbody & <- & <-).
        eapply tlp_row_cells in Hbody. apply Hbody. right. tauto.
      * apply (Hout (i, j, t)). simpl.
        intros i' Hi'%range_elem ->. auto.
    + intros Hi Hj. destruct (Hrow Hi) as (r1 & r2 & Hbody & <- & <-).
      eapply tlp_row_cells in Hbody.
      destruct Hbody as [_ Hpix].
      destruct (Hpix eq_refl Hj) as (s1 & s2 & Hp & <- & <-).
      apply tlp_pixel_Ok in Hp as (mask & Hmask & Hp).
      exists mask. split; [assumption|].
      destruct (threshold <=? _)%Z; [|subst; reflexivity].
      eapply tlp_epochs_cells in Hp; [|apply nonzero_NoDup].
      destruct Hp as [Hsame Hwr]. split.
      * intros Ht. apply Hsame. auto.
      * intros k Hk. apply Hwr; auto.
Qed.

End TemporalLoops.

(** ** Finite arithmetic *)

Section FiniteArithmetic.
Local Open Scope R_scope.

Lemma all_finite_Fin (v : vec) :
  all_finite v <-> exists rs : list R, v = Fin <$> rs.
Proof.
  unfold all_finite. split.
  - induction 1 as [|x v Hx _ (rs & ->)].
    + exists []. reflexivity.
    + destruct x as [r| | |]; try discriminate. exists (r :: rs). reflexivity.
  - intros (rs & ->). apply Forall_fmap, Forall_forall. reflexivity.
Qed.

Lemma np_sum_Fin (rs : list R) : np_sum (Fin <$> rs) = Fin (foldr Rplus 0 rs).
Proof.
  unfold np_sum. induction rs as [|r rs IH]; [reflexivity|].
  rewrite fmap_cons. cbn [foldr]. rewrite IH. reflexivity.
Qed.

Lemma fdiv_Fin a b : b <> 0 -> fdiv (Fin a) (Fin b) = Fin (a / b).
Proof. intros Hb. simpl. destruct (Req_dec_T b 0); [contradiction|reflexivity]. Qed.

Lemma sum_scaled (rs : list R) s :
  foldr Rplus 0 ((fun r => r / s) <$> rs) = foldr Rplus 0 rs / s.
Proof.
  induction rs as [|r rs IH].
  - simpl. unfold Rdiv. ring.
  - rewrite fmap_cons. cbn [foldr]. rewrite IH. unfold Rdiv. ring.
Qed.

Lemma sum_nonneg (rs : list R) :
  Forall (fun r => 0 <= r) rs -> 0 <= foldr Rplus 0 rs.
Proof. induction 1; simpl; lra. Qed.

Lemma sum_positive (rs : list R) k r :
  Forall (fun r => 0 <= r) rs -> rs !! k = Some r -> 0 < r ->
  0 < foldr Rplus 0 rs.
Proof.
  intros Hall. revert k. induction Hall as [|x rs Hx Hall IH]; intros k Hk Hr.
  - discriminate.
  - destruct k as [|k]; simpl in *.
    + injection Hk as ->. pose proof (sum_nonneg rs Hall). lra.
    + specialize (IH k Hk Hr). lra.
Qed.

(** Dividing finite weights by their non-zero sum gives weights that sum
    to one. *)
Lemma normalised_sum (rs : list R) :
  foldr Rplus 0 rs <> 0 ->
  (fun w => fdiv w (np_sum (Fin <$> rs))) <$> (Fin <$> rs)
    = Fin <$> ((fun r => r / foldr Rplus 0 rs) <$> rs)
  /\ foldr Rplus 0 ((fun r => r / foldr Rplus 0 rs) <$> rs) = 1.
Proof.
  intros Hs. split.
  - rewrite np_sum_Fin, <- !list_fmap_compose. apply list_fmap_ext.
    intros _ r _. simpl. apply fdiv_Fin. assumption.
  - rewrite sum_scaled. field. assumption.
Qed.

Lemma zip_with_fmul_Fin (xs ws : list R) :
  zip_with fmul (Fin <$> xs) (Fin <$> ws) = Fin <$> zip_with Rmult xs ws.
Proof.
  revert ws. induction xs as [|x xs IH]; intros [|w ws];
    try reflexivity.
  rewrite !fmap_cons. cbn [zip_with]. rewrite IH. reflexivity.
Qed.

End FiniteArithmetic.

(** ** The three kernels *)

Section Kernels.
Local Open Scope R_scope.

Lemma mean_filter_well_conditioned cutoff : well_conditioned mean_filter cutoff.
Proof.
  exists (fun _ => 1). split_and!; try (intros; lra).
  intros ys. unfold mean_filter.
  induction ys as [|y ys IH]; [reflexivity|].
  rewrite !fmap_cons. cbn [length replicate]. rewrite IH. reflexivity.
Qed.

Lemma gauss_well_conditioned c : c <> 0 -> well_conditioned gauss (Fin c).
Proof.
  intros Hc. exists (fun y => exp (- (y / c * (y / c * 1)) / 2)).
  split_and!.
  - intros ys. unfold gauss. rewrite <- !list_fmap_compose.
    apply list_fmap_ext. intros _ y _. simpl.
    destruct (Req_dec_T c 0); [contradiction|]. simpl.
    destruct (Req_dec_T 2 0); [lra|]. reflexivity.
  - intros y. left. apply exp_pos.
  - apply exp_pos.
Qed.

Lemma _triangle_well_conditioned c : 0 < c -> well_conditioned _triangle (Fin c).
Proof.
  intros Hc.
  exists (fun y => if Rlt_dec (c + - Rabs y) 0 then 0 else c + - Rabs y).
  split_and!.
  - intros ys. unfold _triangle. rewrite <- !list_fmap_compose.
    apply list_fmap_ext. intros _ y _. simpl.
    destruct (Rlt_dec (c + - Rabs y) 0); reflexivity.
  - intros y. destruct (Rlt_dec (c + - Rabs y) 0); lra.
  - rewrite Rabs_R0. destruct (Rlt_dec (c + - 0) 0); lra.
Qed.

Lemma tlp_func_well_conditioned params epochlist :
  tlp_config_ok params epochlist ->
  tlp_func (TLPF_METHOD params) = mean_filter
  \/ (well_conditioned (tlp_func (TLPF_METHOD params)) (TLPF_CUTOFF params)
      /\ all_finite (spans epochlist)).
Proof.
  unfold tlp_config_ok, tlp_func.
  destruct (TLPF_METHOD params =? 1)%Z.
  - intros [(c & -> & Hc) Hs]. right. split; [|exact Hs].
    apply gauss_well_conditioned. assumption.
  - destruct (TLPF_METHOD params =? 2)%Z.
    + intros [(c & -> & Hc) Hs]. right. split; [|exact Hs].
      apply _triangle_well_conditioned. assumption.
    + intros _. left. reflexivity.
Qed.

End Kernels.

(** ** Finite inputs give finite intermediate arrays *)

Section Finiteness.
Local Open Scope R_scope.

Lemma np_take_all_finite (v : vec) sel l :
  all_finite v -> np_take v sel = Ok l -> all_finite l.
Proof.
  unfold all_finite. rewrite np_take_Ok, !Forall_forall. intros Hv H x Hx.
  apply list_elem_of_lookup in Hx as [k Hk].
  destruct (Forall2_lookup_r _ _ _ _ _ H Hk) as (t & _ & Ht).
  apply Hv. eapply list_elem_of_lookup_2. eassumption.
Qed.

Lemma broadcast_all_finite op (a b c : vec) :
  (forall x y, isfinite x = true -> isfinite y = true ->
               isfinite (op x y) = true) ->
  all_finite a -> all_finite b -> broadcast op a b = Ok c -> all_finite c.
Proof.
  unfold all_finite, broadcast. intros Hop Ha Hb. case_decide.
  - intros [= <-]. clear H. revert b Hb.
    induction Ha as [|x a Hx Ha IH]; intros b Hb; [constructor|].
    destruct Hb as [|y b Hy Hb]; simpl; constructor; auto.
  - destruct a as [|x [|x' a]].
    + destruct b as [|y [|y' b]]; try discriminate.
      intros [= <-]. constructor.
    + intros Heq. assert (c = op x <$> b) as -> by congruence.
      apply Forall_fmap. eapply Forall_impl; [exact Hb|].
      intros y Hy. apply Hop; [|assumption]. inversion Ha. assumption.
    + destruct b as [|y [|y' b]]; try discriminate.
      intros Heq.
      assert (c = (fun z => op z y) <$> (x :: x' :: a)) as -> by congruence.
      apply Forall_fmap. eapply Forall_impl; [exact Ha|].
      intros z Hz. apply Hop; [assumption|]. inversion Hb. assumption.
Qed.

Lemma fadd_finite x y :
  isfinite x = true -> isfinite y = true -> isfinite (fadd x y) = true.
Proof. destruct x, y; simpl; congruence. Qed.

Lemma fsub_finite x y :
  isfinite x = true -> isfinite y = true -> isfinite (fsub x y) = true.
Proof. destruct x, y; simpl; congruence. Qed.

Lemma np_diff_all_finite (v : vec) : all_finite v -> all_finite (np_diff v).
Proof.
  unfold all_finite. induction 1 as [|x v Hx Hv IH]; [constructor|].
  destruct Hv as [|y v Hy Hv]; [constructor|].
  change (Forall (fun x => isfinite x = true)
                 (fsub y x :: np_diff (y :: v))).
  constructor; [apply fsub_finite; assumption | exact IH].
Qed.

Lemma tlp_span_all_finite tsincr epochlist span :
  all_finite (spans epochlist) -> tlp_span tsincr epochlist = Ok span ->
  all_finite span.
Proof.
  unfold tlp_span. intros Hs. apply broadcast_all_finite.
  - exact fadd_finite.
  - apply Forall_take. exact Hs.
  - apply Forall_fmap. eapply Forall_impl; [apply np_diff_all_finite, Hs|].
    intros [r| | |]; try discriminate. intros _. simpl.
    destruct (Req_dec_T 2 0); [lra | reflexivity].
Qed.

(** Non-negative finite raw weights, one of them positive, are
    normalised to finite weights that sum to one. *)
Lemma normalise_raw (raw : list R) k r :
  Forall (fun r => 0 <= r) raw -> raw !! k = Some r -> 0 < r ->
  exists ws : list R,
    (fun w => fdiv w (np_sum (Fin <$> raw))) <$> (Fin <$> raw) = Fin <$> ws
    /\ length ws = length raw /\ foldr Rplus 0 ws = 1.
Proof.
  intros Hnn Hk Hr. pose proof (sum_positive raw k r Hnn Hk Hr) as Hsum.
  destruct (normalised_sum raw) as [Hnorm Hone]; [lra|].
  eexists. split_and!; [exact Hnorm | | exact Hone].
  rewrite length_fmap. reflexivity.
Qed.

(** The weights of lines 487-489 for a well-conditioned kernel. *)
Lemma tlp_weights_normalised func cutoff span sel k wgt :
  func = mean_filter \/ (well_conditioned func cutoff /\ all_finite span) ->
  tlp_weights func (length sel) span sel k cutoff = Ok wgt ->
  exists ws : list R,
    wgt = Fin <$> ws /\ length ws = length sel /\ foldr Rplus 0 ws = 1.
Proof.
  intros Hfunc. unfold tlp_weights. intros H.
  inv_result. rename x into span_sel, x0 into sel_k, x1 into span_k.
  match goal with
  | H1 : np_take span sel = Ok _, H2 : getitem sel k = Ok _,
    H3 : getitem span _ = Ok _ |- _ =>
      rename H1 into Htake, H2 into Hk, H3 into Hsk;
      apply getitem_Ok in Hk, Hsk
  end.
  subst wgt. destruct Hfunc as [->|[(g & Hg & Hnn & Hpos) Hspan]].
  - unfold mean_filter.
    replace (replicate (length sel) (Fin 1))
      with (Fin <$> replicate (length sel) 1) by apply fmap_replicate.
    destruct (normalise_raw (replicate (length sel) 1) k 1)
      as (ws & Hws & Hlen & Hone).
    + apply Forall_replicate. lra.
    + apply lookup_replicate_2. eapply lookup_lt_Some. eassumption.
    + lra.
    + exists ws. rewrite length_replicate in Hlen. auto.
  - pose proof (np_take_all_finite _ _ _ Hspan Htake) as Hfin.
    apply all_finite_Fin in Hfin as (ss & ->).
    assert (exists sk, span_k = Fin sk) as (sk & ->).
    { unfold all_finite in Hspan. rewrite Forall_forall in Hspan.
      specialize (Hspan span_k (list_elem_of_lookup_2 _ _ _ Hsk)).
      destruct span_k; try discriminate. eauto. }
    assert (Hlen : length ss = length sel).
    { apply np_take_length in Htake. rewrite length_fmap in Htake.
      exact Htake. }
    assert (Hyr : (fun s => fsub s (Fin sk)) <$> (Fin <$> ss)
                  = Fin <$> ((fun s => s + - sk) <$> ss)).
    { rewrite <- !list_fmap_compose. apply list_fmap_ext. reflexivity. }
    rewrite Hyr.
    replace (length sel) with (length ((fun s => s + - sk) <$> ss))
      by (rewrite length_fmap; exact Hlen).
    rewrite Hg.
    destruct (normalise_raw (g <$> ((fun s => s + - sk) <$> ss)) k (g 0))
      as (ws & Hws & Hlenws & Hone).
    + apply Forall_fmap, Forall_forall. intros y _. apply Hnn.
    + rewrite !list_lookup_fmap.
      pose proof (np_take_lookup _ _ _ _ _ Htake Hk) as Hl.
      rewrite list_lookup_fmap, Hsk in Hl.
      destruct (ss !! k) as [s|]; [|discriminate]. simpl in *.
      injection Hl as ->. do 2 f_equal. lra.
    + exact Hpos.
    + exists ws. rewrite !length_fmap in Hlenws.
      rewrite !length_fmap. split_and!; [exact Hws | lia | exact Hone].
Qed.

End Finiteness.

(** ** The temporal filter, cell by cell *)

Section TemporalFilter.
Context (tsincr : cube) (epochlist : EpochList) (params : Params).

Lemma temporal_low_pass_filter_Ok out :
  temporal_low_pass_filter tsincr epochlist params = Ok out ->
  exists span,
    tlp_span tsincr epochlist = Ok span /\
    _tlpfilter (shape1 tsincr) (TLPF_CUTOFF params) (not_nan_mask tsincr)
               (shape0 tsincr) span (TLPF_PTHR params) (nan_like tsincr)
               tsincr (tlp_func (TLPF_METHOD params)) = Ok out.
Proof. unfold temporal_low_pass_filter. intros H. inv_result. eauto. Qed.

(** Cells of pixels below the threshold, and cells whose input is not a
    valid number, are never written: they keep what they were initialised
    with. *)
Lemma tlp_unwritten out i j v t :
  temporal_low_pass_filter tsincr epochlist params = Ok out ->
  pixel tsincr i j = Ok v ->
  (Z.of_nat (valid_epochs v) < TLPF_PTHR params)%Z
  \/ ~ (exists x, v !! t = Some x /\ isnan x = false) ->
  cell out i j t = cell (nan_like tsincr) i j t.
Proof.
  intros (span & _ & Hrun)%temporal_low_pass_filter_Ok Hv Hcase.
  destruct (_tlpfilter_cells _ _ _ _ _ _ _ _ _ _ Hrun i j t) as [Hout Hin].
  destruct (decide (i < shape0 tsincr /\ j < shape1 tsincr)) as [[Hi Hj]|Hn].
  - destruct (Hin Hi Hj) as (mask & Hmask & Hcell).
    apply not_nan_mask_pixel in Hmask as (v' & Hv' & ->).
    assert (v' = v) as -> by congruence.
    rewrite nonzero_length in Hcell.
    destruct (Z.leb_spec (TLPF_PTHR params) (Z.of_nat (valid_epochs v)))
      as [Hle|Hlt]; [|congruence].
    destruct Hcase as [Hlow|Hnan]; [lia|].
    destruct Hcell as [Hsame _]. apply Hsame.
    rewrite nonzero_valid. exact Hnan.
  - apply Hout. assumption.
Qed.

(** A cell of a filtered pixel whose input is not NaN holds the weighted
    sum of line 490 for its position [k] among the valid epochs. *)
Lemma tlp_written out i j v t x :
  temporal_low_pass_filter tsincr epochlist params = Ok out ->
  pixel tsincr i j = Ok v -> j < shape1 tsincr ->
  (TLPF_PTHR params <= Z.of_nat (valid_epochs v))%Z ->
  v !! t = Some x -> isnan x = false ->
  let sel := nonzero ((fun x => negb (isnan x)) <$> v) in
  exists span k wgt vals,
    tlp_span tsincr epochlist = Ok span
    /\ sel !! k = Some t
    /\ tlp_weights (tlp_func (TLPF_METHOD params)) (length sel) span sel k
                   (TLPF_CUTOFF params) = Ok wgt
    /\ np_take v sel = Ok vals
    /\ (length wgt = length sel ->
        cell out i j t = Some (np_sum (zip_with fmul vals wgt))).
Proof.
  intros (span & Hspan & Hrun)%temporal_low_pass_filter_Ok Hv Hj Hthr Hx Hxn
    sel.
  assert (Hi : i < shape0 tsincr).
  { apply pixel_Ok in Hv as (row & Hrow & _).
    eapply lookup_lt_Some. eassumption. }
  destruct (_tlpfilter_cells _ _ _ _ _ _ _ _ _ _ Hrun i j t) as [_ Hin].
  destruct (Hin Hi Hj) as (mask & Hmask & Hcell).
  apply not_nan_mask_pixel in Hmask as (v' & Hv' & ->).
  assert (v' = v) as -> by congruence. fold sel in Hcell.
  unfold sel in Hcell at 1. rewrite nonzero_length in Hcell.
  destruct (Z.leb_spec (TLPF_PTHR params) (Z.of_nat (valid_epochs v)))
    as [_|Hlt]; [|lia].
  destruct Hcell as [_ Hwr].
  assert (Hin_sel : t ∈ sel) by (apply nonzero_valid; eauto).
  apply list_elem_of_lookup in Hin_sel as [k Hk].
  destruct (Hwr k Hk) as (wgt & y & Hw & Hval & Hy).
  unfold tlp_value in Hval. inv_result.
  assert (x0 = v) as -> by congruence. rename x1 into vals, x2 into prod.
  exists span, k, wgt, vals. split_and!; try assumption.
  intros Hlen. rewrite Hy. do 2 f_equal. subst y.
  match goal with Hb : broadcast _ _ _ = Ok _ |- _ =>
    unfold broadcast in Hb; rewrite decide_True in Hb; [congruence|] end.
  match goal with Ht : np_take v sel = Ok _ |- _ =>
    apply np_take_length in Ht; congruence end.
Qed.

End TemporalFilter.

(** ** Shapes *)

Lemma set_cell_shape c i j k x c' :
  set_cell c i j k x = Ok c' -> lengths c' = lengths c.
Proof.
  intros (row & v & Hi & Hj & Hk & ->)%set_cell_Ok. unfold lengths.
  rewrite list_fmap_insert, list_fmap_insert, length_insert.
  rewrite (list_insert_id (length <$> row) j (length v))
    by (rewrite list_lookup_fmap, Hj; reflexivity).
  apply list_insert_id. rewrite list_lookup_fmap, Hi. reflexivity.
Qed.

Lemma _tlpfilter_shape cols cutoff nanmat rows span threshold out0 tsincr func
    out :
  _tlpfilter cols cutoff nanmat rows span threshold out0 tsincr func = Ok out ->
  lengths out = lengths out0.
Proof.
  unfold _tlpfilter.
  apply (for_each_inv (fun c : cube => lengths c = lengths out0));
    [|reflexivity].
  intros i s s' _ Hs. rewrite <- Hs.
  apply (for_each_inv (fun c : cube => lengths c = lengths s));
    [|reflexivity].
  clear. intros j r r' _ Hr (mask & _ & Hp)%tlp_pixel_Ok. rewrite <- Hr.
  destruct (threshold <=? _)%Z; [|subst; reflexivity]. revert Hp.
  apply (for_each_inv (fun c : cube => lengths c = lengths r));
    [|reflexivity].
  clear. intros k q q' _ Hq (wgt & x & t & _ & _ & _ & Hset)%tlp_epoch_Ok.
  rewrite <- Hq. eapply set_cell_shape. eassumption.
Qed.

(** Two cubes of one shape that agree on the cells of a pixel agree on the
    pixel. *)
Lemma pixel_of_cells (c c' : cube) i j v :
  lengths c' = lengths c -> pixel c i j = Ok v ->
  (forall t, cell c' i j t = cell c i j t) -> pixel c' i j = Ok v.
Proof.
  intros Hshape Hv Hcells. pose proof (cell_pixel _ _ _ _ Hv) as Hc.
  apply pixel_Ok in Hv as (row & Hi & Hj).
  assert (Hi' : lengths c' !! i = Some (length <$> row))
    by (rewrite Hshape; unfold lengths; rewrite list_lookup_fmap, Hi;
        reflexivity).
  unfold lengths in Hi'. rewrite list_lookup_fmap in Hi'.
  destruct (c' !! i) as [row'|] eqn:Hrow'; [|discriminate].
  injection Hi' as Hlen.
  assert (Hj' : (length <$> row') !! j = Some (length v))
    by (rewrite Hlen, list_lookup_fmap, Hj; reflexivity).
  rewrite list_lookup_fmap in Hj'.
  destruct (row' !! j) as [v'|] eqn:Hv'; [|discriminate].
  apply pixel_Ok. exists row'. split; [assumption|]. rewrite Hv'. f_equal.
  apply list_eq. intros t. rewrite <- Hc, <- Hcells. unfold cell.
  rewrite Hrow'. simpl. rewrite Hv'. reflexivity.
Qed.

Lemma nan_like_pixel (tsincr : cube) i j v :
  pixel tsincr i j = Ok v ->
  pixel (nan_like tsincr) i j = Ok (replicate (length v) NaN).
Proof.
  intros (row & Hi & Hj)%pixel_Ok. apply pixel_Ok. unfold nan_like.
  exists (map (fun _ : npfloat => NaN) <$> row). split.
  - rewrite list_lookup_fmap, Hi. reflexivity.
  - rewrite list_lookup_fmap, Hj. simpl. f_equal.
    clear. induction v; simpl; congruence.
Qed.

(** ** Evaluation on concrete inputs *)

(** The model is evaluated by reduction; a comparison of two real numbers
    is settled by [lra] as soon as its operands are explicit. *)
Ltac np_decide :=
  match goal with
  | |- context [Rcase_abs ?a] => destruct (Rcase_abs a); [exfalso; lra | ]
  | |- context [Rcase_abs ?a] => destruct (Rcase_abs a); [ | exfalso; lra]
  | |- context [Req_dec_T ?a ?b] => destruct (Req_dec_T a b); [exfalso; lra | ]
  | |- context [Req_dec_T ?a ?b] => destruct (Req_dec_T a b); [ | exfalso; lra]
  | |- context [Rlt_dec ?a ?b] => destruct (Rlt_dec a b); [exfalso; lra | ]
  | |- context [Rlt_dec ?a ?b] => destruct (Rlt_dec a b); [ | exfalso; lra]
  end.

Ltac np_red :=
  cbv -[_slp_filter PI cos sin sqrt exp IZR Rplus Rmult Rminus Ropp Rinv Rdiv
        Req_dec_T Rlt_dec Rcase_abs].

Ltac np_red_in H :=
  cbv -[_slp_filter PI cos sin sqrt exp IZR Rplus Rmult Rminus Ropp Rinv Rdiv
        Req_dec_T Rlt_dec Rcase_abs] in H.

Ltac np_eval := np_red; repeat (np_decide; np_red).

Ltac np_close :=
  repeat match goal with
    | |- @eq R _ _ => fail 1
    | |- Fin _ = Fin _ => apply f_equal
    | |- _ => progress f_equal
    end;
  try (field; lra); try lra.

(** * Temporal filter: the claims *)

(** C5. A pixel with fewer valid epochs than the threshold is skipped by the
    loop body without an exception, whatever the kernel, and in the output
    of the temporal filter its row is NaN at every epoch. *)
Theorem tlp_below_threshold_row_is_nan
    (tsincr : cube) (epochlist : EpochList) (params : Params)
    (i j : nat) (v : vec) :
  pixel tsincr i j = Ok v ->
  (Z.of_nat (valid_epochs v) < TLPF_PTHR params)%Z ->
  (forall cutoff span func tsfilt_incr,
      tlp_pixel cutoff (not_nan_mask tsincr) span (TLPF_PTHR params) tsincr
                func i j tsfilt_incr = Ok tsfilt_incr)
  /\ (forall out,
        temporal_low_pass_filter tsincr epochlist params = Ok out ->
        pixel out i j = Ok (replicate (length v) NaN)).
Proof.
  intros Hv Hlow. split.
  - intros cutoff span func tsfilt_incr. unfold tlp_pixel.
    assert (Hm : pixel (not_nan_mask tsincr) i j
                 = Ok ((fun x => negb (isnan x)) <$> v))
      by (apply not_nan_mask_pixel; eauto).
    rewrite Hm. simpl. rewrite nonzero_length.
    destruct (Z.leb_spec (TLPF_PTHR params) (Z.of_nat (valid_epochs v)));
      [lia | reflexivity].
  - intros out Hrun. apply pixel_of_cells with (c := nan_like tsincr).
    + apply temporal_low_pass_filter_Ok in Hrun as (span & _ & Hrun).
      eapply _tlpfilter_shape. eassumption.
    + apply nan_like_pixel. assumption.
    + intros t. eapply tlp_unwritten; eauto.
Qed.

Lemma tlp_below_threshold_row_is_nan_witness :
  pixel (nan_like sample_cube) 0 0 = Ok [NaN; NaN]
  /\ forall out,
      temporal_low_pass_filter sample_cube sample_epochs
        (sample_params 3 (Fin 1) 3) = Ok out ->
      pixel out 0 0 = Ok [NaN; NaN].
Proof.
  split; [reflexivity|].
  apply (tlp_below_threshold_row_is_nan sample_cube sample_epochs
           (sample_params 3 (Fin 1) 3) 0 0 [Fin 1; Fin 3]).
  - reflexivity.
  - vm_compute. reflexivity.
Defined.

(** The written cell of a filtered pixel under a well-conditioned kernel:
    finite weights that sum to one. *)
Lemma tlp_written_normalised
    (tsincr : cube) (epochlist : EpochList) (params : Params) (out : cube)
    (i j : nat) (v : vec) (t : nat) (x : npfloat) :
  temporal_low_pass_filter tsincr epochlist params = Ok out ->
  tlp_config_ok params epochlist ->
  pixel tsincr i j = Ok v -> j < shape1 tsincr ->
  (TLPF_PTHR params <= Z.of_nat (valid_epochs v))%Z ->
  v !! t = Some x -> isnan x = false ->
  let sel := nonzero ((fun x => negb (isnan x)) <$> v) in
  exists span k (ws : list R) vals,
    tlp_span tsincr epochlist = Ok span
    /\ sel !! k = Some t
    /\ tlp_weights (tlp_func (TLPF_METHOD params)) (length sel) span sel k
                   (TLPF_CUTOFF params) = Ok (Fin <$> ws)
    /\ foldr Rplus 0%R ws = 1%R
    /\ np_take v sel = Ok vals
    /\ length vals = length ws
    /\ cell out i j t = Some (np_sum (zip_with fmul vals (Fin <$> ws))).
Proof.
  intros Hrun Hcfg Hv Hj Hthr Hx Hxn sel.
  destruct (tlp_written tsincr epochlist params out i j v t x
              Hrun Hv Hj Hthr Hx Hxn)
    as (span & k & wgt & vals & Hspan & Hk & Hw & Hvals & Hcell).
  fold sel in Hk, Hw, Hvals, Hcell.
  destruct (tlp_weights_normalised _ _ _ _ _ _
              ltac:(destruct (tlp_func_well_conditioned _ _ Hcfg)
                      as [Hm|[Hwc Hs]];
                    [left; exact Hm
                    |right; split;
                     [exact Hwc
                     |eapply tlp_span_all_finite; eassumption]]) Hw)
    as (ws & -> & Hlen & Hone).
  exists span, k, ws, vals. split_and!; try assumption.
  - apply np_take_length in Hvals. congruence.
  - apply Hcell. rewrite length_fmap. exact Hlen.
Qed.

(** C4 (amended). In the exact arithmetic of the model, in which a finite
    cell is a real number that is neither rounded nor narrowed to single
    precision: for a pixel with at least [threshold] valid epochs and a
    valid epoch [t] of it, under a configuration whose kernel does not
    divide by zero ([tlp_config_ok]), the weights the filter uses for [t]
    sum to one and the output cell is the sum of the valid inputs times
    these weights. *)
Theorem tlp_weights_sum_to_one
    (tsincr : cube) (epochlist : EpochList) (params : Params) (out : cube)
    (i j : nat) (v : vec) (t : nat) (x : npfloat) :
  temporal_low_pass_filter tsincr epochlist params = Ok out ->
  tlp_config_ok params epochlist ->
  pixel tsincr i j = Ok v -> j < shape1 tsincr ->
  (TLPF_PTHR params <= Z.of_nat (valid_epochs v))%Z ->
  v !! t = Some x -> isnan x = false ->
  let sel := nonzero ((fun x => negb (isnan x)) <$> v) in
  exists span k wgt vals,
    tlp_span tsincr epochlist = Ok span
    /\ sel !! k = Some t
    /\ tlp_weights (tlp_func (TLPF_METHOD params)) (length sel) span sel k
                   (TLPF_CUTOFF params) = Ok wgt
    /\ np_sum wgt = Fin 1
    /\ np_take v sel = Ok vals
    /\ cell out i j t = Some (np_sum (zip_with fmul vals wgt)).
Proof.
  intros Hrun Hcfg Hv Hj Hthr Hx Hxn sel.
  destruct (tlp_written_normalised tsincr epochlist params out i j v t x
              Hrun Hcfg Hv Hj Hthr Hx Hxn)
    as (span & k & ws & vals & Hspan & Hk & Hw & Hone & Hvals & _ & Hcell).
  exists span, k, (Fin <$> ws), vals. split_and!; try assumption.
  rewrite np_sum_Fin, Hone. reflexivity.
Qed.

(** The mean kernel on the sample cube: both cells become the mean. *)
Lemma sample_mean_run :
  temporal_low_pass_filter sample_cube sample_epochs
    (sample_params 3 (Fin 1) 2) = Ok [[[Fin 2; Fin 2]]].
Proof. np_eval. np_close. Qed.

Lemma tlp_weights_sum_to_one_witness :
  exists span k wgt vals,
    tlp_span sample_cube sample_epochs = Ok span
    /\ [0; 1] !! k = Some 1
    /\ tlp_weights mean_filter 2 span [0; 1] k (Fin 1) = Ok wgt
    /\ np_sum wgt = Fin 1
    /\ np_take [Fin 1; Fin 3] [0; 1] = Ok vals
    /\ cell [[[Fin 2; Fin 2]]] 0 0 1
       = Some (np_sum (zip_with fmul vals wgt)).
Proof.
  apply (tlp_weights_sum_to_one sample_cube sample_epochs
           (sample_params 3 (Fin 1) 2) [[[Fin 2; Fin 2]]] 0 0
           [Fin 1; Fin 3] 1 (Fin 3)).
  - exact sample_mean_run.
  - exact I.
  - reflexivity.
  - simpl. lia.
  - vm_compute. discriminate.
  - reflexivity.
  - reflexivity.
Defined.

(** C4, as stated, fails for the triangular kernel with a zero cutoff: the
    pixel has two valid epochs, the threshold is two, and the weights used
    for the first valid epoch are NaN. *)
Lemma tlp_weights_triangle_zero_cutoff :
  (TLPF_PTHR (sample_params 2 (Fin 0) 2)
   <= Z.of_nat (valid_epochs [Fin 1; Fin 3]))%Z
  /\ (span ← tlp_span sample_cube sample_epochs;
      tlp_weights (tlp_func (TLPF_METHOD (sample_params 2 (Fin 0) 2)))
                  2 span [0; 1] 0 (TLPF_CUTOFF (sample_params 2 (Fin 0) 2)))
     = Ok [NaN; NaN]
  /\ np_sum [NaN; NaN] <> Fin 1.
Proof.
  split_and!.
  - vm_compute. discriminate.
  - np_eval. reflexivity.
  - discriminate.
Qed.

(** C9 (amended). In the output of the temporal filter every cell whose
    input is NaN is NaN, for every pixel.  For a pixel with at least
    [threshold] valid epochs whose valid inputs are finite, under a
    configuration whose kernel does not divide by zero, every cell whose
    input is not NaN is not NaN in the output; this second part is proved
    in the exact arithmetic of the model, in which a finite cell is a real
    number that is neither rounded nor narrowed to single precision. *)
Theorem tlp_output_nan_mask
    (tsincr : cube) (epochlist : EpochList) (params : Params) (out : cube)
    (i j : nat) (v : vec) :
  temporal_low_pass_filter tsincr epochlist params = Ok out ->
  pixel tsincr i j = Ok v ->
  (forall t, v !! t = Some NaN -> cell out i j t = Some NaN)
  /\ (tlp_config_ok params epochlist -> j < shape1 tsincr ->
      (TLPF_PTHR params <= Z.of_nat (valid_epochs v))%Z ->
      (forall t x, v !! t = Some x -> isnan x = false -> isfinite x = true) ->
      forall t x, v !! t = Some x -> isnan x = false ->
                  exists y, cell out i j t = Some y /\ isnan y = false).
Proof.
  intros Hrun Hv. split.
  - intros t Ht.
    rewrite (tlp_unwritten tsincr epochlist params out i j v t Hrun Hv).
    + rewrite (nan_like_cell tsincr i j v t Hv).
      rewrite decide_True; [reflexivity|]. eapply lookup_lt_Some. eassumption.
    + right. intros (x & Hx & Hxn). rewrite Ht in Hx. injection Hx as <-.
      discriminate.
  - intros Hcfg Hj Hthr Hfin t x Hx Hxn.
    destruct (tlp_written_normalised tsincr epochlist params out i j v t x
                Hrun Hcfg Hv Hj Hthr Hx Hxn)
      as (span & k & ws & vals & _ & _ & _ & _ & Hvals & _ & Hcell).
    assert (Hvf : all_finite vals).
    { unfold all_finite. apply Forall_forall. intros y Hy.
      apply list_elem_of_lookup in Hy as [n Hn]. apply np_take_Ok in Hvals.
      destruct (Forall2_lookup_r _ _ _ _ _ Hvals Hn) as (t' & Ht' & Hvt').
      apply (Hfin t' y Hvt').
      apply list_elem_of_lookup_2, nonzero_valid in Ht'
        as (y' & Hy' & Hy'n). congruence. }
    apply all_finite_Fin in Hvf as (xs & ->).
    rewrite zip_with_fmul_Fin, np_sum_Fin in Hcell.
    eexists. split; [exact Hcell | reflexivity].
Qed.

Lemma tlp_output_nan_mask_witness :
  (forall t, [Fin 1; Fin 3] !! t = Some NaN ->
             cell [[[Fin 2; Fin 2]]] 0 0 t = Some NaN)
  /\ exists y, cell [[[Fin 2; Fin 2]]] 0 0 1 = Some y /\ isnan y = false.
Proof.
  destruct (tlp_output_nan_mask sample_cube sample_epochs
              (sample_params 3 (Fin 1) 2) [[[Fin 2; Fin 2]]] 0 0
              [Fin 1; Fin 3] sample_mean_run eq_refl) as [Hnan Hfin].
  split; [exact Hnan|].
  apply (Hfin I ltac:(simpl; lia) ltac:(vm_compute; discriminate)) with (Fin 3).
  - intros [|[|t]] x [= <-]; reflexivity.
  - reflexivity.
  - reflexivity.
Defined.

(** C9, as stated, fails in two ways for a pixel that meets the threshold
    and whose two inputs are both valid.  With the triangular kernel and a
    zero cutoff the weights are [0 / 0] and both outputs are NaN.  With the
    mean kernel, whose weights are [1 / 2], and the inputs [inf] and
    [-inf], both outputs are [inf - inf], which is NaN. *)
Lemma tlp_triangle_zero_cutoff_output :
  ((TLPF_PTHR (sample_params 2 (Fin 0) 2)
    <= Z.of_nat (valid_epochs [Fin 1; Fin 3]))%Z
   /\ pixel sample_cube 0 0 = Ok [Fin 1; Fin 3]
   /\ temporal_low_pass_filter sample_cube sample_epochs
        (sample_params 2 (Fin 0) 2) = Ok [[[NaN; NaN]]])
  /\ ((TLPF_PTHR (sample_params 3 (Fin 1) 2)
       <= Z.of_nat (valid_epochs [PInf; NInf]))%Z
      /\ isnan PInf = false /\ isnan NInf = false
      /\ temporal_low_pass_filter [[[PInf; NInf]]] sample_epochs
           (sample_params 3 (Fin 1) 2) = Ok [[[NaN; NaN]]]).
Proof.
  split; split_and!.
  - vm_compute. discriminate.
  - reflexivity.
  - np_eval. reflexivity.
  - vm_compute. discriminate.
  - reflexivity.
  - reflexivity.
  - np_eval. reflexivity.
Qed.

(** * Spatial filter *)

(** ** What [_slp_filter] and [_slpfilter] do with NaN *)

Lemma mask_fill_nan (out : image) (phase : image) res r c :
  mask_fill out (isnan2 phase) NaN = Ok res ->
  cell2 phase r c = Some NaN -> cell2 res r c = Some NaN.
Proof.
  unfold mask_fill. case_decide as Hshape; [|discriminate].
  intros [= <-] Hc. unfold cell2 in *.
  destruct (phase !! r) as [prow|] eqn:Hprow; [|discriminate]. simpl in Hc.
  assert (Hlen : ((fun row : vec => length row) <$> out) !! r
                 = Some (length (isnan <$> prow))).
  { rewrite Hshape. unfold isnan2. rewrite !list_lookup_fmap, Hprow.
    reflexivity. }
  rewrite list_lookup_fmap in Hlen.
  destruct (out !! r) as [orow|] eqn:Horow; [|discriminate].
  injection Hlen as Hlen. rewrite length_fmap in Hlen.
  rewrite lookup_zip_with, Horow. unfold isnan2.
  rewrite list_lookup_fmap, Hprow. simpl.
  rewrite lookup_zip_with, list_lookup_fmap, Hc. simpl.
  destruct (lookup_lt_is_Some_2 orow c) as [x ->]; [|reflexivity].
  rewrite Hlen. eapply lookup_lt_Some. eassumption.
Qed.

(** Line 391: whatever the transform returns, a cell that is NaN in the
    raster handed to [_slp_filter] is NaN in its result. *)
Lemma _slp_filter_reapplies_mask phase cutoff rows cols xs ys params out r c :
  _slp_filter phase cutoff rows cols xs ys params = Ok out ->
  cell2 phase r c = Some NaN -> cell2 out r c = Some NaN.
Proof.
  unfold _slp_filter. intros H. inv_result. eapply mask_fill_nan. eassumption.
Qed.

(** Lines 334-335: a raster that is NaN everywhere is returned as it is. *)
Lemma _slpfilter_all_nan `{Collaborators} phase ifg r_dist params :
  all_nan phase = true -> _slpfilter phase ifg r_dist params = Ok phase.
Proof. unfold _slpfilter. intros ->. reflexivity. Qed.

(** After [ts_lp[np.isnan(ts_lp)] = 0] no cell is NaN, so the two lemmas
    above never apply to a slice that [spatial_low_pass_filter] passes
    on. *)
Lemma zero_fill_no_nan (a : image) r c x :
  cell2 (zero_fill a) r c = Some x -> isnan x = false.
Proof.
  unfold cell2, zero_fill. rewrite list_lookup_fmap.
  destruct (a !! r) as [row|]; [|discriminate]. simpl.
  rewrite list_lookup_fmap. destruct (row !! c) as [y|]; [|discriminate].
  simpl. intros [= <-]. destruct y; reflexivity.
Qed.

Lemma zero_fill_idempotent (a : image) : zero_fill (zero_fill a) = zero_fill a.
Proof.
  unfold zero_fill. rewrite <- list_fmap_compose. apply list_fmap_ext.
  intros _ row _. simpl. rewrite <- list_fmap_compose. apply list_fmap_ext.
  intros _ x _. simpl. destruct x; reflexivity.
Qed.

(** With the zero fill, the spatial filter cannot tell a NaN cell from a
    zero cell: its result on a cube is its result on the zero-filled
    cube. *)
Lemma spatial_filter_reads_nan_as_zero `{Collaborators} ts_lp ifg params :
  SLPF_NANFILL params = 0%Z ->
  spatial_low_pass_filter ts_lp ifg params
  = spatial_low_pass_filter ((fun row : list vec => zero_fill row) <$> ts_lp)
                            ifg params.
Proof.
  intros Hfill.
  assert (Hidem : (fun row : list vec => zero_fill row)
                    <$> ((fun row : list vec => zero_fill row) <$> ts_lp)
                  = (fun row : list vec => zero_fill row) <$> ts_lp).
  { rewrite <- list_fmap_compose. apply list_fmap_ext.
    intros _ row _. simpl. apply zero_fill_idempotent. }
  unfold spatial_low_pass_filter. rewrite Hfill. simpl. rewrite Hidem.
  reflexivity.
Qed.

(** ** Sample runs *)

(** The Gaussian transfer function on a row of two one-metre cells. *)
Lemma sample_transfer :
  exists h0 h1 : R,
    slp_transfer (sample_params 3 (Fin 1) 2) (slp_dist 1 2 (Fin 1) (Fin 1))
                 (Fin 1) = [[Fin h0; Fin h1]].
Proof. np_eval. eexists _, _. reflexivity. Qed.

(** [_slp_filter] on the zero-filled row [[0, 2]]. *)
Lemma sample_slp_filter :
  exists y0 y1 : R,
    _slp_filter [[Fin 0; Fin 2]] (Fin 1) 1 2 (Fin 1) (Fin 1)
                (sample_params 3 (Fin 1) 2) = Ok [[Fin y0; Fin y1]].
Proof.
  unfold _slp_filter. destruct sample_transfer as (h0 & h1 & ->).
  np_eval. eexists _, _. reflexivity.
Qed.

(** C1 (the code departs from the claim). A raster of one row and two
    pixels over one epoch, the first pixel NaN: the spatial filter
    zero-fills it before filtering, the mask of line 391 is taken from the
    filled slice, and the output holds a finite number where the input was
    NaN. *)
Theorem spatial_filter_fills_nan_pixel `{Collaborators} :
  cell [[[NaN]; [Fin 2]]] 0 0 0 = Some NaN
  /\ exists y0 y1 : R,
       spatial_low_pass_filter [[[NaN]; [Fin 2]]] (sample_ifg 1 2)
                               (sample_params 3 (Fin 1) 2)
       = Ok [[[Fin y0]; [Fin y1]]].
Proof.
  split; [reflexivity|].
  destruct sample_slp_filter as (y0 & y1 & HF). exists y0, y1.
  np_red_in HF. np_eval. rewrite HF. reflexivity.
Qed.

(** C6 (the code departs from the claim). A cube whose only epoch slice is
    NaN everywhere: the slice is zero-filled before [_slpfilter] tests it,
    it is filtered like any other, and the output slice is zero instead of
    NaN. *)
Theorem spatial_filter_all_nan_slice_is_filtered `{Collaborators} :
  (epoch_slice [[[NaN]]] 0 ≫= fun phase => Ok (all_nan phase)) = Ok true
  /\ spatial_low_pass_filter [[[NaN]]] (sample_ifg 1 1)
                             (sample_params 3 (Fin 1) 2)
     = Ok [[[Fin 0]]].
Proof.
  split; [reflexivity|].
  cbv -[PI cos sin sqrt exp IZR Rplus Rmult Rminus Ropp Rinv Rdiv
        Req_dec_T Rlt_dec Rcase_abs].
  repeat (np_decide;
          cbv -[PI cos sin sqrt exp IZR Rplus Rmult Rminus Ropp Rinv Rdiv
                Req_dec_T Rlt_dec Rcase_abs]).
  np_close.
Qed.

(** * Method dispatch *)

(** C10. A temporal method other than 1 and 2 selects the mean kernel, and
    the temporal filter is then the run of [_tlpfilter] with that kernel;
    a spatial method other than 1 selects the Gaussian transfer function,
    and [_slp_filter] is then the filter built on it.  Neither dispatch has
    a branch that raises. *)
Theorem unknown_method_falls_back (params : Params) :
  ((TLPF_METHOD params <> 1)%Z -> (TLPF_METHOD params <> 2)%Z ->
     tlp_func (TLPF_METHOD params) = mean_filter
     /\ forall tsincr epochlist,
          temporal_low_pass_filter tsincr epochlist params
          = (span ← tlp_span tsincr epochlist;
             _tlpfilter (shape1 tsincr) (TLPF_CUTOFF params)
                        (not_nan_mask tsincr) (shape0 tsincr) span
                        (TLPF_PTHR params) (nan_like tsincr) tsincr
                        mean_filter))
  /\ ((SLPF_METHOD params <> 1)%Z ->
      (forall dist cutoff,
          slp_transfer params dist cutoff
          = (fun row : vec => gaussian cutoff <$> row) <$> dist)
      /\ forall phase cutoff rows cols xs ys,
          _slp_filter phase cutoff rows cols xs ys params
          = (outf ← broadcast2 (fun z h => cmul z (of_real h))
                      (fftshift (fft2 phase))
                      ((fun row : vec => gaussian cutoff <$> row)
                         <$> slp_dist rows cols xs ys);
             mask_fill (real (ifft2 (ifftshift outf))) (isnan2 phase) NaN)).
Proof.
  split.
  - intros H1 H2.
    assert (Hf : tlp_func (TLPF_METHOD params) = mean_filter).
    { unfold tlp_func.
      destruct (Z.eqb_spec (TLPF_METHOD params) 1); [contradiction|].
      destruct (Z.eqb_spec (TLPF_METHOD params) 2); [contradiction|].
      reflexivity. }
    split; [exact Hf|]. intros tsincr epochlist.
    unfold temporal_low_pass_filter. rewrite Hf. reflexivity.
  - intros H1.
    assert (Ht : forall dist cutoff,
               slp_transfer params dist cutoff
               = (fun row : vec => gaussian cutoff <$> row) <$> dist).
    { intros dist cutoff. unfold slp_transfer.
      destruct (Z.eqb_spec (SLPF_METHOD params) 1); [contradiction|].
      reflexivity. }
    split; [exact Ht|]. intros phase cutoff rows cols xs ys.
    unfold _slp_filter. rewrite Ht. reflexivity.
Qed.

Lemma unknown_method_falls_back_witness :
  tlp_func (TLPF_METHOD sample_params_unknown_methods) = mean_filter
  /\ temporal_low_pass_filter sample_cube sample_epochs
       sample_params_unknown_methods = Ok [[[Fin 2; Fin 2]]]
  /\ slp_transfer sample_params_unknown_methods [[Fin 0]] (Fin 1)
     = [[gaussian (Fin 1) (Fin 0)]].
Proof.
  destruct (unknown_method_falls_back sample_params_unknown_methods)
    as [Ht Hs].
  destruct Ht as [Hf Hrun]; [simpl; lia | simpl; lia |].
  destruct Hs as [Htr _]; [simpl; lia |].
  split_and!.
  - exact Hf.
  - rewrite Hrun. np_eval. np_close.
  - rewrite Htr. reflexivity.
Defined.

(** * Reconstruction *)

Lemma overwrite_valid_cell data phase res r c old new :
  overwrite_valid data phase = Ok res ->
  cell2 data r c = Some old -> cell2 phase r c = Some new ->
  cell2 res r c = Some (if isnan old then old else new).
Proof.
  unfold overwrite_valid. case_decide; [|discriminate]. intros [= <-].
  unfold cell2. rewrite lookup_zip_with.
  destruct (data !! r) as [drow|]; [|discriminate].
  destruct (phase !! r) as [prow|]; [|discriminate]. simpl.
  rewrite lookup_zip_with. intros -> ->. reflexivity.
Qed.

Lemma overwrite_valid_shape data phase res :
  overwrite_valid data phase = Ok res ->
  (fun row : vec => length row) <$> res = (fun row : vec => length row) <$> data.
Proof.
  unfold overwrite_valid. case_decide as Hshape; [|discriminate].
  intros [= <-]. revert phase Hshape.
  induction data as [|drow data IH]; intros [|prow phase] Hshape;
    try discriminate; [reflexivity|].
  rewrite !fmap_cons in Hshape. injection Hshape as Hrow Hrest.
  cbn [zip_with]. rewrite !fmap_cons. f_equal; [|apply IH; exact Hrest].
  rewrite length_zip_with. lia.
Qed.

(** C3. Saving a corrected phase for a raster that is on disk, with a phase
    of the raster's shape: the call succeeds; a pixel that is NaN in the
    stored phase keeps its NaN and every other pixel takes the reconstructed
    value; the tag [PYRATE_APS_ERROR] of the file is [APS_REMOVED]; no other
    file changes; and the calls to the raster layer are, in this order,
    open for writing, set the tag, write the modified phase, close. *)
Theorem save_overwrites_valid_pixels_and_tags
    (ifg_path : string) (phase : image) (w : World) (f : Ifg) :
  rasters w !! ifg_path = Some f ->
  (fun row : vec => length row) <$> phase_data f
    = (fun row : vec => length row) <$> phase ->
  exists data w',
    _save_aps_corrected_phase ifg_path phase w = Ok w'
    /\ (fun row : vec => length row) <$> data
       = (fun row : vec => length row) <$> phase_data f
    /\ (forall r c old new,
          cell2 (phase_data f) r c = Some old -> cell2 phase r c = Some new ->
          cell2 data r c = Some (if isnan old then NaN else new))
    /\ rasters w'
       = <[ifg_path := {| path := ifg_path; shape := shape f;
                          x_size := x_size f; y_size := y_size f;
                          phase_data := data;
                          meta_data := <[PYRATE_APS_ERROR := APS_REMOVED]>
                                         (meta_data f) |}]> (rasters w)
    /\ scratch w' = scratch w
    /\ trace w'
       = trace w ++ [IfgOpened ifg_path false;
                     MetadataItemSet ifg_path PYRATE_APS_ERROR APS_REMOVED;
                     ModifiedPhaseWritten ifg_path;
                     IfgClosed ifg_path].
Proof.
  intros Hf Hshape.
  destruct (overwrite_valid (phase_data f) phase) as [data|e] eqn:Hdata.
  2:{ unfold overwrite_valid in Hdata. rewrite decide_True in Hdata by exact Hshape.
      discriminate. }
  exists data. eexists. split_and!.
  - unfold _save_aps_corrected_phase, Ifg_open. rewrite Hf. simpl.
    rewrite Hdata. simpl. reflexivity.
  - eapply overwrite_valid_shape. eassumption.
  - intros r c old new Hold Hnew.
    rewrite (overwrite_valid_cell _ _ _ r c old new Hdata Hold Hnew).
    destruct old; reflexivity.
  - reflexivity.
  - reflexivity.
  - simpl. rewrite <- !app_assoc. reflexivity.
Qed.

Lemma save_overwrites_valid_pixels_and_tags_witness :
  exists data w',
    _save_aps_corrected_phase "ifg_a.tif" [[Fin 8; Fin 9]] sample_world = Ok w'
    /\ (fun row : vec => length row) <$> data = [2]
    /\ (forall r c old new,
          cell2 [[NaN; Fin 5]] r c = Some old ->
          cell2 [[Fin 8; Fin 9]] r c = Some new ->
          cell2 data r c = Some (if isnan old then NaN else new))
    /\ rasters w' !! "ifg_a.tif"
       = Some {| path := "ifg_a.tif"; shape := (1, 2);
                 x_size := Fin 1; y_size := Fin 1;
                 phase_data := data;
                 meta_data := {[ PYRATE_APS_ERROR := APS_REMOVED ]} |}
    /\ trace w'
       = [IfgOpened "ifg_a.tif" false;
          MetadataItemSet "ifg_a.tif" PYRATE_APS_ERROR APS_REMOVED;
          ModifiedPhaseWritten "ifg_a.tif";
          IfgClosed "ifg_a.tif"].
Proof.
  destruct (save_overwrites_valid_pixels_and_tags "ifg_a.tif" [[Fin 8; Fin 9]]
              sample_world (sample_raster "ifg_a.tif" [[NaN; Fin 5]]))
    as (data & w' & Hrun & Hshape & Hcells & Hfiles & _ & Htrace).
  - reflexivity.
  - reflexivity.
  - exists data, w'. split_and!; try assumption.
    rewrite Hfiles. rewrite lookup_insert_eq. reflexivity.
Defined.

(** The cells of [v[a:b]] are the cells of [v] at the indices [a], ...,
    [b - 1], as far as [v] reaches. *)
Lemma slice_cells {A} (v : list A) a b :
  Forall2 (fun k x => v !! k = Some x)
          (seq a (b `min` length v - a)) (take (b - a) (drop a v)).
Proof.
  apply Forall2_same_length_lookup_2.
  - rewrite length_seq, length_take, length_drop. lia.
  - intros i k x [-> Hi]%lookup_seq Hx.
    rewrite lookup_take_Some in Hx. destruct Hx as [Hx _].
    rewrite lookup_drop in Hx. exact Hx.
Qed.

Lemma key_le_total : Total key_le.
Proof. intros a b. unfold key_le. apply String.leb_total. Qed.

(** * The wrapper and the correction-status tag *)

Lemma for_each_establish {I St} (P : I -> St -> Prop)
    (body : I -> St -> result St) l :
  (forall x s s', x ∈ l -> body x s = Ok s' ->
     P x s' /\ forall y, P y s -> P y s') ->
  forall s s', for_each l body s = Ok s' -> forall x, x ∈ l -> P x s'.
Proof.
  induction l as [|a l IH]; simpl; intros Hbody s s' Hrun x Hx.
  - inversion Hx.
  - inv_result. rename x0 into sa.
    assert (Hkeep : forall y, P y sa -> P y s').
    { intros y Hy. eapply (for_each_inv (P y)); [|exact Hy|exact Hrun].
      intros z t t' Hz Ht Hstep.
      exact (proj2 (Hbody z t t' ltac:(apply elem_of_cons; auto) Hstep)
                   y Ht). }
    apply elem_of_cons in Hx as [->|Hx].
    + apply Hkeep.
      exact (proj1 (Hbody a s sa ltac:(apply elem_of_cons; auto) H)).
    + eapply IH; [|eassumption|assumption].
      intros z t t' Hz. apply Hbody. apply elem_of_cons. auto.
Qed.

Lemma _save_aps_corrected_phase_Ok ifg_path phase w w' :
  _save_aps_corrected_phase ifg_path phase w = Ok w' ->
  exists f data,
    rasters w !! ifg_path = Some f
    /\ overwrite_valid (phase_data f) phase = Ok data
    /\ rasters w'
       = <[ifg_path := {| path := ifg_path; shape := shape f;
                          x_size := x_size f; y_size := y_size f;
                          phase_data := data;
                          meta_data := <[PYRATE_APS_ERROR := APS_REMOVED]>
                                         (meta_data f) |}]> (rasters w).
Proof.
  unfold _save_aps_corrected_phase, Ifg_open.
  destruct (rasters w !! ifg_path) as [f|]; [|discriminate]. simpl.
  destruct (overwrite_valid (phase_data f) phase) as [data|] eqn:Hd;
    [|discriminate]. simpl.
  intros [= <-]. exists f, data. split_and!; [reflexivity|exact Hd|reflexivity].
Qed.

(** A save tags its file and takes the tag from no file. *)
Lemma _save_aps_corrected_phase_tags ifg_path phase w w' :
  _save_aps_corrected_phase ifg_path phase w = Ok w' ->
  carries_tag w' ifg_path /\ forall q, carries_tag w q -> carries_tag w' q.
Proof.
  intros Hsave.
  apply _save_aps_corrected_phase_Ok in Hsave as (f & data & Hf & _ & Hfiles).
  unfold carries_tag. rewrite Hfiles. split.
  - eexists. rewrite lookup_insert_eq. split; [reflexivity|]. simpl.
    apply lookup_insert_eq.
  - intros q (g & Hg & Htag). destruct (decide (q = ifg_path)) as [->|Hne].
    + eexists. rewrite lookup_insert_eq. split; [reflexivity|]. simpl.
      apply lookup_insert_eq.
    + exists g. rewrite lookup_insert_ne by congruence. auto.
Qed.

(** After [_ts_to_ifgs] every interferogram of [preread_ifgs] carries the
    tag. *)
Lemma _ts_to_ifgs_tags `{Collaborators} tsincr preread_ifgs w w' key pre :
  _ts_to_ifgs tsincr preread_ifgs w = Ok w' ->
  (key, pre) ∈ preread_ifgs -> carries_tag w' (preread_path pre).
Proof.
  unfold _ts_to_ifgs. intros Hrun Hin.
  assert (Hpre : pre ∈ sorted_values preread_ifgs).
  { unfold sorted_values. apply list_elem_of_fmap. exists (key, pre).
    split; [reflexivity|]. rewrite merge_sort_Permutation. exact Hin. }
  apply list_elem_of_lookup in Hpre as [i Hi].
  apply (for_each_establish
           (fun (entry : nat * PrereadIfg) w =>
              carries_tag w (preread_path entry.2)) _ _)
    with (s := w) (s' := w') (x := (i, pre)) in Hrun.
  - exact Hrun.
  - intros entry s s' _ Hbody. unfold ts_to_ifg in Hbody. inv_result.
    apply _save_aps_corrected_phase_tags in Hbody as [Hown Hkeep].
    split; [exact Hown|]. intros y. apply Hkeep.
  - unfold enumerate. apply elem_of_lookup_imap. eauto.
Qed.

Lemma check_correction_status_all_tagged ifg_paths w :
  (forall p, p ∈ ifg_paths -> carries_tag w p) ->
  check_correction_status ifg_paths PYRATE_APS_ERROR w = Ok true.
Proof.
  unfold check_correction_status. intros Hall.
  assert (Hflags :
    mapM (fun p =>
            match rasters w !! p with
            | Some f => Ok (bool_decide (meta_data f !! PYRATE_APS_ERROR
                                         = Some APS_REMOVED))
            | None => Raise IfgException
            end) ifg_paths
    = Ok (replicate (length ifg_paths) true)).
  { induction ifg_paths as [|p ps IH]; [reflexivity|].
    destruct (Hall p) as (f & Hf & Htag); [apply elem_of_cons; auto|].
    cbn [mapM]. rewrite Hf. rewrite bool_decide_eq_true_2 by exact Htag.
    simpl. rewrite IH; [reflexivity|].
    intros q Hq. apply Hall. apply elem_of_cons. auto. }
  rewrite Hflags. simpl. f_equal. clear.
  induction (length ifg_paths) as [|n IH]; [reflexivity | exact IH].
Qed.

(** C7. When every interferogram of [ifg_paths] carries the tag, the
    wrapper returns right after the status check (or before it, when the
    correction is switched off): it reports [Skipped] and the rasters, the
    scratch directory and the trace of raster calls are what they were,
    whatever the collaborators would compute.  Hence a run that follows a
    run that corrected the interferograms of [ifg_paths] is skipped and
    leaves the world as it found it. *)
Theorem wrapper_skips_corrected_interferograms `{Collaborators}
    (ifg_paths : list string) (params : Params) (tiles : list Tile)
    (preread_ifgs : list (string * PrereadIfg)) (w : World) :
  ((forall p, p ∈ ifg_paths -> carries_tag w p) ->
   _wrap_spatio_temporal_filter ifg_paths params tiles preread_ifgs w
   = Ok (if APSEST params then Skipped else NotRequired, w))
  /\ (forall w1,
        _wrap_spatio_temporal_filter ifg_paths params tiles preread_ifgs w
        = Ok (Corrected, w1) ->
        (forall p, p ∈ ifg_paths ->
                   exists key pre, (key, pre) ∈ preread_ifgs
                                   /\ preread_path pre = p) ->
        _wrap_spatio_temporal_filter ifg_paths params tiles preread_ifgs w1
        = Ok (Skipped, w1)).
Proof.
  assert (Hskip : forall w,
    (forall p, p ∈ ifg_paths -> carries_tag w p) ->
    _wrap_spatio_temporal_filter ifg_paths params tiles preread_ifgs w
    = Ok (if APSEST params then Skipped else NotRequired, w)).
  { intros w0 Hall. unfold _wrap_spatio_temporal_filter.
    destruct (APSEST params); [|reflexivity]. simpl.
    rewrite check_correction_status_all_tagged by exact Hall. reflexivity. }
  split; [apply Hskip|].
  intros w1 Hrun Hpaths.
  assert (Haps : APSEST params = true).
  { unfold _wrap_spatio_temporal_filter in Hrun.
    destruct (APSEST params); [reflexivity | discriminate]. }
  rewrite (Hskip w1), Haps; [reflexivity|].
  intros p Hp. destruct (Hpaths p Hp) as (key & pre & Hin & <-).
  unfold _wrap_spatio_temporal_filter in Hrun. rewrite Haps in Hrun.
  simpl in Hrun. inv_result.
  match goal with Hc : (if ?c then _ else _) = Ok _ |- _ =>
    destruct c; [discriminate|] end.
  inv_result.
  match goal with Hs : spatio_temporal_filter _ _ _ _ _ = Ok _ |- _ =>
    unfold spatio_temporal_filter in Hs; inv_result;
    eapply _ts_to_ifgs_tags in Hs; [|exact Hin] end.
  subst w1. unfold carries_tag, Ifg_close, log in *. simpl. assumption.
Qed.

(** ** A run of the whole wrapper on the sample files *)

Lemma sample_slp_filter_row (a b : R) :
  exists y0 y1 : R,
    _slp_filter [[Fin a; Fin b]] (Fin 1) 1 2 (Fin 1) (Fin 1)
                (sample_params 3 (Fin 1) 2) = Ok [[Fin y0; Fin y1]].
Proof.
  unfold _slp_filter. destruct sample_transfer as (h0 & h1 & ->).
  np_eval. eexists _, _. reflexivity.
Qed.

Lemma sample_time_series_run :
  @_calc_svd_time_series sample_collaborators sample_paths
    (sample_params 3 (Fin 1) 2) sample_preread sample_tiles sample_world_run
  = Ok ([[[Fin 1; Fin 3]; [Fin 1; Fin 3]]], sample_world_tiles).
Proof. vm_compute. reflexivity. Qed.

Lemma sample_temporal_run :
  temporal_low_pass_filter [[[Fin 1; Fin 3]; [Fin 1; Fin 3]]]
    (@get_epochs sample_collaborators (snd <$> sample_preread)).1
    (sample_params 3 (Fin 1) 2)
  = Ok [[[Fin 2; Fin 2]; [Fin 2; Fin 2]]].
Proof. np_eval. np_close. Qed.

Lemma sample_spatial_run `{Collaborators} (ifg : Ifg) (a b c d : R) :
  shape ifg = (1, 2) -> x_size ifg = Fin 1 -> y_size ifg = Fin 1 ->
  exists y0 y1 y2 y3 : R,
    spatial_low_pass_filter [[[Fin a; Fin b]; [Fin c; Fin d]]] ifg
                            (sample_params 3 (Fin 1) 2)
    = Ok [[[Fin y0; Fin y1]; [Fin y2; Fin y3]]].
Proof.
  destruct ifg as [p sh xs ys pd md]. simpl. intros -> -> ->.
  destruct (sample_slp_filter_row a c) as (y0 & y2 & H0).
  destruct (sample_slp_filter_row b d) as (y1 & y3 & H1).
  exists y0, y1, y2, y3. np_red_in H0. np_red_in H1.
  np_eval. rewrite H0. np_eval. rewrite H1. np_eval. reflexivity.
Qed.

Lemma sample_reconstruction_run (a0 a1 b0 b1 : R) :
  exists w',
    @_ts_to_ifgs sample_collaborators [[[Fin a0; Fin a1]; [Fin b0; Fin b1]]]
       sample_preread (log (IfgOpened "ifg_a.tif" true) sample_world_tiles)
    = Ok w'.
Proof. vm_compute. eexists. reflexivity. Qed.

(** The first run corrects the two sample interferograms. *)
Lemma sample_first_run :
  exists w1,
    @_wrap_spatio_temporal_filter sample_collaborators sample_paths
       (sample_params 3 (Fin 1) 2) sample_tiles sample_preread sample_world_run
    = Ok (Corrected, w1).
Proof.
  unfold _wrap_spatio_temporal_filter.
  assert (Hc : check_correction_status sample_paths PYRATE_APS_ERROR
                 sample_world_run = Ok false) by (vm_compute; reflexivity).
  rewrite Hc, sample_time_series_run.
  cbn [negb APSEST sample_params mbind result_bind getitem sample_paths
       lookup list_lookup fst snd].
  assert (Ho : Ifg_open "ifg_a.tif" true sample_world_tiles
               = Ok (sample_raster "ifg_a.tif" [[NaN; Fin 5]],
                     log (IfgOpened "ifg_a.tif" true) sample_world_tiles))
    by (vm_compute; reflexivity).
  rewrite Ho. cbn [mbind result_bind fst snd].
  unfold spatio_temporal_filter. rewrite sample_temporal_run.
  cbn [mbind result_bind].
  assert (Hhp : cube_sub [[[Fin 1; Fin 3]; [Fin 1; Fin 3]]]
                         [[[Fin 2; Fin 2]; [Fin 2; Fin 2]]]
                = Ok [[[Fin (1 + - 2); Fin (3 + - 2)];
                       [Fin (1 + - 2); Fin (3 + - 2)]]]) by reflexivity.
  rewrite Hhp. cbn [mbind result_bind].
  destruct (@sample_spatial_run sample_collaborators
              (sample_raster "ifg_a.tif" [[NaN; Fin 5]])
              (1 + - 2) (3 + - 2) (1 + - 2) (3 + - 2) eq_refl eq_refl eq_refl)
    as (y0 & y1 & y2 & y3 & Hs).
  rewrite Hs. cbn [mbind result_bind].
  assert (Hsub : cube_sub [[[Fin 1; Fin 3]; [Fin 1; Fin 3]]]
                          [[[Fin y0; Fin y1]; [Fin y2; Fin y3]]]
                 = Ok [[[Fin (1 + - y0); Fin (3 + - y1)];
                        [Fin (1 + - y2); Fin (3 + - y3)]]]) by reflexivity.
  rewrite Hsub. cbn [mbind result_bind].
  destruct (sample_reconstruction_run (1 + - y0) (3 + - y1) (1 + - y2)
                                      (3 + - y3)) as (w' & Hw').
  rewrite Hw'. cbn [mbind result_bind]. eexists. reflexivity.
Qed.

Lemma wrapper_skips_corrected_interferograms_witness :
  @_wrap_spatio_temporal_filter sample_collaborators ["ifg_a.tif"]
     (sample_params 3 (Fin 1) 2) sample_tiles sample_preread
     sample_world_corrected
  = Ok (Skipped, sample_world_corrected)
  /\ exists w1,
       @_wrap_spatio_temporal_filter sample_collaborators sample_paths
          (sample_params 3 (Fin 1) 2) sample_tiles sample_preread
          sample_world_run
       = Ok (Corrected, w1)
       /\ @_wrap_spatio_temporal_filter sample_collaborators sample_paths
            (sample_params 3 (Fin 1) 2) sample_tiles sample_preread w1
          = Ok (Skipped, w1).
Proof.
  split.
  - apply (proj1 (@wrapper_skips_corrected_interferograms
                    sample_collaborators ["ifg_a.tif"]
                    (sample_params 3 (Fin 1) 2) sample_tiles sample_preread
                    sample_world_corrected)).
    intros p Hp. apply list_elem_of_singleton in Hp as ->.
    eexists. split; reflexivity.
  - destruct sample_first_run as (w1 & Hrun). exists w1.
    split; [exact Hrun|].
    apply (proj2 (@wrapper_skips_corrected_interferograms
                    sample_collaborators sample_paths
                    (sample_params 3 (Fin 1) 2) sample_tiles sample_preread
                    sample_world_run) w1 Hrun).
    intros p Hp. repeat (apply elem_of_cons in Hp as [->|Hp]);
      [ | | inversion Hp].
    + eexists _, _. split;
        [apply elem_of_cons; right; apply elem_of_cons; left; reflexivity
        |reflexivity].
    + eexists _, _. split; [apply elem_of_cons; left; reflexivity|reflexivity].
Defined.

(** * Assembly of the cube from the tile results *)

Lemma mapM_success {A B} (f : A -> result B) l :
  Forall (fun x => exists y, f x = Ok y) l -> exists k, mapM f l = Ok k.
Proof.
  induction 1 as [|x l [y Hy] _ [k Hk]].
  - exists []. reflexivity.
  - exists (y :: k). cbn [mapM]. rewrite Hy. simpl. rewrite Hk. reflexivity.
Qed.

Lemma for_each_imap {A B St} (h : nat -> A -> B) (body : B -> St -> result St)
    (g : A -> St -> result St) (l : list A) s :
  (forall i x s, body (h i x) s = g x s) ->
  for_each (imap h l) body s = for_each l g s.
Proof.
  revert h s. induction l as [|a l IH]; intros h s Hh; [reflexivity|].
  cbn [imap for_each]. rewrite Hh. destruct (g a s) as [s1|e]; [|reflexivity].
  simpl. apply IH. intros i x s'. apply Hh.
Qed.

Lemma for_each_Ok_all {I St} (body : I -> St -> result St) l s s' :
  for_each l body s = Ok s' ->
  forall x, x ∈ l -> exists s1 s2, body x s1 = Ok s2.
Proof.
  revert s. induction l as [|a l IH]; simpl; intros s Hrun x Hx.
  - inversion Hx.
  - inv_result. apply elem_of_cons in Hx as [->|Hx]; eauto.
Qed.

(** ** Shapes are kept by the assembly *)

Section AssemblyShapes.
Context (rows cols n : nat).

Lemma np_empty_has_shape `{Collaborators} :
  has_shape rows cols n (np_empty rows cols n).
Proof.
  unfold has_shape, np_empty, range. rewrite length_fmap, length_seq.
  split; [reflexivity|]. apply Forall_fmap, Forall_forall. intros r _.
  simpl. rewrite length_fmap, length_seq. split; [reflexivity|].
  apply Forall_fmap, Forall_forall. intros c _. simpl.
  rewrite length_fmap, length_seq. reflexivity.
Qed.

Lemma epoch_slice_has_shape (c : cube) i :
  has_shape rows cols n c -> i < n ->
  exists a, epoch_slice c i = Ok a /\ has_shape2 rows cols a.
Proof.
  intros [Hlen Hrows] Hi. unfold epoch_slice.
  destruct (mapM_success (mapM (fun v : vec => getitem v i)) c) as [a Ha].
  { eapply Forall_impl; [exact Hrows|]. intros row [_ Hv].
    apply mapM_success. eapply Forall_impl; [exact Hv|].
    intros v Hvl. simpl in Hvl.
    destruct (lookup_lt_is_Some_2 v i) as [x Hx]; [lia|].
    exists x. apply getitem_Ok. exact Hx. }
  exists a. split; [exact Ha|]. apply mapM_Ok in Ha. split.
  - rewrite <- Hlen. symmetry. eapply Forall2_length. eassumption.
  - clear Hlen. induction Ha as [|row arow c a Hrow _ IH]; [constructor|].
    inversion Hrows as [|? ? [Hc _] Hrest]; subst. constructor; [|auto].
    apply mapM_Ok in Hrow. rewrite <- (Forall2_length _ _ _ Hrow).
    reflexivity.
Qed.

Lemma paste_has_shape2 t part dest :
  has_shape2 rows cols dest -> has_shape2 rows cols (paste t part dest).
Proof.
  unfold has_shape2, paste. intros [Hlen Hrows]. rewrite length_imap.
  split; [exact Hlen|]. apply Forall_forall. intros row Hrow.
  apply elem_of_lookup_imap in Hrow as (r & drow & -> & Hd).
  rewrite length_imap. rewrite Forall_forall in Hrows. apply Hrows.
  eapply list_elem_of_lookup_2. eassumption.
Qed.

Lemma stretch_same {A} (l : list A) k : length l = k -> stretch k l = Ok l.
Proof. intros Hl. unfold stretch. rewrite decide_True by exact Hl. reflexivity. Qed.

Lemma set_epoch_row_has_shape (row : list vec) (arow : vec) i :
  Forall (fun v : vec => length v = n) row -> i < n ->
  length arow = length row ->
  exists row', mapM (fun vx : vec * npfloat => setitem vx.1 i vx.2)
                    (zip row arow) = Ok row'
               /\ length row' = length row
               /\ Forall (fun v : vec => length v = n) row'.
Proof.
  intros Hrow Hi. revert arow.
  induction Hrow as [|v row Hv _ IH]; intros [|x arow] Hlen;
    try discriminate.
  - exists []. split_and!; [reflexivity | reflexivity | constructor].
  - destruct (IH arow ltac:(simpl in Hlen; lia)) as (row' & Hr & Hl & Hf).
    exists (<[i:=x]> v :: row'). split_and!.
    + assert (Hset : setitem v i x = Ok (<[i:=x]> v))
        by (apply setitem_Ok; split; [lia | reflexivity]).
      cbn [zip zip_with mapM fst snd]. rewrite Hset. simpl.
      fold (zip row arow). rewrite Hr. reflexivity.
    + simpl. lia.
    + constructor; [rewrite length_insert; exact Hv | exact Hf].
Qed.

Lemma set_epoch_slice_has_shape (c : cube) (a : image) i :
  has_shape rows cols n c -> has_shape2 rows cols a -> i < n ->
  exists c', set_epoch_slice c i a = Ok c' /\ has_shape rows cols n c'.
Proof.
  intros [Hlen Hrows] [Halen Harows] Hi. unfold set_epoch_slice.
  assert (Hst : mapM (stretch (shape1 c)) a = Ok a).
  { apply mapM_Ok. destruct c as [|row0 c].
    - simpl in Hlen. subst rows. destruct a; [constructor|discriminate].
    - simpl. inversion Hrows as [|? ? [Hc0 _] _]; subst.
      clear -Harows. induction Harows; constructor; auto.
      apply stretch_same. assumption. }
  rewrite Hst. simpl. unfold shape0. rewrite stretch_same by lia. simpl.
  clear Hst. revert a rows Hlen Halen Harows.
  induction Hrows as [|row c [Hc Hv] _ IH]; intros [|arow a] rows' Hlen Halen Harows;
    simpl in *; try lia.
  - exists []. split; [reflexivity|]. split; [exact Hlen | constructor].
  - inversion Harows as [|? ? Har Harest]; subst.
    destruct (set_epoch_row_has_shape row arow i Hv Hi ltac:(lia))
      as (row' & Hr & Hl & Hf).
    destruct (IH a (length c) eq_refl ltac:(lia) Harest)
      as (c' & Hc' & [Hcl Hcf]).
    exists (row' :: c'). split.
    + rewrite Hr. simpl. rewrite Hc'. reflexivity.
    + split; [simpl; lia|]. constructor; [|exact Hcf]. split; [lia|exact Hf].
Qed.

End AssemblyShapes.

(** ** One tile, one epoch *)

Section AssembleTile.
Context (w : World) (rows cols n : nat).

Lemma assemble_tile_missing i k t c :
  has_shape rows cols n c -> i < n -> tile_result w t = None ->
  assemble_tile w i k t c = Raise MissingScratchDataError.
Proof.
  intros Hc Hi Ht. unfold assemble_tile.
  destruct (epoch_slice_has_shape rows cols n c i Hc Hi) as (a & -> & _).
  simpl. unfold _assemble_tiles. unfold tile_result in Ht.
  destruct (scratch w !! ("tsincr_aps", index t)) as [[tc|m]|];
    [discriminate | reflexivity | reflexivity].
Qed.

Lemma assemble_tile_short i k t c tc :
  has_shape rows cols n c -> i < n -> tile_result w t = Some tc ->
  ~ has_epoch tc i ->
  assemble_tile w i k t c = Raise ShapeMismatchError.
Proof.
  intros Hc Hi Ht Hno. unfold assemble_tile.
  destruct (epoch_slice_has_shape rows cols n c i Hc Hi) as (a & -> & _).
  simpl. unfold _assemble_tiles. unfold tile_result in Ht.
  destruct (scratch w !! ("tsincr_aps", index t)) as [[tc'|m]|];
    try discriminate. injection Ht as ->.
  case_decide as Hlt; [|reflexivity].
  destruct (epoch_slice tc i) as [part|e] eqn:Hpart; [|reflexivity].
  exfalso. apply Hno. split; eauto.
Qed.

Lemma assemble_tile_good i k t c tc :
  has_shape rows cols n c -> i < n -> tile_result w t = Some tc ->
  has_epoch tc i ->
  exists c', assemble_tile w i k t c = Ok c' /\ has_shape rows cols n c'.
Proof.
  intros Hc Hi Ht [Hlt (part & Hpart)]. unfold assemble_tile.
  destruct (epoch_slice_has_shape rows cols n c i Hc Hi) as (a & -> & Ha).
  simpl. unfold _assemble_tiles. unfold tile_result in Ht.
  destruct (scratch w !! ("tsincr_aps", index t)) as [[tc'|m]|];
    try discriminate. injection Ht as ->.
  rewrite decide_True by exact Hlt. rewrite Hpart. simpl.
  apply set_epoch_slice_has_shape; [exact Hc | | exact Hi].
  apply paste_has_shape2. exact Ha.
Qed.

Lemma assemble_tile_Ok i k t c c' :
  assemble_tile w i k t c = Ok c' ->
  exists tc, tile_result w t = Some tc /\ has_epoch tc i.
Proof.
  unfold assemble_tile. intros Hrun. inv_result.
  match goal with Ha : _assemble_tiles _ _ _ _ _ _ = Ok _ |- _ =>
    unfold _assemble_tiles in Ha; unfold tile_result, has_epoch;
    destruct (scratch w !! ("tsincr_aps", index t)) as [[tc|m]|];
    try discriminate; exists tc; split; [reflexivity|];
    case_decide; [|discriminate];
    destruct (epoch_slice tc i) as [part|]; [|discriminate]; eauto
  end.
Qed.

(** The tiles of one epoch, in order. *)
Lemma assemble_epoch_missing i tiles c :
  has_shape rows cols n c -> i < n ->
  (forall t tc, t ∈ tiles -> tile_result w t = Some tc -> has_epoch tc i) ->
  (exists t, t ∈ tiles /\ tile_result w t = None) ->
  for_each tiles (assemble_tile w i 0) c = Raise MissingScratchDataError.
Proof.
  intros Hc Hi. revert c Hc.
  induction tiles as [|t tiles IH]; intros c Hc Hgood (t0 & Hin & Hmiss).
  - inversion Hin.
  - cbn [for_each]. destruct (tile_result w t) as [tc|] eqn:Ht.
    + destruct (assemble_tile_good i 0 t c tc Hc Hi Ht) as (c' & -> & Hc').
      { apply (Hgood t tc); [apply elem_of_cons; auto | exact Ht]. }
      simpl. apply IH; [exact Hc' | |].
      * intros t' tc' Hin'. apply Hgood. apply elem_of_cons. auto.
      * apply elem_of_cons in Hin as [->|Hin]; [congruence|eauto].
    + rewrite (assemble_tile_missing i 0 t c Hc Hi Ht). reflexivity.
Qed.

Lemma assemble_epoch_present i tiles c :
  has_shape rows cols n c -> i < n ->
  (forall t, t ∈ tiles -> is_Some (tile_result w t)) ->
  (exists c', for_each tiles (assemble_tile w i 0) c = Ok c'
              /\ has_shape rows cols n c')
  \/ for_each tiles (assemble_tile w i 0) c = Raise ShapeMismatchError.
Proof.
  intros Hc Hi. revert c Hc.
  induction tiles as [|t tiles IH]; intros c Hc Hall.
  - left. exists c. split; [reflexivity | exact Hc].
  - cbn [for_each].
    destruct (Hall t ltac:(apply elem_of_cons; auto)) as [tc Ht].
    assert (Hdec : has_epoch tc i \/ ~ has_epoch tc i).
    { unfold has_epoch. destruct (decide (i < shape2 tc)); [|tauto].
      destruct (epoch_slice tc i) as [part|e]; [eauto|].
      right. intros [_ (part & Hp)]. discriminate. }
    destruct Hdec as [Hgood|Hbad].
    + destruct (assemble_tile_good i 0 t c tc Hc Hi Ht Hgood)
        as (c' & -> & Hc'). simpl.
      apply IH; [exact Hc'|]. intros t' Hin. apply Hall.
      apply elem_of_cons. auto.
    + right. rewrite (assemble_tile_short i 0 t c tc Hc Hi Ht Hbad).
      reflexivity.
Qed.

(** All epochs, every tile present. *)
Lemma assemble_epochs_present tiles (epochs : list nat) c :
  has_shape rows cols n c -> Forall (fun i => i < n) epochs ->
  (forall t, t ∈ tiles -> is_Some (tile_result w t)) ->
  (exists c', for_each epochs
                (fun i => for_each tiles (assemble_tile w i 0)) c = Ok c'
              /\ has_shape rows cols n c')
  \/ for_each epochs (fun i => for_each tiles (assemble_tile w i 0)) c
     = Raise ShapeMismatchError.
Proof.
  intros Hc Hep Hall. revert c Hc.
  induction Hep as [|i epochs Hi _ IH]; intros c Hc.
  - left. exists c. split; [reflexivity | exact Hc].
  - cbn [for_each].
    destruct (assemble_epoch_present i tiles c Hc Hi Hall)
      as [(c' & -> & Hc')| ->]; [|right; reflexivity].
    simpl. apply IH. exact Hc'.
Qed.

End AssembleTile.

Lemma for_each_ext {I St} (body body' : I -> St -> result St) l s :
  (forall x s, body x s = body' x s) ->
  for_each l body s = for_each l body' s.
Proof.
  intros Hext. revert s. induction l as [|a l IH]; intros s; [reflexivity|].
  cbn [for_each]. rewrite Hext. destruct (body' a s); [|reflexivity].
  simpl. apply IH.
Qed.

Lemma _assemble_tsincr_unfold `{Collaborators} ifg_paths params preread_ifgs
    tiles n w first pre :
  ifg_paths !! 0 = Some first -> dict_get preread_ifgs first = Ok pre ->
  _assemble_tsincr ifg_paths params preread_ifgs tiles (Some n) w
  = for_each (range n) (fun i => for_each tiles (assemble_tile w i 0))
             (np_empty (preread_shape pre).1 (preread_shape pre).2 n).
Proof.
  intros Hfirst Hpre. unfold _assemble_tsincr, getitem. rewrite Hfirst. simpl.
  rewrite Hpre. simpl. apply for_each_ext. intros i c.
  unfold enumerate. apply for_each_imap. reflexivity.
Qed.

(** C8 (amended).  With a broadcast epoch count [n] of at least one:
    assembly raises MissingScratchDataError when the result of a tile is
    absent and every result that is present has at least one epoch; it
    raises ShapeMismatchError when every result is present and one has
    fewer than [n] epochs; and in every run in which a result is absent or
    has fewer than [n] epochs it raises instead of returning a cube. *)
Theorem assembly_aborts_on_absent_or_short_tile `{Collaborators}
    (ifg_paths : list string) (params : Params)
    (preread_ifgs : list (string * PrereadIfg)) (tiles : list Tile)
    (n : nat) (w : World) (first : string) (pre : PrereadIfg) :
  ifg_paths !! 0 = Some first -> dict_get preread_ifgs first = Ok pre ->
  0 < n ->
  ((exists t, t ∈ tiles /\ tile_result w t = None) ->
   (forall t tc, t ∈ tiles -> tile_result w t = Some tc -> has_epoch tc 0) ->
   _assemble_tsincr ifg_paths params preread_ifgs tiles (Some n) w
   = Raise MissingScratchDataError)
  /\ ((forall t, t ∈ tiles -> is_Some (tile_result w t)) ->
      (exists t tc, t ∈ tiles /\ tile_result w t = Some tc /\ shape2 tc < n) ->
      _assemble_tsincr ifg_paths params preread_ifgs tiles (Some n) w
      = Raise ShapeMismatchError)
  /\ ((exists t, t ∈ tiles
                 /\ (tile_result w t = None
                     \/ exists tc, tile_result w t = Some tc /\ shape2 tc < n)) ->
      exists e, _assemble_tsincr ifg_paths params preread_ifgs tiles (Some n) w
                = Raise e).
Proof.
  intros Hfirst Hpre Hn.
  rewrite (_assemble_tsincr_unfold _ _ _ _ _ _ _ _ Hfirst Hpre).
  set (rows := (preread_shape pre).1). set (cols := (preread_shape pre).2).
  pose proof (np_empty_has_shape rows cols n) as Hshape.
  assert (Hnot_ok : forall c,
    (exists t, t ∈ tiles
               /\ (tile_result w t = None
                   \/ exists tc, tile_result w t = Some tc /\ shape2 tc < n)) ->
    for_each (range n) (fun i => for_each tiles (assemble_tile w i 0))
             (np_empty rows cols n) <> Ok c).
  { intros c (t & Hin & Hbad) Hrun.
    assert (Hstep : forall i, i < n ->
              exists tc, tile_result w t = Some tc /\ has_epoch tc i).
    { intros i Hi.
      destruct (for_each_Ok_all _ _ _ _ Hrun i) as (s1 & s2 & Hinner);
        [apply range_elem; exact Hi|].
      destruct (for_each_Ok_all _ _ _ _ Hinner t Hin) as (s3 & s4 & Htile).
      eapply assemble_tile_Ok. eassumption. }
    destruct Hbad as [Hmiss|(tc & Htc & Hshort)].
    - destruct (Hstep 0 Hn) as (tc & Htc & _). congruence.
    - destruct (Hstep (shape2 tc) Hshort) as (tc' & Htc' & Hlt & _).
      assert (tc' = tc) as -> by congruence. lia. }
  split_and!.
  - intros Hmiss Hgood. unfold range.
    destruct n as [|n']; [lia|]. cbn [seq for_each].
    rewrite (assemble_epoch_missing w rows cols (S n') 0 tiles _ Hshape Hn);
      [reflexivity | | exact Hmiss].
    intros t tc Hin Htc. apply (Hgood t tc Hin Htc).
  - intros Hall (t & tc & Hin & Htc & Hshort).
    destruct (assemble_epochs_present w rows cols n tiles (range n) _ Hshape)
      as [(c' & Hrun & _)|Hrun]; [ | exact Hall | | exact Hrun].
    + apply Forall_forall. intros i Hi%range_elem. exact Hi.
    + exfalso. apply (Hnot_ok c'); [|exact Hrun]. exists t. eauto.
  - intros Hbad.
    destruct (for_each (range n) _ (np_empty rows cols n)) as [c|e] eqn:Hrun.
    + exfalso. apply (Hnot_ok c Hbad). reflexivity.
    + exists e. reflexivity.
Qed.

Lemma assembly_aborts_on_absent_or_short_tile_witness :
  @_assemble_tsincr sample_collaborators sample_paths
     (sample_params 3 (Fin 1) 2) sample_preread sample_tiles (Some 2)
     sample_world_run = Raise MissingScratchDataError
  /\ @_assemble_tsincr sample_collaborators sample_paths
       (sample_params 3 (Fin 1) 2) sample_preread sample_tiles (Some 3)
       sample_world_two_epochs = Raise ShapeMismatchError.
Proof.
  split.
  - apply (proj1 (@assembly_aborts_on_absent_or_short_tile
                    sample_collaborators sample_paths
                    (sample_params 3 (Fin 1) 2) sample_preread sample_tiles 2
                    sample_world_run "ifg_a.tif"
                    {| preread_path := "ifg_a.tif"; master := 0; slave := 730;
                       preread_shape := (1, 2) |}
                    eq_refl eq_refl ltac:(lia))).
    + eexists. split; [apply list_elem_of_singleton; reflexivity|].
      reflexivity.
    + intros t tc Ht%list_elem_of_singleton Htc. subst t. discriminate.
  - apply (proj1 (proj2 (@assembly_aborts_on_absent_or_short_tile
                    sample_collaborators sample_paths
                    (sample_params 3 (Fin 1) 2) sample_preread sample_tiles 3
                    sample_world_two_epochs "ifg_a.tif"
                    {| preread_path := "ifg_a.tif"; master := 0; slave := 730;
                       preread_shape := (1, 2) |}
                    eq_refl eq_refl ltac:(lia)))).
    + intros t Ht%list_elem_of_singleton. subst t. eexists. reflexivity.
    + eexists _, _. split_and!;
        [apply list_elem_of_singleton; reflexivity | reflexivity | simpl; lia].
Defined.

(** * Further properties of the temporal filter *)

(** ** Shape *)

Lemma nan_like_lengths (tsincr : cube) : lengths (nan_like tsincr) = lengths tsincr.
Proof.
  unfold lengths, nan_like. rewrite <- list_fmap_compose.
  apply list_fmap_ext. intros _ row _. simpl. rewrite <- list_fmap_compose.
  apply list_fmap_ext. intros _ v _. simpl. apply length_map.
Qed.

(** Two cubes of one shape have their pixels at the same places, with the
    same number of epochs. *)
Lemma lengths_pixel (c c' : cube) i j v :
  lengths c' = lengths c -> pixel c i j = Ok v ->
  exists v', pixel c' i j = Ok v' /\ length v' = length v.
Proof.
  intros Hshape (row & Hi & Hj)%pixel_Ok.
  assert (Hi' : lengths c' !! i = Some (length <$> row))
    by (rewrite Hshape; unfold lengths; rewrite list_lookup_fmap, Hi;
        reflexivity).
  unfold lengths in Hi'. rewrite list_lookup_fmap in Hi'.
  destruct (c' !! i) as [row'|] eqn:Hrow'; [|discriminate].
  injection Hi' as Hlen.
  assert (Hj' : (length <$> row') !! j = Some (length v))
    by (rewrite Hlen, list_lookup_fmap, Hj; reflexivity).
  rewrite list_lookup_fmap in Hj'.
  destruct (row' !! j) as [v'|] eqn:Hv'; [|discriminate].
  injection Hj' as Hj'. exists v'. split; [|exact Hj'].
  apply pixel_Ok. eauto.
Qed.

(** X1. The output of the temporal filter has the shape of its input. *)
Theorem temporal_filter_keeps_shape
    (tsincr : cube) (epochlist : EpochList) (params : Params) (out : cube) :
  temporal_low_pass_filter tsincr epochlist params = Ok out ->
  lengths out = lengths tsincr.
Proof.
  intros (span & _ & Hrun)%temporal_low_pass_filter_Ok.
  rewrite (_tlpfilter_shape _ _ _ _ _ _ _ _ _ _ Hrun).
  apply nan_like_lengths.
Qed.

Lemma temporal_filter_keeps_shape_witness :
  lengths [[[Fin 2; Fin 2]]] = lengths sample_cube.
Proof.
  apply (temporal_filter_keeps_shape sample_cube sample_epochs
           (sample_params 3 (Fin 1) 2)).
  exact sample_mean_run.
Defined.

(** ** The epoch list and the cube must agree *)

Lemma np_diff_length (v : vec) : length (np_diff v) = length v - 1.
Proof.
  induction v as [|x [|y v] IH]; [reflexivity..|].
  change (np_diff (x :: y :: v)) with (fsub y x :: np_diff (y :: v)).
  cbn [length] in *. lia.
Qed.

(** X2. [span] adds the first [shape[2]] spans and the halved intervals
    between all of them.  With at least three epochs in the list and at
    least two in the cube, the two arrays broadcast only when the cube has
    one epoch less than the list; otherwise the filter raises the
    ValueError of that addition. *)
Theorem temporal_filter_rejects_epoch_mismatch
    (tsincr : cube) (epochlist : EpochList) (params : Params) :
  3 <= length (spans epochlist) -> 2 <= shape2 tsincr ->
  shape2 tsincr <> length (spans epochlist) - 1 ->
  temporal_low_pass_filter tsincr epochlist params = Raise ValueError.
Proof.
  intros Hn Hk Hne. unfold temporal_low_pass_filter, tlp_span, broadcast.
  pose proof (length_take (spans epochlist) (shape2 tsincr)) as Ha.
  pose proof (np_diff_length (spans epochlist)) as Hb.
  rewrite decide_False by (rewrite length_fmap, length_take, Hb; lia).
  destruct (take (shape2 tsincr) (spans epochlist)) as [|x [|x' a]];
    simpl in Ha; try lia.
  destruct (np_diff (spans epochlist)) as [|y [|y' b]]; simpl in Hb; try lia.
  reflexivity.
Qed.

Lemma temporal_filter_rejects_epoch_mismatch_witness :
  temporal_low_pass_filter sample_cube
    {| spans := [Fin 0; Fin 1; Fin 2; Fin 3] |} (sample_params 3 (Fin 1) 2)
  = Raise ValueError.
Proof.
  apply (temporal_filter_rejects_epoch_mismatch sample_cube
           {| spans := [Fin 0; Fin 1; Fin 2; Fin 3] |}
           (sample_params 3 (Fin 1) 2)); simpl; lia.
Defined.

(** ** The filter returns on every well-shaped input *)

Lemma for_each_total {I St} (Inv : St -> Prop) (body : I -> St -> result St) l :
  (forall x s, x ∈ l -> Inv s -> exists s', body x s = Ok s' /\ Inv s') ->
  forall s, Inv s -> exists s', for_each l body s = Ok s' /\ Inv s'.
Proof.
  induction l as [|a l IH]; simpl; intros Hstep s Hs.
  - eauto.
  - destruct (Hstep a s ltac:(apply elem_of_cons; auto) Hs) as (s1 & -> & Hs1).
    simpl. apply IH; [|exact Hs1].
    intros y t Hy. apply Hstep. apply elem_of_cons. auto.
Qed.

Lemma np_take_total {A} (v : list A) sel :
  (forall t, t ∈ sel -> t < length v) -> exists l, np_take v sel = Ok l.
Proof.
  intros Hsel. apply mapM_success, Forall_forall. intros t Ht.
  destruct (lookup_lt_is_Some_2 v t (Hsel t Ht)) as [x Hx].
  exists x. apply getitem_Ok. exact Hx.
Qed.

(** Each of the three kernels returns one weight per offset. *)
Lemma tlp_func_length method m (yr : vec) cutoff :
  length yr = m -> length (tlp_func method m yr cutoff) = m.
Proof.
  intros Hyr. unfold tlp_func.
  destruct (method =? 1)%Z; [|destruct (method =? 2)%Z].
  - unfold gauss. rewrite length_fmap. exact Hyr.
  - unfold _triangle. rewrite length_fmap. exact Hyr.
  - unfold mean_filter. apply length_replicate.
Qed.

Lemma tlp_weights_length method span sel k cutoff wgt :
  tlp_weights (tlp_func method) (length sel) span sel k cutoff = Ok wgt ->
  length wgt = length sel.
Proof.
  unfold tlp_weights. intros H. inv_result. subst wgt.
  rewrite length_fmap. apply tlp_func_length. rewrite length_fmap.
  eapply np_take_length. eassumption.
Qed.

Lemma nonzero_lt mask t : t ∈ nonzero mask -> t < length mask.
Proof. rewrite nonzero_elem. apply lookup_lt_Some. Qed.

Lemma regular_pixel (c : cube) i j :
  regular c -> i < shape0 c -> j < shape1 c ->
  exists v, pixel c i j = Ok v /\ length v = shape2 c.
Proof.
  unfold regular, shape0. intros Hreg Hi Hj.
  destruct (lookup_lt_is_Some_2 c i Hi) as [row Hrow].
  rewrite Forall_forall in Hreg.
  destruct (Hreg row (list_elem_of_lookup_2 _ _ _ Hrow)) as [Hlen Hvs].
  destruct (lookup_lt_is_Some_2 row j ltac:(lia)) as [v Hv].
  exists v. split; [apply pixel_Ok; eauto|].
  rewrite Forall_forall in Hvs. apply Hvs.
  eapply list_elem_of_lookup_2. eassumption.
Qed.

Section TemporalTotal.
Context (tsincr : cube) (span : vec) (cutoff : npfloat) (threshold method : Z).
Hypothesis Hreg : regular tsincr.
Hypothesis Hspan : length span = shape2 tsincr.

Lemma tlp_epoch_total i j v k out :
  pixel tsincr i j = Ok v -> length v = shape2 tsincr ->
  lengths out = lengths tsincr ->
  k < valid_epochs v ->
  exists out',
    tlp_epoch cutoff span tsincr (tlp_func method) i j
              (nonzero ((fun x => negb (isnan x)) <$> v)) k out = Ok out'
    /\ lengths out' = lengths tsincr.
Proof.
  intros Hv Hlen Hout Hk. set (sel := nonzero _).
  assert (Hsel : forall t, t ∈ sel -> t < shape2 tsincr).
  { intros t Ht%nonzero_lt. rewrite length_fmap in Ht. lia. }
  assert (Hm : length sel = valid_epochs v) by apply nonzero_length.
  destruct (lookup_lt_is_Some_2 sel k ltac:(lia)) as [t Ht].
  pose proof (Hsel t (list_elem_of_lookup_2 _ _ _ Ht)) as Htlt.
  destruct (np_take_total span sel ltac:(intros; rewrite Hspan; auto))
    as [span_sel Hss].
  destruct (lookup_lt_is_Some_2 span t ltac:(lia)) as [span_k Hsk].
  destruct (np_take_total v sel ltac:(intros; rewrite Hlen; auto))
    as [vals Hvals].
  destruct (lengths_pixel tsincr out i j v Hout Hv) as (v' & Hv' & Hlen').
  apply pixel_Ok in Hv' as (row' & Hi' & Hj').
  unfold tlp_epoch.
  assert (Hw : exists wgt,
    tlp_weights (tlp_func method) (length sel) span sel k cutoff = Ok wgt).
  { unfold tlp_weights. rewrite Hss. simpl.
    rewrite (proj2 (getitem_Ok sel k t) Ht). simpl.
    rewrite (proj2 (getitem_Ok span t span_k) Hsk). simpl. eauto. }
  destruct Hw as [wgt Hw]. rewrite Hw. simpl.
  pose proof (tlp_weights_length _ _ _ _ _ _ Hw) as Hwl.
  unfold tlp_value. rewrite Hv. simpl. rewrite Hvals. simpl.
  unfold broadcast. rewrite decide_True
    by (rewrite (np_take_length _ _ _ Hvals); congruence).
  simpl. rewrite (proj2 (getitem_Ok sel k t) Ht). simpl.
  match goal with |- exists out', set_cell out i j t ?x = _ /\ _ =>
    assert (Hset : set_cell out i j t x
                   = Ok (<[i := <[j := <[t := x]> v']> row']> out))
      by (apply set_cell_Ok; exists row', v';
          split_and!; [assumption.. | lia | reflexivity])
  end.
  eexists. split; [exact Hset|].
  rewrite (set_cell_shape _ _ _ _ _ _ Hset). exact Hout.
Qed.

Lemma tlp_pixel_total i j out :
  i < shape0 tsincr -> j < shape1 tsincr -> lengths out = lengths tsincr ->
  exists out',
    tlp_pixel cutoff (not_nan_mask tsincr) span threshold tsincr
              (tlp_func method) i j out = Ok out'
    /\ lengths out' = lengths tsincr.
Proof.
  intros Hi Hj Hout.
  destruct (regular_pixel tsincr i j Hreg Hi Hj) as (v & Hv & Hlen).
  unfold tlp_pixel.
  rewrite (proj2 (not_nan_mask_pixel tsincr i j _)
             (ex_intro _ v (conj Hv eq_refl))). simpl.
  destruct (threshold <=? _)%Z; [|eauto].
  apply (for_each_total (fun c : cube => lengths c = lengths tsincr));
    [|exact Hout].
  intros k s Hk%range_elem Hs. rewrite nonzero_length in Hk.
  eapply tlp_epoch_total; eassumption.
Qed.

Lemma _tlpfilter_total out :
  lengths out = lengths tsincr ->
  exists out',
    _tlpfilter (shape1 tsincr) cutoff (not_nan_mask tsincr) (shape0 tsincr)
               span threshold out tsincr (tlp_func method) = Ok out'.
Proof.
  intros Hout. unfold _tlpfilter.
  destruct (for_each_total (fun c : cube => lengths c = lengths tsincr)
    (fun i => for_each (range (shape1 tsincr))
       (tlp_pixel cutoff (not_nan_mask tsincr) span threshold tsincr
                  (tlp_func method) i)) (range (shape0 tsincr)))
    with (s := out) as (out' & Hrun & _); [|exact Hout|eauto].
  intros i s Hi%range_elem Hs.
  apply (for_each_total (fun c : cube => lengths c = lengths tsincr));
    [|exact Hs].
  intros j r Hj%range_elem Hr. apply tlp_pixel_total; assumption.
Qed.

End TemporalTotal.

(** X3. On a cube with the lengths its shape announces and an epoch list
    with one epoch more than the cube, the temporal filter returns: none of
    its index reads, broadcasts and cell writes raises, whatever the
    method, the cutoff and the threshold. *)
Theorem temporal_filter_returns
    (tsincr : cube) (epochlist : EpochList) (params : Params) :
  regular tsincr -> length (spans epochlist) = S (shape2 tsincr) ->
  exists out, temporal_low_pass_filter tsincr epochlist params = Ok out.
Proof.
  intros Hreg Hn. unfold temporal_low_pass_filter.
  assert (Hs : exists span, tlp_span tsincr epochlist = Ok span
                            /\ length span = shape2 tsincr).
  { unfold tlp_span, broadcast. rewrite decide_True.
    - eexists. split; [reflexivity|].
      rewrite length_zip_with, length_take, length_fmap, np_diff_length. lia.
    - rewrite length_take, length_fmap, np_diff_length. lia. }
  destruct Hs as (span & -> & Hspan). simpl.
  apply _tlpfilter_total; [assumption.. | apply nan_like_lengths].
Qed.

Lemma temporal_filter_returns_witness :
  exists out,
    temporal_low_pass_filter [[[Fin 1; NaN]; [NaN; NaN]]] sample_epochs
      (sample_params 2 (Fin 0) 1) = Ok out.
Proof.
  apply (temporal_filter_returns [[[Fin 1; NaN]; [NaN; NaN]]] sample_epochs
           (sample_params 2 (Fin 0) 1)).
  - repeat constructor.
  - reflexivity.
Defined.

(** ** The mean kernel *)

(** [v[sel]] for the indices of the valid cells of [v] is the list of the
    valid cells. *)
Lemma np_take_nonzero_from (pre v : vec) :
  Forall2 (fun i x => (pre ++ v) !! i = Some x)
          (nonzero_from (length pre) ((fun x => negb (isnan x)) <$> v))
          (List.filter (fun x => negb (isnan x)) v).
Proof.
  revert pre. induction v as [|x v IH]; intros pre; [constructor|].
  rewrite fmap_cons. cbn [nonzero_from List.filter].
  specialize (IH (pre ++ [x])).
  rewrite length_app, <- app_assoc in IH. cbn [length app] in IH.
  replace (length pre + 1) with (S (length pre)) in IH by lia.
  destruct (negb (isnan x)); simpl; [|exact IH].
  constructor; [|exact IH].
  rewrite lookup_app_r by lia. rewrite Nat.sub_diag. reflexivity.
Qed.

Lemma np_take_nonzero (v : vec) :
  np_take v (nonzero ((fun x => negb (isnan x)) <$> v))
  = Ok (List.filter (fun x => negb (isnan x)) v).
Proof. apply np_take_Ok. exact (np_take_nonzero_from [] v). Qed.

Section MeanKernel.
Local Open Scope R_scope.

Lemma np_sum_ones (m : nat) : np_sum (replicate m (Fin 1)) = Fin (INR m).
Proof.
  unfold np_sum. induction m as [|m IH]; [reflexivity|].
  cbn [replicate foldr]. rewrite IH, S_INR. simpl. f_equal. lra.
Qed.

Lemma fmul_fadd_distr (x y : npfloat) (c : R) :
  0 < c -> fmul (fadd x y) (Fin c) = fadd (fmul x (Fin c)) (fmul y (Fin c)).
Proof.
  intros Hc.
  destruct x as [a| | |], y as [b| | |]; simpl; unfold inf_times;
    repeat match goal with
      | |- context [Req_dec_T c 0] => destruct (Req_dec_T c 0); [lra|]
      | |- context [Rlt_dec 0 c] => destruct (Rlt_dec 0 c); [|lra]
      end; simpl; try reflexivity.
  f_equal. ring.
Qed.

Lemma np_sum_scaled (vals : vec) (c : R) :
  0 < c ->
  np_sum ((fun x => fmul x (Fin c)) <$> vals) = fmul (np_sum vals) (Fin c).
Proof.
  intros Hc. unfold np_sum. induction vals as [|x vals IH].
  - simpl. f_equal. ring.
  - rewrite fmap_cons. cbn [foldr]. rewrite IH.
    symmetry. apply fmul_fadd_distr. exact Hc.
Qed.

Lemma fmul_inverse (s : npfloat) (m : R) :
  0 < m -> fmul s (Fin (1 / m)) = fdiv s (Fin m).
Proof.
  intros Hm. assert (0 < 1 / m) by (apply Rdiv_lt_0_compat; lra).
  destruct s as [a| | |]; simpl; unfold inf_times.
  - destruct (Req_dec_T m 0); [lra|]. f_equal. field. lra.
  - destruct (Req_dec_T (1 / m) 0); [lra|].
    destruct (Rlt_dec 0 (1 / m)); [|lra].
    destruct (Rlt_dec m 0); [lra|]. reflexivity.
  - destruct (Req_dec_T (1 / m) 0); [lra|].
    destruct (Rlt_dec 0 (1 / m)); [|lra].
    destruct (Rlt_dec m 0); [lra|]. reflexivity.
  - reflexivity.
Qed.

Lemma zip_with_replicate_r {A B C} (f : A -> B -> C) (l : list A) (y : B) :
  zip_with f l (replicate (length l) y) = (fun x => f x y) <$> l.
Proof. induction l as [|x l IH]; [reflexivity|]. simpl. rewrite IH. reflexivity. Qed.

(** The weighted sum of line 490 under the mean kernel. *)
Lemma mean_weighted_sum (vals : vec) :
  vals <> [] ->
  np_sum (zip_with fmul vals
            ((fun w => fdiv w (np_sum (replicate (length vals) (Fin 1))))
               <$> replicate (length vals) (Fin 1)))
  = fdiv (np_sum vals) (of_nat (length vals)).
Proof.
  intros Hne.
  assert (Hm : 0 < INR (length vals)).
  { apply lt_0_INR. destruct vals; [contradiction | simpl; lia]. }
  rewrite np_sum_ones, fmap_replicate.
  rewrite fdiv_Fin by lra.
  rewrite zip_with_replicate_r.
  rewrite np_sum_scaled by (apply Rdiv_lt_0_compat; lra).
  apply fmul_inverse. exact Hm.
Qed.

End MeanKernel.

(** X4. With a method other than 1 and 2 the temporal filter is a mean
    filter: for a pixel with at least [threshold] valid epochs, every valid
    epoch of the output holds the sum of the pixel's valid inputs divided by
    their number. *)
Theorem mean_filter_writes_the_mean
    (tsincr : cube) (epochlist : EpochList) (params : Params) (out : cube)
    (i j : nat) (v : vec) (t : nat) (x : npfloat) :
  TLPF_METHOD params <> 1%Z -> TLPF_METHOD params <> 2%Z ->
  temporal_low_pass_filter tsincr epochlist params = Ok out ->
  pixel tsincr i j = Ok v -> j < shape1 tsincr ->
  (TLPF_PTHR params <= Z.of_nat (valid_epochs v))%Z ->
  v !! t = Some x -> isnan x = false ->
  cell out i j t
  = Some (fdiv (np_sum (List.filter (fun y => negb (isnan y)) v))
               (of_nat (valid_epochs v))).
Proof.
  intros Hm1 Hm2 Hrun Hv Hj Hthr Hx Hxn.
  destruct (tlp_written tsincr epochlist params out i j v t x
              Hrun Hv Hj Hthr Hx Hxn)
    as (span & k & wgt & vals & _ & Hk & Hw & Hvals & Hcell).
  rewrite Hcell by (eapply tlp_weights_length; eassumption).
  rewrite np_take_nonzero in Hvals. injection Hvals as <-.
  assert (Hfunc : tlp_func (TLPF_METHOD params) = mean_filter).
  { unfold tlp_func.
    destruct (Z.eqb_spec (TLPF_METHOD params) 1); [contradiction|].
    destruct (Z.eqb_spec (TLPF_METHOD params) 2); [contradiction|].
    reflexivity. }
  rewrite Hfunc in Hw. unfold tlp_weights, mean_filter in Hw. inv_result.
  subst wgt. rewrite nonzero_length. unfold valid_epochs.
  f_equal. apply mean_weighted_sum.
  intros Hnil.
  assert (Hin : t ∈ nonzero ((fun x => negb (isnan x)) <$> v))
    by (eapply list_elem_of_lookup_2; eassumption).
  pose proof (nonzero_length v) as Hlen. unfold valid_epochs in Hlen.
  rewrite Hnil in Hlen. apply length_zero_iff_nil in Hlen.
  rewrite Hlen in Hin. inversion Hin.
Qed.

Lemma mean_filter_writes_the_mean_witness :
  cell [[[Fin 2; Fin 2]]] 0 0 1
  = Some (fdiv (np_sum [Fin 1; Fin 3]) (of_nat 2)).
Proof.
  apply (mean_filter_writes_the_mean sample_cube sample_epochs
           (sample_params 3 (Fin 1) 2) [[[Fin 2; Fin 2]]] 0 0
           [Fin 1; Fin 3] 1 (Fin 3)).
  - discriminate.
  - discriminate.
  - exact sample_mean_run.
  - reflexivity.
  - simpl. lia.
  - vm_compute. discriminate.
  - reflexivity.
  - reflexivity.
Defined.

(** ** The filtered value is a weighted mean *)

Section Convexity.
Local Open Scope R_scope.

Lemma normalise_raw_convex (raw : list R) k r :
  Forall (fun r => 0 <= r) raw -> raw !! k = Some r -> 0 < r ->
  exists ws : list R,
    (fun w => fdiv w (np_sum (Fin <$> raw))) <$> (Fin <$> raw) = Fin <$> ws
    /\ length ws = length raw /\ foldr Rplus 0 ws = 1
    /\ Forall (fun w => 0 <= w) ws.
Proof.
  intros Hnn Hk Hr. pose proof (sum_positive raw k r Hnn Hk Hr) as Hsum.
  destruct (normalised_sum raw) as [Hnorm Hone]; [lra|].
  eexists. split_and!; [exact Hnorm | | exact Hone |].
  - rewrite length_fmap. reflexivity.
  - apply Forall_fmap. eapply Forall_impl; [exact Hnn|].
    intros w Hw. simpl. unfold Rdiv. apply Rmult_le_pos; [exact Hw|].
    left. apply Rinv_0_lt_compat. exact Hsum.
Qed.

(** The weights of lines 487-489 for a well-conditioned kernel are finite,
    non-negative and sum to one. *)
Lemma tlp_weights_convex func cutoff span sel k wgt :
  func = mean_filter \/ (well_conditioned func cutoff /\ all_finite span) ->
  tlp_weights func (length sel) span sel k cutoff = Ok wgt ->
  exists ws : list R,
    wgt = Fin <$> ws /\ length ws = length sel /\ foldr Rplus 0 ws = 1
    /\ Forall (fun w => 0 <= w) ws.
Proof.
  intros Hfunc. unfold tlp_weights. intros H.
  inv_result. rename x into span_sel, x0 into sel_k, x1 into span_k.
  match goal with
  | H1 : np_take span sel = Ok _, H2 : getitem sel k = Ok _,
    H3 : getitem span _ = Ok _ |- _ =>
      rename H1 into Htake, H2 into Hk, H3 into Hsk;
      apply getitem_Ok in Hk, Hsk
  end.
  subst wgt. destruct Hfunc as [->|[(g & Hg & Hnn & Hpos) Hspan]].
  - unfold mean_filter.
    replace (replicate (length sel) (Fin 1))
      with (Fin <$> replicate (length sel) 1) by apply fmap_replicate.
    destruct (normalise_raw_convex (replicate (length sel) 1) k 1)
      as (ws & Hws & Hlen & Hone & Hpos).
    + apply Forall_replicate. lra.
    + apply lookup_replicate_2. eapply lookup_lt_Some. eassumption.
    + lra.
    + exists ws. rewrite length_replicate in Hlen. auto.
  - pose proof (np_take_all_finite _ _ _ Hspan Htake) as Hfin.
    apply all_finite_Fin in Hfin as (ss & ->).
    assert (exists sk, span_k = Fin sk) as (sk & ->).
    { unfold all_finite in Hspan. rewrite Forall_forall in Hspan.
      specialize (Hspan span_k (list_elem_of_lookup_2 _ _ _ Hsk)).
      destruct span_k; try discriminate. eauto. }
    assert (Hlen : length ss = length sel).
    { apply np_take_length in Htake. rewrite length_fmap in Htake.
      exact Htake. }
    assert (Hyr : (fun s => fsub s (Fin sk)) <$> (Fin <$> ss)
                  = Fin <$> ((fun s => s + - sk) <$> ss)).
    { rewrite <- !list_fmap_compose. apply list_fmap_ext. reflexivity. }
    rewrite Hyr.
    replace (length sel) with (length ((fun s => s + - sk) <$> ss))
      by (rewrite length_fmap; exact Hlen).
    rewrite Hg.
    destruct (normalise_raw_convex (g <$> ((fun s => s + - sk) <$> ss)) k (g 0))
      as (ws & Hws & Hlenws & Hone & Hws0).
    + apply Forall_fmap, Forall_forall. intros y _. apply Hnn.
    + rewrite !list_lookup_fmap.
      pose proof (np_take_lookup _ _ _ _ _ Htake Hk) as Hl.
      rewrite list_lookup_fmap, Hsk in Hl.
      destruct (ss !! k) as [s|]; [|discriminate]. simpl in *.
      injection Hl as ->. do 2 f_equal. lra.
    + exact Hpos.
    + exists ws. rewrite !length_fmap in Hlenws.
      rewrite !length_fmap.
      split_and!; [exact Hws | lia | exact Hone | exact Hws0].
Qed.

Lemma weighted_sum_bounds (xs ws : list R) lo hi :
  length xs = length ws ->
  Forall (fun x => lo <= x <= hi) xs -> Forall (fun w => 0 <= w) ws ->
  lo * foldr Rplus 0 ws <= foldr Rplus 0 (zip_with Rmult xs ws)
                        <= hi * foldr Rplus 0 ws.
Proof.
  intros Hlen Hxs. revert ws Hlen.
  induction Hxs as [|x xs Hx _ IH]; intros [|w ws] Hlen Hws;
    try discriminate; simpl.
  - lra.
  - inversion Hws as [|? ? Hw Hws']; subst.
    specialize (IH ws ltac:(simpl in Hlen; lia) Hws'). nra.
Qed.

Lemma bounded_cells (vals : vec) (P : R -> Prop) :
  Forall (fun x => exists r, x = Fin r /\ P r) vals ->
  exists xs : list R, vals = Fin <$> xs /\ Forall P xs.
Proof.
  induction 1 as [|x vals (r & -> & Hr) _ (xs & -> & Hxs)].
  - exists []. split; [reflexivity | constructor].
  - exists (r :: xs). split; [reflexivity | constructor; assumption].
Qed.

End Convexity.

(** X5. In the exact arithmetic of the model, in which a finite cell is a
    real number that is neither rounded nor narrowed to single precision:
    under a configuration whose kernel does not divide by zero, the value
    the temporal filter writes at a valid epoch of a filtered pixel is a
    weighted mean of the pixel's valid inputs: when these lie between [lo]
    and [hi], so does the output.  In particular a pixel whose valid inputs
    are all [c] comes out as [c] at its valid epochs. *)
Theorem temporal_filter_stays_within_range
    (tsincr : cube) (epochlist : EpochList) (params : Params) (out : cube)
    (i j : nat) (v : vec) (lo hi : R) :
  temporal_low_pass_filter tsincr epochlist params = Ok out ->
  tlp_config_ok params epochlist ->
  pixel tsincr i j = Ok v -> j < shape1 tsincr ->
  (TLPF_PTHR params <= Z.of_nat (valid_epochs v))%Z ->
  (forall t y, v !! t = Some y -> isnan y = false ->
               exists r, y = Fin r /\ (lo <= r <= hi)%R) ->
  forall t x, v !! t = Some x -> isnan x = false ->
    exists r, cell out i j t = Some (Fin r) /\ (lo <= r <= hi)%R.
Proof.
  intros Hrun Hcfg Hv Hj Hthr Hbound t x Hx Hxn.
  destruct (tlp_written tsincr epochlist params out i j v t x
              Hrun Hv Hj Hthr Hx Hxn)
    as (span & k & wgt & vals & Hspan & Hk & Hw & Hvals & Hcell).
  rewrite Hcell by (eapply tlp_weights_length; eassumption). clear Hcell.
  destruct (tlp_weights_convex _ _ _ _ _ _
              ltac:(destruct (tlp_func_well_conditioned _ _ Hcfg)
                      as [Hm|[Hwc Hs]];
                    [left; exact Hm
                    |right; split;
                     [exact Hwc
                     |eapply tlp_span_all_finite; eassumption]]) Hw)
    as (ws & -> & Hlen & Hone & Hpos).
  destruct (bounded_cells vals (fun r => lo <= r <= hi)%R) as (xs & -> & Hxs).
  { apply Forall_forall. intros y Hy.
    apply list_elem_of_lookup in Hy as [n Hn]. apply np_take_Ok in Hvals.
    destruct (Forall2_lookup_r _ _ _ _ _ Hvals Hn) as (t' & Ht' & Hvt').
    apply (Hbound t' y Hvt').
    apply list_elem_of_lookup_2, nonzero_valid in Ht' as (y' & Hy' & Hy'n).
    congruence. }
  rewrite zip_with_fmul_Fin, np_sum_Fin. eexists. split; [reflexivity|].
  pose proof (weighted_sum_bounds xs ws lo hi) as Hb.
  rewrite Hone, !Rmult_1_r in Hb. apply Hb; [|assumption..].
  apply np_take_length in Hvals. rewrite length_fmap in Hvals. lia.
Qed.

Lemma temporal_filter_stays_within_range_witness :
  exists r, cell [[[Fin 2; Fin 2]]] 0 0 1 = Some (Fin r) /\ (1 <= r <= 3)%R.
Proof.
  apply (temporal_filter_stays_within_range sample_cube sample_epochs
           (sample_params 3 (Fin 1) 2) [[[Fin 2; Fin 2]]] 0 0
           [Fin 1; Fin 3] 1 3 sample_mean_run I eq_refl
           ltac:(simpl; lia) ltac:(vm_compute; discriminate))
    with (x := Fin 3).
  - intros [|[|t]] y [= <-] _; eexists; (split; [reflexivity | lra]).
  - reflexivity.
  - reflexivity.
Defined.

(** ** Cutoffs at which the kernels divide zero by zero *)

Section DegenerateCutoff.
Local Open Scope R_scope.

Lemma fadd_nan_r x : fadd x NaN = NaN.
Proof. destruct x; reflexivity. Qed.

Lemma fmul_nan_r x : fmul x NaN = NaN.
Proof. destruct x; reflexivity. Qed.

Lemma fdiv_nan_r x : fdiv x NaN = NaN.
Proof. destruct x; reflexivity. Qed.

Lemma np_sum_nan (v : vec) : NaN ∈ v -> np_sum v = NaN.
Proof.
  unfold np_sum. induction v as [|x v IH]; intros Hin; [inversion Hin|].
  apply elem_of_cons in Hin as [<-|Hin]; [reflexivity|].
  cbn [foldr]. rewrite IH by exact Hin. apply fadd_nan_r.
Qed.

(** A sum of products with NaN weights. *)
Lemma weighted_sum_nan (vals : vec) :
  vals <> [] ->
  np_sum (zip_with fmul vals (replicate (length vals) NaN)) = NaN.
Proof.
  intros Hne. apply np_sum_nan. destruct vals as [|x vals]; [contradiction|].
  simpl. rewrite fmul_nan_r. apply elem_of_cons. auto.
Qed.

(** The Gaussian weight of the offset of an epoch from itself, at cutoff
    zero: [0 / 0]. *)
Lemma gauss_zero_cutoff (s : npfloat) :
  fexp (fdiv (fneg (fpow (fdiv (fsub s s) (Fin 0)) 2)) (Fin 2)) = NaN.
Proof.
  destruct s as [a| | |]; try reflexivity. simpl.
  destruct (Req_dec_T 0 0) as [_|Hne]; [|contradiction].
  destruct (Req_dec_T (a + - a) 0) as [_|Hne]; [reflexivity|].
  exfalso. apply Hne. ring.
Qed.

(** A triangular weight at a cutoff that is not positive. *)
Lemma _triangle_nonpositive (c : R) (y : npfloat) :
  c <= 0 ->
  zero_or_nan (let wgt := fsub (Fin c) (fabs y) in
               if flt wgt (Fin 0) then Fin 0 else wgt).
Proof.
  intros Hc. unfold zero_or_nan. destruct y as [r| | |]; simpl.
  - pose proof (Rabs_pos r).
    destruct (Rlt_dec (c + - Rabs r) 0); right; eexists;
      (split; [reflexivity | lra]).
  - right. eauto.
  - right. eauto.
  - left. reflexivity.
Qed.

Lemma zero_or_nan_sum (v : vec) : Forall zero_or_nan v -> zero_or_nan (np_sum v).
Proof.
  unfold np_sum. induction 1 as [|x v Hx _ IH]; simpl.
  - right. eauto.
  - destruct Hx as [->|(a & -> & Ha)]; [left; reflexivity|].
    destruct IH as [->|(b & -> & Hb)]; [left; reflexivity|].
    right. exists (a + b). split; [reflexivity | lra].
Qed.

Lemma zero_or_nan_quotient (w s : npfloat) :
  zero_or_nan w -> zero_or_nan s -> fdiv w s = NaN.
Proof.
  intros [->|(a & -> & Ha)] [->|(b & -> & Hb)]; try reflexivity. simpl.
  destruct (Req_dec_T b 0); [|contradiction].
  destruct (Req_dec_T a 0); [reflexivity | contradiction].
Qed.

Lemma fmap_const_replicate {A B} (l : list A) (y : B) (f : A -> B) :
  (forall x, x ∈ l -> f x = y) -> f <$> l = replicate (length l) y.
Proof.
  induction l as [|x l IH]; intros Hf; [reflexivity|].
  rewrite fmap_cons. cbn [length replicate]. f_equal.
  - apply Hf. apply elem_of_cons. auto.
  - apply IH. intros z Hz. apply Hf. apply elem_of_cons. auto.
Qed.

(** At such a cutoff the normalised weights are NaN, one per valid
    epoch. *)
Lemma tlp_weights_degenerate method cutoff span sel k wgt :
  (method = 1%Z /\ cutoff = Fin 0
   \/ method = 2%Z /\ exists c, cutoff = Fin c /\ c <= 0) ->
  tlp_weights (tlp_func method) (length sel) span sel k cutoff = Ok wgt ->
  wgt = replicate (length sel) NaN.
Proof.
  intros Hdeg Hw. pose proof (tlp_weights_length _ _ _ _ _ _ Hw) as Hlen.
  unfold tlp_weights in Hw. inv_result.
  rename x into span_sel, x0 into sel_k, x1 into span_k.
  match goal with
  | H1 : np_take span sel = Ok _, H2 : getitem sel k = Ok _,
    H3 : getitem span _ = Ok _ |- _ =>
      rename H1 into Htake, H2 into Hk, H3 into Hsk;
      apply getitem_Ok in Hk, Hsk
  end.
  subst wgt. set (raw := tlp_func _ _ _ _) in *.
  rewrite length_fmap in Hlen. rewrite <- Hlen.
  apply fmap_const_replicate. intros w Hwin. subst raw.
  destruct Hdeg as [[-> ->]|(-> & c & -> & Hc)].
  - replace (np_sum _) with NaN; [apply fdiv_nan_r|]. symmetry.
    apply np_sum_nan. change (tlp_func 1) with gauss. unfold gauss.
    apply list_elem_of_fmap. exists (fsub span_k span_k).
    split; [symmetry; apply gauss_zero_cutoff|].
    apply list_elem_of_fmap. exists span_k. split; [reflexivity|].
    apply (list_elem_of_lookup_2 _ k).
    rewrite (np_take_lookup _ _ _ _ _ Htake Hk). exact Hsk.
  - change (tlp_func 2) with _triangle in *. unfold _triangle in *.
    apply zero_or_nan_quotient.
    + apply list_elem_of_fmap in Hwin as (y & -> & _).
      apply _triangle_nonpositive. exact Hc.
    + apply zero_or_nan_sum, Forall_fmap, Forall_forall. intros y _.
      apply _triangle_nonpositive. exact Hc.
Qed.

End DegenerateCutoff.

(** X6. With the Gaussian kernel at cutoff zero, or the triangular kernel at
    a cutoff that is not positive, the weights of every epoch are [0 / 0].
    On a cube with the lengths its shape announces and an epoch list with
    one epoch more than the cube, the filter returns without an exception
    and every pixel of its output is NaN at every epoch, whatever the input
    cells, the epoch spans and the threshold. *)
Theorem degenerate_cutoff_wipes_output
    (tsincr : cube) (epochlist : EpochList) (params : Params) :
  (TLPF_METHOD params = 1%Z /\ TLPF_CUTOFF params = Fin 0
   \/ TLPF_METHOD params = 2%Z
      /\ exists c : R, TLPF_CUTOFF params = Fin c /\ (c <= 0)%R) ->
  regular tsincr -> length (spans epochlist) = S (shape2 tsincr) ->
  exists out,
    temporal_low_pass_filter tsincr epochlist params = Ok out
    /\ forall i j v,
         pixel tsincr i j = Ok v ->
         pixel out i j = Ok (replicate (length v) NaN).
Proof.
  intros Hdeg Hreg Hn.
  assert (Hex : exists out,
            temporal_low_pass_filter tsincr epochlist params = Ok out).
  { unfold temporal_low_pass_filter.
    assert (Hs : exists span, tlp_span tsincr epochlist = Ok span
                              /\ length span = shape2 tsincr).
    { unfold tlp_span, broadcast. rewrite decide_True.
      - eexists. split; [reflexivity|].
        rewrite length_zip_with, length_take, length_fmap, np_diff_length.
        lia.
      - rewrite length_take, length_fmap, np_diff_length. lia. }
    destruct Hs as (span & -> & Hspan). simpl.
    apply _tlpfilter_total; [assumption.. | apply nan_like_lengths]. }
  destruct Hex as [out Hrun]. exists out. split; [exact Hrun|].
  intros i j v Hv. apply pixel_of_cells with (c := nan_like tsincr).
  - apply temporal_low_pass_filter_Ok in Hrun as (span & _ & Hrun).
    eapply _tlpfilter_shape. eassumption.
  - apply nan_like_pixel. assumption.
  - intros t.
    destruct (decide (j < shape1 tsincr)) as [Hj|Hj].
    2:{ apply temporal_low_pass_filter_Ok in Hrun as (span & _ & Hrun).
        apply (_tlpfilter_cells _ _ _ _ _ _ _ _ _ _ Hrun i j t). tauto. }
    destruct (Z.leb_spec (TLPF_PTHR params) (Z.of_nat (valid_epochs v)))
      as [Hthr|Hlow].
    2:{ eapply tlp_unwritten; eauto. }
    destruct (v !! t) as [x|] eqn:Hx.
    2:{ eapply tlp_unwritten; eauto. right. intros (x & Hx' & _).
        congruence. }
    destruct (isnan x) eqn:Hxn.
    { eapply tlp_unwritten; eauto. right. intros (x' & Hx' & Hn').
      congruence. }
    destruct (tlp_written tsincr epochlist params out i j v t x
                Hrun Hv Hj Hthr Hx Hxn)
      as (span & k & wgt & vals & _ & Hk & Hw & Hvals & Hcell).
    rewrite Hcell by (eapply tlp_weights_length; eassumption).
    rewrite (nan_like_cell tsincr i j v t Hv).
    rewrite decide_True by (eapply lookup_lt_Some; eassumption).
    rewrite (tlp_weights_degenerate _ _ _ _ _ _ Hdeg Hw).
    rewrite <- (np_take_length _ _ _ Hvals). f_equal.
    apply weighted_sum_nan. intros ->.
    apply np_take_length in Hvals. simpl in Hvals.
    symmetry in Hvals. apply length_zero_iff_nil in Hvals.
    rewrite Hvals in Hk. discriminate.
Qed.

Lemma degenerate_cutoff_wipes_output_witness :
  exists out,
    temporal_low_pass_filter sample_cube sample_epochs
      (sample_params 2 (Fin 0) 2) = Ok out
    /\ forall i j v,
         pixel sample_cube i j = Ok v ->
         pixel out i j = Ok (replicate (length v) NaN).
Proof.
  apply (degenerate_cutoff_wipes_output sample_cube sample_epochs
           (sample_params 2 (Fin 0) 2)).
  - right. split; [reflexivity|]. exists 0%R. split; [reflexivity | lra].
  - repeat constructor.
  - reflexivity.
Defined.

(** ** The filter works pixel by pixel *)

Lemma tlp_span_shape2 (c1 c2 : cube) epochlist :
  shape2 c1 = shape2 c2 -> tlp_span c1 epochlist = tlp_span c2 epochlist.
Proof. unfold tlp_span. intros ->. reflexivity. Qed.

(** The cells of an output pixel are determined by the input pixel, the
    epoch list and the configuration. *)
Lemma tlp_cells_determined
    (c1 c2 : cube) (epochlist : EpochList) (params : Params) (out1 out2 : cube)
    (i1 j1 i2 j2 : nat) (v : vec) (t : nat) :
  temporal_low_pass_filter c1 epochlist params = Ok out1 ->
  temporal_low_pass_filter c2 epochlist params = Ok out2 ->
  shape2 c1 = shape2 c2 ->
  pixel c1 i1 j1 = Ok v -> pixel c2 i2 j2 = Ok v ->
  j1 < shape1 c1 -> j2 < shape1 c2 ->
  cell out1 i1 j1 t = cell out2 i2 j2 t.
Proof.
  intros Hrun1 Hrun2 Hshape Hv1 Hv2 Hj1 Hj2.
  assert (Hnan : forall c out i j,
    temporal_low_pass_filter c epochlist params = Ok out ->
    pixel c i j = Ok v ->
    (Z.of_nat (valid_epochs v) < TLPF_PTHR params)%Z
    \/ ~ (exists x, v !! t = Some x /\ isnan x = false) ->
    cell out i j t = if decide (t < length v) then Some NaN else None).
  { intros c out i j Hrun Hv Hcase.
    rewrite (tlp_unwritten c epochlist params out i j v t Hrun Hv Hcase).
    apply nan_like_cell. exact Hv. }
  destruct (Z.leb_spec (TLPF_PTHR params) (Z.of_nat (valid_epochs v)))
    as [Hthr|Hlow].
  2:{ rewrite (Hnan c1 out1 i1 j1), (Hnan c2 out2 i2 j2); auto. }
  destruct (v !! t) as [x|] eqn:Hx.
  2:{ rewrite (Hnan c1 out1 i1 j1), (Hnan c2 out2 i2 j2); auto;
        right; intros (x & Hx' & _); congruence. }
  destruct (isnan x) eqn:Hxn.
  { rewrite (Hnan c1 out1 i1 j1), (Hnan c2 out2 i2 j2); auto;
      right; intros (x' & Hx' & Hn); congruence. }
  destruct (tlp_written c1 epochlist params out1 i1 j1 v t x
              Hrun1 Hv1 Hj1 Hthr Hx Hxn)
    as (span1 & k1 & wgt1 & vals1 & Hs1 & Hk1 & Hw1 & Hvals1 & Hcell1).
  destruct (tlp_written c2 epochlist params out2 i2 j2 v t x
              Hrun2 Hv2 Hj2 Hthr Hx Hxn)
    as (span2 & k2 & wgt2 & vals2 & Hs2 & Hk2 & Hw2 & Hvals2 & Hcell2).
  rewrite Hcell1 by (eapply tlp_weights_length; eassumption).
  rewrite Hcell2 by (eapply tlp_weights_length; eassumption).
  rewrite (tlp_span_shape2 c1 c2 _ Hshape) in Hs1.
  assert (span1 = span2) as -> by congruence.
  assert (k1 = k2) as ->.
  { eapply NoDup_lookup; [apply nonzero_NoDup | exact Hk1 | exact Hk2]. }
  assert (wgt1 = wgt2) as -> by congruence.
  assert (vals1 = vals2) as -> by congruence.
  reflexivity.
Qed.

(** X7. The temporal filter never mixes pixels: two pixels with the same
    input row, in one cube or in two cubes with the same number of epochs,
    filtered with one epoch list and one configuration, have the same
    output row. *)
Theorem temporal_filter_is_per_pixel
    (tsincr1 tsincr2 : cube) (epochlist : EpochList) (params : Params)
    (out1 out2 : cube) (i1 j1 i2 j2 : nat) (v : vec) :
  temporal_low_pass_filter tsincr1 epochlist params = Ok out1 ->
  temporal_low_pass_filter tsincr2 epochlist params = Ok out2 ->
  shape2 tsincr1 = shape2 tsincr2 ->
  pixel tsincr1 i1 j1 = Ok v -> pixel tsincr2 i2 j2 = Ok v ->
  j1 < shape1 tsincr1 -> j2 < shape1 tsincr2 ->
  pixel out1 i1 j1 = pixel out2 i2 j2.
Proof.
  intros Hrun1 Hrun2 Hshape Hv1 Hv2 Hj1 Hj2.
  assert (Hl : forall c out,
    temporal_low_pass_filter c epochlist params = Ok out ->
    lengths out = lengths c).
  { intros c out (span & _ & Hrun)%temporal_low_pass_filter_Ok.
    rewrite (_tlpfilter_shape _ _ _ _ _ _ _ _ _ _ Hrun).
    apply nan_like_lengths. }
  destruct (lengths_pixel tsincr1 out1 i1 j1 v (Hl _ _ Hrun1) Hv1)
    as (v1 & Hv1' & _).
  destruct (lengths_pixel tsincr2 out2 i2 j2 v (Hl _ _ Hrun2) Hv2)
    as (v2 & Hv2' & _).
  rewrite Hv1', Hv2'. f_equal. apply list_eq. intros t.
  rewrite <- (cell_pixel _ _ _ _ Hv1'), <- (cell_pixel _ _ _ _ Hv2').
  eapply tlp_cells_determined; eassumption.
Qed.

Lemma sample_mean_run_two_pixels :
  temporal_low_pass_filter [[[Fin 5; Fin 7]; [Fin 1; Fin 3]]] sample_epochs
    (sample_params 3 (Fin 1) 2) = Ok [[[Fin 6; Fin 6]; [Fin 2; Fin 2]]].
Proof. np_eval. np_close. Qed.

Lemma temporal_filter_is_per_pixel_witness :
  pixel [[[Fin 2; Fin 2]]] 0 0
  = pixel [[[Fin 6; Fin 6]; [Fin 2; Fin 2]]] 0 1.
Proof.
  apply (temporal_filter_is_per_pixel sample_cube
           [[[Fin 5; Fin 7]; [Fin 1; Fin 3]]] sample_epochs
           (sample_params 3 (Fin 1) 2) _ _ 0 0 0 1 [Fin 1; Fin 3]
           sample_mean_run sample_mean_run_two_pixels).
  - reflexivity.
  - reflexivity.
  - reflexivity.
  - simpl. lia.
  - simpl. lia.
Defined.

(** ** The origin of time *)

Section TimeOrigin.
Local Open Scope R_scope.
Context (d : R).

Lemma np_diff_shift (ss : list R) :
  np_diff (Fin <$> ((fun s => s + d) <$> ss)) = np_diff (Fin <$> ss).
Proof.
  induction ss as [|x [|y ss] IH]; [reflexivity..|].
  rewrite !fmap_cons in *.
  change (np_diff (Fin (x + d) :: Fin (y + d) :: ?l))
    with (fsub (Fin (y + d)) (Fin (x + d)) :: np_diff (Fin (y + d) :: l)).
  change (np_diff (Fin x :: Fin y :: ?l))
    with (fsub (Fin y) (Fin x) :: np_diff (Fin y :: l)).
  rewrite IH. f_equal. simpl. f_equal. lra.
Qed.

Lemma broadcast_shift (a b : list R) :
  broadcast fadd (Fin <$> ((fun s => s + d) <$> a)) (Fin <$> b)
  = (fun v : vec => (fun x => fadd x (Fin d)) <$> v)
      <$> broadcast fadd (Fin <$> a) (Fin <$> b).
Proof.
  unfold broadcast. rewrite !length_fmap.
  destruct (decide (length a = length b)) as [_|_].
  - simpl. f_equal. revert b. induction a as [|x a IH]; intros [|y b];
      try reflexivity.
    rewrite !fmap_cons. cbn [zip_with]. rewrite fmap_cons, IH.
    f_equal. simpl. f_equal. lra.
  - destruct a as [|x [|x' a]]; simpl.
    + destruct b as [|y [|y' b]]; reflexivity.
    + f_equal. rewrite <- !list_fmap_compose. apply list_fmap_ext.
      intros _ y _. simpl. f_equal. lra.
    + destruct b as [|y [|y' b]]; try reflexivity.
      change (Ok ((fun z => fadd z (Fin y))
                    <$> (Fin <$> ((fun s => s + d) <$> (x :: x' :: a))))
              = Ok ((fun z => fadd z (Fin d))
                      <$> ((fun z => fadd z (Fin y))
                             <$> (Fin <$> (x :: x' :: a))))).
      f_equal. rewrite <- !list_fmap_compose. apply list_fmap_ext.
      intros _ z _. simpl. f_equal. lra.
Qed.

(** Shifting the epochs shifts the accumulated times of the filter. *)
Lemma tlp_span_shift (tsincr : cube) (ss : list R) :
  tlp_span tsincr {| spans := Fin <$> ((fun s => s + d) <$> ss) |}
  = (fun v : vec => (fun x => fadd x (Fin d)) <$> v)
      <$> tlp_span tsincr {| spans := Fin <$> ss |}.
Proof.
  unfold tlp_span. cbn [spans]. rewrite np_diff_shift.
  rewrite <- !fmap_take.
  destruct (all_finite_Fin ((fun x => fdiv x (Fin 2)) <$> np_diff (Fin <$> ss)))
    as [Hfin _].
  destruct Hfin as (b & Hb).
  { apply Forall_fmap. eapply Forall_impl.
    - apply np_diff_all_finite, all_finite_Fin. eauto.
    - intros [r| | |]; try discriminate. intros _. simpl.
      destruct (Req_dec_T 2 0); [lra | reflexivity]. }
  rewrite Hb. apply broadcast_shift.
Qed.

Lemma getitem_fmap {A B} (f : A -> B) (v : list A) (i : nat) :
  getitem (f <$> v) i = f <$> getitem v i.
Proof.
  unfold getitem. rewrite list_lookup_fmap. destruct (v !! i); reflexivity.
Qed.

Lemma np_take_fmap {A B} (f : A -> B) (v : list A) (sel : list nat) :
  np_take (f <$> v) sel = (fun l : list A => f <$> l) <$> np_take v sel.
Proof.
  unfold np_take. induction sel as [|t sel IH]; [reflexivity|].
  cbn [mapM]. rewrite getitem_fmap, IH.
  destruct (getitem v t); [|reflexivity]. simpl.
  destruct (mapM (getitem v) sel); reflexivity.
Qed.

(** The weights depend on the differences of the times only. *)
Lemma tlp_weights_shift (func : kernel) (m : nat) (ss : list R)
    (sel : list nat) (k : nat) (cutoff : npfloat) :
  tlp_weights func m (Fin <$> ((fun s => s + d) <$> ss)) sel k cutoff
  = tlp_weights func m (Fin <$> ss) sel k cutoff.
Proof.
  unfold tlp_weights. rewrite <- !list_fmap_compose.
  rewrite (np_take_fmap (Fin ∘ (fun s => s + d)) ss sel).
  rewrite (np_take_fmap Fin ss sel).
  destruct (np_take ss sel) as [ts|]; [|reflexivity]. simpl.
  destruct (getitem sel k) as [t|]; [|reflexivity]. simpl.
  rewrite (getitem_fmap (Fin ∘ (fun s => s + d)) ss t).
  rewrite (getitem_fmap Fin ss t).
  destruct (getitem ss t) as [sk|]; [|reflexivity]. simpl.
  assert (Hyr : (fun s => fsub s (Fin (sk + d)))
                  <$> ((Fin ∘ (fun s => s + d)) <$> ts)
                = (fun s => fsub s (Fin sk)) <$> (Fin <$> ts)).
  { rewrite <- !list_fmap_compose. apply list_fmap_ext.
    intros _ s _. simpl. f_equal. lra. }
  rewrite Hyr. reflexivity.
Qed.

End TimeOrigin.

(** X8. The temporal filter depends on the differences between the epoch
    times only: adding one finite number to every span of a finite epoch
    list changes neither its result nor its exception. *)
Theorem temporal_filter_ignores_time_origin
    (tsincr : cube) (epochlist : EpochList) (params : Params) (d : R) :
  all_finite (spans epochlist) ->
  temporal_low_pass_filter tsincr
    {| spans := (fun s => fadd s (Fin d)) <$> spans epochlist |} params
  = temporal_low_pass_filter tsincr epochlist params.
Proof.
  intros (ss & Hss)%all_finite_Fin. destruct epochlist as [sp].
  simpl in Hss. subst sp. cbn [spans].
  replace ((fun s => fadd s (Fin d)) <$> (Fin <$> ss))
    with (Fin <$> ((fun s => (s + d)%R) <$> ss))
    by (rewrite <- !list_fmap_compose; reflexivity).
  unfold temporal_low_pass_filter. rewrite tlp_span_shift.
  destruct (tlp_span tsincr {| spans := Fin <$> ss |}) as [span|] eqn:Hspan;
    [|reflexivity].
  simpl.
  destruct (proj1 (all_finite_Fin span)) as (rs & ->).
  { eapply tlp_span_all_finite; [|exact Hspan].
    apply all_finite_Fin. eauto. }
  replace ((fun x => fadd x (Fin d)) <$> (Fin <$> rs))
    with (Fin <$> ((fun s => (s + d)%R) <$> rs))
    by (rewrite <- !list_fmap_compose; reflexivity).
  unfold _tlpfilter. apply for_each_ext. intros i s.
  apply for_each_ext. intros j r. unfold tlp_pixel.
  destruct (pixel (not_nan_mask tsincr) i j) as [mask|]; [|reflexivity].
  simpl. destruct (_ <=? _)%Z; [|reflexivity].
  apply for_each_ext. intros k q. unfold tlp_epoch.
  rewrite tlp_weights_shift. reflexivity.
Qed.

Lemma temporal_filter_ignores_time_origin_witness :
  temporal_low_pass_filter sample_cube
    {| spans := (fun s => fadd s (Fin 2000)) <$> spans sample_epochs |}
    (sample_params 1 (Fin 1) 2)
  = temporal_low_pass_filter sample_cube sample_epochs
      (sample_params 1 (Fin 1) 2).
Proof.
  apply (temporal_filter_ignores_time_origin sample_cube sample_epochs
           (sample_params 1 (Fin 1) 2) 2000).
  repeat constructor.
Defined.

(** * Further properties of the spatial filter *)

(** ** Interpolation of one raster *)

Lemma fill_nans_vec_length (v vals : vec) :
  length (fill_nans_vec v vals).1 = length v.
Proof.
  revert vals. induction v as [|x v IH]; intros vals; [reflexivity|].
  simpl. destruct (isnan x); [destruct vals|]; simpl; rewrite IH; reflexivity.
Qed.

Lemma fill_nans_vec_valid (v vals : vec) c x :
  v !! c = Some x -> isnan x = false -> (fill_nans_vec v vals).1 !! c = Some x.
Proof.
  revert vals c. induction v as [|y v IH]; intros vals c Hc Hx; [discriminate|].
  destruct c as [|c]; simpl in Hc.
  - injection Hc as ->. simpl. rewrite Hx. reflexivity.
  - simpl. destruct (isnan y); [destruct vals|]; simpl; apply IH; assumption.
Qed.

Lemma fill_nans_shape (a : image) (vals : vec) :
  (fun row : vec => length row) <$> fill_nans a vals
  = (fun row : vec => length row) <$> a.
Proof.
  revert vals. induction a as [|row a IH]; intros vals; [reflexivity|].
  simpl. rewrite fill_nans_vec_length, IH. reflexivity.
Qed.

Lemma fill_nans_valid (a : image) (vals : vec) r c x :
  cell2 a r c = Some x -> isnan x = false ->
  cell2 (fill_nans a vals) r c = Some x.
Proof.
  unfold cell2. revert vals r. induction a as [|row a IH]; intros vals r Hc Hx;
    [discriminate|].
  destruct r as [|r]; simpl in *.
  - apply fill_nans_vec_valid; assumption.
  - apply IH; assumption.
Qed.

Lemma assign_nans_Ok (a : image) (vals : vec) a' :
  assign_nans a vals = Ok a' ->
  (fun row : vec => length row) <$> a' = (fun row : vec => length row) <$> a
  /\ forall r c x, cell2 a r c = Some x -> isnan x = false ->
                   cell2 a' r c = Some x.
Proof.
  unfold assign_nans. case_decide.
  - intros [= <-]. split; [apply fill_nans_shape|].
    intros r c x. apply fill_nans_valid.
  - destruct vals as [|y [|y' vals]]; try discriminate. intros [= <-]. split.
    + rewrite <- list_fmap_compose. apply list_fmap_ext. intros _ row _.
      simpl. apply length_fmap.
    + intros r c x. unfold cell2. rewrite list_lookup_fmap.
      destruct (a !! r) as [row|]; [|discriminate]. simpl.
      rewrite list_lookup_fmap. intros -> Hx. simpl. rewrite Hx. reflexivity.
Qed.

Lemma zero_fill_shape (a : image) :
  (fun row : vec => length row) <$> zero_fill a
  = (fun row : vec => length row) <$> a.
Proof.
  unfold zero_fill. rewrite <- list_fmap_compose. apply list_fmap_ext.
  intros _ row _. simpl. apply length_fmap.
Qed.

Lemma zero_fill_cell (a : image) r c :
  cell2 (zero_fill a) r c
  = (fun x => if isnan x then Fin 0 else x) <$> cell2 a r c.
Proof.
  unfold cell2, zero_fill. rewrite list_lookup_fmap.
  destruct (a !! r) as [row|]; [|reflexivity]. simpl.
  apply list_lookup_fmap.
Qed.

(** X9. Whatever [griddata] returns for the NaN cells, after
    [_interpolate_nans_2d] the raster has its former shape, no cell of it is
    NaN, and every cell that held a number still holds it. *)
Theorem interpolation_fills_every_nan `{Collaborators}
    (a : image) (rows cols : list (list nat)) (method : string) (a' : image) :
  _interpolate_nans_2d a rows cols method = Ok a' ->
  (fun row : vec => length row) <$> a' = (fun row : vec => length row) <$> a
  /\ (forall r c x, cell2 a' r c = Some x -> isnan x = false)
  /\ (forall r c x, cell2 a r c = Some x -> isnan x = false ->
                    cell2 a' r c = Some x).
Proof.
  unfold _interpolate_nans_2d. intros Hrun. inv_result. subst a'.
  match goal with Ha : assign_nans _ _ = Ok _ |- _ =>
    apply assign_nans_Ok in Ha as [Hshape Hvalid] end.
  split_and!.
  - rewrite zero_fill_shape. exact Hshape.
  - intros r c y. apply zero_fill_no_nan.
  - intros r c y Hc Hy. rewrite zero_fill_cell, (Hvalid r c y Hc Hy).
    simpl. rewrite Hy. reflexivity.
Qed.

Lemma interpolation_fills_every_nan_witness :
  (fun row : vec => length row) <$> [[Fin 0; Fin 2]]
  = (fun row : vec => length row) <$> [[NaN; Fin 2]]
  /\ (forall r c x, cell2 [[Fin 0; Fin 2]] r c = Some x -> isnan x = false)
  /\ (forall r c x, cell2 [[NaN; Fin 2]] r c = Some x -> isnan x = false ->
                    cell2 [[Fin 0; Fin 2]] r c = Some x).
Proof.
  apply (@interpolation_fills_every_nan sample_collaborators
           [[NaN; Fin 2]] [[0; 0]] [[0; 1]] "linear").
  reflexivity.
Defined.

(** ** Arrays of one shape *)

Lemma mapM_stretch_same {A} (a : list (list A)) k :
  Forall (fun row : list A => length row = k) a -> mapM (stretch k) a = Ok a.
Proof.
  intros Ha. apply mapM_Ok. induction Ha; constructor; auto.
  apply stretch_same. assumption.
Qed.

Section Matrices.
Context {A B C : Type} (rows cols : nat).

Lemma matrix_of_shape1 (P : A -> Prop) (a : list (list A)) :
  matrix_of P rows cols a -> 0 < rows -> shape1 a = cols.
Proof.
  intros [Hlen Hrows] Hpos. destruct a as [|row a]; simpl in *; [lia|].
  inversion Hrows as [|? ? [Hc _] _]. exact Hc.
Qed.

Lemma matrix_of_has_shape2 (P : npfloat -> Prop) (a : image) :
  matrix_of P rows cols a -> has_shape2 rows cols a.
Proof.
  intros [Hlen Hrows]. split; [exact Hlen|].
  eapply Forall_impl; [exact Hrows|]. intros row [Hc _]. exact Hc.
Qed.

Lemma has_shape2_matrix_of (P : npfloat -> Prop) (a : image) :
  has_shape2 rows cols a -> Forall (Forall P) a -> matrix_of P rows cols a.
Proof.
  intros [Hlen Hrows] Hcells. split; [exact Hlen|].
  rewrite Forall_forall in *. intros row Hrow. auto.
Qed.

Lemma matrix_of_cells (P : npfloat -> Prop) (a : image) :
  matrix_of P rows cols a -> Forall (Forall P) a.
Proof.
  intros [_ Hrows]. eapply Forall_impl; [exact Hrows|]. intros row [_ H]. exact H.
Qed.

(** A cell-wise map; the function needs to be right only where there is a
    cell. *)
Lemma matrix_of_fmap (P : A -> Prop) (Q : B -> Prop) (f : A -> B)
    (a : list (list A)) :
  (0 < rows -> 0 < cols -> forall x, P x -> Q (f x)) ->
  matrix_of P rows cols a ->
  matrix_of Q rows cols ((fun row : list A => f <$> row) <$> a).
Proof.
  intros Hf [Hlen Hrows]. split; [rewrite length_fmap; exact Hlen|].
  apply Forall_fmap, Forall_forall. intros row Hrow. simpl.
  rewrite Forall_forall in Hrows. destruct (Hrows row Hrow) as [Hc Hcells].
  rewrite length_fmap. split; [exact Hc|].
  apply Forall_fmap, Forall_forall. intros x Hx. simpl.
  rewrite Forall_forall in Hcells. apply Hf; [| |auto].
  - apply list_elem_of_lookup in Hrow as [i Hi].
    apply lookup_lt_Some in Hi. lia.
  - apply list_elem_of_lookup in Hx as [i Hi].
    apply lookup_lt_Some in Hi. lia.
Qed.

Lemma matrix_of_fftshift (P : A -> Prop) (a : list (list A)) :
  matrix_of P rows cols a -> matrix_of P rows cols (fftshift a).
Proof.
  intros [Hlen Hrows]. unfold fftshift. split.
  - rewrite length_rotate, length_fmap. exact Hlen.
  - apply Forall_forall. intros row Hrow.
    apply elem_of_rotate, list_elem_of_fmap in Hrow as (row0 & -> & Hrow0).
    rewrite Forall_forall in Hrows. destruct (Hrows row0 Hrow0) as [Hc Hcells].
    rewrite length_rotate. split; [exact Hc|].
    apply Forall_forall. intros x Hx%elem_of_rotate.
    rewrite Forall_forall in Hcells. auto.
Qed.

Lemma matrix_of_ifftshift (P : A -> Prop) (a : list (list A)) :
  matrix_of P rows cols a -> matrix_of P rows cols (ifftshift a).
Proof.
  intros [Hlen Hrows]. unfold ifftshift. split.
  - rewrite length_rotate, length_fmap. exact Hlen.
  - apply Forall_forall. intros row Hrow.
    apply elem_of_rotate, list_elem_of_fmap in Hrow as (row0 & -> & Hrow0).
    rewrite Forall_forall in Hrows. destruct (Hrows row0 Hrow0) as [Hc Hcells].
    rewrite length_rotate. split; [exact Hc|].
    apply Forall_forall. intros x Hx%elem_of_rotate.
    rewrite Forall_forall in Hcells. auto.
Qed.

Lemma zip_with_matrix (P : A -> Prop) (Q : B -> Prop) (R : C -> Prop)
    (op : A -> B -> C) (a : list (list A)) (b : list (list B)) :
  (forall x y, P x -> Q y -> R (op x y)) ->
  matrix_of P rows cols a -> matrix_of Q rows cols b ->
  matrix_of R rows cols (zip_with (zip_with op) a b).
Proof.
  intros Hop [Hla Ha] [Hlb Hb]. split.
  - rewrite length_zip_with. lia.
  - clear Hla Hlb. revert b Hb.
    induction Ha as [|ra a [Hca Hra] _ IH]; intros b Hb; [constructor|].
    destruct Hb as [|rb b [Hcb Hrb] Hb]; [constructor|].
    simpl. constructor; [|apply IH; exact Hb]. split.
    + rewrite length_zip_with. lia.
    + clear Hca Hcb. revert rb Hrb.
      induction Hra as [|x ra Hx _ IHr]; intros rb Hrb; [constructor|].
      destruct Hrb as [|y rb Hy Hrb]; [constructor|].
      simpl. constructor; auto.
Qed.

(** Two operands of one shape broadcast to that shape, cell by cell. *)
Lemma broadcast2_same_shape (P : A -> Prop) (Q : B -> Prop)
    (op : A -> B -> C) (a : list (list A)) (b : list (list B)) :
  matrix_of P rows cols a -> matrix_of Q rows cols b ->
  broadcast2 op a b = Ok (zip_with (zip_with op) a b).
Proof.
  intros Ha Hb. unfold broadcast2.
  destruct Ha as [Hla Ha], Hb as [Hlb Hb].
  assert (Hsame : forall k, broadcast_length k k = Ok k)
    by (intros k; unfold broadcast_length; rewrite decide_True; reflexivity).
  replace (length b) with (length a) by lia. rewrite Hsame. simpl.
  assert (Hs : shape1 a = shape1 b /\
               Forall (fun row : list A => length row = shape1 a) a /\
               Forall (fun row : list B => length row = shape1 a) b).
  { destruct a as [|ra a], b as [|rb b]; simpl in *; try lia.
    - split_and!; constructor.
    - inversion Ha as [|? ? [Hca _] Ha']; inversion Hb as [|? ? [Hcb _] Hb'];
        subst. split_and!; [lia | |].
      + constructor; [reflexivity|]. eapply Forall_impl; [exact Ha'|].
        intros row [Hc _]. lia.
      + constructor; [lia|]. eapply Forall_impl; [exact Hb'|].
        intros row [Hc _]. lia. }
  destruct Hs as (Heq & Hra & Hrb).
  rewrite <- Heq, Hsame. simpl.
  rewrite (mapM_stretch_same a _ Hra). simpl.
  rewrite stretch_same by reflexivity. simpl.
  rewrite (mapM_stretch_same b _ Hrb). simpl.
  rewrite stretch_same by lia. reflexivity.
Qed.

End Matrices.

(** Line 391 on a raster without NaN: the mask is empty. *)
Lemma mask_fill_no_nan (rows cols : nat) (out phase : image)
    (P Q : npfloat -> Prop) :
  (forall x, Q x -> isnan x = false) ->
  matrix_of P rows cols out -> matrix_of Q rows cols phase ->
  mask_fill out (isnan2 phase) NaN = Ok out.
Proof.
  intros HQ [Hlo Ho] [Hlp Hp]. unfold mask_fill.
  assert (Hshape : (fun row : vec => length row) <$> out
                   = (fun row : list bool => length row) <$> isnan2 phase).
  { unfold isnan2. rewrite <- list_fmap_compose.
    transitivity (replicate rows cols).
    - rewrite <- Hlo. apply fmap_const_replicate. intros row Hrow.
      rewrite Forall_forall in Ho. apply Ho. exact Hrow.
    - rewrite <- Hlp. symmetry. apply fmap_const_replicate. intros row Hrow.
      simpl. rewrite length_fmap. rewrite Forall_forall in Hp.
      apply Hp. exact Hrow. }
  rewrite decide_True by exact Hshape. f_equal.
  clear Hshape. subst rows. revert phase Hlp Hp.
  induction Ho as [|ro out [Hco _] _ IH]; intros [|rp phase] Hlp Hp;
    try discriminate; [reflexivity|].
  inversion Hp as [|? ? [Hcp Hrp] Hp']; subst.
  simpl. f_equal; [|apply IH; [simpl in Hlp; lia | exact Hp']].
  clear -Hrp HQ Hcp. revert ro Hcp.
  induction Hrp as [|x rp Hx _ IHr]; intros [|y ro] Hlen; try discriminate;
    [reflexivity|].
  simpl. rewrite (HQ x Hx). f_equal. apply IHr. simpl in Hlen. lia.
Qed.

(** ** The transfer function is finite *)

Section Transfer.
Local Open Scope R_scope.

Lemma fpow_nat_Fin (q : R) (n : nat) : fpow_nat (Fin q) n = Fin (q ^ n).
Proof.
  induction n as [|n IH]; [reflexivity|]. cbn [fpow_nat]. rewrite IH.
  reflexivity.
Qed.

(** Every cell of the distance grid is a finite number. *)
Lemma slp_dist_finite (rows cols : nat) (sx sy : R) :
  matrix_of (fun d => isfinite d = true) rows cols
            (slp_dist rows cols (Fin sx) (Fin sy)).
Proof.
  unfold slp_dist, range. split; [rewrite length_fmap, length_seq; reflexivity|].
  apply Forall_fmap, Forall_forall. intros r _. simpl.
  rewrite length_fmap, length_seq. split; [reflexivity|].
  apply Forall_fmap, Forall_forall. intros c _. simpl.
  match goal with |- context [Rlt_dec ?a 0] =>
    destruct (Rlt_dec a 0) as [Hneg|_] end.
  - exfalso. revert Hneg.
    match goal with |- ?x * (?x * 1) + ?y * (?y * 1) < 0 -> _ =>
      pose proof (Rle_0_sqr x); pose proof (Rle_0_sqr y);
      unfold Rsqr in *; lra end.
  - simpl. destruct (Req_dec_T 1000 0); [lra | reflexivity].
Qed.

Lemma gaussian_finite (c d : R) :
  c <> 0 -> isfinite (gaussian (Fin c) (Fin d)) = true.
Proof.
  intros Hc. unfold gaussian. simpl.
  destruct (Req_dec_T (2 * (c * (c * 1))) 0) as [Hz|_]; [|reflexivity].
  exfalso. assert (c * c = 0) as [?|?]%Rmult_integral by lra; contradiction.
Qed.

Lemma butterworth_finite (order : Z) (c d : R) :
  c <> 0 -> (0 <= order)%Z ->
  isfinite (butterworth order (Fin c) (Fin d)) = true.
Proof.
  intros Hc Horder. unfold butterworth. rewrite fdiv_Fin by exact Hc.
  unfold fpow. rewrite (proj2 (Z.leb_le 0 (2 * order))) by lia.
  rewrite fpow_nat_Fin. simpl.
  match goal with |- context [Req_dec_T ?s 0] =>
    destruct (Req_dec_T s 0) as [Hz|_]; [|reflexivity] end.
  exfalso. revert Hz.
  replace (Z.to_nat (2 * order)) with (2 * Z.to_nat order)%nat by lia.
  rewrite pow_mult.
  pose proof (pow_le ((d / c) ^ 2) (Z.to_nat order) (pow2_ge_0 (d / c))).
  lra.
Qed.

Lemma slp_transfer_finite (params : Params) (rows cols : nat) (sx sy c : R) :
  c <> 0 -> (SLPF_METHOD params = 1%Z -> (0 <= SLPF_ORDER params)%Z) ->
  matrix_of (fun h => isfinite h = true) rows cols
            (slp_transfer params (slp_dist rows cols (Fin sx) (Fin sy))
                          (Fin c)).
Proof.
  intros Hc Horder. unfold slp_transfer.
  destruct (Z.eqb_spec (SLPF_METHOD params) 1) as [Hm|_].
  - apply (matrix_of_fmap rows cols (fun d => isfinite d = true));
      [|apply slp_dist_finite].
    intros _ _ [d| | |] Hd; try discriminate.
    apply butterworth_finite; auto.
  - apply (matrix_of_fmap rows cols (fun d => isfinite d = true));
      [|apply slp_dist_finite].
    intros _ _ [d| | |] Hd; try discriminate.
    apply gaussian_finite; auto.
Qed.

End Transfer.

(** ** Classes of cells that the transform keeps

    [P] is a class of real cells and [Q] a class of complex cells, closed
    under the operations of [_slp_filter]. *)

Section SpectralClosure.
Context (P : npfloat -> Prop) (Q : complex -> Prop).
Hypothesis P_not_nan : forall x, P x -> isnan x = false.
Hypothesis Q_of_real : forall x, P x -> Q (of_real x).
Hypothesis Q_zero : Q (Complex (Fin 0) (Fin 0)).
Hypothesis Q_cadd : forall z w, Q z -> Q w -> Q (cadd z w).
Hypothesis Q_cis : forall z theta, Q z -> Q (cmul z (cis theta)).
Hypothesis Q_scale :
  forall z h, Q z -> isfinite h = true -> Q (cmul z (of_real h)).
Hypothesis Q_div :
  forall z n, Q z -> 0 < n -> P (fdiv (re z) (Fin (INR n))).

Lemma csum_closed (zs : list complex) : Forall Q zs -> Q (csum zs).
Proof. unfold csum. induction 1; simpl; auto. Qed.

Lemma dft2_closed (sign : R) (rows cols : nat) (a : list (list complex)) :
  matrix_of Q rows cols a -> matrix_of Q rows cols (dft2 sign a).
Proof.
  intros Ha. pose proof Ha as [Hlen Hrows]. unfold dft2, range. split.
  - rewrite length_fmap, length_seq. exact Hlen.
  - apply Forall_fmap, Forall_forall. intros u Hu. simpl.
    apply elem_of_seq in Hu.
    rewrite length_fmap, length_seq.
    split; [apply (matrix_of_shape1 rows cols Q); [exact Ha | lia]|].
    apply Forall_fmap, Forall_forall. intros v _. simpl.
    apply csum_closed, Forall_concat, Forall_forall. intros zs Hzs.
    apply elem_of_lookup_imap_1 in Hzs as (r & row & -> & Hr).
    apply Forall_forall. intros z Hz.
    apply elem_of_lookup_imap_1 in Hz as (c & z0 & -> & Hc).
    apply Q_cis. rewrite Forall_forall in Hrows.
    destruct (Hrows row (list_elem_of_lookup_2 _ _ _ Hr)) as [_ Hcells].
    rewrite Forall_forall in Hcells. apply Hcells.
    eapply list_elem_of_lookup_2. eassumption.
Qed.

Lemma fft2_closed (rows cols : nat) (a : image) :
  matrix_of P rows cols a -> matrix_of Q rows cols (fft2 a).
Proof.
  intros Ha. unfold fft2. apply dft2_closed.
  apply (matrix_of_fmap rows cols P); [|exact Ha]. auto.
Qed.

Lemma ifft2_closed (rows cols : nat) (a : list (list complex)) :
  matrix_of Q rows cols a -> matrix_of P rows cols (real (ifft2 a)).
Proof.
  intros Ha. unfold real, ifft2. rewrite <- list_fmap_compose.
  assert (Hfuse : forall row : list complex,
    re <$> ((fun z => Complex (fdiv (re z)
                                 (re (of_real (of_nat (length a * shape1 a)))))
                              (fdiv (im z)
                                 (re (of_real (of_nat (length a * shape1 a))))))
              <$> row)
    = (fun z => fdiv (re z) (Fin (INR (length a * shape1 a)))) <$> row).
  { intros row. rewrite <- list_fmap_compose. reflexivity. }
  erewrite list_fmap_ext; [|intros ? row _; apply Hfuse].
  apply (matrix_of_fmap rows cols Q); [|apply dft2_closed; exact Ha].
  intros Hr Hc z Hz. apply Q_div; [exact Hz|].
  rewrite (matrix_of_shape1 rows cols Q a Ha Hr).
  destruct Ha as [-> _]. nia.
Qed.

(** [_slp_filter] returns, and its result is in the class of its
    argument. *)
Lemma _slp_filter_closed (phase : image) (rows cols : nat) (sx sy c : R)
    (params : Params) :
  c <> 0%R -> (SLPF_METHOD params = 1%Z -> (0 <= SLPF_ORDER params)%Z) ->
  matrix_of P rows cols phase ->
  exists out,
    _slp_filter phase (Fin c) rows cols (Fin sx) (Fin sy) params = Ok out
    /\ matrix_of P rows cols out.
Proof.
  intros Hc Horder Hphase. unfold _slp_filter.
  pose proof (matrix_of_fftshift rows cols Q _ (fft2_closed _ _ _ Hphase))
    as Himf.
  pose proof (slp_transfer_finite params rows cols sx sy c Hc Horder) as HH.
  rewrite (broadcast2_same_shape rows cols _ _ _ _ _ Himf HH). simpl.
  set (outf := zip_with _ _ _).
  assert (Houtf : matrix_of Q rows cols outf).
  { apply (zip_with_matrix rows cols Q (fun h => isfinite h = true) Q);
      [|exact Himf|exact HH]. intros z h. apply Q_scale. }
  pose proof (ifft2_closed rows cols _
                (matrix_of_ifftshift rows cols Q _ Houtf)) as Hout.
  eexists. split; [|exact Hout].
  eapply mask_fill_no_nan; [exact P_not_nan | exact Hout | exact Hphase].
Qed.

Lemma _slpfilter_closed `{Collaborators} (phase : image) (ifg : Ifg)
    (r_dist : image) (params : Params) (rows cols : nat) (sx sy c : R) :
  shape ifg = (rows, cols) -> x_size ifg = Fin sx -> y_size ifg = Fin sy ->
  SLPF_CUTOFF params = Fin c -> c <> 0%R ->
  (SLPF_METHOD params = 1%Z -> (0 <= SLPF_ORDER params)%Z) ->
  matrix_of P rows cols phase ->
  exists out, _slpfilter phase ifg r_dist params = Ok out
              /\ matrix_of P rows cols out.
Proof.
  intros Hshape Hsx Hsy Hcut Hc Horder Hphase. unfold _slpfilter.
  destruct (all_nan phase); [eauto|].
  rewrite Hcut, Hshape, Hsx, Hsy. simpl.
  destruct (Req_dec_T c 0); [contradiction|]. simpl.
  apply _slp_filter_closed; assumption.
Qed.

End SpectralClosure.

(** ** Slices of a cube whose cells are in a class *)

Section CubeCells.
Context (P : npfloat -> Prop).

Lemma epoch_slice_cells (c : cube) (i : nat) (a : image) :
  epoch_slice c i = Ok a -> cells_of P c -> Forall (Forall P) a.
Proof.
  unfold epoch_slice, cells_of. intros Ha%mapM_Ok Hc.
  induction Ha as [|row arow c a Hrow _ IH]; [constructor|].
  inversion Hc as [|? ? Hcrow Hcrest]; subst. constructor; [|auto].
  apply mapM_Ok in Hrow. clear -Hrow Hcrow.
  induction Hrow as [|v x row arow Hv _ IH]; [constructor|].
  inversion Hcrow as [|? ? Hpv Hprest]; subst. constructor; [|auto].
  apply getitem_Ok in Hv. rewrite Forall_forall in Hpv. apply Hpv.
  eapply list_elem_of_lookup_2. eassumption.
Qed.

Lemma stretch_Forall {A} (R : A -> Prop) (k : nat) (l l' : list A) :
  stretch k l = Ok l' -> Forall R l -> Forall R l'.
Proof.
  unfold stretch. case_decide; [congruence|].
  destruct l as [|x [|y l]]; try discriminate. intros [= <-] Hl.
  apply Forall_replicate. inversion Hl. assumption.
Qed.

Lemma set_epoch_slice_cells (c : cube) (i : nat) (a : image) (c' : cube) :
  set_epoch_slice c i a = Ok c' -> cells_of P c -> Forall (Forall P) a ->
  cells_of P c'.
Proof.
  unfold set_epoch_slice, cells_of. intros Hrun Hc Ha. inv_result.
  rename x into img, x0 into a1.
  match goal with
  | H1 : mapM (stretch _) a = Ok _, H2 : stretch _ _ = Ok _ |- _ =>
      rename H1 into Hst1, H2 into Hst2
  end.
  assert (Himg : Forall (Forall P) img).
  { eapply stretch_Forall; [exact Hst2|]. apply mapM_Ok in Hst1.
    clear -Hst1 Ha. induction Hst1 as [|r r' a a1 Hr _ IH]; [constructor|].
    inversion Ha; subst. constructor; [|auto].
    eapply stretch_Forall; eassumption. }
  clear Hst1 Hst2 Ha. apply mapM_Ok in Hrun. revert img Himg c' Hrun.
  induction Hc as [|row c Hrow _ IH]; intros img Himg c' Hrun.
  - inversion Hrun. constructor.
  - destruct img as [|arow img]; [inversion Hrun; constructor|].
    cbn [zip zip_with] in Hrun.
    inversion Hrun as [|? row' ? c'' Hr Hrest]; subst.
    inversion Himg as [|? ? Harow Himg']; subst.
    constructor; [|eapply IH; eassumption].
    simpl in Hr. apply mapM_Ok in Hr. clear -Hr Hrow Harow.
    revert arow Harow row' Hr.
    induction Hrow as [|v row Hv _ IHr]; intros arow Harow row' Hr.
    + inversion Hr. constructor.
    + destruct arow as [|x arow]; [inversion Hr; constructor|].
      cbn [zip zip_with] in Hr.
      inversion Hr as [|? v' ? row'' Hset Hrest]; subst.
      inversion Harow; subst.
      constructor; [|eapply IHr; eassumption].
      simpl in Hset. apply setitem_Ok in Hset as [_ ->].
      apply Forall_insert; assumption.
Qed.

End CubeCells.

Lemma has_shape_shape2 (rows cols n : nat) (c : cube) (i : nat) :
  has_shape rows cols n c -> i < shape2 c -> i < n.
Proof.
  intros [_ Hrows]. destruct c as [|[|v row] c]; simpl; try lia.
  inversion Hrows as [|? ? [_ Hv] _]; subst.
  inversion Hv; subst. lia.
Qed.

(** [ts_lp[np.isnan(ts_lp)] = 0] on the whole cube. *)
Lemma zero_fill_cube_shape (rows cols n : nat) (c : cube) :
  has_shape rows cols n c ->
  has_shape rows cols n ((fun row : list vec => zero_fill row) <$> c).
Proof.
  intros [Hlen Hrows]. split; [rewrite length_fmap; exact Hlen|].
  apply Forall_fmap. eapply Forall_impl; [exact Hrows|].
  intros row [Hc Hv]. simpl. unfold zero_fill. rewrite length_fmap.
  split; [exact Hc|]. apply Forall_fmap. eapply Forall_impl; [exact Hv|].
  intros v Hl. simpl. rewrite length_fmap. exact Hl.
Qed.

Lemma zero_fill_cube_cells (P : npfloat -> Prop) (c : cube) :
  cells_of (fun x => P (if isnan x then Fin 0 else x)) c ->
  cells_of P ((fun row : list vec => zero_fill row) <$> c).
Proof.
  unfold cells_of, zero_fill. intros Hc. apply Forall_fmap.
  eapply Forall_impl; [exact Hc|]. intros row Hrow. simpl.
  apply Forall_fmap. eapply Forall_impl; [exact Hrow|]. intros v Hv. simpl.
  apply Forall_fmap. exact Hv.
Qed.

(** ** The spatial filter with the zero fill *)

Section SpatialClosure.
Context `{Collaborators} (P : npfloat -> Prop) (Q : complex -> Prop).
Hypothesis P_not_nan : forall x, P x -> isnan x = false.
Hypothesis Q_of_real : forall x, P x -> Q (of_real x).
Hypothesis Q_zero : Q (Complex (Fin 0) (Fin 0)).
Hypothesis Q_cadd : forall z w, Q z -> Q w -> Q (cadd z w).
Hypothesis Q_cis : forall z theta, Q z -> Q (cmul z (cis theta)).
Hypothesis Q_scale :
  forall z h, Q z -> isfinite h = true -> Q (cmul z (of_real h)).
Hypothesis Q_div :
  forall z n, Q z -> 0 < n -> P (fdiv (re z) (Fin (INR n))).

Lemma spatial_low_pass_filter_closed (ts_lp : cube) (ifg : Ifg)
    (params : Params) (rows cols n : nat) (sx sy c : R) :
  has_shape rows cols n ts_lp ->
  cells_of (fun x => P (if isnan x then Fin 0 else x)) ts_lp ->
  shape ifg = (rows, cols) -> x_size ifg = Fin sx -> y_size ifg = Fin sy ->
  SLPF_NANFILL params = 0%Z ->
  SLPF_CUTOFF params = Fin c -> c <> 0%R ->
  (SLPF_METHOD params = 1%Z -> (0 <= SLPF_ORDER params)%Z) ->
  exists out,
    spatial_low_pass_filter ts_lp ifg params = Ok out
    /\ has_shape rows cols n out /\ cells_of P out.
Proof.
  intros Hshape Hcells Hifg Hsx Hsy Hfill Hcut Hc Horder.
  unfold spatial_low_pass_filter. rewrite Hfill. simpl.
  set (filled := (fun row : list vec => zero_fill row) <$> ts_lp).
  assert (Hfs : has_shape rows cols n filled)
    by (apply zero_fill_cube_shape; exact Hshape).
  assert (Hfc : cells_of P filled)
    by (apply zero_fill_cube_cells; exact Hcells).
  apply (for_each_total
           (fun s : cube => has_shape rows cols n s /\ cells_of P s));
    [|split; assumption].
  intros i s Hi%range_elem [Hs Hsc].
  pose proof (has_shape_shape2 rows cols n filled i Hfs Hi) as Hin.
  destruct (epoch_slice_has_shape rows cols n s i Hs Hin) as (phase & Hph & Hps).
  rewrite Hph. simpl.
  pose proof (has_shape2_matrix_of rows cols P phase Hps
                (epoch_slice_cells P s i phase Hph Hsc)) as Hpm.
  destruct (_slpfilter_closed P Q P_not_nan Q_of_real Q_zero Q_cadd Q_cis
              Q_scale Q_div phase ifg (RDist ifg) params rows cols sx sy c
              Hifg Hsx Hsy Hcut Hc Horder Hpm) as (out & -> & Hout).
  simpl.
  destruct (set_epoch_slice_has_shape rows cols n s out i Hs
              (matrix_of_has_shape2 rows cols P out Hout) Hin)
    as (s' & Hset & Hs').
  exists s'. split; [exact Hset|]. split; [exact Hs'|].
  eapply set_epoch_slice_cells; [exact Hset | exact Hsc |].
  eapply matrix_of_cells. exact Hout.
Qed.

End SpatialClosure.

Section FiniteCells.
Local Open Scope R_scope.

Lemma finite_cadd (z w : complex) :
  isfinite (re z) = true /\ isfinite (im z) = true ->
  isfinite (re w) = true /\ isfinite (im w) = true ->
  isfinite (re (cadd z w)) = true /\ isfinite (im (cadd z w)) = true.
Proof.
  destruct z as [[a| | |] [b| | |]], w as [[c| | |] [d| | |]]; simpl;
    intros [? ?] [? ?]; try discriminate. auto.
Qed.

Lemma finite_cmul (z w : complex) :
  isfinite (re z) = true /\ isfinite (im z) = true ->
  isfinite (re w) = true /\ isfinite (im w) = true ->
  isfinite (re (cmul z w)) = true /\ isfinite (im (cmul z w)) = true.
Proof.
  destruct z as [[a| | |] [b| | |]], w as [[c| | |] [d| | |]]; simpl;
    intros [? ?] [? ?]; try discriminate. auto.
Qed.

Lemma finite_quotient (x : npfloat) (n : nat) :
  isfinite x = true -> (0 < n)%nat -> isfinite (fdiv x (Fin (INR n))) = true.
Proof.
  intros Hx Hn. destruct x as [a| | |]; try discriminate.
  rewrite fdiv_Fin; [reflexivity|]. apply not_0_INR. lia.
Qed.

End FiniteCells.

(** X10. In the exact arithmetic of the model, in which finite cells and
    parameters are real numbers and no operation on them rounds, underflows
    or overflows: with the zero fill ([SLPF_NANFILL] 0), a finite non-zero
    cutoff, a reference interferogram of the raster shape of the cube with
    finite cell sizes, and a Butterworth order that is not negative, the
    spatial filter returns on every cube whose cells are finite or NaN, and
    every cell of its result is a finite number: no NaN of the input is
    left in the output. *)
Theorem spatial_filter_returns_finite_cells `{Collaborators}
    (ts_lp : cube) (ifg : Ifg) (params : Params) (rows cols n : nat)
    (sx sy c : R) :
  has_shape rows cols n ts_lp ->
  cells_of (fun x => isfinite x = true \/ x = NaN) ts_lp ->
  shape ifg = (rows, cols) -> x_size ifg = Fin sx -> y_size ifg = Fin sy ->
  SLPF_NANFILL params = 0%Z ->
  SLPF_CUTOFF params = Fin c -> c <> 0%R ->
  (SLPF_METHOD params = 1%Z -> (0 <= SLPF_ORDER params)%Z) ->
  exists out,
    spatial_low_pass_filter ts_lp ifg params = Ok out
    /\ has_shape rows cols n out
    /\ cells_of (fun x => isfinite x = true) out.
Proof.
  intros Hshape Hcells.
  apply (spatial_low_pass_filter_closed
           (fun x => isfinite x = true)
           (fun z => isfinite (re z) = true /\ isfinite (im z) = true)).
  - intros [a| | |]; simpl; congruence.
  - intros x Hx. split; [exact Hx | reflexivity].
  - split; reflexivity.
  - apply finite_cadd.
  - intros z theta Hz. apply finite_cmul; [exact Hz | split; reflexivity].
  - intros z h Hz Hh. apply finite_cmul; [exact Hz | split; [exact Hh | reflexivity]].
  - intros z k [Hz _] Hk. apply finite_quotient; assumption.
  - exact Hshape.
  - unfold cells_of in *. eapply Forall_impl; [exact Hcells|].
    intros row Hrow. eapply Forall_impl; [exact Hrow|].
    intros v Hv. eapply Forall_impl; [exact Hv|].
    intros x [Hx| ->]; [|reflexivity]. destruct x; try discriminate. reflexivity.
Qed.

Lemma spatial_filter_returns_finite_cells_witness :
  exists out,
    @spatial_low_pass_filter sample_collaborators
      [[[NaN; Fin 1]; [Fin 2; NaN]]] (sample_ifg 1 2)
      (sample_params 3 (Fin 1) 2) = Ok out
    /\ has_shape 1 2 2 out
    /\ cells_of (fun x => isfinite x = true) out.
Proof.
  apply (@spatial_filter_returns_finite_cells sample_collaborators
           [[[NaN; Fin 1]; [Fin 2; NaN]]] (sample_ifg 1 2)
           (sample_params 3 (Fin 1) 2) 1 2 2 1 1 1).
  - repeat constructor.
  - unfold cells_of.
    repeat match goal with
      | |- Forall _ _ => constructor
      | |- _ \/ _ => first [left; reflexivity | right; reflexivity]
      end.
  - reflexivity.
  - reflexivity.
  - reflexivity.
  - reflexivity.
  - reflexivity.
  - lra.
  - discriminate.
Defined.

Section ZeroCells.
Local Open Scope R_scope.

Lemma zero_cadd (z w : complex) :
  z = Complex (Fin 0) (Fin 0) -> w = Complex (Fin 0) (Fin 0) ->
  cadd z w = Complex (Fin 0) (Fin 0).
Proof. intros -> ->. unfold cadd. simpl. f_equal; f_equal; lra. Qed.

Lemma zero_cmul (z : complex) (a b : R) :
  z = Complex (Fin 0) (Fin 0) ->
  cmul z (Complex (Fin a) (Fin b)) = Complex (Fin 0) (Fin 0).
Proof. intros ->. unfold cmul. simpl. f_equal; f_equal; lra. Qed.

Lemma zero_quotient (n : nat) :
  (0 < n)%nat -> fdiv (Fin 0) (Fin (INR n)) = Fin 0.
Proof.
  intros Hn. assert (INR n <> 0) by (apply not_0_INR; lia).
  rewrite fdiv_Fin by assumption. f_equal. unfold Rdiv. lra.
Qed.

End ZeroCells.

(** X11. In the exact arithmetic of the model, and under the configuration
    of the previous theorem, a cube whose cells are all NaN or zero comes
    out of the spatial filter as a cube of zeros of the same shape: an
    epoch slice that is NaN everywhere is not passed through, it is
    returned as zeros. *)
Theorem spatial_filter_turns_nan_cube_into_zeros `{Collaborators}
    (ts_lp : cube) (ifg : Ifg) (params : Params) (rows cols n : nat)
    (sx sy c : R) :
  has_shape rows cols n ts_lp ->
  cells_of (fun x => x = NaN \/ x = Fin 0) ts_lp ->
  shape ifg = (rows, cols) -> x_size ifg = Fin sx -> y_size ifg = Fin sy ->
  SLPF_NANFILL params = 0%Z ->
  SLPF_CUTOFF params = Fin c -> c <> 0%R ->
  (SLPF_METHOD params = 1%Z -> (0 <= SLPF_ORDER params)%Z) ->
  exists out,
    spatial_low_pass_filter ts_lp ifg params = Ok out
    /\ has_shape rows cols n out
    /\ cells_of (fun x => x = Fin 0) out.
Proof.
  intros Hshape Hcells.
  apply (spatial_low_pass_filter_closed
           (fun x => x = Fin 0) (fun z => z = Complex (Fin 0) (Fin 0))).
  - intros x ->. reflexivity.
  - intros x ->. reflexivity.
  - reflexivity.
  - apply zero_cadd.
  - intros z theta Hz. apply zero_cmul. exact Hz.
  - intros z [h| | |] Hz Hh; try discriminate. apply zero_cmul. exact Hz.
  - intros z k -> Hk. apply zero_quotient. exact Hk.
  - exact Hshape.
  - unfold cells_of in *. eapply Forall_impl; [exact Hcells|].
    intros row Hrow. eapply Forall_impl; [exact Hrow|].
    intros v Hv. eapply Forall_impl; [exact Hv|].
    intros x [->| ->]; reflexivity.
Qed.

Lemma spatial_filter_turns_nan_cube_into_zeros_witness :
  exists out,
    @spatial_low_pass_filter sample_collaborators
      [[[NaN; NaN]; [NaN; Fin 0]]] (sample_ifg 1 2)
      (sample_params 3 (Fin 1) 2) = Ok out
    /\ has_shape 1 2 2 out
    /\ cells_of (fun x => x = Fin 0) out.
Proof.
  apply (@spatial_filter_turns_nan_cube_into_zeros sample_collaborators
           [[[NaN; NaN]; [NaN; Fin 0]]] (sample_ifg 1 2)
           (sample_params 3 (Fin 1) 2) 1 2 2 1 1 1).
  - repeat constructor.
  - unfold cells_of.
    repeat match goal with
      | |- Forall _ _ => constructor
      | |- _ \/ _ => first [left; reflexivity | right; reflexivity]
      end.
  - reflexivity.
  - reflexivity.
  - reflexivity.
  - reflexivity.
  - reflexivity.
  - lra.
  - discriminate.
Defined.

(** ** Writing and reading an epoch slice *)

Section SliceRoundTrip.
Context (rows cols n : nat).

Lemma set_epoch_row_get (row : list vec) (arow : vec) (k : nat)
    (row' : list vec) :
  Forall (fun v : vec => length v = n) row -> k < n ->
  length arow = length row ->
  mapM (fun vx : vec * npfloat => setitem vx.1 k vx.2) (zip row arow)
  = Ok row' ->
  mapM (fun v : vec => getitem v k) row' = Ok arow
  /\ forall t, t <> k ->
       mapM (fun v : vec => getitem v t) row'
       = mapM (fun v : vec => getitem v t) row.
Proof.
  intros Hrow Hk. revert arow row'.
  induction Hrow as [|v row Hv _ IH]; intros [|x arow] row' Hlen Hset;
    try discriminate.
  - injection Hset as <-. split; reflexivity.
  - cbn [zip zip_with mapM] in Hset. fold (zip row arow) in Hset.
    apply bind_Ok in Hset as (v' & Hs & Hset).
    apply bind_Ok in Hset as (rest & Hm & Hset).
    injection Hset as <-.
    simpl in Hs. apply setitem_Ok in Hs as [_ ->].
    destruct (IH arow _ ltac:(simpl in Hlen; lia) Hm) as [Hsame Hother].
    split.
    + assert (Hg : getitem (<[k:=x]> v) k = Ok x)
        by (apply getitem_Ok, list_lookup_insert_eq; lia).
      cbn [mapM]. rewrite Hg. simpl. rewrite Hsame. reflexivity.
    + intros t Ht.
      assert (Hg : getitem (<[k:=x]> v) t = getitem v t)
        by (unfold getitem; rewrite list_lookup_insert_ne by congruence;
            reflexivity).
      cbn [mapM]. rewrite Hg, (Hother t Ht). reflexivity.
Qed.

Lemma set_epoch_slice_unfold (c : cube) (a : image) (k : nat) :
  has_shape rows cols n c -> has_shape2 rows cols a ->
  set_epoch_slice c k a
  = mapM (fun ri : list vec * vec =>
            mapM (fun vx : vec * npfloat => setitem vx.1 k vx.2)
                 (zip ri.1 ri.2))
         (zip c a).
Proof.
  intros [Hlen Hrows] [Halen Harows]. unfold set_epoch_slice.
  assert (Hst : mapM (stretch (shape1 c)) a = Ok a).
  { destruct c as [|row0 c].
    - simpl in Hlen. subst rows. destruct a; [reflexivity|discriminate].
    - simpl. inversion Hrows as [|? ? [Hc0 _] _]; subst.
      apply mapM_stretch_same. exact Harows. }
  rewrite Hst. simpl. unfold shape0. rewrite stretch_same by lia. reflexivity.
Qed.

Lemma set_epoch_slice_get (c : cube) (a : image) (k : nat) (c' : cube) :
  has_shape rows cols n c -> has_shape2 rows cols a -> k < n ->
  set_epoch_slice c k a = Ok c' ->
  epoch_slice c' k = Ok a
  /\ forall t, t <> k -> epoch_slice c' t = epoch_slice c t.
Proof.
  intros Hc Ha Hk. rewrite (set_epoch_slice_unfold c a k Hc Ha).
  destruct Hc as [Hlen Hrows], Ha as [Halen Harows]. unfold epoch_slice.
  subst rows. revert a c' Halen Harows.
  induction Hrows as [|row c [Hc Hv] _ IH]; intros [|arow a] c' Halen Harows Hset;
    try discriminate.
  - injection Hset as <-. split; reflexivity.
  - cbn [zip zip_with mapM] in Hset. fold (zip c a) in Hset.
    apply bind_Ok in Hset as (row' & Hr & Hset).
    apply bind_Ok in Hset as (rest & Hm & Hset).
    injection Hset as <-. simpl in *.
    inversion Harows as [|? ? Har Harest]; subst.
    destruct (set_epoch_row_get row arow k _ Hv Hk ltac:(lia) Hr)
      as [Hsame Hother].
    destruct (IH a _ ltac:(lia) Harest Hm) as [IHsame IHother].
    split.
    + cbn [mapM]. rewrite Hsame. simpl. rewrite IHsame. reflexivity.
    + intros t Ht. cbn [mapM]. rewrite (Hother t Ht), (IHother t Ht).
      reflexivity.
Qed.

End SliceRoundTrip.

Lemma epoch_slice_cell2 (c : cube) (t : nat) (a : image) i j :
  epoch_slice c t = Ok a -> cell c i j t = cell2 a i j.
Proof.
  unfold epoch_slice, cell, cell2. intros Ha%mapM_Ok.
  destruct (c !! i) as [row|] eqn:Hrow.
  - destruct (Forall2_lookup_l _ _ _ _ _ Ha Hrow) as (arow & -> & Har).
    simpl. apply mapM_Ok in Har.
    destruct (row !! j) as [v|] eqn:Hv.
    + destruct (Forall2_lookup_l _ _ _ _ _ Har Hv) as (x & -> & Hx).
      simpl. apply getitem_Ok. exact Hx.
    + simpl. symmetry. apply lookup_ge_None.
      rewrite <- (Forall2_length _ _ _ Har). apply lookup_ge_None. exact Hv.
  - simpl. rewrite (proj2 (lookup_ge_None a i)); [reflexivity|].
    rewrite <- (Forall2_length _ _ _ Ha). apply lookup_ge_None. exact Hrow.
Qed.

(** ** Loops that rewrite a cube slice by slice *)

Section SliceLoop.
Context (rows cols n : nat) (F : image -> result image).
Hypothesis F_shape :
  forall a a', has_shape2 rows cols a -> F a = Ok a' -> has_shape2 rows cols a'.

Lemma slice_loop (l : list nat) (s s' : cube) :
  NoDup l -> (forall t, t ∈ l -> t < n) -> has_shape rows cols n s ->
  for_each l (fun i s => a ← epoch_slice s i; a' ← F a; set_epoch_slice s i a')
           s = Ok s' ->
  has_shape rows cols n s'
  /\ (forall t, t ∈ l ->
        exists a, epoch_slice s t = Ok a /\ epoch_slice s' t = F a)
  /\ (forall t, t ∉ l -> epoch_slice s' t = epoch_slice s t).
Proof.
  intros Hnd. revert s. induction Hnd as [|t0 l Hnotin Hnd IH];
    intros s Hlt Hs Hrun.
  - simpl in Hrun. injection Hrun as <-. split_and!; [exact Hs | | reflexivity].
    intros t Ht. inversion Ht.
  - cbn [for_each] in Hrun. apply bind_Ok in Hrun as (s1 & Hbody & Hrun).
    apply bind_Ok in Hbody as (a0 & Ha0 & Hbody).
    apply bind_Ok in Hbody as (a0' & HF & Hset).
    assert (Ht0 : t0 < n) by (apply Hlt, elem_of_cons; auto).
    destruct (epoch_slice_has_shape rows cols n s t0 Hs Ht0)
      as (a0_ & Ha0_ & Hshape0).
    assert (a0_ = a0) as -> by congruence.
    pose proof (F_shape a0 a0' Hshape0 HF) as Hshape0'.
    destruct (set_epoch_slice_has_shape rows cols n s a0' t0 Hs Hshape0' Ht0)
      as (s1_ & Hs1_ & Hs1).
    assert (s1_ = s1) as -> by congruence.
    destruct (set_epoch_slice_get rows cols n s a0' t0 s1 Hs Hshape0' Ht0 Hset)
      as [Hsame Hother].
    destruct (IH s1 ltac:(intros; apply Hlt, elem_of_cons; auto) Hs1 Hrun)
      as (Hs' & Hin & Hout).
    split_and!; [exact Hs' | |].
    + intros t [->|Ht]%elem_of_cons.
      * exists a0. split; [exact Ha0|].
        rewrite (Hout t0 Hnotin), Hsame. symmetry. exact HF.
      * destruct (Hin t Ht) as (a & Ha & Ha').
        exists a. split; [|exact Ha'].
        rewrite <- Ha. symmetry. apply Hother. intros ->. contradiction.
    + intros t Ht. rewrite (Hout t ltac:(intros Hin'; apply Ht, elem_of_cons; auto)).
      apply Hother. intros ->. apply Ht, elem_of_cons. auto.
Qed.

End SliceLoop.

Lemma same_rows_has_shape2 (rows cols : nat) (a a' : image) :
  (fun row : vec => length row) <$> a' = (fun row : vec => length row) <$> a ->
  has_shape2 rows cols a -> has_shape2 rows cols a'.
Proof.
  intros Heq [Hlen Hrows]. split.
  - rewrite <- Hlen. apply (f_equal length) in Heq.
    rewrite !length_fmap in Heq. exact Heq.
  - apply Forall_forall. intros row' Hrow'.
    apply list_elem_of_lookup in Hrow' as [i Hi].
    assert (Hl : ((fun row : vec => length row) <$> a) !! i
                 = Some (length row'))
      by (rewrite <- Heq, list_lookup_fmap, Hi; reflexivity).
    rewrite list_lookup_fmap in Hl.
    destruct (a !! i) as [row|] eqn:Hrow; [|discriminate].
    injection Hl as <-. rewrite Forall_forall in Hrows. apply Hrows.
    eapply list_elem_of_lookup_2. eassumption.
Qed.

Lemma has_shape_shape2_eq (rows cols n : nat) (c : cube) :
  has_shape rows cols n c -> 0 < rows -> 0 < cols -> shape2 c = n.
Proof.
  intros [Hlen Hrows] Hr Hc. destruct c as [|row c]; simpl in *; [lia|].
  inversion Hrows as [|? ? [Hcl Hv] _]; subst.
  destruct row as [|v row]; simpl in *; [lia|]. inversion Hv. assumption.
Qed.

Lemma has_shape_cell_bounds (rows cols n : nat) (c : cube) i j t x :
  has_shape rows cols n c -> cell c i j t = Some x ->
  i < rows /\ j < cols /\ t < n.
Proof.
  intros [Hlen Hrows] Hx. unfold cell in Hx.
  destruct (c !! i) as [row|] eqn:Hrow; [|discriminate]. simpl in Hx.
  destruct (row !! j) as [v|] eqn:Hv; [|discriminate]. simpl in Hx.
  rewrite Forall_forall in Hrows.
  destruct (Hrows row (list_elem_of_lookup_2 _ _ _ Hrow)) as [Hc Hvs].
  rewrite Forall_forall in Hvs.
  pose proof (Hvs v (list_elem_of_lookup_2 _ _ _ Hv)) as Hn.
  apply lookup_lt_Some in Hrow, Hv, Hx. simpl in Hn. lia.
Qed.

(** ** Interpolation of a cube *)

(** X12. On a cube with the lengths its shape announces, a successful
    [_interpolate_nans] returns a cube of the same shape in which no cell
    is NaN and every cell that held a number still holds it, whatever
    [griddata] returned for the NaN cells of each epoch. *)
Theorem cube_interpolation_fills_every_nan `{Collaborators}
    (arr : cube) (method : string) (rows cols n : nat) (arr' : cube) :
  has_shape rows cols n arr ->
  _interpolate_nans arr method = Ok arr' ->
  has_shape rows cols n arr'
  /\ (forall i j t x, cell arr' i j t = Some x -> isnan x = false)
  /\ (forall i j t x, cell arr i j t = Some x -> isnan x = false ->
                      cell arr' i j t = Some x).
Proof.
  intros Hshape Hrun. unfold _interpolate_nans in Hrun.
  set (F := fun a : image =>
    _interpolate_nans_2d a (np_indices (shape0 arr) (shape1 arr)).1
                         (np_indices (shape0 arr) (shape1 arr)).2 method)
    in *.
  assert (F_rows : forall a a', F a = Ok a' ->
    (fun row : vec => length row) <$> a' = (fun row : vec => length row) <$> a
    /\ (forall r c x, cell2 a' r c = Some x -> isnan x = false)
    /\ (forall r c x, cell2 a r c = Some x -> isnan x = false ->
                      cell2 a' r c = Some x)).
  { intros a a' HF. unfold F, _interpolate_nans_2d in HF. inv_result.
    subst a'.
    match goal with Ha : assign_nans _ _ = Ok _ |- _ =>
      apply assign_nans_Ok in Ha as [Hrows Hvalid] end.
    split_and!.
    - rewrite zero_fill_shape. exact Hrows.
    - intros r c y. apply zero_fill_no_nan.
    - intros r c y Hc Hy. rewrite zero_fill_cell, (Hvalid r c y Hc Hy).
      simpl. rewrite Hy. reflexivity. }
  destruct (slice_loop rows cols n F
              ltac:(intros a a' Ha HF; eapply same_rows_has_shape2;
                    [apply (F_rows a a' HF) | exact Ha])
              (range (shape2 arr)) arr arr'
              ltac:(unfold range; apply NoDup_seq)
              ltac:(intros t Ht%range_elem;
                    eapply has_shape_shape2; eassumption)
              Hshape Hrun) as (Hshape' & Hin & _).
  split; [exact Hshape'|].
  assert (Hslice : forall i j t x,
    cell arr' i j t = Some x \/ cell arr i j t = Some x ->
    exists a a', epoch_slice arr t = Ok a /\ F a = Ok a'
                 /\ epoch_slice arr' t = Ok a').
  { intros i j t x Hx.
    assert (Hb : i < rows /\ j < cols /\ t < n)
      by (destruct Hx as [Hx|Hx];
          [exact (has_shape_cell_bounds _ _ _ _ _ _ _ _ Hshape' Hx)
          |exact (has_shape_cell_bounds _ _ _ _ _ _ _ _ Hshape Hx)]).
    destruct (Hin t) as (a & Ha & Ha').
    { apply range_elem.
      rewrite (has_shape_shape2_eq rows cols n arr Hshape); lia. }
    destruct (epoch_slice_has_shape rows cols n arr' t Hshape' ltac:(lia))
      as (a' & Ha'' & _).
    exists a, a'. split_and!; [exact Ha | congruence | exact Ha'']. }
  split.
  - intros i j t x Hx.
    destruct (Hslice i j t x (or_introl Hx)) as (a & a' & Ha & HF & Ha').
    rewrite (epoch_slice_cell2 _ _ _ i j Ha') in Hx.
    eapply (F_rows a a' HF). exact Hx.
  - intros i j t x Hx Hxn.
    destruct (Hslice i j t x (or_intror Hx)) as (a & a' & Ha & HF & Ha').
    rewrite (epoch_slice_cell2 _ _ _ i j Ha').
    rewrite (epoch_slice_cell2 _ _ _ i j Ha) in Hx.
    eapply (F_rows a a' HF); eassumption.
Qed.

Lemma cube_interpolation_fills_every_nan_witness :
  has_shape 1 2 2 [[[Fin 0; Fin 1]; [Fin 2; Fin 0]]]
  /\ (forall i j t x, cell [[[Fin 0; Fin 1]; [Fin 2; Fin 0]]] i j t = Some x ->
                      isnan x = false)
  /\ (forall i j t x, cell [[[NaN; Fin 1]; [Fin 2; NaN]]] i j t = Some x ->
                      isnan x = false ->
                      cell [[[Fin 0; Fin 1]; [Fin 2; Fin 0]]] i j t = Some x).
Proof.
  apply (@cube_interpolation_fills_every_nan sample_collaborators
           [[[NaN; Fin 1]; [Fin 2; NaN]]] "linear" 1 2 2).
  - repeat constructor.
  - reflexivity.
Defined.

(** ** The spatial filter works epoch by epoch *)

Lemma zip_with_rows {A B C} (f : A -> B -> C) (a : list (list A))
    (b : list (list B)) :
  (fun row : list A => length row) <$> a
  = (fun row : list B => length row) <$> b ->
  (fun row : list C => length row) <$> zip_with (zip_with f) a b
  = (fun row : list A => length row) <$> a.
Proof.
  revert b. induction a as [|ra a IH]; intros [|rb b] Hshape;
    try discriminate; [reflexivity|].
  rewrite !fmap_cons in Hshape. injection Hshape as Hrow Hrest.
  cbn [zip_with]. rewrite !fmap_cons. f_equal; [|apply IH; exact Hrest].
  rewrite length_zip_with. lia.
Qed.

Lemma isnan2_rows (a : image) :
  (fun row : list bool => length row) <$> isnan2 a
  = (fun row : vec => length row) <$> a.
Proof.
  unfold isnan2. rewrite <- list_fmap_compose. apply list_fmap_ext.
  intros _ row _. simpl. apply length_fmap.
Qed.

(** The result of [_slpfilter] has the shape of the slice it is given. *)
Lemma _slpfilter_rows `{Collaborators} (phase : image) (ifg : Ifg)
    (r_dist : image) (params : Params) (out : image) :
  _slpfilter phase ifg r_dist params = Ok out ->
  (fun row : vec => length row) <$> out
  = (fun row : vec => length row) <$> phase.
Proof.
  unfold _slpfilter. destruct (all_nan phase); [congruence|].
  intros Hrun. apply bind_Ok in Hrun as (cutoff & _ & Hrun).
  unfold _slp_filter in Hrun. apply bind_Ok in Hrun as (outf & _ & Hrun).
  unfold mask_fill in Hrun. case_decide as Hshape; [|discriminate].
  injection Hrun as <-. rewrite zip_with_rows by exact Hshape.
  rewrite Hshape. apply isnan2_rows.
Qed.

Lemma epoch_slice_zero_fill (c : cube) (t : nat) (a : image) :
  epoch_slice c t = Ok a ->
  epoch_slice ((fun row : list vec => zero_fill row) <$> c) t
  = Ok (zero_fill a).
Proof.
  unfold epoch_slice. intros Ha%mapM_Ok. apply mapM_Ok.
  unfold zero_fill at 2. apply Forall2_fmap.
  eapply Forall2_impl; [exact Ha|]. intros row arow Hrow%mapM_Ok. simpl.
  apply mapM_Ok. unfold zero_fill. apply Forall2_fmap.
  eapply Forall2_impl; [exact Hrow|]. intros v x Hx%getitem_Ok. simpl.
  apply getitem_Ok. rewrite list_lookup_fmap, Hx. reflexivity.
Qed.

Lemma zero_fill_cube_shape2 (c : cube) :
  shape2 ((fun row : list vec => zero_fill row) <$> c) = shape2 c.
Proof.
  destruct c as [|[|v row] c]; try reflexivity. simpl. apply length_fmap.
Qed.

(** X13. With the zero fill, the spatial filter treats the epochs one by
    one: the slice of its result at an epoch is [_slpfilter] of the
    zero-filled slice of its argument at that epoch; no other epoch has a
    part in it. *)
Theorem spatial_filter_works_epoch_by_epoch `{Collaborators}
    (ts_lp : cube) (ifg : Ifg) (params : Params) (rows cols n : nat)
    (out : cube) (t : nat) :
  has_shape rows cols n ts_lp -> SLPF_NANFILL params = 0%Z ->
  spatial_low_pass_filter ts_lp ifg params = Ok out -> t < shape2 ts_lp ->
  exists phase,
    epoch_slice ts_lp t = Ok phase
    /\ epoch_slice out t = _slpfilter (zero_fill phase) ifg (RDist ifg) params.
Proof.
  intros Hshape Hfill Hrun Ht. unfold spatial_low_pass_filter in Hrun.
  rewrite Hfill in Hrun. simpl in Hrun.
  set (filled := (fun row : list vec => zero_fill row) <$> ts_lp) in *.
  assert (Hfs : has_shape rows cols n filled)
    by (apply zero_fill_cube_shape; exact Hshape).
  pose proof (has_shape_shape2 rows cols n ts_lp t Hshape Ht) as Htn.
  destruct (slice_loop rows cols n
              (fun phase => _slpfilter phase ifg (RDist ifg) params)
              ltac:(intros a a' Ha HF; eapply same_rows_has_shape2;
                    [eapply _slpfilter_rows; exact HF | exact Ha])
              (range (shape2 filled)) filled out
              ltac:(unfold range; apply NoDup_seq)
              ltac:(intros k Hk%range_elem;
                    eapply has_shape_shape2; eassumption)
              Hfs Hrun) as (_ & Hin & _).
  destruct (epoch_slice_has_shape rows cols n ts_lp t Hshape Htn)
    as (phase & Hphase & _).
  exists phase. split; [exact Hphase|].
  destruct (Hin t) as (a & Ha & Hout).
  { apply range_elem. unfold filled. rewrite zero_fill_cube_shape2. exact Ht. }
  unfold filled in Ha. rewrite (epoch_slice_zero_fill _ _ _ Hphase) in Ha.
  injection Ha as <-. exact Hout.
Qed.

Lemma sample_spatial_run_masked :
  exists y0 y1 : R,
    @spatial_low_pass_filter sample_collaborators [[[NaN]; [Fin 2]]]
      (sample_ifg 1 2) (sample_params 3 (Fin 1) 2)
    = Ok [[[Fin y0]; [Fin y1]]].
Proof.
  destruct sample_slp_filter as (y0 & y1 & HF). exists y0, y1.
  np_red_in HF. np_eval. rewrite HF. reflexivity.
Qed.

Lemma spatial_filter_works_epoch_by_epoch_witness :
  exists (y0 y1 : R) (phase : image),
    epoch_slice [[[NaN]; [Fin 2]]] 0 = Ok phase
    /\ epoch_slice [[[Fin y0]; [Fin y1]]] 0
       = @_slpfilter sample_collaborators (zero_fill phase)
           (sample_ifg 1 2) (@RDist sample_collaborators (sample_ifg 1 2))
           (sample_params 3 (Fin 1) 2).
Proof.
  destruct sample_spatial_run_masked as (y0 & y1 & Hrun). exists y0, y1.
  exact (@spatial_filter_works_epoch_by_epoch sample_collaborators
           [[[NaN]; [Fin 2]]] (sample_ifg 1 2) (sample_params 3 (Fin 1) 2)
           1 2 1 _ 0 ltac:(repeat constructor) eq_refl Hrun
           ltac:(simpl; lia)).
Defined.

(** ** A reference interferogram of another size *)






(** ** The points handed to [griddata] *)

Section Selection.
Context (q : npfloat -> bool).

(** One row: the column indices and the values that a mask selects. *)
Lemma select_row (r s : nat) (v : vec) :
  Forall2 (fun (p : nat * nat) x =>
             exists c, p = (r, s + c) /\ v !! c = Some x /\ q x = true)
          (zip (fst <$> List.filter snd (zip (replicate (length v) r)
                                             (q <$> v)))
               (fst <$> List.filter snd (zip (seq s (length v)) (q <$> v))))
          (fst <$> List.filter snd (zip v (q <$> v))).
Proof.
  revert s. induction v as [|x v IH]; intros s; [constructor|].
  cbn [length replicate seq fmap list_fmap zip zip_with List.filter snd].
  assert (Hrest : Forall2 (fun (p : nat * nat) y =>
             exists c, p = (r, s + c) /\ (x :: v) !! c = Some y /\ q y = true)
          (zip (fst <$> List.filter snd (zip (replicate (length v) r)
                                             (q <$> v)))
               (fst <$> List.filter snd (zip (seq (S s) (length v)) (q <$> v))))
          (fst <$> List.filter snd (zip v (q <$> v)))).
  { eapply Forall2_impl; [apply (IH (S s))|].
    intros p y (c & -> & Hc & Hq). exists (S c).
    split_and!; [f_equal; lia | exact Hc | exact Hq]. }
  destruct (q x) eqn:Hx; [|exact Hrest].
  cbn [fmap list_fmap fst zip zip_with]. constructor; [|exact Hrest].
  exists 0. split_and!; [f_equal; lia | reflexivity | exact Hx].
Qed.

Lemma select_row_lengths (r s : nat) (v : vec) :
  length (fst <$> List.filter snd (zip (replicate (length v) r) (q <$> v)))
  = length (fst <$> List.filter snd (zip (seq s (length v)) (q <$> v))).
Proof.
  revert s. induction v as [|x v IH]; intros s; [reflexivity|].
  cbn [length replicate seq fmap list_fmap zip zip_with List.filter snd].
  destruct (q x); cbn [fmap list_fmap length]; rewrite !length_fmap in *;
    specialize (IH (S s)); rewrite !length_fmap in IH; lia.
Qed.

(** All rows: every selected value comes with its own row and column. *)
Lemma select_grid (cols s : nat) (a : image) :
  Forall (fun row : vec => length row = cols) a ->
  Forall2 (fun (p : nat * nat) x =>
             exists i, p.1 = s + i /\ cell2 a i p.2 = Some x /\ q x = true)
          (zip (select ((fun r => replicate cols r) <$> seq s (length a))
                       ((fun row : vec => q <$> row) <$> a))
               (select ((fun _ : nat => range cols) <$> seq s (length a))
                       ((fun row : vec => q <$> row) <$> a)))
          (select a ((fun row : vec => q <$> row) <$> a)).
Proof.
  intros Ha. revert s. induction Ha as [|v a Hv _ IH]; intros s; [constructor|].
  unfold select in *.
  cbn [length seq fmap list_fmap zip_with concat].
  rewrite zip_with_app.
  2:{ subst cols. unfold range. apply select_row_lengths. }
  apply Forall2_app.
  - subst cols. unfold range. eapply Forall2_impl; [apply (select_row s 0 v)|].
    intros p x (c & -> & Hc & Hq). exists 0. unfold cell2. simpl.
    split_and!; [lia | exact Hc | exact Hq].
  - eapply Forall2_impl; [apply (IH (S s))|].
    intros p x (i & Hp & Hc & Hq). exists (S i).
    split_and!; [lia | exact Hc | exact Hq].
Qed.

Lemma select_row_complete (r s : nat) (v : vec) c x :
  v !! c = Some x -> q x = true ->
  (r, s + c)
  ∈ zip (fst <$> List.filter snd (zip (replicate (length v) r) (q <$> v)))
        (fst <$> List.filter snd (zip (seq s (length v)) (q <$> v))).
Proof.
  revert s c. induction v as [|y v IH]; intros s c Hc Hq; [discriminate|].
  cbn [length replicate seq fmap list_fmap zip zip_with List.filter snd].
  destruct c as [|c]; simpl in Hc.
  - injection Hc as ->. rewrite Hq.
    cbn [fmap list_fmap fst zip zip_with]. apply elem_of_cons. left.
    f_equal. lia.
  - specialize (IH (S s) c Hc Hq).
    replace (s + S c) with (S s + c) by lia.
    destruct (q y); [|exact IH].
    cbn [fmap list_fmap fst zip zip_with]. apply elem_of_cons. right. exact IH.
Qed.

Lemma select_grid_complete (cols s : nat) (a : image) i c x :
  Forall (fun row : vec => length row = cols) a ->
  cell2 a i c = Some x -> q x = true ->
  (s + i, c)
  ∈ zip (select ((fun r => replicate cols r) <$> seq s (length a))
                ((fun row : vec => q <$> row) <$> a))
        (select ((fun _ : nat => range cols) <$> seq s (length a))
                ((fun row : vec => q <$> row) <$> a)).
Proof.
  intros Ha. revert s i. induction Ha as [|v a Hv _ IH]; intros s i Hc Hq;
    [discriminate|].
  unfold select in *.
  cbn [length seq fmap list_fmap zip_with concat].
  rewrite zip_with_app.
  2:{ subst cols. unfold range. apply select_row_lengths. }
  apply elem_of_app. destruct i as [|i].
  - left. subst cols. unfold range. unfold cell2 in Hc. simpl in Hc.
    replace (s + 0) with s by lia.
    exact (select_row_complete s 0 v c x Hc Hq).
  - right. replace (s + S i) with (S s + i) by lia. apply IH; assumption.
Qed.

End Selection.

(** X15. On a raster of the shape of the index grids, [_interpolate_nans_2d]
    hands [griddata] the known values, each with the row and the column of
    its own cell and none left out, and asks for values at the coordinates of NaN
    cells only; what it returns is the raster with the answer written to
    the NaN cells that are then zero-filled. *)
Theorem interpolation_passes_cells_with_their_coordinates `{Collaborators}
    (a : image) (rows cols : nat) (method : string) :
  has_shape2 rows cols a ->
  exists (points : list (nat * nat)) (values : vec) (xi : list (nat * nat)),
    Forall2 (fun (p : nat * nat) x =>
               cell2 a p.1 p.2 = Some x /\ isnan x = false) points values
    /\ (forall r c x, cell2 a r c = Some x -> isnan x = false ->
                      (r, c) ∈ points)
    /\ Forall (fun p : nat * nat => cell2 a p.1 p.2 = Some NaN) xi
    /\ _interpolate_nans_2d a (np_indices rows cols).1
                            (np_indices rows cols).2 method
       = (vals ← griddata points values xi method;
          a' ← assign_nans a vals;
          Ok (zero_fill a')).
Proof.
  intros [Hlen Hrows]. unfold _interpolate_nans_2d, np_indices. cbn [fst snd].
  assert (Hknown : (fun m : list bool => negb <$> m) <$> isnan2 a
                   = (fun row : vec => (fun x => negb (isnan x)) <$> row) <$> a).
  { unfold isnan2. rewrite <- list_fmap_compose. apply list_fmap_ext.
    intros _ row _. simpl. rewrite <- list_fmap_compose. reflexivity. }
  rewrite Hknown. unfold range at 1 3 4 6. rewrite <- Hlen.
  eexists _, _, _. split_and!; [| | |reflexivity].
  - eapply Forall2_impl;
      [apply (select_grid (fun x => negb (isnan x)) cols 0 a Hrows)|].
    intros p x (i & Hp & Hc & Hq). simpl in Hp. subst i.
    split; [exact Hc|]. destruct (isnan x); [discriminate | reflexivity].
  - intros r c x Hc Hx.
    apply (select_grid_complete (fun x => negb (isnan x)) cols 0 a r c x
             Hrows Hc).
    rewrite Hx. reflexivity.
  - pose proof (select_grid isnan cols 0 a Hrows) as Hsel.
    unfold isnan2. apply Forall_forall. intros p Hp.
    apply list_elem_of_lookup in Hp as [k Hk].
    destruct (Forall2_lookup_l _ _ _ _ _ Hsel Hk)
      as (x & _ & i & Hpi & Hc & Hq).
    simpl in Hpi. subst i. destruct x; try discriminate. exact Hc.
Qed.

Lemma interpolation_passes_cells_with_their_coordinates_witness :
  exists (points : list (nat * nat)) (values : vec) (xi : list (nat * nat)),
    Forall2 (fun (p : nat * nat) x =>
               cell2 [[NaN; Fin 2]; [Fin 3; NaN]] p.1 p.2 = Some x
               /\ isnan x = false) points values
    /\ (forall r c x, cell2 [[NaN; Fin 2]; [Fin 3; NaN]] r c = Some x ->
                      isnan x = false -> (r, c) ∈ points)
    /\ Forall (fun p : nat * nat =>
                 cell2 [[NaN; Fin 2]; [Fin 3; NaN]] p.1 p.2 = Some NaN) xi
    /\ @_interpolate_nans_2d sample_collaborators
         [[NaN; Fin 2]; [Fin 3; NaN]] (np_indices 2 2).1 (np_indices 2 2).2
         "linear"
       = (vals ← @griddata sample_collaborators points values xi "linear";
          a' ← assign_nans [[NaN; Fin 2]; [Fin 3; NaN]] vals;
          Ok (zero_fill a')).
Proof.
  apply (@interpolation_passes_cells_with_their_coordinates
           sample_collaborators [[NaN; Fin 2]; [Fin 3; NaN]] 2 2 "linear").
  repeat constructor.
Defined.

(** * Further properties of the reconstruction *)

Lemma take_plus_app {A} (l : list A) (n m : nat) :
  take (n + m) l = take n l ++ take m (drop n l).
Proof.
  revert l. induction n as [|n IH]; intros [|x l]; simpl;
    try reflexivity.
  - rewrite take_nil. reflexivity.
  - rewrite IH. reflexivity.
Qed.

Lemma sum_epochs_cell (tsincr : cube) (a b r q : nat) :
  cell2 (sum_epochs tsincr a b) r q
  = (fun v : vec => np_sum (take (b - a) (drop a v)))
      <$> (row ← tsincr !! r; row !! q).
Proof.
  unfold cell2, sum_epochs. rewrite list_lookup_fmap.
  destruct (tsincr !! r) as [row|]; [|reflexivity]. simpl.
  apply list_lookup_fmap.
Qed.

(** X16. The phases that [_ts_to_ifgs] computes close around every loop of
    epochs: at every pixel, the phase for the epoch range [a, c) is the sum
    of the phases for [a, b) and [b, c). *)
Theorem reconstructed_phases_add_up
    (tsincr : cube) (a b c r q : nat) (x y : npfloat) :
  a <= b -> b <= c ->
  cell2 (sum_epochs tsincr a b) r q = Some x ->
  cell2 (sum_epochs tsincr b c) r q = Some y ->
  cell2 (sum_epochs tsincr a c) r q = Some (fadd x y).
Proof.
  intros Hab Hbc. rewrite !sum_epochs_cell.
  destruct (row ← tsincr !! r; row !! q) as [v|]; [|discriminate]. simpl.
  intros [= <-] [= <-]. f_equal.
  replace (c - a) with ((b - a) + (c - b)) by lia.
  rewrite take_plus_app, np_sum_app, drop_drop.
  replace (a + (b - a)) with b by lia. reflexivity.
Qed.

Lemma reconstructed_phases_add_up_witness :
  cell2 (sum_epochs [[[Fin 1; Fin 3]; [Fin 1; Fin 3]]] 0 2) 0 1
  = Some (fadd (Fin (1 + 0)) (Fin (3 + 0))).
Proof.
  apply (reconstructed_phases_add_up [[[Fin 1; Fin 3]; [Fin 1; Fin 3]]]
           0 1 2 0 1).
  - lia.
  - lia.
  - reflexivity.
  - reflexivity.
Defined.

(** ** What the reconstruction leaves alone *)

Lemma same_shape_cell2 {A B} (a : list (list A)) (b : list (list B)) r c x :
  (fun row : list A => length row) <$> a
  = (fun row : list B => length row) <$> b ->
  cell2 a r c = Some x -> exists y, cell2 b r c = Some y.
Proof.
  intros Hshape. unfold cell2.
  destruct (a !! r) as [ra|] eqn:Hra; [|discriminate]. simpl. intros Hc.
  assert (Hl : ((fun row : list B => length row) <$> b) !! r
               = Some (length ra))
    by (rewrite <- Hshape, list_lookup_fmap, Hra; reflexivity).
  rewrite list_lookup_fmap in Hl.
  destruct (b !! r) as [rb|]; [|discriminate]. injection Hl as Hl. simpl.
  apply lookup_lt_is_Some_2. rewrite Hl. eapply lookup_lt_Some. eassumption.
Qed.

Lemma keeps_mask_refl (f : Ifg) : keeps_mask f f.
Proof. unfold keeps_mask. auto 10. Qed.

Lemma keeps_mask_trans (f g h : Ifg) :
  keeps_mask f g -> keeps_mask g h -> keeps_mask f h.
Proof.
  unfold keeps_mask. intros (? & ? & ? & ? & ?) (? & ? & ? & ? & ?).
  split_and!; try congruence. auto.
Qed.

Lemma _save_aps_corrected_phase_frame ifg_path phase w w' :
  _save_aps_corrected_phase ifg_path phase w = Ok w' ->
  scratch w' = scratch w
  /\ exists f f', rasters w !! ifg_path = Some f
                  /\ rasters w' = <[ifg_path := f']> (rasters w)
                  /\ keeps_mask f f'.
Proof.
  intros Hsave.
  assert (Hscratch : scratch w' = scratch w).
  { unfold _save_aps_corrected_phase, Ifg_open in Hsave.
    destruct (rasters w !! ifg_path); [|discriminate]. simpl in Hsave.
    destruct (overwrite_valid _ _); [|discriminate]. simpl in Hsave.
    injection Hsave as <-. reflexivity. }
  split; [exact Hscratch|].
  apply _save_aps_corrected_phase_Ok in Hsave as (f & data & Hf & Hdata & Hw').
  eexists f, _. split_and!; [exact Hf | exact Hw' |].
  unfold keeps_mask. simpl. split_and!; try reflexivity.
  - eapply overwrite_valid_shape. eassumption.
  - intros r c Hc.
    assert (Hshape : (fun row : vec => length row) <$> phase_data f
                     = (fun row : vec => length row) <$> phase).
    { unfold overwrite_valid in Hdata. case_decide; [assumption|discriminate]. }
    destruct (same_shape_cell2 _ _ r c NaN Hshape Hc) as [y Hy].
    rewrite (overwrite_valid_cell _ _ _ r c NaN y Hdata Hc Hy). reflexivity.
Qed.

(** An entry of the loop of [_ts_to_ifgs] is an entry of
    [preread_ifgs]. *)
Lemma enumerate_sorted_values_elem (preread_ifgs : list (string * PrereadIfg))
    (entry : nat * PrereadIfg) :
  entry ∈ enumerate (sorted_values preread_ifgs) ->
  exists key, (key, entry.2) ∈ preread_ifgs.
Proof.
  unfold enumerate. intros Hentry.
  apply elem_of_lookup_imap_1 in Hentry as (i & pre & -> & Hi).
  apply list_elem_of_lookup_2 in Hi. unfold sorted_values in Hi.
  apply list_elem_of_fmap in Hi as ([key pre'] & -> & Hin).
  rewrite merge_sort_Permutation in Hin. eauto.
Qed.

(** The loop of [_ts_to_ifgs] over any list of entries. *)
Lemma ts_to_ifg_frame (tsincr : cube) (index_master index_slave : list nat)
    (entries : list (nat * PrereadIfg)) (w w' : World) :
  for_each entries (ts_to_ifg tsincr index_master index_slave) w = Ok w' ->
  scratch w' = scratch w
  /\ (forall q,
        (forall entry, entry ∈ entries -> preread_path entry.2 <> q) ->
        rasters w' !! q = rasters w !! q)
  /\ (forall q, option_Forall2 keeps_mask (rasters w !! q) (rasters w' !! q)).
Proof.
  apply (for_each_inv (fun s : World =>
    scratch s = scratch w
    /\ (forall q,
          (forall entry, entry ∈ entries -> preread_path entry.2 <> q) ->
          rasters s !! q = rasters w !! q)
    /\ (forall q, option_Forall2 keeps_mask (rasters w !! q)
                                 (rasters s !! q)))).
  - intros entry s s' Hentry (Hsc & Hframe & Hmask) Hbody.
    unfold ts_to_ifg in Hbody. inv_result.
    apply _save_aps_corrected_phase_frame in Hbody
      as (Hsc' & f & f' & Hf & Hs' & Hkeep).
    split_and!.
    + congruence.
    + intros q Hq. rewrite Hs'.
      rewrite lookup_insert_ne by (apply Hq; exact Hentry).
      apply Hframe. exact Hq.
    + intros q. rewrite Hs'.
      destruct (decide (q = preread_path entry.2)) as [->|Hne].
      * rewrite lookup_insert_eq. specialize (Hmask (preread_path entry.2)).
        rewrite Hf in Hmask. inversion Hmask as [f0 ? Hk|]; subst.
        constructor. eapply keeps_mask_trans; eassumption.
      * rewrite lookup_insert_ne by congruence. apply Hmask.
  - split_and!; [reflexivity | reflexivity |].
    intros q. destruct (rasters w !! q); constructor. apply keeps_mask_refl.
Qed.

(** X17. A successful [_ts_to_ifgs] leaves the scratch directory and every
    raster that no entry of [preread_ifgs] names as they were; it creates
    and deletes no raster; and every raster keeps its shape, its cell sizes
    and its NaN pixels. *)
Theorem reconstruction_spares_masks_and_other_files `{Collaborators}
    (tsincr : cube) (preread_ifgs : list (string * PrereadIfg))
    (w w' : World) :
  _ts_to_ifgs tsincr preread_ifgs w = Ok w' ->
  scratch w' = scratch w
  /\ (forall q,
        (forall key pre, (key, pre) ∈ preread_ifgs -> preread_path pre <> q) ->
        rasters w' !! q = rasters w !! q)
  /\ (forall q, option_Forall2 keeps_mask (rasters w !! q) (rasters w' !! q)).
Proof.
  unfold _ts_to_ifgs. intros Hrun.
  apply ts_to_ifg_frame in Hrun as (Hscratch & Hframe & Hmask).
  split_and!; [exact Hscratch | | exact Hmask].
  intros q Hq. apply Hframe. intros entry Hentry.
  destruct (enumerate_sorted_values_elem _ _ Hentry) as [key Hin].
  exact (Hq key entry.2 Hin).
Qed.

Lemma reconstruction_spares_masks_and_other_files_witness :
  exists w',
    scratch w' = scratch (log (IfgOpened "ifg_a.tif" true) sample_world_tiles)
    /\ (forall q,
          (forall key pre, (key, pre) ∈ sample_preread ->
                           preread_path pre <> q) ->
          rasters w' !! q
          = rasters (log (IfgOpened "ifg_a.tif" true) sample_world_tiles) !! q)
    /\ (forall q,
          option_Forall2 keeps_mask
            (rasters (log (IfgOpened "ifg_a.tif" true) sample_world_tiles) !! q)
            (rasters w' !! q)).
Proof.
  destruct (sample_reconstruction_run 1 3 1 3) as (w' & Hw'). exists w'.
  exact (@reconstruction_spares_masks_and_other_files sample_collaborators
           _ _ _ _ Hw').
Defined.

(** ** A NaN increment reaches the file *)

Lemma slice_has_nan (v : vec) (a b t : nat) :
  a <= t < b -> v !! t = Some NaN -> NaN ∈ take (b - a) (drop a v).
Proof.
  intros Ht Hv. apply (list_elem_of_lookup_2 _ (t - a)).
  rewrite lookup_take_lt by lia. rewrite lookup_drop.
  replace (a + (t - a)) with t by lia. exact Hv.
Qed.

(** X18. [np.sum] does not skip NaN: when the corrected series is NaN at one
    epoch of the range [a, b) of an interferogram, the phase saved for that
    pixel is NaN, also where the file held a number before. *)
Theorem nan_increment_masks_saved_pixel
    (ifg_path : string) (tsincr : cube) (a b : nat) (w : World) (f : Ifg)
    (r q t : nat) (v : vec) (old : npfloat) :
  rasters w !! ifg_path = Some f ->
  (fun row : vec => length row) <$> phase_data f
    = (fun row : vec => length row) <$> sum_epochs tsincr a b ->
  pixel tsincr r q = Ok v -> a <= t < b -> v !! t = Some NaN ->
  cell2 (phase_data f) r q = Some old ->
  exists w' f',
    _save_aps_corrected_phase ifg_path (sum_epochs tsincr a b) w = Ok w'
    /\ rasters w' !! ifg_path = Some f'
    /\ cell2 (phase_data f') r q = Some NaN.
Proof.
  intros Hf Hshape Hv Ht Hnan Hold.
  destruct (overwrite_valid (phase_data f) (sum_epochs tsincr a b))
    as [data|e] eqn:Hdata.
  2:{ unfold overwrite_valid in Hdata.
      rewrite decide_True in Hdata by exact Hshape. discriminate. }
  eexists _, _. split_and!.
  - unfold _save_aps_corrected_phase, Ifg_open. rewrite Hf. simpl.
    rewrite Hdata. simpl. reflexivity.
  - simpl. apply lookup_insert_eq.
  - simpl.
    assert (Hnew : cell2 (sum_epochs tsincr a b) r q = Some NaN).
    { rewrite sum_epochs_cell. apply pixel_Ok in Hv as (row & -> & Hq).
      simpl. rewrite Hq. simpl. f_equal.
      apply np_sum_nan. eapply slice_has_nan; eassumption. }
    rewrite (overwrite_valid_cell _ _ _ r q old NaN Hdata Hold Hnew).
    destruct old; reflexivity.
Qed.

Lemma nan_increment_masks_saved_pixel_witness :
  exists w' f',
    _save_aps_corrected_phase "ifg_b.tif"
      (sum_epochs [[[NaN; Fin 3]; [Fin 1; Fin 3]]] 0 2) sample_world = Ok w'
    /\ rasters w' !! "ifg_b.tif" = Some f'
    /\ cell2 (phase_data f') 0 0 = Some NaN.
Proof.
  apply (nan_increment_masks_saved_pixel "ifg_b.tif"
           [[[NaN; Fin 3]; [Fin 1; Fin 3]]] 0 2 sample_world
           (sample_raster "ifg_b.tif" [[Fin 6; Fin 7]]) 0 0 0
           [NaN; Fin 3] (Fin 6)).
  - reflexivity.
  - reflexivity.
  - reflexivity.
  - lia.
  - reflexivity.
  - reflexivity.
Defined.

(** * Further properties of the pipeline *)

(** ** The corrected time series *)

Lemma lengths_cell (a b : cube) i j t x :
  lengths a = lengths b -> cell a i j t = Some x ->
  exists y, cell b i j t = Some y.
Proof.
  intros Hshape Hx. unfold cell in Hx.
  destruct (a !! i) as [row|] eqn:Hrow; [|discriminate]. simpl in Hx.
  destruct (row !! j) as [v|] eqn:Hv; [|discriminate]. simpl in Hx.
  destruct (lengths_pixel a b i j v (eq_sym Hshape)) as (v' & Hv' & Hlen).
  { apply pixel_Ok. eauto. }
  rewrite (cell_pixel _ _ _ _ Hv'). apply lookup_lt_is_Some_2.
  rewrite Hlen. eapply lookup_lt_Some. eassumption.
Qed.

Lemma cube_sub_lengths (a b c : cube) :
  cube_sub a b = Ok c -> lengths c = lengths a.
Proof.
  unfold cube_sub. case_decide as Hshape; [|discriminate]. intros [= <-].
  unfold lengths in *. revert b Hshape.
  induction a as [|ra a IH]; intros [|rb b] Hshape; try discriminate;
    [reflexivity|].
  rewrite !fmap_cons in Hshape. injection Hshape as Hrow Hrest.
  cbn [zip_with]. rewrite !fmap_cons. f_equal; [|apply IH; exact Hrest].
  clear -Hrow. revert rb Hrow.
  induction ra as [|v ra IHr]; intros [|u rb] Hrow; try discriminate;
    [reflexivity|].
  rewrite !fmap_cons in Hrow. injection Hrow as Hv Hrest.
  cbn [zip_with]. rewrite !fmap_cons. f_equal; [|apply IHr; exact Hrest].
  rewrite length_zip_with. lia.
Qed.

Lemma cube_sub_cell (a b c : cube) i j t x y :
  cube_sub a b = Ok c -> cell a i j t = Some x -> cell b i j t = Some y ->
  cell c i j t = Some (fsub x y).
Proof.
  unfold cube_sub. case_decide; [|discriminate]. intros [= <-].
  unfold cell. rewrite lookup_zip_with.
  destruct (a !! i) as [ra|]; [|discriminate].
  destruct (b !! i) as [rb|]; [|discriminate]. simpl.
  rewrite lookup_zip_with.
  destruct (ra !! j) as [va|]; [|discriminate].
  destruct (rb !! j) as [vb|]; [|discriminate]. simpl.
  rewrite lookup_zip_with. intros -> ->. reflexivity.
Qed.

(** X19. [spatio_temporal_filter] reconstructs the interferograms from a
    corrected series that has the shape of [tsincr] and is NaN wherever
    [tsincr] is: the subtraction of line 112 keeps the NaN cells of the
    input although the spatial filter has filled them in the screen it
    returns. *)
Theorem corrected_series_keeps_nan `{Collaborators}
    (tsincr : cube) (ifg : Ifg) (params : Params)
    (preread_ifgs : list (string * PrereadIfg)) (w w' : World) :
  spatio_temporal_filter tsincr ifg params preread_ifgs w = Ok w' ->
  exists corrected,
    _ts_to_ifgs corrected preread_ifgs w = Ok w'
    /\ lengths corrected = lengths tsincr
    /\ forall i j t, cell tsincr i j t = Some NaN ->
                     cell corrected i j t = Some NaN.
Proof.
  unfold spatio_temporal_filter. intros Hrun. inv_result.
  rename x into ts_lp, x0 into ts_hp, x1 into ts_aps, x2 into corrected.
  match goal with Hs : cube_sub tsincr ts_aps = Ok corrected |- _ =>
    rename Hs into Hsub end.
  exists corrected. split_and!; [exact Hrun | |].
  - eapply cube_sub_lengths. eassumption.
  - intros i j t Hnan.
    assert (Hshape : lengths tsincr = lengths ts_aps).
    { unfold cube_sub in Hsub. case_decide; [assumption|discriminate]. }
    destruct (lengths_cell tsincr ts_aps i j t NaN Hshape Hnan) as [y Hy].
    rewrite (cube_sub_cell _ _ _ i j t NaN y Hsub Hnan Hy). reflexivity.
Qed.

Lemma sample_reconstruction_run_cells (x0 x1 y0 y1 : npfloat) :
  exists w',
    @_ts_to_ifgs sample_collaborators [[[x0; x1]; [y0; y1]]]
       sample_preread (log (IfgOpened "ifg_a.tif" true) sample_world_tiles)
    = Ok w'.
Proof. vm_compute. eexists. reflexivity. Qed.

Lemma sample_temporal_run_masked :
  temporal_low_pass_filter [[[NaN; Fin 3]; [Fin 1; Fin 3]]]
    (@get_epochs sample_collaborators (snd <$> sample_preread)).1
    (sample_params 3 (Fin 1) 2)
  = Ok [[[NaN; NaN]; [Fin 2; Fin 2]]].
Proof. np_eval. np_close. Qed.

(** The filter on a series whose first pixel is masked at the first
    epoch. *)
Lemma sample_filter_run_masked :
  exists w',
    @spatio_temporal_filter sample_collaborators
      [[[NaN; Fin 3]; [Fin 1; Fin 3]]]
      (sample_raster "ifg_a.tif" [[NaN; Fin 5]])
      (sample_params 3 (Fin 1) 2) sample_preread
      (log (IfgOpened "ifg_a.tif" true) sample_world_tiles)
    = Ok w'.
Proof.
  unfold spatio_temporal_filter. rewrite sample_temporal_run_masked.
  cbn [mbind result_bind].
  assert (Hhp : cube_sub [[[NaN; Fin 3]; [Fin 1; Fin 3]]]
                         [[[NaN; NaN]; [Fin 2; Fin 2]]]
                = Ok [[[NaN; NaN]; [Fin (1 + - 2); Fin (3 + - 2)]]])
    by reflexivity.
  rewrite Hhp. cbn [mbind result_bind].
  rewrite (@spatial_filter_reads_nan_as_zero sample_collaborators)
    by reflexivity.
  change ((fun row : list vec => zero_fill row)
            <$> [[[NaN; NaN]; [Fin (1 + - 2); Fin (3 + - 2)]]])
    with [[[Fin 0; Fin 0]; [Fin (1 + - 2); Fin (3 + - 2)]]].
  destruct (@sample_spatial_run sample_collaborators
              (sample_raster "ifg_a.tif" [[NaN; Fin 5]])
              0 0 (1 + - 2) (3 + - 2) eq_refl eq_refl eq_refl)
    as (y0 & y1 & y2 & y3 & Hs).
  rewrite Hs. cbn [mbind result_bind].
  assert (Hsub : cube_sub [[[NaN; Fin 3]; [Fin 1; Fin 3]]]
                          [[[Fin y0; Fin y1]; [Fin y2; Fin y3]]]
                 = Ok [[[NaN; Fin (3 + - y1)];
                        [Fin (1 + - y2); Fin (3 + - y3)]]]) by reflexivity.
  rewrite Hsub. cbn [mbind result_bind].
  apply sample_reconstruction_run_cells.
Qed.

Lemma corrected_series_keeps_nan_witness :
  exists w' corrected,
    @_ts_to_ifgs sample_collaborators corrected sample_preread
      (log (IfgOpened "ifg_a.tif" true) sample_world_tiles) = Ok w'
    /\ lengths corrected = lengths [[[NaN; Fin 3]; [Fin 1; Fin 3]]]
    /\ forall i j t,
         cell [[[NaN; Fin 3]; [Fin 1; Fin 3]]] i j t = Some NaN ->
         cell corrected i j t = Some NaN.
Proof.
  destruct sample_filter_run_masked as (w' & Hrun). exists w'.
  exact (@corrected_series_keeps_nan sample_collaborators _ _ _ _ _ _ Hrun).
Defined.

(** ** The time series of the tiles *)

Lemma calc_tiles_frame `{Collaborators} (ifg_paths : list string)
    (new_params params : Params) (preread_ifgs : list (string * PrereadIfg))
    (process_tiles : list Tile) (st st' : option nat * World) :
  for_each process_tiles
           (calc_tile ifg_paths new_params params preread_ifgs) st = Ok st' ->
  rasters st'.2 = rasters st.2
  /\ (forall t, t ∈ process_tiles ->
        exists a, scratch st'.2 !! ("tsincr_aps", index t)
                  = Some (FloatArray a))
  /\ (forall key, (key.1 <> "tsincr_aps"
                   \/ forall t, t ∈ process_tiles -> index t <> key.2) ->
        scratch st'.2 !! key = scratch st.2 !! key)
  /\ trace st'.2
     = trace st.2
       ++ ((fun t => ArraySaved "tsincr_aps" (index t)) <$> process_tiles).
Proof.
  revert st. induction process_tiles as [|t ts IH]; intros st Hrun.
  - simpl in Hrun. injection Hrun as <-. split_and!; try reflexivity.
    + intros t Ht. inversion Ht.
    + simpl. rewrite app_nil_r. reflexivity.
  - simpl in Hrun. inv_result. rename x into st1.
    match goal with Hc : calc_tile _ _ _ _ _ _ = Ok _ |- _ =>
      unfold calc_tile in Hc; inv_result; subst st1 end.
    destruct (IH _ Hrun) as (Hr & Hsaved & Hother & Htrace).
    simpl in Hr, Hother, Htrace.
    split_and!.
    + exact Hr.
    + intros t' [->|Ht']%elem_of_cons; [|auto].
      destruct (decide (index t ∈ index <$> ts)) as [Hin|Hnin].
      * apply list_elem_of_fmap in Hin as (t2 & Heq & Ht2).
        rewrite Heq. auto.
      * eexists. rewrite Hother.
        -- apply lookup_insert_eq.
        -- right. simpl. intros t2 Ht2 Heq. apply Hnin.
           apply list_elem_of_fmap. eauto.
    + intros key Hkey. rewrite Hother.
      * apply lookup_insert_ne. destruct key as [name k]. simpl in Hkey.
        intros [= <- <-]. destruct Hkey as [Hn|Hk]; [congruence|].
        apply (Hk t); [apply elem_of_cons; auto | reflexivity].
      * destruct Hkey as [Hn|Hk]; [left; exact Hn | right].
        intros t2 Ht2. apply Hk. apply elem_of_cons. auto.
    + rewrite Htrace. simpl. rewrite <- app_assoc. reflexivity.
Qed.

(** X20. A successful [_calc_svd_time_series] touches no raster; in the
    scratch directory it writes the files [tsincr_aps_<index>] of the tiles
    of this worker, one save per tile in the order of the tiles, and
    nothing else; afterwards each of these files holds a time series. *)
Theorem time_series_step_writes_only_tile_results `{Collaborators}
    (ifg_paths : list string) (params : Params)
    (preread_ifgs : list (string * PrereadIfg)) (tiles : list Tile)
    (w w' : World) (tsincr_g : cube) :
  _calc_svd_time_series ifg_paths params preread_ifgs tiles w
  = Ok (tsincr_g, w') ->
  rasters w' = rasters w
  /\ (forall t, t ∈ array_split tiles ->
        exists a, scratch w' !! ("tsincr_aps", index t) = Some (FloatArray a))
  /\ (forall key, (key.1 <> "tsincr_aps"
                   \/ forall t, t ∈ array_split tiles -> index t <> key.2) ->
        scratch w' !! key = scratch w !! key)
  /\ trace w'
     = trace w
       ++ ((fun t => ArraySaved "tsincr_aps" (index t)) <$> array_split tiles).
Proof.
  unfold _calc_svd_time_series. intros Hrun.
  apply bind_Ok in Hrun as (st & Hst & Hrun).
  apply bind_Ok in Hrun as (c & _ & Hrun).
  assert (st.2 = w') as <- by congruence.
  apply calc_tiles_frame in Hst. exact Hst.
Qed.

Lemma time_series_step_writes_only_tile_results_witness :
  rasters sample_world_tiles = rasters sample_world_run
  /\ (forall t, t ∈ sample_tiles ->
        exists a, scratch sample_world_tiles !! ("tsincr_aps", index t)
                  = Some (FloatArray a))
  /\ (forall key : string * nat,
        (key.1 <> "tsincr_aps"
         \/ forall t, t ∈ sample_tiles -> index t <> key.2) ->
        scratch sample_world_tiles !! key = scratch sample_world_run !! key)
  /\ trace sample_world_tiles
     = trace sample_world_run
       ++ ((fun t => ArraySaved "tsincr_aps" (index t)) <$> sample_tiles).
Proof.
  exact (@time_series_step_writes_only_tile_results sample_collaborators
           sample_paths (sample_params 3 (Fin 1) 2) sample_preread
           sample_tiles sample_world_run sample_world_tiles _
           sample_time_series_run).
Defined.

(** ** A worker without tiles *)

(** X21. When [array_split] gives the coordinating worker no tile, [nvels]
    is still [None] when the cube is assembled and
    [_calc_svd_time_series] raises: IndexError for an empty list of paths,
    KeyError when the first path is no key of [preread_ifgs], and
    otherwise the TypeError of [np.empty] for a shape that ends in
    [None]. *)
Theorem no_tile_no_time_series `{Collaborators}
    (ifg_paths : list string) (params : Params)
    (preread_ifgs : list (string * PrereadIfg)) (tiles : list Tile)
    (w : World) :
  array_split tiles = [] ->
  _calc_svd_time_series ifg_paths params preread_ifgs tiles w
  = Raise (match ifg_paths with
           | [] => IndexError
           | first :: _ =>
               if is_Ok (dict_get preread_ifgs first) then TypeError
               else KeyError
           end).
Proof.
  intros Hsplit. unfold _calc_svd_time_series. rewrite Hsplit. simpl.
  unfold _assemble_tsincr, getitem. destruct ifg_paths as [|first rest];
    [reflexivity|]. simpl.
  unfold dict_get. destruct (list_find _ _); reflexivity.
Qed.

Lemma no_tile_no_time_series_witness :
  @_calc_svd_time_series sample_collaborators sample_paths
    (sample_params 3 (Fin 1) 2) sample_preread [] sample_world_run
  = Raise TypeError.
Proof.
  exact (@no_tile_no_time_series sample_collaborators sample_paths
           (sample_params 3 (Fin 1) 2) sample_preread [] sample_world_run
           eq_refl).
Defined.

(** ** The wrapper as a whole *)

(** X22. Whatever way [_wrap_spatio_temporal_filter] returns, it has created
    and deleted no raster; every raster has kept its shape, its cell sizes
    and its NaN pixels; a raster that no entry of [preread_ifgs] names is
    as it was; and in the scratch directory only files named
    [tsincr_aps_<index>] have been written. *)
Theorem wrapper_spares_masks_and_scratch `{Collaborators}
    (ifg_paths : list string) (params : Params) (tiles : list Tile)
    (preread_ifgs : list (string * PrereadIfg)) (w w' : World) (o : outcome) :
  _wrap_spatio_temporal_filter ifg_paths params tiles preread_ifgs w
  = Ok (o, w') ->
  (forall q, option_Forall2 keeps_mask (rasters w !! q) (rasters w' !! q))
  /\ (forall q,
        (forall key pre, (key, pre) ∈ preread_ifgs -> preread_path pre <> q) ->
        rasters w' !! q = rasters w !! q)
  /\ (forall key : string * nat,
        key.1 <> "tsincr_aps" -> scratch w' !! key = scratch w !! key).
Proof.
  assert (Hsame : forall w0 : World,
    (forall q, option_Forall2 keeps_mask (rasters w0 !! q) (rasters w0 !! q))
    /\ (forall q,
          (forall key pre, (key, pre) ∈ preread_ifgs ->
                           preread_path pre <> q) ->
          rasters w0 !! q = rasters w0 !! q)
    /\ (forall key : string * nat,
          key.1 <> "tsincr_aps" -> scratch w0 !! key = scratch w0 !! key)).
  { intros w0. split_and!; try reflexivity.
    intros q. destruct (rasters w0 !! q); constructor. apply keeps_mask_refl. }
  unfold _wrap_spatio_temporal_filter.
  destruct (APSEST params); simpl.
  2:{ intros [= <- <-]. apply Hsame. }
  intros Hrun. apply bind_Ok in Hrun as ([|] & _ & Hrun).
  { injection Hrun as <- <-. apply Hsame. }
  apply bind_Ok in Hrun as ([tsincr_g w1] & Hcalc & Hrun).
  apply bind_Ok in Hrun as (first & _ & Hrun).
  apply bind_Ok in Hrun as ([ifg w2] & Hopen & Hrun).
  apply bind_Ok in Hrun as (w3 & Hfilter & Hrun).
  injection Hrun as <- <-. simpl in *.
  unfold _calc_svd_time_series in Hcalc.
  apply bind_Ok in Hcalc as (st & Hst & Hcalc).
  apply bind_Ok in Hcalc as (c & _ & Hcalc).
  assert (st.2 = w1) as <- by congruence.
  apply calc_tiles_frame in Hst as (Hr1 & _ & Hs1 & _). simpl in Hr1, Hs1.
  assert (Hw2 : rasters w2 = rasters st.2 /\ scratch w2 = scratch st.2).
  { unfold Ifg_open in Hopen. destruct (rasters st.2 !! first); [|discriminate].
    injection Hopen as _ <-. split; reflexivity. }
  destruct Hw2 as [Hr2 Hs2].
  unfold spatio_temporal_filter in Hfilter.
  apply bind_Ok in Hfilter as (ts_lp & _ & Hfilter).
  apply bind_Ok in Hfilter as (ts_hp & _ & Hfilter).
  apply bind_Ok in Hfilter as (ts_aps & _ & Hfilter).
  apply bind_Ok in Hfilter as (corrected & _ & Hfilter).
  unfold _ts_to_ifgs in Hfilter.
  apply ts_to_ifg_frame in Hfilter as (Hs3 & Hframe & Hmask).
  rewrite Hr2, Hr1 in Hframe, Hmask.
  split_and!.
  - exact Hmask.
  - intros q Hq. apply Hframe. intros entry Hentry.
    destruct (enumerate_sorted_values_elem _ _ Hentry) as [key Hin].
    exact (Hq key entry.2 Hin).
  - intros key Hkey. rewrite Hs3, Hs2. apply Hs1. left. exact Hkey.
Qed.

Lemma wrapper_spares_masks_and_scratch_witness :
  exists w1,
    (forall q, option_Forall2 keeps_mask (rasters sample_world_run !! q)
                              (rasters w1 !! q))
    /\ (forall q,
          (forall key pre, (key, pre) ∈ sample_preread ->
                           preread_path pre <> q) ->
          rasters w1 !! q = rasters sample_world_run !! q)
    /\ (forall key : string * nat,
          key.1 <> "tsincr_aps" ->
          scratch w1 !! key = scratch sample_world_run !! key).
Proof.
  destruct sample_first_run as (w1 & Hrun). exists w1.
  exact (@wrapper_spares_masks_and_scratch sample_collaborators
           _ _ _ _ _ _ _ Hrun).
Defined.

(** ** The calls to the raster layer *)

Lemma _save_aps_corrected_phase_trace ifg_path phase w w' :
  _save_aps_corrected_phase ifg_path phase w = Ok w' ->
  trace w' = trace w ++ save_calls ifg_path.
Proof.
  unfold _save_aps_corrected_phase, Ifg_open.
  destruct (rasters w !! ifg_path); [|discriminate]. simpl.
  destruct (overwrite_valid _ _); [|discriminate]. simpl.
  intros [= <-]. simpl. rewrite <- !app_assoc. reflexivity.
Qed.

Lemma ts_to_ifg_trace (tsincr : cube) (index_master index_slave : list nat)
    (entries : list (nat * PrereadIfg)) (w w' : World) :
  for_each entries (ts_to_ifg tsincr index_master index_slave) w = Ok w' ->
  trace w'
  = trace w ++ concat ((fun entry : nat * PrereadIfg =>
                          save_calls (preread_path entry.2)) <$> entries).
Proof.
  revert w. induction entries as [|entry entries IH]; intros w Hrun.
  - simpl in Hrun. injection Hrun as <-. simpl. rewrite app_nil_r. reflexivity.
  - cbn [for_each] in Hrun. apply bind_Ok in Hrun as (w1 & Hbody & Hrun).
    unfold ts_to_ifg in Hbody. apply bind_Ok in Hbody as (a & _ & Hbody).
    apply bind_Ok in Hbody as (b & _ & Hbody).
    apply _save_aps_corrected_phase_trace in Hbody.
    rewrite (IH _ Hrun), Hbody. rewrite fmap_cons. cbn [concat].
    rewrite <- !app_assoc. reflexivity.
Qed.

Lemma enumerate_snd {A} (l : list A) : snd <$> enumerate l = l.
Proof.
  unfold enumerate.
  assert (H : forall (k : list A) (h : nat -> nat),
             snd <$> imap (fun i x => (h i, x)) k = k).
  { clear. induction k as [|x k IH]; intros h; [reflexivity|].
    cbn [imap]. rewrite fmap_cons. simpl. f_equal. apply (IH (h ∘ S)). }
  apply (H l (fun i => i)).
Qed.

Lemma save_calls_enumerate (l : list PrereadIfg) :
  (fun entry : nat * PrereadIfg => save_calls (preread_path entry.2))
    <$> enumerate l
  = (fun pre => save_calls (preread_path pre)) <$> l.
Proof.
  rewrite <- (enumerate_snd l) at 2. rewrite <- list_fmap_compose.
  reflexivity.
Qed.

(** X23. A successful [_ts_to_ifgs] calls the raster layer four times for
    every interferogram, in the order of the keys of [preread_ifgs]: open
    for writing, set the tag, write the modified phase, close; the tag of a
    file is set before the file is written, and one file is closed before
    the next is opened. *)
Theorem reconstruction_calls_in_key_order `{Collaborators} (tsincr : cube)
    (preread_ifgs : list (string * PrereadIfg)) (w w' : World) :
  _ts_to_ifgs tsincr preread_ifgs w = Ok w' ->
  trace w'
  = trace w ++ concat ((fun pre => save_calls (preread_path pre))
                         <$> sorted_values preread_ifgs).
Proof.
  unfold _ts_to_ifgs. intros Hrun%ts_to_ifg_trace.
  rewrite Hrun, save_calls_enumerate. reflexivity.
Qed.

Lemma reconstruction_calls_in_key_order_witness :
  exists w',
    trace w'
    = trace (log (IfgOpened "ifg_a.tif" true) sample_world_tiles)
      ++ concat ((fun pre => save_calls (preread_path pre))
                   <$> sorted_values sample_preread).
Proof.
  destruct (sample_reconstruction_run 1 3 1 3) as (w' & Hw'). exists w'.
  exact (@reconstruction_calls_in_key_order sample_collaborators
           _ _ _ _ Hw').
Defined.

(** X24. A run of [_wrap_spatio_temporal_filter] that corrects the
    interferograms has these effects, in this order: the time series of
    each tile of the worker is saved; the first interferogram of
    [ifg_paths] is opened read-only; every interferogram of [preread_ifgs]
    is saved in key order; the first interferogram is closed. *)
Theorem corrected_run_effects_in_order `{Collaborators}
    (ifg_paths : list string) (params : Params) (tiles : list Tile)
    (preread_ifgs : list (string * PrereadIfg)) (w w' : World) :
  _wrap_spatio_temporal_filter ifg_paths params tiles preread_ifgs w
  = Ok (Corrected, w') ->
  exists first,
    ifg_paths !! 0 = Some first
    /\ trace w'
       = trace w
         ++ ((fun t => ArraySaved "tsincr_aps" (index t)) <$> array_split tiles)
         ++ [IfgOpened first true]
         ++ concat ((fun pre => save_calls (preread_path pre))
                      <$> sorted_values preread_ifgs)
         ++ [IfgClosed first].
Proof.
  unfold _wrap_spatio_temporal_filter.
  destruct (APSEST params); simpl; [|discriminate].
  intros Hrun. apply bind_Ok in Hrun as ([|] & _ & Hrun); [discriminate|].
  apply bind_Ok in Hrun as ([tsincr_g w1] & Hcalc & Hrun).
  apply bind_Ok in Hrun as (first & Hfirst & Hrun).
  apply bind_Ok in Hrun as ([ifg w2] & Hopen & Hrun).
  apply bind_Ok in Hrun as (w3 & Hfilter & Hrun).
  injection Hrun as <-. simpl in *.
  exists first. split; [apply getitem_Ok; exact Hfirst|].
  unfold _calc_svd_time_series in Hcalc.
  apply bind_Ok in Hcalc as (st & Hst & Hcalc).
  apply bind_Ok in Hcalc as (c & _ & Hcalc).
  assert (st.2 = w1) as <- by congruence.
  apply calc_tiles_frame in Hst as (_ & _ & _ & Ht1). simpl in Ht1.
  assert (Hw2 : path ifg = first
                /\ trace w2 = trace st.2 ++ [IfgOpened first true]).
  { unfold Ifg_open in Hopen. destruct (rasters st.2 !! first); [|discriminate].
    injection Hopen as <- <-. split; reflexivity. }
  destruct Hw2 as [Hpath Ht2].
  unfold spatio_temporal_filter in Hfilter.
  apply bind_Ok in Hfilter as (ts_lp & _ & Hfilter).
  apply bind_Ok in Hfilter as (ts_hp & _ & Hfilter).
  apply bind_Ok in Hfilter as (ts_aps & _ & Hfilter).
  apply bind_Ok in Hfilter as (corrected & _ & Hfilter).
  unfold _ts_to_ifgs in Hfilter. apply ts_to_ifg_trace in Hfilter.
  rewrite save_calls_enumerate in Hfilter.
  unfold Ifg_close, log. simpl. rewrite Hfilter, Ht2, Ht1, Hpath.
  rewrite <- !app_assoc. reflexivity.
Qed.

Lemma corrected_run_effects_in_order_witness :
  exists w1 first,
    sample_paths !! 0 = Some first
    /\ trace w1
       = trace sample_world_run
         ++ ((fun t => ArraySaved "tsincr_aps" (index t))
               <$> @array_split sample_collaborators sample_tiles)
         ++ [IfgOpened first true]
         ++ concat ((fun pre => save_calls (preread_path pre))
                      <$> sorted_values sample_preread)
         ++ [IfgClosed first].
Proof.
  destruct sample_first_run as (w1 & Hrun). exists w1.
  exact (@corrected_run_effects_in_order sample_collaborators
           _ _ _ _ _ _ Hrun).
Defined.

(** * Further properties of the spatial filter: frequency zero *)

(** ** Finite sums *)

Section FiniteSums.
Local Open Scope R_scope.

Lemma rsum_S (n : nat) (f : nat -> R) : rsum (S n) f = rsum n f + f n.
Proof.
  unfold rsum. rewrite seq_S, fmap_app, foldr_app. simpl.
  generalize (f <$> seq 0 n). intros l. induction l as [|x l IH]; simpl; lra.
Qed.

Lemma rsum_0 (f : nat -> R) : rsum 0 f = 0.
Proof. reflexivity. Qed.

Lemma rsum_ext (n : nat) (f g : nat -> R) :
  (forall i, (i < n)%nat -> f i = g i) -> rsum n f = rsum n g.
Proof.
  induction n as [|n IH]; intros Hfg; [reflexivity|].
  rewrite !rsum_S, IH, Hfg by (intros; auto with lia). reflexivity.
Qed.

Lemma rsum_zero (n : nat) (f : nat -> R) :
  (forall i, (i < n)%nat -> f i = 0) -> rsum n f = 0.
Proof.
  induction n as [|n IH]; intros Hf; [reflexivity|].
  rewrite rsum_S, IH, Hf by (intros; auto with lia). lra.
Qed.

Lemma rsum_scale (n : nat) (k : R) (f : nat -> R) :
  rsum n (fun i => k * f i) = k * rsum n f.
Proof.
  induction n as [|n IH]; [rewrite !rsum_0; lra|].
  rewrite !rsum_S, IH. lra.
Qed.

Lemma rsum_plus (n : nat) (f g : nat -> R) :
  rsum n (fun i => f i + g i) = rsum n f + rsum n g.
Proof.
  induction n as [|n IH]; [rewrite !rsum_0; lra|].
  rewrite !rsum_S, IH. lra.
Qed.

Lemma rsum_const (n : nat) (k : R) : rsum n (fun _ => k) = INR n * k.
Proof.
  induction n as [|n IH]; [rewrite rsum_0; simpl; lra|].
  rewrite rsum_S, IH, S_INR. lra.
Qed.

(** The two orders of a double sum. *)
Lemma rsum_swap (n m : nat) (f : nat -> nat -> R) :
  rsum n (fun i => rsum m (fun j => f i j))
  = rsum m (fun j => rsum n (fun i => f i j)).
Proof.
  induction n as [|n IH].
  - rewrite rsum_0. symmetry. apply rsum_zero. intros; apply rsum_0.
  - rewrite rsum_S, IH, <- rsum_plus. apply rsum_ext. intros j _.
    rewrite rsum_S. reflexivity.
Qed.

(** A sum whose terms other than the first are zero. *)
Lemma rsum_first (n : nat) (f : nat -> R) :
  (0 < n)%nat -> (forall i, (0 < i < n)%nat -> f i = 0) -> rsum n f = f 0%nat.
Proof.
  induction n as [|n IH]; intros Hn Hf; [lia|].
  destruct n as [|n].
  - rewrite rsum_S, rsum_0. lra.
  - rewrite rsum_S, IH; [|lia|intros i Hi; apply Hf; lia].
    rewrite (Hf (S n)) by lia. lra.
Qed.

End FiniteSums.

(** ** Sums of cosines and sines over a full turn *)

Section RootsOfUnity.
Local Open Scope R_scope.

Lemma cos_telescope (theta : R) (n : nat) :
  2 * sin (theta / 2) * rsum n (fun r => cos (INR r * theta))
  = sin ((INR n - 1 / 2) * theta) + sin (theta / 2).
Proof.
  induction n as [|n IH].
  - rewrite rsum_0. simpl.
    replace ((0 - 1 / 2) * theta) with (- (theta / 2)) by lra.
    rewrite sin_neg. lra.
  - rewrite rsum_S, Rmult_plus_distr_l, IH, S_INR.
    replace ((INR n + 1 - 1 / 2) * theta) with (INR n * theta + theta / 2)
      by lra.
    replace ((INR n - 1 / 2) * theta) with (INR n * theta - theta / 2) by lra.
    rewrite sin_plus, sin_minus. lra.
Qed.

Lemma sin_telescope (theta : R) (n : nat) :
  2 * sin (theta / 2) * rsum n (fun r => sin (INR r * theta))
  = cos (theta / 2) - cos ((INR n - 1 / 2) * theta).
Proof.
  induction n as [|n IH].
  - rewrite rsum_0. simpl.
    replace ((0 - 1 / 2) * theta) with (- (theta / 2)) by lra.
    rewrite cos_neg. lra.
  - rewrite rsum_S, Rmult_plus_distr_l, IH, S_INR.
    replace ((INR n + 1 - 1 / 2) * theta) with (INR n * theta + theta / 2)
      by lra.
    replace ((INR n - 1 / 2) * theta) with (INR n * theta - theta / 2) by lra.
    rewrite cos_plus, cos_minus. lra.
Qed.

(** The angle [2 pi u / n] for [0 < u < n]. *)
Lemma half_angle_sin_pos (u n : nat) :
  (0 < u < n)%nat -> 0 < sin (2 * PI * INR u / INR n / 2).
Proof.
  intros Hu. assert (0 < INR u) by (apply lt_0_INR; lia).
  assert (INR u < INR n) by (apply lt_INR; lia).
  pose proof PI_RGT_0.
  replace (2 * PI * INR u / INR n / 2) with (PI * (INR u / INR n))
    by (field; lra).
  assert (0 < INR u / INR n < 1).
  { split; [apply Rdiv_lt_0_compat; lra|].
    apply Rmult_lt_reg_r with (INR n); [lra|].
    unfold Rdiv. rewrite Rmult_assoc, Rinv_l by lra. lra. }
  apply sin_gt_0; nra.
Qed.

Lemma full_turn (u n : nat) :
  (0 < n)%nat ->
  (INR n - 1 / 2) * (2 * PI * INR u / INR n)
  = - (2 * PI * INR u / INR n / 2) + 2 * INR u * PI.
Proof.
  intros Hn. assert (0 < INR n) by (apply lt_0_INR; lia). field. lra.
Qed.

Lemma cos_sum_full_turn (u n : nat) :
  (0 < u < n)%nat ->
  rsum n (fun r => cos (INR r * (2 * PI * INR u / INR n))) = 0.
Proof.
  intros Hu. pose proof (half_angle_sin_pos u n Hu) as Hs.
  pose proof (cos_telescope (2 * PI * INR u / INR n) n) as Ht.
  rewrite full_turn, sin_period, sin_neg in Ht by lia. nra.
Qed.

Lemma sin_sum_full_turn (u n : nat) :
  (0 < u < n)%nat ->
  rsum n (fun r => sin (INR r * (2 * PI * INR u / INR n))) = 0.
Proof.
  intros Hu. pose proof (half_angle_sin_pos u n Hu) as Hs.
  pose proof (sin_telescope (2 * PI * INR u / INR n) n) as Ht.
  rewrite full_turn, cos_period, cos_neg in Ht by lia. nra.
Qed.

(** The same with [u = 0] allowed: the sum of the cosines is [n] or 0, the
    sum of the sines is 0. *)
Lemma cos_sum_turn (u n : nat) :
  (u < n)%nat ->
  rsum n (fun r => cos (INR r * (2 * PI * INR u / INR n)))
  = if decide (u = 0%nat) then INR n else 0.
Proof.
  intros Hu. case_decide as H0.
  - subst u. rewrite (rsum_ext n _ (fun _ => 1)); [rewrite rsum_const; lra|].
    intros r _. simpl.
    replace (INR r * (2 * PI * 0 / INR n)) with 0
      by (unfold Rdiv; ring).
    apply cos_0.
  - apply cos_sum_full_turn. lia.
Qed.

Lemma sin_sum_turn (u n : nat) :
  (u < n)%nat ->
  rsum n (fun r => sin (INR r * (2 * PI * INR u / INR n))) = 0.
Proof.
  intros Hu. destruct (decide (u = 0%nat)) as [->|H0].
  - apply rsum_zero. intros r _. simpl.
    replace (INR r * (2 * PI * 0 / INR n)) with 0
      by (unfold Rdiv; ring).
    apply sin_0.
  - apply sin_sum_full_turn. lia.
Qed.

End RootsOfUnity.

(** ** Arrays given cell by cell *)

Lemma zip_with_fmap_seq {A B C} (op : A -> B -> C) (f : nat -> A) (g : nat -> B)
    (s n : nat) :
  zip_with op (f <$> seq s n) (g <$> seq s n)
  = (fun i => op (f i) (g i)) <$> seq s n.
Proof.
  revert s. induction n as [|n IH]; intros s; [reflexivity|].
  simpl. rewrite IH. reflexivity.
Qed.

Lemma imap_fmap_seq {A B} (F : nat -> A -> B) (g : nat -> A) (n : nat) :
  imap F (g <$> seq 0 n) = (fun i => F i (g i)) <$> seq 0 n.
Proof.
  apply list_eq. intros i. rewrite list_lookup_imap, !list_lookup_fmap.
  destruct (seq 0 n !! i) as [k|] eqn:Hk; [|reflexivity].
  apply lookup_seq in Hk as [-> _]. reflexivity.
Qed.

Lemma rotate_fmap_seq {A} (k n : nat) (g : nat -> A) :
  rotate k (g <$> seq 0 n) = (fun i => g (rotate_nat_add k i n)) <$> seq 0 n.
Proof.
  apply list_eq. intros i. destruct (decide (i < n)) as [Hi|Hi].
  - rewrite lookup_rotate_r by (rewrite length_fmap, length_seq; exact Hi).
    rewrite length_fmap, length_seq, !list_lookup_fmap.
    rewrite (lookup_seq_lt 0 n i Hi). simpl.
    rewrite lookup_seq_lt; [reflexivity|].
    apply rotate_nat_add_lt. lia.
  - rewrite !lookup_ge_None_2; [reflexivity | |].
    + rewrite length_fmap, length_seq. lia.
    + rewrite length_rotate, length_fmap, length_seq. lia.
Qed.

Section Tabulate.
Context {A B C : Type}.

Lemma length_tabulate (rows cols : nat) (f : nat -> nat -> A) :
  length (tabulate rows cols f) = rows.
Proof. unfold tabulate. rewrite length_fmap, length_seq. reflexivity. Qed.

Lemma shape1_tabulate (rows cols : nat) (f : nat -> nat -> A) :
  0 < rows -> shape1 (tabulate rows cols f) = cols.
Proof.
  intros Hr. unfold tabulate. destruct rows as [|rows]; [lia|]. simpl.
  rewrite length_fmap, length_seq. reflexivity.
Qed.

Lemma tabulate_ext (rows cols : nat) (f g : nat -> nat -> A) :
  (forall r c, r < rows -> c < cols -> f r c = g r c) ->
  tabulate rows cols f = tabulate rows cols g.
Proof.
  intros Hfg. unfold tabulate. apply list_fmap_ext.
  intros i r Hr%lookup_seq. apply list_fmap_ext.
  intros j c Hc%lookup_seq. apply Hfg; lia.
Qed.

Lemma fmap_tabulate (rows cols : nat) (f : nat -> nat -> A) (g : A -> B) :
  (fun row : list A => g <$> row) <$> tabulate rows cols f
  = tabulate rows cols (fun r c => g (f r c)).
Proof.
  unfold tabulate. rewrite <- list_fmap_compose. apply list_fmap_ext.
  intros _ r _. simpl. rewrite <- list_fmap_compose. reflexivity.
Qed.

Lemma zip_with_tabulate (rows cols : nat) (op : A -> B -> C)
    (f : nat -> nat -> A) (g : nat -> nat -> B) :
  zip_with (zip_with op) (tabulate rows cols f) (tabulate rows cols g)
  = tabulate rows cols (fun r c => op (f r c) (g r c)).
Proof.
  unfold tabulate. rewrite zip_with_fmap_seq. apply list_fmap_ext.
  intros _ r _. apply zip_with_fmap_seq.
Qed.

Lemma fftshift_tabulate (rows cols : nat) (f : nat -> nat -> A) :
  fftshift (tabulate rows cols f)
  = tabulate rows cols
      (fun r c => f (rotate_nat_add (rows - rows / 2) r rows)
                    (rotate_nat_add (cols - cols / 2) c cols)).
Proof.
  unfold fftshift. rewrite length_tabulate. unfold tabulate.
  rewrite <- list_fmap_compose. rewrite rotate_fmap_seq.
  apply list_fmap_ext. intros _ r _. simpl.
  rewrite length_fmap, length_seq. apply rotate_fmap_seq.
Qed.

Lemma ifftshift_tabulate (rows cols : nat) (f : nat -> nat -> A) :
  ifftshift (tabulate rows cols f)
  = tabulate rows cols
      (fun r c => f (rotate_nat_add (rows / 2) r rows)
                    (rotate_nat_add (cols / 2) c cols)).
Proof.
  unfold ifftshift. rewrite length_tabulate. unfold tabulate.
  rewrite <- list_fmap_compose. rewrite rotate_fmap_seq.
  apply list_fmap_ext. intros _ r _. simpl.
  rewrite length_fmap, length_seq. apply rotate_fmap_seq.
Qed.

End Tabulate.

(** The two shifts undo each other, and the first moves cell [(0, 0)] to
    the centre [(rows / 2, cols / 2)]. *)
Lemma rotate_back (n i : nat) :
  i < n -> rotate_nat_add (n - n / 2) (rotate_nat_add (n / 2) i n) n = i.
Proof.
  intros Hi. unfold rotate_nat_add.
  assert (Hh : n / 2 <= n) by (apply Nat.Div0.div_le_upper_bound; lia).
  rewrite Z2Nat.id by (apply Z.mod_pos_bound; lia).
  rewrite Zplus_mod_idemp_r.
  replace (Z.of_nat (n - n / 2) + (Z.of_nat (n / 2) + Z.of_nat i))%Z
    with (Z.of_nat i + 1 * Z.of_nat n)%Z by lia.
  rewrite Z_mod_plus_full, Z.mod_small by lia. lia.
Qed.

Lemma rotate_centre (n : nat) : 0 < n -> rotate_nat_add (n / 2) 0 n = n / 2.
Proof.
  intros Hn. unfold rotate_nat_add.
  assert (Hh : n / 2 < n) by (apply Nat.div_lt; lia).
  rewrite Z.mod_small by lia. lia.
Qed.

(** A finite array is the table of its values. *)
Lemma finite_matrix_tabulate (rows cols : nat) (a : image) :
  matrix_of (fun x => isfinite x = true) rows cols a ->
  exists p : nat -> nat -> R, a = tabulate rows cols (fun r c => Fin (p r c)).
Proof.
  intros [Hlen Hrows].
  exists (fun r c => match cell2 a r c with Some (Fin x) => x | _ => 0%R end).
  unfold tabulate. apply list_eq. intros r.
  rewrite list_lookup_fmap. destruct (decide (r < rows)) as [Hr|Hr].
  - rewrite (lookup_seq_lt 0 rows r Hr). simpl.
    destruct (lookup_lt_is_Some_2 a r ltac:(lia)) as [row Hrow].
    rewrite Hrow. f_equal. rewrite Forall_forall in Hrows.
    destruct (Hrows row (list_elem_of_lookup_2 _ _ _ Hrow)) as [Hc Hfin].
    apply list_eq. intros c. rewrite list_lookup_fmap.
    destruct (decide (c < cols)) as [Hcl|Hcl].
    + rewrite (lookup_seq_lt 0 cols c Hcl). simpl.
      destruct (lookup_lt_is_Some_2 row c ltac:(lia)) as [x Hx].
      unfold cell2. rewrite Hrow. simpl. rewrite Hx.
      rewrite Forall_forall in Hfin.
      specialize (Hfin x (list_elem_of_lookup_2 _ _ _ Hx)).
      destruct x; try discriminate. reflexivity.
    + rewrite (lookup_ge_None_2 row) by lia.
      rewrite (lookup_ge_None_2 (seq 0 cols)) by (rewrite length_seq; lia).
      reflexivity.
  - rewrite (lookup_ge_None_2 a) by lia.
    rewrite (lookup_ge_None_2 (seq 0 rows)) by (rewrite length_seq; lia).
    reflexivity.
Qed.

(** ** The transform of a finite array *)

Section TransformOfTable.
Local Open Scope R_scope.

Lemma csum_table_app (P Q : nat -> R) (l : list nat) (k : list complex)
    (a b : R) :
  csum k = Complex (Fin a) (Fin b) ->
  csum (((fun i => Complex (Fin (P i)) (Fin (Q i))) <$> l) ++ k)
  = Complex (Fin (foldr Rplus 0 (P <$> l) + a))
            (Fin (foldr Rplus 0 (Q <$> l) + b)).
Proof.
  intros Hk. unfold csum in *. induction l as [|i l IH].
  - simpl. rewrite Hk. f_equal; f_equal; lra.
  - rewrite !fmap_cons. cbn [app foldr]. rewrite IH. unfold cadd. simpl.
    f_equal; f_equal; lra.
Qed.

Lemma csum_table (P Q : nat -> nat -> R) (rows cols : nat) :
  csum (concat (tabulate rows cols
                  (fun r c => Complex (Fin (P r c)) (Fin (Q r c)))))
  = Complex (Fin (rsum rows (fun r => rsum cols (P r))))
            (Fin (rsum rows (fun r => rsum cols (Q r)))).
Proof.
  unfold tabulate, rsum. generalize (seq 0 rows). intros lr.
  induction lr as [|r lr IH]; [reflexivity|].
  rewrite !fmap_cons. cbn [concat foldr].
  rewrite (csum_table_app (P r) (Q r) _ _ _ _ IH). reflexivity.
Qed.

Lemma np_sum_table (p : nat -> nat -> R) (rows cols : nat) :
  np_sum (concat (tabulate rows cols (fun r c => Fin (p r c))))
  = Fin (rsum rows (fun r => rsum cols (p r))).
Proof.
  unfold tabulate, rsum, np_sum. generalize (seq 0 rows). intros lr.
  induction lr as [|r lr IH]; [reflexivity|].
  rewrite !fmap_cons. cbn [concat foldr]. rewrite foldr_app, IH.
  generalize (foldr Rplus 0
                ((fun r0 => foldr Rplus 0 (p r0 <$> seq 0 cols)) <$> lr)).
  intros a. generalize (seq 0 cols). intros lc.
  induction lc as [|c lc IHc].
  - simpl. f_equal. lra.
  - rewrite !fmap_cons. cbn [foldr]. rewrite IHc. simpl. f_equal. lra.
Qed.

(** The discrete Fourier sum of a finite array, cell by cell. *)
Lemma dft2_tabulate (sign : R) (rows cols : nat) (p q : nat -> nat -> R) :
  dft2 sign (tabulate rows cols (fun r c => Complex (Fin (p r c)) (Fin (q r c))))
  = tabulate rows cols (fun u v =>
      Complex
        (Fin (rsum rows (fun r => rsum cols (fun c =>
           p r c * cos (sign * (2 * PI)
                        * (INR u * INR r / INR rows + INR v * INR c / INR cols))
           + - (q r c * sin (sign * (2 * PI)
                        * (INR u * INR r / INR rows
                           + INR v * INR c / INR cols)))))))
        (Fin (rsum rows (fun r => rsum cols (fun c =>
           p r c * sin (sign * (2 * PI)
                        * (INR u * INR r / INR rows + INR v * INR c / INR cols))
           + q r c * cos (sign * (2 * PI)
                        * (INR u * INR r / INR rows
                           + INR v * INR c / INR cols))))))).
Proof.
  unfold dft2. rewrite length_tabulate.
  destruct (decide (0 < rows)%nat) as [Hr|Hr].
  2:{ replace rows with 0%nat by lia. reflexivity. }
  rewrite shape1_tabulate by exact Hr. unfold range.
  change (tabulate rows cols ?f)
    with ((fun r => (fun c => f r c) <$> seq 0 cols) <$> seq 0 rows) at 2.
  apply list_fmap_ext. intros _ u _. apply list_fmap_ext. intros _ v _.
  rewrite <- csum_table. f_equal. f_equal. unfold tabulate.
  rewrite imap_fmap_seq. apply list_fmap_ext. intros _ r _. simpl.
  rewrite imap_fmap_seq. reflexivity.
Qed.

End TransformOfTable.

(** ** Double sums over a full turn *)

Section DoubleSums.
Local Open Scope R_scope.

Lemma rsum_product (n m : nat) (f g : nat -> R) :
  rsum n (fun i => rsum m (fun j => f i * g j)) = rsum n f * rsum m g.
Proof.
  rewrite (rsum_ext n _ (fun i => rsum m g * f i)).
  - rewrite rsum_scale. ring.
  - intros i _. rewrite rsum_scale. ring.
Qed.

Lemma rsum_swap4 (n m n' m' : nat) (f : nat -> nat -> nat -> nat -> R) :
  rsum n (fun x => rsum m (fun y =>
    rsum n' (fun u => rsum m' (fun v => f x y u v))))
  = rsum n' (fun u => rsum m' (fun v =>
      rsum n (fun x => rsum m (fun y => f x y u v)))).
Proof.
  rewrite (rsum_ext n _ (fun x => rsum n' (fun u => rsum m (fun y =>
             rsum m' (fun v => f x y u v))))).
  2:{ intros x _.
      apply (rsum_swap m n' (fun y u => rsum m' (fun v => f x y u v))). }
  rewrite (rsum_swap n n' (fun x u => rsum m (fun y =>
             rsum m' (fun v => f x y u v)))).
  apply rsum_ext. intros u _.
  rewrite (rsum_ext n _ (fun x => rsum m' (fun v => rsum m (fun y =>
             f x y u v)))).
  2:{ intros x _. apply (rsum_swap m m' (fun y v => f x y u v)). }
  apply (rsum_swap n m' (fun x v => rsum m (fun y => f x y u v))).
Qed.

Lemma cos_sum_turn2 (u v rows cols : nat) :
  (u < rows)%nat -> (v < cols)%nat ->
  rsum rows (fun x => rsum cols (fun y =>
    cos (1 * (2 * PI)
         * (INR x * INR u / INR rows + INR y * INR v / INR cols))))
  = if decide (u = 0%nat /\ v = 0%nat) then INR rows * INR cols else 0.
Proof.
  intros Hu Hv.
  set (a := fun x : nat => INR x * (2 * PI * INR u / INR rows)).
  set (b := fun y : nat => INR y * (2 * PI * INR v / INR cols)).
  transitivity
    (rsum rows (fun x => rsum cols (fun y => cos (a x) * cos (b y)))
     + rsum rows (fun x => rsum cols (fun y => - sin (a x) * sin (b y)))).
  { rewrite <- rsum_plus. apply rsum_ext. intros x _.
    rewrite <- rsum_plus. apply rsum_ext. intros y _.
    replace (1 * (2 * PI)
             * (INR x * INR u / INR rows + INR y * INR v / INR cols))
      with (a x + b y) by (unfold a, b, Rdiv; ring).
    rewrite cos_plus. ring. }
  rewrite (rsum_product rows cols (fun x => cos (a x)) (fun y => cos (b y))).
  rewrite (rsum_product rows cols (fun x => - sin (a x))
                        (fun y => sin (b y))).
  unfold a, b.
  rewrite (cos_sum_turn u rows Hu), (cos_sum_turn v cols Hv),
    (sin_sum_turn v cols Hv).
  repeat destruct (decide _); try lia; try tauto; ring.
Qed.

Lemma sin_sum_turn2 (u v rows cols : nat) :
  (u < rows)%nat -> (v < cols)%nat ->
  rsum rows (fun x => rsum cols (fun y =>
    sin (1 * (2 * PI)
         * (INR x * INR u / INR rows + INR y * INR v / INR cols))))
  = 0.
Proof.
  intros Hu Hv.
  set (a := fun x : nat => INR x * (2 * PI * INR u / INR rows)).
  set (b := fun y : nat => INR y * (2 * PI * INR v / INR cols)).
  transitivity
    (rsum rows (fun x => rsum cols (fun y => sin (a x) * cos (b y)))
     + rsum rows (fun x => rsum cols (fun y => cos (a x) * sin (b y)))).
  { rewrite <- rsum_plus. apply rsum_ext. intros x _.
    rewrite <- rsum_plus. apply rsum_ext. intros y _.
    replace (1 * (2 * PI)
             * (INR x * INR u / INR rows + INR y * INR v / INR cols))
      with (a x + b y) by (unfold a, b, Rdiv; ring).
    rewrite sin_plus. ring. }
  rewrite (rsum_product rows cols (fun x => sin (a x)) (fun y => cos (b y))).
  rewrite (rsum_product rows cols (fun x => cos (a x)) (fun y => sin (b y))).
  unfold a, b.
  rewrite (sin_sum_turn u rows Hu), (sin_sum_turn v cols Hv). ring.
Qed.

(** One frequency's share of the sum of all cells of the inverse sum. *)
Lemma turn_term (rows cols : nat) (g h : R) (u v : nat) :
  (u < rows)%nat -> (v < cols)%nat ->
  rsum rows (fun x => rsum cols (fun y =>
    g * cos (1 * (2 * PI)
             * (INR x * INR u / INR rows + INR y * INR v / INR cols))
    + - (h * sin (1 * (2 * PI)
             * (INR x * INR u / INR rows + INR y * INR v / INR cols)))))
  = g * (if decide (u = 0%nat /\ v = 0%nat) then INR rows * INR cols else 0).
Proof.
  intros Hu Hv.
  set (phi := fun x y : nat =>
    1 * (2 * PI) * (INR x * INR u / INR rows + INR y * INR v / INR cols)).
  transitivity
    (g * rsum rows (fun x => rsum cols (fun y => cos (phi x y)))
     + - h * rsum rows (fun x => rsum cols (fun y => sin (phi x y)))).
  { rewrite <- !rsum_scale, <- rsum_plus. apply rsum_ext. intros x _.
    rewrite <- !rsum_scale, <- rsum_plus. apply rsum_ext. intros y _.
    fold (phi x y). ring. }
  unfold phi. rewrite cos_sum_turn2, sin_sum_turn2 by assumption. ring.
Qed.

(** The cells of the inverse sum add up to the zero-frequency cell of its
    argument. *)
Lemma inverse_sum (rows cols : nat) (gr gi : nat -> nat -> R) :
  (0 < rows)%nat -> (0 < cols)%nat ->
  rsum rows (fun x => rsum cols (fun y =>
    rsum rows (fun u => rsum cols (fun v =>
      gr u v * cos (1 * (2 * PI)
                    * (INR x * INR u / INR rows + INR y * INR v / INR cols))
      + - (gi u v * sin (1 * (2 * PI)
                    * (INR x * INR u / INR rows
                       + INR y * INR v / INR cols)))))
    / INR (rows * cols)))
  = gr 0%nat 0%nat.
Proof.
  intros Hr Hc.
  assert (Hnr : INR rows <> 0) by (apply not_0_INR; lia).
  assert (Hnc : INR cols <> 0) by (apply not_0_INR; lia).
  set (T := fun x y u v : nat =>
    gr u v * cos (1 * (2 * PI)
                  * (INR x * INR u / INR rows + INR y * INR v / INR cols))
    + - (gi u v * sin (1 * (2 * PI)
                  * (INR x * INR u / INR rows + INR y * INR v / INR cols)))).
  transitivity
    (/ INR (rows * cols)
     * rsum rows (fun x => rsum cols (fun y =>
         rsum rows (fun u => rsum cols (fun v => T x y u v))))).
  { rewrite <- rsum_scale. apply rsum_ext. intros x _.
    rewrite <- rsum_scale. apply rsum_ext. intros y _.
    unfold T, Rdiv. ring. }
  rewrite (rsum_swap4 rows cols rows cols T).
  rewrite (rsum_ext rows _ (fun u => rsum cols (fun v =>
             gr u v * (if decide (u = 0%nat /\ v = 0%nat)
                       then INR rows * INR cols else 0)))).
  2:{ intros u Hu. apply rsum_ext. intros v Hv.
      apply (turn_term rows cols (gr u v) (gi u v) u v Hu Hv). }
  rewrite (rsum_first rows); [|exact Hr|].
  2:{ intros u Hu. apply rsum_zero. intros v Hv.
      rewrite decide_False by lia. ring. }
  rewrite (rsum_first cols); [|exact Hc|].
  2:{ intros v Hv. rewrite decide_False by lia. ring. }
  rewrite decide_True by (split; reflexivity).
  rewrite mult_INR. field. split; assumption.
Qed.

End DoubleSums.

(** ** The filter on a finite raster, cell by cell *)

Section FilterOfTable.
Local Open Scope R_scope.

Lemma matrix_of_tabulate {A} (P : A -> Prop) (rows cols : nat)
    (f : nat -> nat -> A) :
  (forall r c, (r < rows)%nat -> (c < cols)%nat -> P (f r c)) ->
  matrix_of P rows cols (tabulate rows cols f).
Proof.
  intros Hf. split; [apply length_tabulate|].
  unfold tabulate. apply Forall_fmap, Forall_forall.
  intros r Hr%elem_of_seq. simpl. rewrite length_fmap, length_seq.
  split; [reflexivity|]. apply Forall_fmap, Forall_forall.
  intros c Hc%elem_of_seq. simpl. apply Hf; lia.
Qed.

Lemma cell2_tabulate {A} (rows cols : nat) (f : nat -> nat -> A) (r c : nat) :
  (r < rows)%nat -> (c < cols)%nat ->
  cell2 (tabulate rows cols f) r c = Some (f r c).
Proof.
  intros Hr Hc. unfold cell2, tabulate. rewrite list_lookup_fmap.
  rewrite (lookup_seq_lt 0 rows r Hr). simpl. rewrite list_lookup_fmap.
  rewrite (lookup_seq_lt 0 cols c Hc). reflexivity.
Qed.

(** The transform of a finite raster is finite, and its cell [(0, 0)] is the
    sum of the raster. *)
Lemma fft2_table (rows cols : nat) (p : nat -> nat -> R) :
  exists fr fi : nat -> nat -> R,
    fft2 (tabulate rows cols (fun r c => Fin (p r c)))
    = tabulate rows cols (fun u v => Complex (Fin (fr u v)) (Fin (fi u v)))
    /\ fr 0%nat 0%nat = rsum rows (fun r => rsum cols (p r)).
Proof.
  unfold fft2. rewrite fmap_tabulate. unfold of_real.
  rewrite (dft2_tabulate (-1) rows cols p (fun _ _ => 0)).
  eexists _, _. split; [reflexivity|]. simpl.
  apply rsum_ext. intros r _. apply rsum_ext. intros c _.
  replace (-1 * (2 * PI) * (0 * INR r / INR rows + 0 * INR c / INR cols))
    with 0 by (unfold Rdiv; ring).
  rewrite cos_0. ring.
Qed.

(** The real part of the inverse transform of a finite array, cell by
    cell. *)
Lemma ifft2_real_tabulate (rows cols : nat) (gr gi : nat -> nat -> R) :
  (0 < rows)%nat -> (0 < cols)%nat ->
  real (ifft2 (tabulate rows cols
                 (fun u v => Complex (Fin (gr u v)) (Fin (gi u v)))))
  = tabulate rows cols (fun x y =>
      Fin (rsum rows (fun u => rsum cols (fun v =>
             gr u v * cos (1 * (2 * PI)
                           * (INR x * INR u / INR rows
                              + INR y * INR v / INR cols))
             + - (gi u v * sin (1 * (2 * PI)
                           * (INR x * INR u / INR rows
                              + INR y * INR v / INR cols)))))
           / INR (rows * cols))).
Proof.
  intros Hr Hc.
  assert (Hn : INR (rows * cols) <> 0) by (apply not_0_INR; nia).
  unfold ifft2, real. rewrite length_tabulate, shape1_tabulate by exact Hr.
  rewrite (dft2_tabulate 1 rows cols gr gi), !fmap_tabulate.
  unfold of_real, of_nat. cbn [re im].
  apply tabulate_ext. intros x y _ _. apply (fdiv_Fin _ _ Hn).
Qed.

(** Its cells add up to the real part of cell [(0, 0)] of the array. *)
Lemma ifft2_table (rows cols : nat) (gr gi : nat -> nat -> R) :
  (0 < rows)%nat -> (0 < cols)%nat ->
  exists o : nat -> nat -> R,
    real (ifft2 (tabulate rows cols
                   (fun u v => Complex (Fin (gr u v)) (Fin (gi u v)))))
    = tabulate rows cols (fun x y => Fin (o x y))
    /\ rsum rows (fun x => rsum cols (o x)) = gr 0%nat 0%nat.
Proof.
  intros Hr Hc. rewrite (ifft2_real_tabulate rows cols gr gi Hr Hc).
  eexists (fun x y => _ / INR (rows * cols)). split; [reflexivity|].
  apply (inverse_sum rows cols gr gi Hr Hc).
Qed.

Lemma cmul_real (a b h : R) :
  cmul (Complex (Fin a) (Fin b)) (of_real (Fin h))
  = Complex (Fin (a * h)) (Fin (b * h)).
Proof. unfold cmul, of_real. simpl. f_equal; f_equal; ring. Qed.

(** Nothing is masked in the output when the input has no NaN. *)
Lemma mask_fill_table (rows cols : nat) (o p : nat -> nat -> R) :
  mask_fill (tabulate rows cols (fun r c => Fin (o r c)))
            (isnan2 (tabulate rows cols (fun r c => Fin (p r c)))) NaN
  = Ok (tabulate rows cols (fun r c => Fin (o r c))).
Proof.
  unfold mask_fill, isnan2. rewrite fmap_tabulate. cbn [isnan].
  rewrite decide_True.
  - rewrite zip_with_tabulate. reflexivity.
  - unfold tabulate. rewrite <- !list_fmap_compose. apply list_fmap_ext.
    intros _ r _. simpl. rewrite !length_fmap. reflexivity.
Qed.

(** The distance grid is zero at the centre, where the transfer function
    is one. *)
Lemma slp_dist_centre (rows cols : nat) (sx sy : R) :
  (0 < rows)%nat -> (0 < cols)%nat ->
  cell2 (slp_dist rows cols (Fin sx) (Fin sy)) (rows / 2) (cols / 2)
  = Some (Fin 0).
Proof.
  intros Hr Hc.
  assert (rows / 2 < rows)%nat by (apply Nat.div_lt; lia).
  assert (cols / 2 < cols)%nat by (apply Nat.div_lt; lia).
  unfold slp_dist, range.
  rewrite (cell2_tabulate rows cols
             (fun r c =>
                fdiv (fsqrt (fadd
                  (fpow (fmul (fsub (of_nat c) (of_nat (cols / 2))) (Fin sx)) 2)
                  (fpow (fmul (fsub (of_nat r) (of_nat (rows / 2))) (Fin sy)) 2)))
                  (Fin 1000))) by assumption.
  f_equal. unfold of_nat. simpl.
  match goal with |- context [Rlt_dec ?s 0] =>
    replace s with 0 by ring end.
  destruct (Rlt_dec 0 0) as [Hlt|_]; [lra|].
  rewrite fdiv_Fin by lra. rewrite sqrt_0. f_equal. lra.
Qed.

Lemma gaussian_centre (c : R) : c <> 0 -> gaussian (Fin c) (Fin 0) = Fin 1.
Proof.
  intros Hc. unfold gaussian. simpl.
  destruct (Req_dec_T (2 * (c * (c * 1))) 0) as [Hz|_].
  - exfalso. assert (c * c = 0) as [?|?]%Rmult_integral by lra; contradiction.
  - simpl. f_equal. transitivity (exp 0); [|apply exp_0].
    f_equal. field. exact Hc.
Qed.

Lemma butterworth_centre (order : Z) (c : R) :
  c <> 0 -> (1 <= order)%Z -> butterworth order (Fin c) (Fin 0) = Fin 1.
Proof.
  intros Hc Horder. unfold butterworth. rewrite fdiv_Fin by exact Hc.
  unfold fpow. rewrite (proj2 (Z.leb_le 0 (2 * order))) by lia.
  rewrite fpow_nat_Fin. simpl fadd.
  replace (0 / c) with 0 by (unfold Rdiv; ring).
  rewrite pow_i by lia. rewrite fdiv_Fin by lra. f_equal. lra.
Qed.

Lemma slp_transfer_centre (params : Params) (rows cols : nat) (sx sy c : R) :
  (0 < rows)%nat -> (0 < cols)%nat -> c <> 0 ->
  (SLPF_METHOD params = 1%Z -> (1 <= SLPF_ORDER params)%Z) ->
  cell2 (slp_transfer params (slp_dist rows cols (Fin sx) (Fin sy)) (Fin c))
        (rows / 2) (cols / 2)
  = Some (Fin 1).
Proof.
  intros Hr Hcl Hc Horder.
  pose proof (slp_dist_centre rows cols sx sy Hr Hcl) as Hd.
  unfold cell2 in *. unfold slp_transfer.
  destruct (slp_dist rows cols (Fin sx) (Fin sy) !! (rows / 2)%nat)
    as [row|] eqn:Hrow; [|discriminate]. simpl in Hd.
  destruct (Z.eqb_spec (SLPF_METHOD params) 1) as [Hm|_];
    rewrite list_lookup_fmap, Hrow; simpl; rewrite list_lookup_fmap, Hd; simpl.
  - rewrite butterworth_centre; auto.
  - rewrite gaussian_centre; auto.
Qed.

(** The filter leaves the sum of a finite raster as it is. *)
Lemma _slp_filter_sum (phase : image) (rows cols : nat) (sx sy c : R)
    (params : Params) :
  matrix_of (fun x => isfinite x = true) rows cols phase ->
  (0 < rows)%nat -> (0 < cols)%nat -> c <> 0 ->
  (SLPF_METHOD params = 1%Z -> (1 <= SLPF_ORDER params)%Z) ->
  exists out,
    _slp_filter phase (Fin c) rows cols (Fin sx) (Fin sy) params = Ok out
    /\ matrix_of (fun x => isfinite x = true) rows cols out
    /\ np_sum (concat out) = np_sum (concat phase).
Proof.
  intros Hphase Hr Hcl Hc Horder.
  destruct (finite_matrix_tabulate rows cols phase Hphase) as [p ->].
  assert (Hfin : matrix_of (fun h => isfinite h = true) rows cols
            (slp_transfer params (slp_dist rows cols (Fin sx) (Fin sy))
                          (Fin c)))
    by (apply slp_transfer_finite; [exact Hc | intros Hm; specialize (Horder Hm); lia]).
  destruct (finite_matrix_tabulate rows cols _ Hfin) as [h Hh].
  pose proof (slp_transfer_centre params rows cols sx sy c Hr Hcl Hc Horder)
    as Hcentre.
  assert (rows / 2 < rows)%nat by (apply Nat.div_lt; lia).
  assert (cols / 2 < cols)%nat by (apply Nat.div_lt; lia).
  rewrite Hh, cell2_tabulate in Hcentre by assumption.
  injection Hcentre as Hcentre.
  destruct (fft2_table rows cols p) as (fr & fi & Hfft & Hdc).
  unfold _slp_filter. rewrite Hfft, Hh, fftshift_tabulate.
  rewrite (broadcast2_same_shape rows cols (fun _ => True) (fun _ => True))
    by (apply matrix_of_tabulate; intros; exact I).
  simpl. rewrite zip_with_tabulate, ifftshift_tabulate.
  rewrite (tabulate_ext rows cols _ _
             (fun r c _ _ => cmul_real _ _ _)).
  match goal with |- context [ifft2 (tabulate rows cols
      (fun u v => Complex (Fin (@?gr u v)) (Fin (@?gi u v))))] =>
    destruct (ifft2_table rows cols gr gi Hr Hcl) as (o & Ho & Hsum) end.
  cbv beta in Ho. rewrite Ho, mask_fill_table.
  eexists. split; [reflexivity|]. split.
  - apply matrix_of_tabulate. reflexivity.
  - rewrite !np_sum_table. f_equal. rewrite Hsum.
    rewrite !rotate_back, !rotate_centre by lia.
    replace (h (rows / 2)%nat (cols / 2)%nat) with 1
      by (symmetry; exact Hcentre).
    rewrite Hdc. ring.
Qed.

End FilterOfTable.

(** ** The filter on a uniform raster *)

Section UniformRaster.
Local Open Scope R_scope.

Lemma replicate_tabulate {A} (rows cols : nat) (x : A) :
  replicate rows (replicate cols x) = tabulate rows cols (fun _ _ => x).
Proof.
  assert (Hrep : forall (B : Type) (y : B) (s m : nat),
            (fun _ => y) <$> seq s m = replicate m y).
  { intros B y s m. revert s. induction m as [|m IH]; intros s;
      [reflexivity|]. simpl. rewrite IH. reflexivity. }
  unfold tabulate. rewrite !Hrep. reflexivity.
Qed.

(** The transform of a uniform raster is zero away from cell [(0, 0)]. *)
Lemma fft2_uniform (rows cols : nat) (k : R) :
  exists fr fi : nat -> nat -> R,
    fft2 (tabulate rows cols (fun _ _ => Fin k))
    = tabulate rows cols (fun u v => Complex (Fin (fr u v)) (Fin (fi u v)))
    /\ forall u v, (u < rows)%nat -> (v < cols)%nat ->
         fr u v = k * (if decide (u = 0%nat /\ v = 0%nat)
                       then INR rows * INR cols else 0)
         /\ fi u v = 0.
Proof.
  unfold fft2. rewrite fmap_tabulate. unfold of_real.
  rewrite (dft2_tabulate (-1) rows cols (fun _ _ => k) (fun _ _ => 0)).
  eexists _, _. split; [reflexivity|]. intros u v Hu Hv. cbv beta.
  assert (Hangle : forall r c : nat,
    -1 * (2 * PI) * (INR u * INR r / INR rows + INR v * INR c / INR cols)
    = - (1 * (2 * PI)
         * (INR r * INR u / INR rows + INR c * INR v / INR cols)))
    by (intros r c; unfold Rdiv; ring).
  split.
  - rewrite <- (turn_term rows cols k 0 u v Hu Hv).
    apply rsum_ext. intros r _. apply rsum_ext. intros c _.
    rewrite Hangle, cos_neg. ring.
  - transitivity
      (- k * rsum rows (fun r => rsum cols (fun c =>
          sin (1 * (2 * PI)
               * (INR r * INR u / INR rows + INR c * INR v / INR cols))))).
    + rewrite <- rsum_scale. apply rsum_ext. intros r _.
      rewrite <- rsum_scale. apply rsum_ext. intros c _.
      rewrite Hangle, sin_neg. ring.
    + rewrite sin_sum_turn2 by assumption. ring.
Qed.

(** X25. In the exact arithmetic of the model [_slp_filter] returns a uniform
    raster as it is: with a finite non-zero cutoff, finite cell sizes and a
    Butterworth order of at least one (or the Gaussian window), a raster of
    at least one cell that holds the same finite value everywhere comes
    back unchanged. *)
Theorem uniform_raster_passes_the_filter (rows cols : nat) (k sx sy c : R)
    (params : Params) :
  (0 < rows)%nat -> (0 < cols)%nat -> c <> 0 ->
  (SLPF_METHOD params = 1%Z -> (1 <= SLPF_ORDER params)%Z) ->
  _slp_filter (replicate rows (replicate cols (Fin k))) (Fin c) rows cols
              (Fin sx) (Fin sy) params
  = Ok (replicate rows (replicate cols (Fin k))).
Proof.
  intros Hr Hcl Hc Horder. rewrite replicate_tabulate.
  assert (Hfin : matrix_of (fun h => isfinite h = true) rows cols
            (slp_transfer params (slp_dist rows cols (Fin sx) (Fin sy))
                          (Fin c))).
  { apply slp_transfer_finite; [exact Hc|].
    intros Hm. specialize (Horder Hm). lia. }
  destruct (finite_matrix_tabulate rows cols _ Hfin) as [h Hh].
  pose proof (slp_transfer_centre params rows cols sx sy c Hr Hcl Hc Horder)
    as Hcentre.
  assert (rows / 2 < rows)%nat by (apply Nat.div_lt; lia).
  assert (cols / 2 < cols)%nat by (apply Nat.div_lt; lia).
  rewrite Hh, cell2_tabulate in Hcentre by assumption.
  injection Hcentre as Hcentre.
  destruct (fft2_uniform rows cols k) as (fr & fi & Hfft & Hcells).
  unfold _slp_filter. rewrite Hfft, Hh, fftshift_tabulate.
  rewrite (broadcast2_same_shape rows cols (fun _ => True) (fun _ => True))
    by (apply matrix_of_tabulate; intros; exact I).
  simpl. rewrite zip_with_tabulate, ifftshift_tabulate.
  set (g := fun u v : nat =>
    if decide (u = 0%nat /\ v = 0%nat) then k * (INR rows * INR cols) else 0).
  rewrite (tabulate_ext rows cols _
             (fun u v => Complex (Fin (g u v)) (Fin 0))).
  2:{ intros u v Hu Hv. rewrite cmul_real, !rotate_back by assumption.
      destruct (Hcells u v Hu Hv) as [-> ->]. unfold g.
      destruct (decide (u = 0%nat /\ v = 0%nat)) as [[-> ->]|_].
      - rewrite !rotate_centre by assumption.
        replace (h (rows / 2)%nat (cols / 2)%nat) with 1
          by (symmetry; exact Hcentre).
        f_equal; f_equal; ring.
      - f_equal; f_equal; ring. }
  rewrite (ifft2_real_tabulate rows cols g (fun _ _ => 0) Hr Hcl).
  rewrite (tabulate_ext rows cols _ (fun _ _ => Fin k)).
  - apply (mask_fill_table rows cols (fun _ _ => k) (fun _ _ => k)).
  - intros x y _ _. f_equal.
    assert (Hnr : INR rows <> 0) by (apply not_0_INR; lia).
    assert (Hnc : INR cols <> 0) by (apply not_0_INR; lia).
    rewrite (rsum_first rows); [|exact Hr|].
    2:{ intros u Hu. apply rsum_zero. intros v Hv. unfold g.
        rewrite decide_False by lia. ring. }
    rewrite (rsum_first cols); [|exact Hcl|].
    2:{ intros v Hv. unfold g. rewrite decide_False by lia. ring. }
    unfold g. rewrite decide_True by (split; reflexivity).
    replace (1 * (2 * PI)
             * (INR x * INR 0 / INR rows + INR y * INR 0 / INR cols))
      with 0 by (simpl; unfold Rdiv; ring).
    rewrite cos_0, sin_0, mult_INR. field. split; assumption.
Qed.

Lemma uniform_raster_passes_the_filter_witness :
  _slp_filter (replicate 2 (replicate 3 (Fin 5))) (Fin 1) 2 3
              (Fin 1) (Fin 1) (sample_params 3 (Fin 1) 2)
  = Ok (replicate 2 (replicate 3 (Fin 5))).
Proof.
  apply (uniform_raster_passes_the_filter 2 3 5 1 1 1
           (sample_params 3 (Fin 1) 2)).
  - lia.
  - lia.
  - lra.
  - discriminate.
Defined.

End UniformRaster.

Lemma zero_fill_finite (rows cols : nat) (a : image) :
  has_shape2 rows cols a ->
  Forall (Forall (fun x => isfinite x = true \/ x = NaN)) a ->
  matrix_of (fun x => isfinite x = true) rows cols (zero_fill a).
Proof.
  intros Hshape Hcells. apply has_shape2_matrix_of.
  - eapply same_rows_has_shape2; [apply zero_fill_shape | exact Hshape].
  - unfold zero_fill. apply Forall_fmap.
    eapply Forall_impl; [exact Hcells|]. intros row Hrow. simpl.
    apply Forall_fmap. eapply Forall_impl; [exact Hrow|].
    intros x [Hx| ->]; [|reflexivity]. simpl.
    destruct x; try discriminate. reflexivity.
Qed.

(** X26. In the exact arithmetic of the model the spatial filter has gain one
    at frequency zero: with the zero fill ([SLPF_NANFILL] 0), a finite
    non-zero cutoff, a reference interferogram of the raster shape of the
    cube with finite cell sizes, and a Butterworth order of at least one
    (or the Gaussian window), the filter returns on every cube with at
    least one pixel whose cells are finite or NaN, and at every epoch the
    cells of the filtered slice add up to what the cells of the zero-filled
    input slice add up to. *)
Theorem spatial_filter_keeps_slice_sums `{Collaborators}
    (ts_lp : cube) (ifg : Ifg) (params : Params) (rows cols n : nat)
    (sx sy c : R) (t : nat) :
  has_shape rows cols n ts_lp ->
  cells_of (fun x => isfinite x = true \/ x = NaN) ts_lp ->
  shape ifg = (rows, cols) -> x_size ifg = Fin sx -> y_size ifg = Fin sy ->
  SLPF_NANFILL params = 0%Z ->
  SLPF_CUTOFF params = Fin c -> c <> 0%R ->
  (SLPF_METHOD params = 1%Z -> (1 <= SLPF_ORDER params)%Z) ->
  0 < rows -> 0 < cols -> t < n ->
  exists out phase res,
    spatial_low_pass_filter ts_lp ifg params = Ok out
    /\ epoch_slice ts_lp t = Ok phase
    /\ epoch_slice out t = Ok res
    /\ np_sum (concat res) = np_sum (concat (zero_fill phase)).
Proof.
  intros Hshape Hcells Hifg Hsx Hsy Hfill Hcut Hc Horder Hr Hcl Ht.
  assert (Hex : exists out, spatial_low_pass_filter ts_lp ifg params = Ok out).
  { assert (Hord0 : SLPF_METHOD params = 1%Z -> (0 <= SLPF_ORDER params)%Z)
      by (intros Hm; specialize (Horder Hm); lia).
    destruct (spatial_low_pass_filter_closed
                (fun x => isfinite x = true)
                (fun z => isfinite (re z) = true /\ isfinite (im z) = true))
      with (ts_lp := ts_lp) (ifg := ifg) (params := params) (rows := rows)
           (cols := cols) (n := n) (sx := sx) (sy := sy) (c := c)
      as (out & Hout & _); try assumption.
    - intros [a| | |]; simpl; congruence.
    - intros x Hx. split; [exact Hx | reflexivity].
    - split; reflexivity.
    - apply finite_cadd.
    - intros z theta Hz. apply finite_cmul; [exact Hz | split; reflexivity].
    - intros z h Hz Hh.
      apply finite_cmul; [exact Hz | split; [exact Hh | reflexivity]].
    - intros z k [Hz _] Hk. apply finite_quotient; assumption.
    - unfold cells_of in *. eapply Forall_impl; [exact Hcells|].
      intros row Hrow. eapply Forall_impl; [exact Hrow|].
      intros v Hv. eapply Forall_impl; [exact Hv|].
      intros x [Hx| ->]; [|reflexivity].
      destruct x; try discriminate. reflexivity.
    - exists out. exact Hout. }
  destruct Hex as [out Hrun]. pose proof Hrun as Hloop.
  unfold spatial_low_pass_filter in Hloop. rewrite Hfill in Hloop.
  simpl in Hloop.
  set (filled := (fun row : list vec => zero_fill row) <$> ts_lp) in *.
  assert (Hfs : has_shape rows cols n filled)
    by (apply zero_fill_cube_shape; exact Hshape).
  destruct (slice_loop rows cols n
              (fun phase => _slpfilter phase ifg (RDist ifg) params)
              ltac:(intros a a' Ha HF; eapply same_rows_has_shape2;
                    [eapply _slpfilter_rows; exact HF | exact Ha])
              (range (shape2 filled)) filled out
              ltac:(unfold range; apply NoDup_seq)
              ltac:(intros k Hk%range_elem;
                    eapply has_shape_shape2; eassumption)
              Hfs Hloop) as (_ & Hin & _).
  destruct (epoch_slice_has_shape rows cols n ts_lp t Hshape Ht)
    as (phase & Hphase & Hps).
  destruct (Hin t) as (a & Ha & Hout).
  { apply range_elem. unfold filled. rewrite zero_fill_cube_shape2.
    rewrite (has_shape_shape2_eq rows cols n ts_lp Hshape) by lia.
    exact Ht. }
  unfold filled in Ha. rewrite (epoch_slice_zero_fill _ _ _ Hphase) in Ha.
  injection Ha as <-.
  pose proof (zero_fill_finite rows cols phase Hps
                (epoch_slice_cells _ ts_lp t phase Hphase Hcells)) as Hm.
  unfold _slpfilter in Hout.
  destruct (all_nan (zero_fill phase)).
  { exists out, phase, (zero_fill phase). auto. }
  rewrite Hcut, Hifg, Hsx, Hsy in Hout. simpl in Hout.
  destruct (Req_dec_T c 0) as [Hz|_]; [contradiction|]. simpl in Hout.
  destruct (_slp_filter_sum (zero_fill phase) rows cols sx sy c params
              Hm Hr Hcl Hc Horder) as (res & Hres & _ & Hsum).
  rewrite Hres in Hout. exists out, phase, res. auto.
Qed.

Lemma spatial_filter_keeps_slice_sums_witness :
  exists out phase res,
    @spatial_low_pass_filter sample_collaborators
      [[[NaN; Fin 1]; [Fin 2; NaN]]] (sample_ifg 1 2)
      (sample_params 3 (Fin 1) 2) = Ok out
    /\ epoch_slice [[[NaN; Fin 1]; [Fin 2; NaN]]] 0 = Ok phase
    /\ epoch_slice out 0 = Ok res
    /\ np_sum (concat res) = np_sum (concat (zero_fill phase)).
Proof.
  apply (@spatial_filter_keeps_slice_sums sample_collaborators
           [[[NaN; Fin 1]; [Fin 2; NaN]]] (sample_ifg 1 2)
           (sample_params 3 (Fin 1) 2) 1 2 2 1 1 1 0).
  - repeat constructor.
  - unfold cells_of.
    repeat match goal with
      | |- Forall _ _ => constructor
      | |- _ \/ _ => first [left; reflexivity | right; reflexivity]
      end.
  - reflexivity.
  - reflexivity.
  - reflexivity.
  - reflexivity.
  - reflexivity.
  - lra.
  - discriminate.
  - lia.
  - lia.
  - lia.
Defined.

(** * The phase that every interferogram receives *)

Lemma sum_epochs_shape (tsincr : cube) (a b : nat) :
  (fun row : vec => length row) <$> sum_epochs tsincr a b
  = (fun row : list vec => length row) <$> tsincr.
Proof.
  unfold sum_epochs. rewrite <- list_fmap_compose. apply list_fmap_ext.
  intros _ row _. simpl. apply length_fmap.
Qed.

(** A save on a file that is there, with a phase of the shape of the
    file's, returns. *)
Lemma _save_aps_corrected_phase_returns ifg_path phase w f :
  rasters w !! ifg_path = Some f ->
  (fun row : vec => length row) <$> phase_data f
    = (fun row : vec => length row) <$> phase ->
  exists data w',
    _save_aps_corrected_phase ifg_path phase w = Ok w'
    /\ overwrite_valid (phase_data f) phase = Ok data
    /\ rasters w'
       = <[ifg_path := {| path := ifg_path; shape := shape f;
                          x_size := x_size f; y_size := y_size f;
                          phase_data := data;
                          meta_data := <[PYRATE_APS_ERROR := APS_REMOVED]>
                                         (meta_data f) |}]> (rasters w).
Proof.
  intros Hf Hshape.
  destruct (overwrite_valid (phase_data f) phase) as [data|e] eqn:Hdata.
  2:{ unfold overwrite_valid in Hdata.
      rewrite decide_True in Hdata by exact Hshape. discriminate. }
  exists data. eexists. split_and!; [|reflexivity|].
  - unfold _save_aps_corrected_phase, Ifg_open. rewrite Hf. simpl.
    rewrite Hdata. simpl. reflexivity.
  - reflexivity.
Qed.

(** The loop of [_ts_to_ifgs] over entries with files of their own: it
    returns, and the file of every entry ends with the phase that its own
    save gave it. *)
Lemma ts_to_ifg_loop (tsincr : cube) (index_master index_slave : list nat)
    (entries : list (nat * PrereadIfg)) (w : World) :
  NoDup ((fun entry : nat * PrereadIfg => preread_path entry.2) <$> entries) ->
  (forall entry, entry ∈ entries ->
     exists a b f,
       index_master !! entry.1 = Some a /\ index_slave !! entry.1 = Some b
       /\ rasters w !! preread_path entry.2 = Some f
       /\ (fun row : vec => length row) <$> phase_data f
          = (fun row : list vec => length row) <$> tsincr) ->
  exists w',
    for_each entries (ts_to_ifg tsincr index_master index_slave) w = Ok w'
    /\ forall entry, entry ∈ entries ->
         exists a b f data f',
           index_master !! entry.1 = Some a
           /\ index_slave !! entry.1 = Some b
           /\ rasters w !! preread_path entry.2 = Some f
           /\ overwrite_valid (phase_data f) (sum_epochs tsincr a b) = Ok data
           /\ rasters w' !! preread_path entry.2 = Some f'
           /\ phase_data f' = data.
Proof.
  revert w. induction entries as [|entry entries IH]; intros w Hnd Hall.
  - exists w. split; [reflexivity|]. intros entry Hentry. inversion Hentry.
  - rewrite fmap_cons in Hnd. apply NoDup_cons in Hnd as [Hnotin Hnd].
    destruct (Hall entry ltac:(apply elem_of_cons; auto))
      as (a & b & f & Ha & Hb & Hf & Hshape).
    destruct (_save_aps_corrected_phase_returns (preread_path entry.2)
                (sum_epochs tsincr a b) w f Hf
                ltac:(rewrite sum_epochs_shape; exact Hshape))
      as (data & w1 & Hsave & Hdata & Hw1).
    assert (Hother : forall entry', entry' ∈ entries ->
              rasters w1 !! preread_path entry'.2
              = rasters w !! preread_path entry'.2).
    { intros entry' Hin. rewrite Hw1. apply lookup_insert_ne.
      intros Heq. apply Hnotin. rewrite Heq.
      apply list_elem_of_fmap. exists entry'. auto. }
    destruct (IH w1 Hnd) as (w' & Hrun & Hrest).
    { intros entry' Hin.
      destruct (Hall entry' ltac:(apply elem_of_cons; auto))
        as (a' & b' & f' & Ha' & Hb' & Hf' & Hshape').
      exists a', b', f'. rewrite Hother by exact Hin. auto. }
    exists w'. split.
    + assert (Hstep : ts_to_ifg tsincr index_master index_slave entry w
                      = Ok w1).
      { unfold ts_to_ifg, getitem. rewrite Ha, Hb. simpl. exact Hsave. }
      cbn [for_each]. rewrite Hstep. simpl. exact Hrun.
    + intros entry' [->|Hin]%elem_of_cons.
      * exists a, b, f, data. eexists. split_and!; try eassumption.
        -- destruct (ts_to_ifg_frame _ _ _ _ _ _ Hrun) as (_ & Hframe & _).
           rewrite Hframe.
           ++ rewrite Hw1. apply lookup_insert_eq.
           ++ intros entry' Hin Heq. apply Hnotin. rewrite <- Heq.
              apply list_elem_of_fmap. exists entry'. auto.
        -- reflexivity.
      * destruct (Hrest entry' Hin)
          as (a' & b' & f' & data' & f'' & Ha' & Hb' & Hf' & Hd' & Hf'' & Hp).
        exists a', b', f', data', f''. rewrite <- Hother by exact Hin.
        auto 10.
Qed.

(** C2. When every interferogram of [preread_ifgs] has a file of its own,
    of the raster shape of the cube, and [get_epochs] gives a master and a
    slave index for each of them, [_ts_to_ifgs] returns; it saves the
    interferograms in the order of their keys; and the one at position [i]
    of that order ends with a phase that, at every pixel that was not NaN
    in its file, is the sum ([np.sum]) of the increments of the cube at the
    epoch indices [master_index], ..., [slave_index - 1] (those of them
    that the cube has), where [master_index] is [n[i]] and [slave_index] is
    [n[len + i]]; a pixel that was NaN in the file stays NaN. *)
Theorem ts_to_ifgs_sums_half_open_range `{Collaborators}
    (tsincr : cube) (preread_ifgs : list (string * PrereadIfg)) (w : World) :
  let ifgs := sorted_values preread_ifgs in
  let n := (get_epochs ifgs).2 in
  NoDup (preread_path <$> ifgs) ->
  2 * length ifgs <= length n ->
  (forall ifg, ifg ∈ ifgs ->
     exists f, rasters w !! preread_path ifg = Some f
               /\ (fun row : vec => length row) <$> phase_data f
                  = (fun row : list vec => length row) <$> tsincr) ->
  exists entries w',
    Sorted key_le entries /\ entries ≡ₚ preread_ifgs
    /\ ifgs = snd <$> entries
    /\ _ts_to_ifgs tsincr preread_ifgs w = Ok w'
    /\ trace w'
       = trace w ++ concat ((fun ifg => save_calls (preread_path ifg))
                              <$> ifgs)
    /\ forall i ifg, ifgs !! i = Some ifg ->
         exists master_index slave_index f f',
           n !! i = Some master_index
           /\ n !! (length ifgs + i) = Some slave_index
           /\ rasters w !! preread_path ifg = Some f
           /\ rasters w' !! preread_path ifg = Some f'
           /\ forall r c old,
                cell2 (phase_data f) r c = Some old ->
                exists v increments,
                  pixel tsincr r c = Ok v
                  /\ Forall2 (fun k x => v !! k = Some x)
                       (seq master_index
                            (slave_index `min` length v - master_index))
                       increments
                  /\ cell2 (phase_data f') r c
                     = Some (if isnan old then NaN else np_sum increments).
Proof.
  intros ifgs n Hnd Hn Hfiles.
  set (index_master := take (length ifgs) n).
  set (index_slave := drop (length ifgs) n).
  destruct (ts_to_ifg_loop tsincr index_master index_slave (enumerate ifgs) w)
    as (w' & Hrun & Hsaved).
  { replace ((fun entry : nat * PrereadIfg => preread_path entry.2)
               <$> enumerate ifgs)
      with (preread_path <$> ifgs); [exact Hnd|].
    rewrite <- (enumerate_snd ifgs) at 1. rewrite <- list_fmap_compose.
    reflexivity. }
  { intros entry Hentry. unfold enumerate in Hentry.
    apply elem_of_lookup_imap_1 in Hentry as (i & ifg & -> & Hi).
    pose proof (lookup_lt_Some _ _ _ Hi) as Hlt.
    destruct (lookup_lt_is_Some_2 n i ltac:(lia)) as [a Ha].
    destruct (lookup_lt_is_Some_2 n (length ifgs + i) ltac:(lia)) as [b Hb].
    destruct (Hfiles ifg (list_elem_of_lookup_2 _ _ _ Hi)) as (f & Hf & Hs).
    exists a, b, f. simpl. split_and!; [| |exact Hf|exact Hs].
    - unfold index_master. rewrite lookup_take_lt by exact Hlt. exact Ha.
    - unfold index_slave. rewrite lookup_drop. exact Hb. }
  exists (merge_sort key_le preread_ifgs), w'. split_and!.
  - apply Sorted_merge_sort, key_le_total.
  - apply merge_sort_Permutation.
  - reflexivity.
  - exact Hrun.
  - rewrite (ts_to_ifg_trace _ _ _ _ _ _ Hrun), save_calls_enumerate.
    reflexivity.
  - intros i ifg Hi.
    destruct (Hsaved (i, ifg))
      as (a & b & f & data & f' & Ha & Hb & Hf & Hdata & Hf' & Hphase).
    { unfold enumerate. apply elem_of_lookup_imap. eauto. }
    simpl in *. pose proof (lookup_lt_Some _ _ _ Hi) as Hlt.
    unfold index_master in Ha. rewrite lookup_take_lt in Ha by exact Hlt.
    unfold index_slave in Hb. rewrite lookup_drop in Hb.
    exists a, b, f, f'. split_and!; try assumption.
    intros r c old Hold.
    destruct (Hfiles ifg (list_elem_of_lookup_2 _ _ _ Hi)) as (f0 & Hf0 & Hs).
    assert (f0 = f) as -> by congruence.
    destruct (same_shape_cell2 _ _ r c old Hs Hold) as [v Hv].
    assert (Hpix : pixel tsincr r c = Ok v).
    { apply pixel_Ok. unfold cell2 in Hv.
      destruct (tsincr !! r) as [row|]; [|discriminate]. eauto. }
    exists v, (take (b - a) (drop a v)). split_and!.
    + exact Hpix.
    + apply slice_cells.
    + rewrite Hphase.
      rewrite (overwrite_valid_cell _ _ _ r c old
                 (np_sum (take (b - a) (drop a v))) Hdata Hold).
      * destruct old; reflexivity.
      * rewrite sum_epochs_cell. unfold cell2 in Hv. rewrite Hv. reflexivity.
Qed.

Lemma ts_to_ifgs_sums_half_open_range_witness :
  let tsincr := [[[Fin 1; Fin 3]; [Fin 1; Fin 3]]] in
  let ifgs := sorted_values sample_preread in
  let n := (@get_epochs sample_collaborators ifgs).2 in
  exists entries w',
    Sorted key_le entries /\ entries ≡ₚ sample_preread
    /\ ifgs = snd <$> entries
    /\ @_ts_to_ifgs sample_collaborators tsincr sample_preread sample_world
       = Ok w'
    /\ trace w'
       = trace sample_world
         ++ concat ((fun ifg => save_calls (preread_path ifg)) <$> ifgs)
    /\ forall i ifg, ifgs !! i = Some ifg ->
         exists master_index slave_index f f',
           n !! i = Some master_index
           /\ n !! (length ifgs + i) = Some slave_index
           /\ rasters sample_world !! preread_path ifg = Some f
           /\ rasters w' !! preread_path ifg = Some f'
           /\ forall r c old,
                cell2 (phase_data f) r c = Some old ->
                exists v increments,
                  pixel tsincr r c = Ok v
                  /\ Forall2 (fun k x => v !! k = Some x)
                       (seq master_index
                            (slave_index `min` length v - master_index))
                       increments
                  /\ cell2 (phase_data f') r c
                     = Some (if isnan old then NaN else np_sum increments).
Proof.
  apply (@ts_to_ifgs_sums_half_open_range sample_collaborators
           [[[Fin 1; Fin 3]; [Fin 1; Fin 3]]] sample_preread sample_world).
  - vm_compute. apply NoDup_cons. split; [|apply NoDup_singleton].
    intros Hin%list_elem_of_singleton. discriminate Hin.
  - vm_compute. lia.
  - intros ifg Hifg.
    assert (Hs : sorted_values sample_preread
                 = [{| preread_path := "ifg_a.tif"; master := 0;
                       slave := 730; preread_shape := (1, 2) |};
                    {| preread_path := "ifg_b.tif"; master := 365;
                       slave := 730; preread_shape := (1, 2) |}])
      by (vm_compute; reflexivity).
    rewrite Hs in Hifg.
    apply elem_of_cons in Hifg as [->|Hifg%list_elem_of_singleton];
      [|subst ifg]; eexists; (split; reflexivity).
Defined.

(** * The assembly cannot see the broadcast count *)

Lemma for_each_app {I St} (body : I -> St -> result St) (l1 l2 : list I) s :
  for_each (l1 ++ l2) body s = for_each l1 body s ≫= for_each l2 body.
Proof.
  revert s. induction l1 as [|x l1 IH]; intros s; [reflexivity|].
  cbn [app for_each]. destruct (body x s) as [s1|e]; [|reflexivity].
  simpl. apply IH.
Qed.

(** A loop whose steps commute with a map of the state. *)
Lemma for_each_simulation {I St St'} (phi : St -> St')
    (body : I -> St -> result St) (body' : I -> St' -> result St')
    (l : list I) (s s' : St) :
  (forall x t t', x ∈ l -> body x t = Ok t' -> body' x (phi t) = Ok (phi t')) ->
  for_each l body s = Ok s' ->
  for_each l body' (phi s) = Ok (phi s').
Proof.
  revert s. induction l as [|x l IH]; intros s Hstep Hrun.
  - simpl in *. injection Hrun as <-. reflexivity.
  - cbn [for_each] in *. apply bind_Ok in Hrun as (s1 & Hbody & Hrun).
    rewrite (Hstep x s s1 ltac:(apply elem_of_cons; auto) Hbody). simpl.
    apply IH; [|exact Hrun].
    intros y t t' Hy. apply Hstep. apply elem_of_cons. auto.
Qed.

Section FirstEpochs.
Context (n : nat).

Lemma first_epochs_shape0 (c : cube) : shape0 (first_epochs n c) = shape0 c.
Proof. unfold shape0, first_epochs. apply length_fmap. Qed.

Lemma first_epochs_shape1 (c : cube) : shape1 (first_epochs n c) = shape1 c.
Proof.
  destruct c as [|row c]; [reflexivity|]. simpl. apply length_fmap.
Qed.

(** An epoch below [n] is read from the first [n] epochs as from the whole
    cube. *)
Lemma epoch_slice_first_epochs (c : cube) (i : nat) :
  i < n -> epoch_slice (first_epochs n c) i = epoch_slice c i.
Proof.
  intros Hi. unfold epoch_slice, first_epochs.
  induction c as [|row c IH]; [reflexivity|].
  rewrite fmap_cons. cbn [mapM]. rewrite IH. f_equal.
  clear IH. induction row as [|v row IH]; [reflexivity|].
  rewrite fmap_cons. cbn [mapM]. rewrite IH. f_equal.
  unfold getitem. rewrite lookup_take_lt by exact Hi. reflexivity.
Qed.

(** Writing an epoch below [n] commutes with taking the first [n]
    epochs. *)
Lemma set_epoch_slice_first_epochs (c c' : cube) (i : nat) (img : image) :
  i < n -> set_epoch_slice c i img = Ok c' ->
  set_epoch_slice (first_epochs n c) i img = Ok (first_epochs n c').
Proof.
  intros Hi. unfold set_epoch_slice.
  rewrite first_epochs_shape0, first_epochs_shape1.
  destruct (mapM (stretch (shape1 c)) img ≫= stretch (shape0 c))
    as [img'|e]; [|discriminate]. simpl.
  intros Hset%mapM_Ok. apply mapM_Ok. unfold first_epochs.
  revert img' c' Hset. induction c as [|row c IH]; intros img' c' Hset.
  - simpl in *. inversion Hset. constructor.
  - destruct img' as [|irow img'].
    + simpl in *. inversion Hset. constructor.
    + cbn [zip zip_with] in Hset.
      inversion Hset as [|? row' ? c'' Hrow Hrest]; subst.
      rewrite !fmap_cons. cbn [zip zip_with]. constructor.
      * simpl in *. apply mapM_Ok in Hrow. apply mapM_Ok. clear -Hrow Hi.
        revert irow row' Hrow.
        induction row as [|v row IH]; intros irow row' Hrow.
        -- simpl in *. inversion Hrow. constructor.
        -- destruct irow as [|x irow].
           ++ simpl in *. inversion Hrow. constructor.
           ++ cbn [zip zip_with] in Hrow.
              inversion Hrow as [|? v' ? row'' Hv Hrest]; subst.
              rewrite !fmap_cons. cbn [zip zip_with]. constructor.
              ** simpl in *. apply setitem_Ok in Hv as [Hlt ->].
                 apply setitem_Ok. rewrite length_take. split; [lia|].
                 apply take_insert_lt. exact Hi.
              ** apply IH. exact Hrest.
      * apply IH. exact Hrest.
Qed.

End FirstEpochs.

Lemma np_empty_first_epochs `{Collaborators} (rows cols n1 n2 : nat) :
  n1 <= n2 ->
  first_epochs n1 (np_empty rows cols n2) = np_empty rows cols n1.
Proof.
  intros Hn. unfold first_epochs, np_empty, range.
  rewrite <- list_fmap_compose. apply list_fmap_ext. intros _ r _. simpl.
  rewrite <- list_fmap_compose. apply list_fmap_ext. intros _ c _. simpl.
  rewrite <- fmap_take, take_seq. f_equal. f_equal. lia.
Qed.

Section AnyAssembler.
Context `{Collaborators} (assembler : tile_assembler) (w : World).

(** One call of line 189 for an epoch below [n], on a cube and on its first
    [n] epochs. *)
Lemma assemble_tile_by_first_epochs (n i k : nat) (t : Tile) (c c' : cube) :
  i < n -> assemble_tile_by assembler w i k t c = Ok c' ->
  assemble_tile_by assembler w i k t (first_epochs n c)
  = Ok (first_epochs n c').
Proof.
  intros Hi Hrun. unfold assemble_tile_by in *.
  rewrite epoch_slice_first_epochs by exact Hi.
  apply bind_Ok in Hrun as (dest & -> & Hrun). simpl.
  apply bind_Ok in Hrun as (dest' & -> & Hrun). simpl.
  apply set_epoch_slice_first_epochs; assumption.
Qed.

(** The assembly for a count [n2] begins with the assembly for every
    smaller count [n1], call by call: when the former returns a cube, so
    does the latter. *)
Lemma _assemble_tsincr_by_smaller_count (ifg_paths : list string)
    (params : Params) (preread_ifgs : list (string * PrereadIfg))
    (tiles : list Tile) (n1 n2 : nat) (c2 : cube) :
  n1 <= n2 ->
  _assemble_tsincr_by assembler ifg_paths params preread_ifgs tiles
                      (Some n2) w = Ok c2 ->
  exists c1,
    _assemble_tsincr_by assembler ifg_paths params preread_ifgs tiles
                        (Some n1) w = Ok c1.
Proof.
  intros Hn. unfold _assemble_tsincr_by.
  destruct (getitem ifg_paths 0) as [first|e]; [|discriminate]. simpl.
  destruct (dict_get preread_ifgs first) as [pre|e]; [|discriminate]. simpl.
  set (rows := (preread_shape pre).1). set (cols := (preread_shape pre).2).
  set (epoch := fun i => for_each (enumerate tiles)
         (fun nt => assemble_tile_by assembler w i nt.1 nt.2)).
  unfold range. replace n2 with (n1 + (n2 - n1)) at 1 by lia.
  rewrite seq_app, for_each_app. intros Hrun.
  apply bind_Ok in Hrun as (mid & Hfirst & _).
  exists (first_epochs n1 mid).
  rewrite <- (np_empty_first_epochs rows cols n1 n2 Hn).
  apply (for_each_simulation (first_epochs n1) epoch epoch); [|exact Hfirst].
  intros i s s' Hi%elem_of_seq Hstep. unfold epoch in *.
  apply (for_each_simulation (first_epochs n1)
           (fun nt => assemble_tile_by assembler w i nt.1 nt.2)
           (fun nt => assemble_tile_by assembler w i nt.1 nt.2));
    [|exact Hstep].
  intros nt t t' _ Htile. apply assemble_tile_by_first_epochs; [lia|].
  exact Htile.
Qed.

End AnyAssembler.

(** C8, as stated, fails in four ways.

    A tile result with more epochs than the broadcast count is not
    detected, whatever function of its arguments and of the files
    [_assemble_tiles] is: line 189 passes it the epoch index and never the
    count, so the calls made for a count [n1] are the first calls made for
    every larger count [n2], and when the assembly returns a cube for [n2]
    it returns one for [n1].  On the sample, the result of the only tile
    has two epochs; the assembly returns a cube for the count two, and for
    the count one, with which the tile disagrees.

    With a count of zero line 189 is never reached, whatever
    [_assemble_tiles] does: the assembly returns the empty cube.  On the
    sample it does so although the result of the tile is absent.

    When the result of one tile has no epoch and the result of the other
    is absent, the first tile read decides: ShapeMismatchError although a
    result is absent when the first tile is the one without epoch, and
    MissingScratchDataError although a result is too short when the first
    tile is the absent one. *)
Lemma assembly_ignores_the_broadcast_count :
  (forall (H : Collaborators) (assembler : tile_assembler)
          (ifg_paths : list string) (params : Params)
          (preread_ifgs : list (string * PrereadIfg)) (tiles : list Tile)
          (n1 n2 : nat) (w : World) (c2 : cube),
      n1 <= n2 ->
      _assemble_tsincr_by assembler ifg_paths params preread_ifgs tiles
                          (Some n2) w = Ok c2 ->
      exists c1,
        _assemble_tsincr_by assembler ifg_paths params preread_ifgs tiles
                            (Some n1) w = Ok c1)
  /\ (forall (H : Collaborators) (ifg_paths : list string) (params : Params)
             (preread_ifgs : list (string * PrereadIfg)) (tiles : list Tile)
             (nvels : option nat) (w : World),
        _assemble_tsincr_by _assemble_tiles ifg_paths params preread_ifgs
                            tiles nvels w
        = _assemble_tsincr ifg_paths params preread_ifgs tiles nvels w)
  /\ (tile_result sample_world_two_epochs
        {| index := 0; top_left_y := 0; bottom_right_y := 1;
           top_left_x := 0; bottom_right_x := 2 |}
      = Some [[[Fin 1; Fin 3]; [Fin 1; Fin 3]]]
      /\ shape2 [[[Fin 1; Fin 3]; [Fin 1; Fin 3]]] = 2
      /\ @_assemble_tsincr sample_collaborators sample_paths
           (sample_params 3 (Fin 1) 2) sample_preread sample_tiles (Some 2)
           sample_world_two_epochs = Ok [[[Fin 1; Fin 3]; [Fin 1; Fin 3]]]
      /\ @_assemble_tsincr sample_collaborators sample_paths
           (sample_params 3 (Fin 1) 2) sample_preread sample_tiles (Some 1)
           sample_world_two_epochs = Ok [[[Fin 1]; [Fin 1]]])
  /\ (forall (H : Collaborators) (assembler : tile_assembler)
             (ifg_paths : list string) (params : Params)
             (preread_ifgs : list (string * PrereadIfg)) (tiles : list Tile)
             (w : World) (first : string) (pre : PrereadIfg),
        ifg_paths !! 0 = Some first ->
        dict_get preread_ifgs first = Ok pre ->
        _assemble_tsincr_by assembler ifg_paths params preread_ifgs tiles
                            (Some 0) w
        = Ok (np_empty (preread_shape pre).1 (preread_shape pre).2 0))
  /\ (tile_result sample_world_run
        {| index := 0; top_left_y := 0; bottom_right_y := 1;
           top_left_x := 0; bottom_right_x := 2 |}
      = None
      /\ @_assemble_tsincr sample_collaborators sample_paths
           (sample_params 3 (Fin 1) 2) sample_preread sample_tiles (Some 0)
           sample_world_run = Ok [[[]; []]])
  /\ (tile_result (sample_world_no_epoch 0) <$> sample_two_tiles
      = [Some [[[]]]; None]
      /\ @_assemble_tsincr sample_collaborators sample_paths
           (sample_params 3 (Fin 1) 2) sample_preread sample_two_tiles
           (Some 1) (sample_world_no_epoch 0) = Raise ShapeMismatchError
      /\ tile_result (sample_world_no_epoch 1) <$> sample_two_tiles
         = [None; Some [[[]]]]
      /\ @_assemble_tsincr sample_collaborators sample_paths
           (sample_params 3 (Fin 1) 2) sample_preread sample_two_tiles
           (Some 1) (sample_world_no_epoch 1)
         = Raise MissingScratchDataError).
Proof.
  split_and!.
  - intros H assembler ifg_paths params preread_ifgs tiles n1 n2 w c2.
    apply _assemble_tsincr_by_smaller_count.
  - reflexivity.
  - reflexivity.
  - reflexivity.
  - vm_compute. reflexivity.
  - vm_compute. reflexivity.
  - intros H assembler ifg_paths params preread_ifgs tiles w first pre
      Hfirst Hpre.
    unfold _assemble_tsincr_by, getitem. rewrite Hfirst. simpl.
    rewrite Hpre. reflexivity.
  - reflexivity.
  - vm_compute. reflexivity.
  - reflexivity.
  - vm_compute. reflexivity.
  - reflexivity.
  - vm_compute. reflexivity.
Qed.
